(** * Email-sync webhook: a shallow embedding of [email-sync.js]

    The development follows the source file top to bottom:

    - module [Js]: the JavaScript string and number primitives the code
      calls ([trim], [toLowerCase], [includes], [parseInt], ...);
    - the records exchanged with the CRM store (deals, associations, emails,
      webhook events) and the requests the code sends;
    - the effect monad (world, trace, exceptions) and [hubspotRequest] with
      its retry loop;
    - the pure matching helpers ([isTargetStage], [cleanSearchValue],
      [extractStreetCore], [scoreMatch]);
    - the orchestration ([findMatch], [fallbackSingleContactDeal], [handler]);
    - module [RegExp], the regular expressions, and module [TextExtractor],
      the extractor ([parseEmail] and what it is made of);
    - the scorer and the batch as the specification words them
      ([spec_dealNameScore], [spec_addressScore], [spec_batch]), to compare
      the code with;
    - the properties proved of them.

    Strings are sequences of 8-bit code units read as Latin-1, the range in
    which [toLowerCase], [trim] and the regular-expression classes [\s], [\d]
    and [\w] are modelled exactly. *)

From Stdlib Require Import String Ascii List ZArith NArith Bool Lia Permutation.
From Stdlib Require Import DecimalString.
Import ListNotations.

Local Open Scope string_scope.
Local Open Scope list_scope.
Local Open Scope Z_scope.

(* ------------------------------------------------------------------ *)
(** ** JavaScript primitives *)
(* ------------------------------------------------------------------ *)

Module Js.

(** A JavaScript number as far as this program computes with one: an
    integer, or [NaN] (the result of [parseInt] on text without digits). *)
Inductive number : Type :=
| NaN
| Num (z : Z).

(** [x * k] for a finite integer constant [k]. *)
Definition times (x : number) (k : Z) : number :=
  match x with
  | NaN => NaN
  | Num z => Num (z * k)
  end.

Definition code (c : ascii) : N := N_of_ascii c.

Definition between (lo hi : N) (c : ascii) : bool :=
  ((lo <=? code c) && (code c <=? hi))%N.

(** [\d] *)
Definition isDigit (c : ascii) : bool := between 48 57 c.

(** [\w] = [[A-Za-z0-9_]] *)
Definition isWord (c : ascii) : bool :=
  between 65 90 c || between 97 122 c || isDigit c || (code c =? 95)%N.

(** [\s], which is also the set [String.prototype.trim] strips: TAB, LF,
    VT, FF, CR, SPACE and NO-BREAK SPACE. *)
Definition isSpace (c : ascii) : bool :=
  between 9 13 c || (code c =? 32)%N || (code c =? 160)%N.

(** One code unit of [String.prototype.toLowerCase]: [A-Z] and the
    Latin-1 capitals U+00C0..U+00DE (except the multiplication sign
    U+00D7) move up by 32. *)
Definition lowerChar (c : ascii) : ascii :=
  if between 65 90 c || (between 192 222 c && negb (code c =? 215)%N)
  then ascii_of_N (code c + 32)
  else c.

Fixpoint toLowerCase (s : string) : string :=
  match s with
  | EmptyString => EmptyString
  | String c s' => String (lowerChar c) (toLowerCase s')
  end.

Fixpoint dropWhile (p : ascii -> bool) (s : string) : string :=
  match s with
  | EmptyString => EmptyString
  | String c s' => if p c then dropWhile p s' else s
  end.

Fixpoint takeWhile (p : ascii -> bool) (s : string) : string :=
  match s with
  | EmptyString => EmptyString
  | String c s' => if p c then String c (takeWhile p s') else EmptyString
  end.

Definition reverse (s : string) : string :=
  string_of_list_ascii (rev (list_ascii_of_string s)).

Definition trimStart (s : string) : string := dropWhile isSpace s.
Definition trimEnd (s : string) : string :=
  reverse (dropWhile isSpace (reverse s)).
Definition trim (s : string) : string := trimEnd (trimStart s).

(** [s.split(sep)[0]] for a one-character separator. *)
Definition splitHead (sep : ascii) (s : string) : string :=
  takeWhile (fun c => negb (Ascii.eqb c sep)) s.

Definition LF : ascii := ascii_of_N 10.
Definition CR : ascii := ascii_of_N 13.

(** [s.startsWith(p)] *)
Fixpoint startsWith (s p : string) : bool :=
  match p, s with
  | EmptyString, _ => true
  | String _ _, EmptyString => false
  | String a p', String b s' => Ascii.eqb a b && startsWith s' p'
  end.

(** [s.includes(p)] *)
Fixpoint includes (s p : string) : bool :=
  startsWith s p ||
  match s with
  | EmptyString => false
  | String _ s' => includes s' p
  end.

(** [String(n)] and [`${n}`] for an integer [n]. *)
Definition showZ (z : Z) : string := NilZero.string_of_int (Z.to_int z).

(** Truthiness of a string-or-null value: [null], [undefined] and the
    empty string are falsy. *)
Definition truthy (o : option string) : bool :=
  match o with
  | None | Some EmptyString => false
  | Some _ => true
  end.

(** [o || d] for a string-or-undefined [o]. *)
Definition orElse (o : option string) (d : string) : string :=
  if truthy o then match o with Some s => s | None => d end else d.

(** *** [parseInt(s)] with no radix argument *)

Definition digitValue (radix : Z) (c : ascii) : option Z :=
  let n := Z.of_N (code c) in
  let v := if between 48 57 c then Some (n - 48)
           else if between 97 122 c then Some (n - 87)
           else if between 65 90 c then Some (n - 55)
           else None in
  match v with
  | Some d => if d <? radix then Some d else None
  | None => None
  end.

(** Reads the longest prefix of radix-[radix] digits; [acc] is [None]
    until the first digit has been read. *)
Fixpoint readDigits (radix : Z) (acc : option Z) (s : string) : option Z :=
  match s with
  | EmptyString => acc
  | String c s' =>
      match digitValue radix c with
      | Some d =>
          readDigits radix
            (Some (match acc with Some a => a * radix + d | None => d end)) s'
      | None => acc
      end
  end.

Definition parseInt (s : string) : number :=
  let s1 := trimStart s in
  let '(sign, s2) :=
    match s1 with
    | String c r =>
        if (code c =? 45)%N then (-1, r)
        else if (code c =? 43)%N then (1, r)
        else (1, s1)
    | EmptyString => (1, s1)
    end in
  let '(radix, s3) :=
    match s2 with
    | String z (String x r) =>
        if (code z =? 48)%N && ((code x =? 120)%N || (code x =? 88)%N)
        then (16, r) else (10, s2)
    | _ => (10, s2)
    end in
  match readDigits radix None s3 with
  | Some v => Num (sign * v)
  | None => NaN
  end.

End Js.

(* ------------------------------------------------------------------ *)
(** ** Records of the CRM store and the requests sent to it *)
(* ------------------------------------------------------------------ *)

(** A thrown [Error]; only its [message] is ever inspected. *)
Record JsError : Type := mkError { message : string }.

(** The result of an [await]: a value, or a rejection. *)
Inductive outcome (A : Type) : Type :=
| Ok (a : A)
| Throw (e : JsError).
Arguments Ok {A} a.
Arguments Throw {A} e.

(** [deal.properties]; a property the store leaves out reads [undefined]. *)
Record DealProps : Type := mkProps {
  dealname : option string;
  loan_number : option string;
  full_address : option string;
  dealstage : option string
}.

Record Deal : Type := mkDeal {
  deal_id : string;
  properties : DealProps
}.

(** One row of an association listing; identifiers are kept in the textual
    form in which the code splices them into request paths. *)
Record Assoc : Type := mkAssoc { toObjectId : string }.

(** [email.properties] of a fetched email. *)
Record EmailProps : Type := mkEmailProps {
  hs_email_subject : option string;
  hs_email_text : option string;
  hs_email_html : option string
}.

(** A decoded response body.  Each endpoint answers with one of these
    shapes; [data.results] of a body that is not a listing reads
    [undefined]. *)
Inductive Json : Type :=
| JEmpty                                   (* [{}] *)
| JMessage (msg : string)                  (* [{ message: msg, ... }] *)
| JDeals (results : list Deal)             (* [{ results: [deal, ...] }] *)
| JAssocs (results : list Assoc)           (* [{ results: [{toObjectId}, ...] }] *)
| JEmail (props : option EmailProps).      (* [{ id, properties }] *)

Definition json_message (j : Json) : option string :=
  match j with JMessage m => Some m | _ => None end.

(** [data.results || []] read as a list of deals. *)
Definition deal_results (j : Json) : list Deal :=
  match j with JDeals ds => ds | _ => [] end.

(** [data.results || []] read as a list of association rows. *)
Definition assoc_results (j : Json) : list Assoc :=
  match j with JAssocs l => l | _ => [] end.

Inductive SearchField : Type := F_dealname | F_full_address.

(** The (endpoint, options) pairs the code passes to [hubspotRequest], one
    constructor per caller. *)
Inductive Request : Type :=
| ReqGetEmail (emailId : string)
    (* GET /crm/v3/objects/emails/{emailId}?properties=... *)
| ReqSearchLoanNumber (loanNumber : string)
    (* POST /crm/v3/objects/deals/search, CONTAINS_TOKEN on loan_number,
       loan_number__servicer_ or loan_number__b_piece_servicer_ *)
| ReqSearchField (field : SearchField) (value : string)
    (* POST /crm/v3/objects/deals/search, CONTAINS_TOKEN on the one field *)
| ReqEmailContacts (emailId : string)
    (* GET /crm/v4/objects/emails/{emailId}/associations/contacts *)
| ReqContactDeals (contactId : string)
    (* GET /crm/v4/objects/contacts/{contactId}/associations/deals *)
| ReqBatchGetDeals (dealIds : list string)
    (* POST /crm/v3/objects/deals/batch/read *)
| ReqAssociate (emailId dealId : string).
    (* PUT /crm/v4/objects/emails/{emailId}/associations/deals/{dealId} *)

(** What [fetch] resolves to. [body] is what [response.json()] settles to. *)
Record Response : Type := mkResponse {
  status : Z;
  statusText : string;
  retry_after : option string;       (* [headers.get('retry-after')] *)
  body : outcome Json
}.

(** [response.ok] *)
Definition ok (r : Response) : bool := (200 <=? status r) && (status r <=? 299).

(** What the program does to the outside, in order. Console output is
    recorded for [console.error], the channel of the two catch handlers;
    informational [console.log] and [console.warn] lines are not traced. *)
Inductive Event : Type :=
| EvFetch (apiKey : string) (req : Request)
| EvSleep (ms : Js.number)
| EvError (line : string).

(** The outside world [fetch] talks to. *)
Class Net (World : Type) : Type := {
  fetch : string -> Request -> World -> outcome Response * World
}.

(** The identifier sets [parseEmail] returns. *)
Record Parsed : Type := mkParsed {
  loanNumbers : list string;
  addresses : list string;
  dealNames : list string
}.

(** The Text Extractor as the orchestration sees it: what is proved of
    the orchestration holds for whatever [Parsed] value it returns. Module
    [TextExtractor] further down is the extractor of the source, and
    [sourceExtractor] puts it behind the handler. *)
Class Extractor : Type := {
  parseEmail : string -> string -> Parsed
}.

Inductive MatchType : Type :=
| loan_number_match          (* ['loan_number'] *)
| deal_name                  (* ['deal_name'] *)
| address                    (* ['address'] *)
| single_contact_deal.       (* ['single_contact_deal'] *)

Record MatchResult : Type := mkMatch {
  deal : Deal;
  confidence : Z;
  matchType : MatchType
}.

Record Candidate : Type := mkCandidate {
  c_deal : Deal;
  c_matchType : MatchType;
  c_matchValue : string
}.

(** [{ ...c, score }] *)
Record Scored : Type := mkScored {
  s_cand : Candidate;
  score : Z
}.

(** [evt.objectId] arrives as a JSON number or string. *)
Inductive ObjectId : Type :=
| IdNum (n : Z)
| IdStr (s : string).

(** [String(evt.objectId)], also the form spliced into request paths. *)
Definition String_ (i : ObjectId) : string :=
  match i with
  | IdNum n => Js.showZ n
  | IdStr s => s
  end.

Record WebhookEvent : Type := mkEvent {
  objectTypeId : string;
  subscriptionType : string;
  propertyName : option string;
  objectId : ObjectId
}.

Record ResultEntry : Type := mkResult {
  r_emailId : ObjectId;
  r_dealId : string;
  r_dealName : option string;
  r_confidence : Z;
  r_matchType : MatchType
}.

(** The handler's response body before [JSON.stringify]. *)
Inductive ResponseBody : Type :=
| BodyText (s : string)
| BodyError (error : string)
| BodySuccess (processed : nat) (results : list ResultEntry).

Record HttpResponse : Type := mkHttp {
  statusCode : Z;
  http_body : ResponseBody
}.

(** The invocation: method, [process.env.HUBSPOT_API_KEY], and what
    [JSON.parse(event.body)] gives: a batch of events, or a thrown error. *)
Record Invocation : Type := mkInvocation {
  httpMethod : string;
  env_HUBSPOT_API_KEY : option string;
  parsed_body : outcome (list WebhookEvent)
}.

(* ------------------------------------------------------------------ *)
(** ** The effect monad: world, trace and exceptions *)
(* ------------------------------------------------------------------ *)

(** An [async] computation: from the world before to its outcome, the world
    after and the events it caused, oldest first. *)
Definition M (W A : Type) : Type := W -> outcome A * W * list Event.

Definition ret {W A} (a : A) : M W A := fun w => (Ok a, w, []).

Definition throw {W A} (e : JsError) : M W A := fun w => (Throw e, w, []).

Definition bind {W A B} (m : M W A) (k : A -> M W B) : M W B :=
  fun w =>
    match m w with
    | (Ok a, w1, t1) => let '(r, w2, t2) := k a w1 in (r, w2, t1 ++ t2)
    | (Throw e, w1, t1) => (Throw e, w1, t1)
    end.

(** [try { m } catch (error) { h error }] *)
Definition try_catch {W A} (m : M W A) (h : JsError -> M W A) : M W A :=
  fun w =>
    match m w with
    | (Ok a, w1, t1) => (Ok a, w1, t1)
    | (Throw e, w1, t1) => let '(r, w2, t2) := h e w1 in (r, w2, t1 ++ t2)
    end.

Declare Scope js_scope.
Delimit Scope js_scope with js.
Notation "x <- c1 ;; c2" := (bind c1 (fun x => c2))
  (at level 61, c1 at next level, right associativity) : js_scope.
Notation "c1 ;; c2" := (bind c1 (fun _ => c2))
  (at level 61, right associativity) : js_scope.
Local Open Scope js_scope.

Definition emit {W} (e : Event) : M W unit := fun w => (Ok tt, w, [e]).

(** [await sleep(ms)] *)
Definition sleep {W} (ms : Js.number) : M W unit := emit (EvSleep ms).

(** [console.error(line)] *)
Definition console_error {W} (line : string) : M W unit := emit (EvError line).

(** [await p] for an already settled promise. *)
Definition await {W A} (p : outcome A) : M W A := fun w => (p, w, []).

(** [await fetch(url, { ...options, headers })] *)
Definition do_fetch {W} `{Net W} (apiKey : string) (req : Request) : M W Response :=
  fun w => let '(o, w1) := fetch apiKey req w in (o, w1, [EvFetch apiKey req]).

(** How one pass through a loop body ends. *)
Inductive LoopCtl (A : Type) : Type :=
| Continue
| Return (a : A).
Arguments Continue {A}.
Arguments Return {A} a.

(* ------------------------------------------------------------------ *)
(** ** [hubspotRequest]: the repository client *)
(* ------------------------------------------------------------------ *)

(** [retryAfter ? parseInt(retryAfter) * 1000 : (attempt + 1) * 1000] *)
Definition retryDelay (response : Response) (attempt : nat) : Js.number :=
  match retry_after response with
  | Some (String c s) => Js.times (Js.parseInt (String c s)) 1000
  | Some EmptyString | None => Js.Num ((Z.of_nat attempt + 1) * 1000)
  end.

(** The error of the [!response.ok] branch. *)
Definition apiError (response : Response) : JsError :=
  let error := match body response with Ok j => j | Throw _ => JEmpty end in
  mkError ("HubSpot API Error (" ++ Js.showZ (status response) ++ "): "
           ++ Js.orElse (json_message error) (statusText response)).

Section Client.
Context {W : Type} {net : Net W}.

(** One iteration of the [for] loop: the [try] block and its [catch]. *)
Definition attemptOnce (apiKey : string) (req : Request) (retries attempt : nat)
  : M W (LoopCtl Json) :=
  try_catch
    (response <- do_fetch apiKey req ;;
     if (status response =? 429) && (attempt <? retries)%nat then
       sleep (retryDelay response attempt) ;;
       ret Continue
     else if negb (ok response) then
       throw (apiError response)
     else if status response =? 204 then
       ret (Return JEmpty)
     else
       data <- await (body response) ;;
       ret (Return data))
    (fun error =>
       if (attempt <? retries)%nat && Js.includes (message error) "secondly limit"
       then
         sleep (Js.Num ((Z.of_nat attempt + 1) * 1000)) ;;
         ret Continue
       else throw error).

(** [for (attempt of attempts) { ... }]; [fallOut] is what happens when
    the loop runs out of attempts without returning. *)
Fixpoint forAttempts (apiKey : string) (req : Request) (retries : nat)
    (fallOut : M W Json) (attempts : list nat) : M W Json :=
  match attempts with
  | [] => fallOut
  | attempt :: rest =>
      ctl <- attemptOnce apiKey req retries attempt ;;
      match ctl with
      | Return data => ret data
      | Continue => forAttempts apiKey req retries fallOut rest
      end
  end.

(** [for (let attempt = 0; attempt <= retries; attempt++)]. The last
    attempt never continues, so the value given for falling out of the
    loop is never produced (lemma [hubspotRequest_fallOut_irrelevant]). *)
Definition hubspotRequest (apiKey : string) (req : Request) (retries : nat)
  : M W Json :=
  forAttempts apiKey req retries (ret JEmpty) (seq 0 (S retries)).

(** Every caller leaves [retries] at its default. *)
Definition default_retries : nat := 3.

Definition getEmail (apiKey emailId : string) : M W Json :=
  hubspotRequest apiKey (ReqGetEmail emailId) default_retries.

Definition searchDealsByLoanNumber (apiKey loanNumber : string) : M W (list Deal) :=
  data <- hubspotRequest apiKey (ReqSearchLoanNumber loanNumber) default_retries ;;
  ret (deal_results data).

Definition searchDealsByField (apiKey : string) (fieldName : SearchField)
    (value : string) : M W (list Deal) :=
  data <- hubspotRequest apiKey (ReqSearchField fieldName value) default_retries ;;
  ret (deal_results data).

Definition getEmailContactAssociations (apiKey emailId : string) : M W (list Assoc) :=
  try_catch
    (data <- hubspotRequest apiKey (ReqEmailContacts emailId) default_retries ;;
     ret (assoc_results data))
    (fun error =>
       if Js.includes (message error) "404" then ret [] else throw error).

Definition getContactDealAssociations (apiKey contactId : string) : M W (list Assoc) :=
  try_catch
    (data <- hubspotRequest apiKey (ReqContactDeals contactId) default_retries ;;
     ret (assoc_results data))
    (fun error =>
       if Js.includes (message error) "404" then ret [] else throw error).

Definition batchGetDeals (apiKey : string) (dealIds : list string) : M W (list Deal) :=
  data <- hubspotRequest apiKey (ReqBatchGetDeals dealIds) default_retries ;;
  ret (deal_results data).

Definition associateEmailToDeal (apiKey emailId dealId : string) : M W Json :=
  hubspotRequest apiKey (ReqAssociate emailId dealId) default_retries.

End Client.

(* ------------------------------------------------------------------ *)
(** ** Deal matching: the pure helpers *)
(* ------------------------------------------------------------------ *)

(** [Object.values(TARGET_STAGES)] *)
Definition TARGET_STAGE_VALUES : list string :=
  [ "presentationscheduled"; "closedwon"; "4447566"; "4447567"; "1085330955";
    "1067972413"; "1067972416"; "1269293461"; "1015819060"; "1015819061";
    "1018320194"; "1018320195"; "1015819063"; "1018320196"; "1018320197" ].

Definition CONFIDENCE_THRESHOLD : Z := 65.

(** [TARGET_STAGE_VALUES.has(deal.properties.dealstage)] *)
Definition isTargetStage (d : Deal) : bool :=
  match dealstage (properties d) with
  | Some stage => existsb (String.eqb stage) TARGET_STAGE_VALUES
  | None => false
  end.

(** [s.replace(/\s+/g, ' ')]; [inRun] says the previous character was
    white space. *)
Fixpoint collapseSpaces (inRun : bool) (s : string) : string :=
  match s with
  | EmptyString => EmptyString
  | String c s' =>
      if Js.isSpace c
      then if inRun then collapseSpaces true s'
           else String " " (collapseSpaces true s')
      else String c (collapseSpaces false s')
  end.

Definition isDot (c : ascii) : bool := Ascii.eqb c ".".

(** [s.replace(/[.]+$/, '')] *)
Definition stripTrailingDots (s : string) : string :=
  Js.reverse (Js.dropWhile isDot (Js.reverse s)).

Definition cleanSearchValue (value : string) : string :=
  match value with
  | EmptyString => ""
  | _ =>
      Js.trim (stripTrailingDots (collapseSpaces false
        (Js.splitHead Js.CR (Js.splitHead Js.LF value))))
  end.

(** The street suffixes of [extractStreetCore]'s pattern, lower-cased (the
    pattern carries the [i] flag). *)
Definition STREET_SUFFIXES : list string :=
  [ "st"; "street"; "ave"; "avenue"; "rd"; "road"; "dr"; "drive"; "ln"; "lane";
    "blvd"; "boulevard"; "ct"; "court"; "way"; "pl"; "place"; "cir"; "circle";
    "pkwy"; "ter"; "terrace"; "trl"; "hwy" ].

Definition notSpace (c : ascii) : bool := negb (Js.isSpace c).

(** [s.replace(/\s+(?:St(?:reet)?|...|Hwy)\.?\s*$/i, '')]. Read from the end
    of the string: optional white space, an optional dot, the last word,
    which has to be one of the suffixes, and the white space run before it,
    which has to be non-empty; the match is cut off. *)
Definition stripStreetSuffix (s : string) : string :=
  let r1 := Js.dropWhile Js.isSpace (Js.reverse s) in
  let r2 := match r1 with
            | String c r => if isDot c then r else r1
            | EmptyString => r1
            end in
  let word := Js.toLowerCase (Js.reverse (Js.takeWhile notSpace r2)) in
  let before := Js.dropWhile notSpace r2 in
  match before with
  | String _ _ =>
      if existsb (String.eqb word) STREET_SUFFIXES
      then Js.reverse (Js.dropWhile Js.isSpace before)
      else s
  | EmptyString => s
  end.

(** [/^\d+\s+\w+/.test(s)] *)
Definition startsWithNumberAndWord (s : string) : bool :=
  match s with
  | String c _ =>
      Js.isDigit c &&
      match Js.dropWhile Js.isDigit s with
      | String sp r =>
          Js.isSpace sp &&
          match Js.dropWhile Js.isSpace r with
          | String w _ => Js.isWord w
          | EmptyString => false
          end
      | EmptyString => false
      end
  | EmptyString => false
  end.

Definition extractStreetCore (address : string) : string :=
  let beforeComma := Js.trim (Js.splitHead "," address) in
  let withoutSuffix := Js.trim (stripStreetSuffix beforeComma) in
  if startsWithNumberAndWord withoutSuffix then withoutSuffix else beforeComma.

(** [s.match(/^(\d+)/)]: the leading run of digits, when there is one. *)
Definition leadingDigits (s : string) : option string :=
  match Js.takeWhile Js.isDigit s with
  | EmptyString => None
  | ds => Some ds
  end.

(** [xs.some(x => field.toLowerCase().includes(x.toLowerCase()))] *)
Definition someIncluded (field : string) (xs : list string) : bool :=
  existsb (fun x => Js.includes (Js.toLowerCase field) (Js.toLowerCase x)) xs.

Definition scoreMatch (matchType : MatchType) (matchValue : string)
    (d : Deal) (parsed : Parsed) : Z :=
  let cleanMatch := Js.toLowerCase (Js.trim (Js.splitHead Js.LF matchValue)) in
  let score :=
    match matchType with
    | loan_number_match => 100
    | deal_name =>
        let dealName := Js.toLowerCase (Js.orElse (dealname (properties d)) "") in
        if String.eqb dealName cleanMatch then 95
        else if Js.includes dealName cleanMatch then 90
        else 85
    | address =>
        let fullAddress := Js.toLowerCase (Js.orElse (full_address (properties d)) "") in
        let dealName := Js.toLowerCase (Js.orElse (dealname (properties d)) "") in
        let score1 :=
          match leadingDigits cleanMatch with
          | Some streetNum =>
              if Js.includes fullAddress streetNum || Js.includes dealName streetNum
              then 80 + 5 else 80
          | None => 80
          end in
        if (25 <? String.length cleanMatch)%nat then score1 + 5 else score1
    | single_contact_deal => 0
    end in
  let loanNumber := Js.orElse (loan_number (properties d)) "" in
  let dealName := Js.orElse (dealname (properties d)) "" in
  let fullAddress := Js.orElse (full_address (properties d)) "" in
  let matchCount :=
    (if someIncluded loanNumber (loanNumbers parsed) then 1 else 0)
    + (if someIncluded dealName (dealNames parsed) then 1 else 0)
    + (if someIncluded fullAddress (addresses parsed) then 1 else 0) in
  let score := if 1 <? matchCount then score + (matchCount - 1) * 10 else score in
  Z.min score 100.

(** [xs.sort((a, b) => b.score - a.score)]: the sort is stable, so the
    outcome is that of inserting each element, last first, in front of the
    first element that does not score higher. *)
Fixpoint insertByScore (x : Scored) (l : list Scored) : list Scored :=
  match l with
  | [] => [x]
  | y :: l' => if score y <=? score x then x :: l else y :: insertByScore x l'
  end.

Definition sortByScore (l : list Scored) : list Scored :=
  fold_right insertByScore [] l.

(* ------------------------------------------------------------------ *)
(** ** Main matching logic *)
(* ------------------------------------------------------------------ *)

Section Matching.
Context {W : Type} {net : Net W}.

(** Channel 1: [for (const ln of parsed.loanNumbers)]. *)
Fixpoint loanNumberChannel (apiKey : string) (lns : list string)
  : M W (option MatchResult) :=
  match lns with
  | [] => ret None
  | ln :: rest =>
      deals <- searchDealsByLoanNumber apiKey ln ;;
      match filter isTargetStage deals with
      | d :: _ => ret (Some (mkMatch d 100 loan_number_match))
      | [] => loanNumberChannel apiKey rest
      end
  end.

(** Channel 2: [for (const name of parsed.dealNames)]; [candidates] is the
    array being pushed to. *)
Fixpoint dealNameChannel (apiKey : string) (names : list string)
    (candidates : list Candidate) : M W (list Candidate) :=
  match names with
  | [] => ret candidates
  | name :: rest =>
      let cleanName := cleanSearchValue name in
      if (String.length cleanName <? 3)%nat then
        dealNameChannel apiKey rest candidates
      else
        sleep (Js.Num 150) ;;
        deals <- searchDealsByField apiKey F_dealname cleanName ;;
        deals <- match deals with
                 | [] => searchDealsByField apiKey F_full_address cleanName
                 | _ => ret deals
                 end ;;
        dealNameChannel apiKey rest
          (candidates ++ map (fun d => mkCandidate d deal_name cleanName) deals)
  end.

(** Channel 3: [for (const addr of parsed.addresses)]. *)
Fixpoint addressChannel (apiKey : string) (addrs : list string)
    (candidates : list Candidate) : M W (list Candidate) :=
  match addrs with
  | [] => ret candidates
  | addr :: rest =>
      let cleanAddr := cleanSearchValue addr in
      if (String.length cleanAddr <? 5)%nat then
        addressChannel apiKey rest candidates
      else
        let streetPart := extractStreetCore cleanAddr in
        let value := match streetPart with
                     | EmptyString => cleanAddr
                     | _ => streetPart
                     end in
        sleep (Js.Num 150) ;;
        deals <- searchDealsByField apiKey F_full_address value ;;
        deals <- match deals with
                 | [] => searchDealsByField apiKey F_dealname value
                 | _ => ret deals
                 end ;;
        addressChannel apiKey rest
          (candidates ++ map (fun d => mkCandidate d address addr) deals)
  end.

(** Score and pick best. *)
Definition pickBest (candidates : list Candidate) (parsed : Parsed)
  : option MatchResult :=
  let scored :=
    sortByScore
      (map (fun c => mkScored c
                       (scoreMatch (c_matchType c) (c_matchValue c) (c_deal c) parsed))
           (filter (fun c => isTargetStage (c_deal c)) candidates)) in
  match scored with
  | best :: _ =>
      if CONFIDENCE_THRESHOLD <=? score best
      then Some (mkMatch (c_deal (s_cand best)) (score best)
                         (c_matchType (s_cand best)))
      else None
  | [] => None
  end.

Definition findMatch (apiKey : string) (parsed : Parsed)
  : M W (option MatchResult) :=
  byLoan <- loanNumberChannel apiKey (loanNumbers parsed) ;;
  match byLoan with
  | Some m => ret (Some m)
  | None =>
      candidates <- dealNameChannel apiKey (dealNames parsed) [] ;;
      candidates <- addressChannel apiKey (addresses parsed) candidates ;;
      ret (pickBest candidates parsed)
  end.

(** The [for (const assoc of contactAssocs)] loop of the fallback. *)
Fixpoint fallbackContacts (apiKey : string) (contactAssocs : list Assoc)
  : M W (option MatchResult) :=
  match contactAssocs with
  | [] => ret None
  | assoc :: rest =>
      let contactId := toObjectId assoc in
      dealAssocs <- getContactDealAssociations apiKey contactId ;;
      match dealAssocs with
      | [only] =>
          deals <- batchGetDeals apiKey [toObjectId only] ;;
          match deals with
          | [d] => ret (Some (mkMatch d 100 single_contact_deal))
          | _ => fallbackContacts apiKey rest
          end
      | _ => fallbackContacts apiKey rest
      end
  end.

(** Fallback: if the email's contact has exactly one deal, use it. *)
Definition fallbackSingleContactDeal (apiKey emailId : string)
  : M W (option MatchResult) :=
  try_catch
    (contactAssocs <- getEmailContactAssociations apiKey emailId ;;
     fallbackContacts apiKey contactAssocs)
    (fun error =>
       console_error ("Fallback error: " ++ message error) ;;
       ret None).

End Matching.

(* ------------------------------------------------------------------ *)
(** ** Main handler *)
(* ------------------------------------------------------------------ *)

(** The predicate of [events.filter], without the [seen] bookkeeping: an
    email event that is not a change of another property. *)
Definition relevantEvent (evt : WebhookEvent) : bool :=
  if negb (String.eqb (objectTypeId evt) "0-49") then false
  else if String.eqb (subscriptionType evt) "object.propertyChange"
          && negb (match propertyName evt with
                   | Some p => String.eqb p "hs_email_direction"
                   | None => false
                   end)
  then false
  else true.

(** [events.filter(evt => ...)] with the [seen] set threaded through. *)
Fixpoint filterEvents (seen : list string) (events : list WebhookEvent)
  : list WebhookEvent :=
  match events with
  | [] => []
  | evt :: rest =>
      if negb (relevantEvent evt) then filterEvents seen rest
      else
        let key := String_ (objectId evt) in
        if existsb (String.eqb key) seen then filterEvents seen rest
        else evt :: filterEvents (key :: seen) rest
  end.

Definition uniqueEvents (events : list WebhookEvent) : list WebhookEvent :=
  filterEvents [] events.

Section Handler.
Context {W : Type} {net : Net W} {extractor : Extractor}.

(** The per-email [try] block up to the fallback: fetch the email, parse
    it, try content-based matching, then the single-contact fallback. *)
Definition matchEmail (apiKey : string) (evt : WebhookEvent)
  : M W (option MatchResult) :=
  let emailId := objectId evt in
  email <- getEmail apiKey (String_ emailId) ;;
  props <- match email with
           | JEmail (Some p) => ret p
           | _ => throw (mkError
               "Cannot read properties of undefined (reading 'hs_email_subject')")
           end ;;
  let subject := Js.orElse (hs_email_subject props) "" in
  let body := Js.orElse (hs_email_text props) (Js.orElse (hs_email_html props) "") in
  let parsed := parseEmail subject body in
  found <- findMatch apiKey parsed ;;
  match found with
  | Some m => ret (Some m)
  | None => fallbackSingleContactDeal apiKey (String_ emailId)
  end.

(** The rest of the [try] block: [if (match) { associate; push } else
    { log }], then the throttle. *)
Definition commitMatch (apiKey : string) (evt : WebhookEvent)
    (found : option MatchResult) : M W (option ResultEntry) :=
  let emailId := objectId evt in
  match found with
  | Some m =>
      associateEmailToDeal apiKey (String_ emailId) (deal_id (deal m)) ;;
      sleep (Js.Num 200) ;;
      ret (Some (mkResult emailId (deal_id (deal m))
                   (dealname (properties (deal m))) (confidence m) (matchType m)))
  | None =>
      sleep (Js.Num 200) ;;
      ret None
  end.

(** The body of the per-email [try] block. *)
Definition processEmail (apiKey : string) (evt : WebhookEvent)
  : M W (option ResultEntry) :=
  found <- matchEmail apiKey evt ;;
  commitMatch apiKey evt found.

(** One pass of [for (const evt of uniqueEvents)]: the [try] block with
    its [catch]. *)
Definition processEvent (apiKey : string) (evt : WebhookEvent)
  : M W (option ResultEntry) :=
  try_catch (processEmail apiKey evt)
    (fun error =>
       console_error ("Error processing email " ++ String_ (objectId evt)
                      ++ ": " ++ message error) ;;
       ret None).

Fixpoint processEvents (apiKey : string) (evts : list WebhookEvent)
    (results : list ResultEntry) : M W (list ResultEntry) :=
  match evts with
  | [] => ret results
  | evt :: rest =>
      r <- processEvent apiKey evt ;;
      processEvents apiKey rest
        (match r with Some entry => results ++ [entry] | None => results end)
  end.

Definition handler (event : Invocation) : M W HttpResponse :=
  if String.eqb (httpMethod event) "GET" then
    ret (mkHttp 200 (BodyText "Email sync webhook active"))
  else if String.eqb (httpMethod event) "POST" then
    try_catch
      (match env_HUBSPOT_API_KEY event with
       | Some (String c k) =>
           let apiKey := String c k in
           events <- await (parsed_body event) ;;
           results <- processEvents apiKey (uniqueEvents events) [] ;;
           ret (mkHttp 200 (BodySuccess (length results) results))
       | Some EmptyString | None =>
           ret (mkHttp 500 (BodyError "HUBSPOT_API_KEY not configured"))
       end)
      (fun error =>
         console_error ("Error processing webhook: " ++ message error) ;;
         ret (mkHttp 500 (BodyError (message error))))
  else
    ret (mkHttp 405 (BodyText "Method not allowed")).

End Handler.

(* ------------------------------------------------------------------ *)
(** ** Vocabulary of the statements *)
(* ------------------------------------------------------------------ *)

(** A search issued by the deal-name or the address channel. *)
Definition isFieldSearch (e : Event) : bool :=
  match e with
  | EvFetch _ (ReqSearchField _ _) => true
  | _ => false
  end.

Definition isFetch (e : Event) : bool :=
  match e with EvFetch _ _ => true | _ => false end.

(** The number of requests put on the wire. *)
Definition attemptsIn (tr : list Event) : nat := length (filter isFetch tr).

(** The delays waited, in order. *)
Fixpoint sleepsIn (tr : list Event) : list Js.number :=
  match tr with
  | [] => []
  | EvSleep ms :: tr' => ms :: sleepsIn tr'
  | _ :: tr' => sleepsIn tr'
  end.

(** The trace of [rs] rate-limited attempts numbered from [attempt], each
    followed by its wait. *)
Fixpoint retryTrace (apiKey : string) (req : Request) (attempt : nat)
    (rs : list Response) : list Event :=
  match rs with
  | [] => []
  | r :: rs' =>
      EvFetch apiKey req :: EvSleep (retryDelay r attempt)
        :: retryTrace apiKey req (S attempt) rs'
  end.

(** Sequencing of two runs: the second starts in the world the first left
    and the traces are joined. *)
Definition andThen {W A} (t1 : list Event) (run : outcome A * W * list Event)
  : outcome A * W * list Event :=
  let '(r, w, t2) := run in (r, w, t1 ++ t2).

(** An association write. *)
Definition isAssociate (e : Event) : bool :=
  match e with
  | EvFetch _ (ReqAssociate _ _) => true
  | _ => false
  end.

(** What a call of [hubspotRequest apiKey req] may cause: attempts at
    [req], and waits. *)
Definition clientEvent (apiKey : string) (req : Request) (e : Event) : Prop :=
  e = EvFetch apiKey req \/ exists ms, e = EvSleep ms.

(** Every event a computation causes, in whatever world, satisfies [P]. *)
Definition emits {W A} (P : Event -> Prop) (m : M W A) : Prop :=
  forall w r w' tr, m w = (r, w', tr) -> Forall P tr.

(** The acceptance rule of the data model: at or above the threshold, or a
    loan-number or fallback result at 100. *)
Definition acceptable (m : MatchResult) : Prop :=
  CONFIDENCE_THRESHOLD <= confidence m
  \/ ((matchType m = loan_number_match \/ matchType m = single_contact_deal)
      /\ confidence m = 100).

Section Vocabulary.
Context {W : Type} {net : Net W}.

(** [rateLimited apiKey req w rs w']: from [w], the next [length rs]
    fetches of [req] answer [rs], every one with status 429, and leave
    [w']. *)
Inductive rateLimited (apiKey : string) (req : Request)
  : W -> list Response -> W -> Prop :=
| rl_done w : rateLimited apiKey req w [] w
| rl_next w r w1 rs w2 :
    fetch apiKey req w = (Ok r, w1) ->
    status r = 429 ->
    rateLimited apiKey req w1 rs w2 ->
    rateLimited apiKey req w (r :: rs) w2.

(** The searches for the loan numbers [lns], made in order from [w], all
    succeed and none returns a deal in an allowed stage. *)
Inductive NoLoanMatch (apiKey : string) : list string -> W -> W -> list Event -> Prop :=
| no_loan_nil w : NoLoanMatch apiKey [] w w []
| no_loan_cons ln lns deals w w1 t1 w2 t2 :
    searchDealsByLoanNumber apiKey ln w = (Ok deals, w1, t1) ->
    filter isTargetStage deals = [] ->
    NoLoanMatch apiKey lns w1 w2 t2 ->
    NoLoanMatch apiKey (ln :: lns) w w2 (t1 ++ t2).

(** The contact has exactly one associated deal and reading it returns
    exactly one record, [d]. *)
Inductive Qualifies (apiKey : string) (c : Assoc) (w : W)
  : Deal -> W -> list Event -> Prop :=
| qualifies a d w1 t1 w2 t2 :
    getContactDealAssociations apiKey (toObjectId c) w = (Ok [a], w1, t1) ->
    batchGetDeals apiKey [toObjectId a] w1 = (Ok [d], w2, t2) ->
    Qualifies apiKey c w d w2 (t1 ++ t2).

(** The contact is passed over: it has zero or several associated deals,
    or one whose read does not return exactly one record. *)
Inductive Skipped (apiKey : string) (c : Assoc) (w : W)
  : W -> list Event -> Prop :=
| skipped_count das w1 t1 :
    getContactDealAssociations apiKey (toObjectId c) w = (Ok das, w1, t1) ->
    length das <> 1%nat ->
    Skipped apiKey c w w1 t1
| skipped_read a deals w1 t1 w2 t2 :
    getContactDealAssociations apiKey (toObjectId c) w = (Ok [a], w1, t1) ->
    batchGetDeals apiKey [toObjectId a] w1 = (Ok deals, w2, t2) ->
    length deals <> 1%nat ->
    Skipped apiKey c w w2 (t1 ++ t2).

Inductive AllSkipped (apiKey : string) : list Assoc -> W -> W -> list Event -> Prop :=
| all_skipped_nil w : AllSkipped apiKey [] w w []
| all_skipped_cons c cs w w1 t1 w2 t2 :
    Skipped apiKey c w w1 t1 ->
    AllSkipped apiKey cs w1 w2 t2 ->
    AllSkipped apiKey (c :: cs) w w2 (t1 ++ t2).

End Vocabulary.

Section BatchVocabulary.
Context {W : Type} {net : Net W} {extractor : Extractor}.

(** [BatchRun apiKey evts w results w' tr]: the emails of [evts] are
    processed one after the other, each from the world the one before
    left. An email that is matched and associated contributes its entry to
    [results]; an email without a match contributes nothing; an email
    whose processing raises contributes nothing but the logged error, and
    the emails after it are processed all the same. *)
Inductive BatchRun (apiKey : string)
  : list WebhookEvent -> W -> list ResultEntry -> W -> list Event -> Prop :=
| batch_done w : BatchRun apiKey [] w [] w []
| batch_matched evt rest entry results w w1 t1 w2 t2 :
    processEmail apiKey evt w = (Ok (Some entry), w1, t1) ->
    BatchRun apiKey rest w1 results w2 t2 ->
    BatchRun apiKey (evt :: rest) w (entry :: results) w2 (t1 ++ t2)
| batch_unmatched evt rest results w w1 t1 w2 t2 :
    processEmail apiKey evt w = (Ok None, w1, t1) ->
    BatchRun apiKey rest w1 results w2 t2 ->
    BatchRun apiKey (evt :: rest) w results w2 (t1 ++ t2)
| batch_failed evt rest results e w w1 t1 w2 t2 :
    processEmail apiKey evt w = (Throw e, w1, t1) ->
    BatchRun apiKey rest w1 results w2 t2 ->
    BatchRun apiKey (evt :: rest) w results w2
      (t1 ++ EvError ("Error processing email " ++ String_ (objectId evt)
                      ++ ": " ++ message e) :: t2).

End BatchVocabulary.

(* ------------------------------------------------------------------ *)
(** ** Test doubles for [fetch] *)
(* ------------------------------------------------------------------ *)

(** A scripted double: each call, whatever it asks, takes the next
    prepared answer; with none left the connection fails. *)
Record Script : Type := mkScript { pending : list (outcome Response) }.

#[export] Instance ScriptNet : Net Script := {
  fetch _ _ w :=
    match pending w with
    | o :: rest => (o, mkScript rest)
    | [] => (Throw (mkError "socket hang up"), w)
    end
}.

(** A store that answers each request the same way every time. *)
Record Store : Type := mkStore { answer : Request -> outcome Response }.

#[export] Instance StoreNet : Net Store := {
  fetch _ req w := (answer w req, w)
}.

Definition okResponse (j : Json) : outcome Response :=
  Ok (mkResponse 200 "OK" None (Ok j)).

Definition errorResponse (code : Z) (text msg : string) : outcome Response :=
  Ok (mkResponse code text None (Ok (JMessage msg))).

Definition rateLimitResponse (hint : option string) : Response :=
  mkResponse 429 "Too Many Requests" hint (Ok (JMessage "You have reached your secondly limit.")).

(** An extractor for examples: the whole subject is the one loan number. *)
Definition subjectIsLoanNumber : Extractor := {|
  parseEmail subject _ := mkParsed [subject] [] []
|}.

(** Four rate-limit answers in a row: a hint of two seconds, no hint, an
    empty hint, and a last one. *)
Definition alwaysLimited : Script :=
  mkScript [ Ok (rateLimitResponse (Some "2")); Ok (rateLimitResponse None);
             Ok (rateLimitResponse (Some "")); Ok (rateLimitResponse None) ].

(** A server error that names the secondly limit, then a success. *)
Definition secondlyLimit500 : Response :=
  mkResponse 500 "Internal Server Error" None
    (Ok (JMessage "You have reached your secondly limit.")).

Definition limitedThenFine : Script :=
  mkScript [ Ok secondlyLimit500; okResponse (JDeals []) ].

(** One rate-limit answer, then a plain failure. *)
Definition limitedThenBad : Script :=
  mkScript [ Ok (rateLimitResponse None);
             errorResponse 400 "Bad Request" "Invalid input JSON" ].

(** An email event announcing a deletion, a subscription type that is
    neither a creation nor a property change. *)
Definition deletionEvent : WebhookEvent :=
  mkEvent "0-49" "object.deletion" None (IdNum 42).

(** A batch of three events, the first and the last for the same email. *)
Definition batchOfThree : list WebhookEvent :=
  [ mkEvent "0-49" "object.creation" None (IdNum 7);
    mkEvent "0-49" "object.propertyChange" (Some "hs_email_direction") (IdNum 8);
    mkEvent "0-49" "object.propertyChange" (Some "hs_email_direction") (IdStr "7") ].

(** *** A small store *)

Definition fundedLoan : Deal :=
  mkDeal "9001" (mkProps (Some "168 Las Palmas") (Some "399536679")
                   (Some "168 Las Palmas Dr, Miami, FL") (Some "closedwon")).

Definition lostLoan : Deal :=
  mkDeal "9002" (mkProps (Some "21 Valley Rd") (Some "399558497")
                   (Some "21 Valley Rd, Austin, TX") (Some "closedlost")).

(** The only deal of contact 202 and of contact 212; its stage is not an
    allowed one. *)
Definition soleDeal : Deal :=
  mkDeal "303" (mkProps (Some "708 Pallister") None
                  (Some "708 Pallister, Detroit, MI") (Some "closedlost")).

Definition assocs (ids : list string) : outcome Response :=
  okResponse (JAssocs (map mkAssoc ids)).

Definition emailWithSubject (subject : string) : outcome Response :=
  okResponse (JEmail (Some (mkEmailProps (Some subject) (Some "see attached") None))).

(** Email 101 names loan 399536679; email 103 cannot be read; the other
    emails name nothing the store knows. Email 102 has contacts 201 (two
    deals), 202 (deal 303) and 203; email 104 has contacts 211 (whose lookup
    fails with a server error) and 212 (deal 303); email 105 has contacts
    221 (whose lookup answers 404) and 212; email 106 has contact 231, whose
    only deal 399 cannot be read. *)
Definition demoAnswer (req : Request) : outcome Response :=
  match req with
  | ReqGetEmail id =>
      if String.eqb id "101" then emailWithSubject "399536679"
      else if String.eqb id "103"
      then errorResponse 500 "Internal Server Error" "internal error"
      else emailWithSubject "unknown"
  | ReqSearchLoanNumber ln =>
      if String.eqb ln "399536679" then okResponse (JDeals [lostLoan; fundedLoan])
      else okResponse (JDeals [])
  | ReqSearchField F_dealname v =>
      if String.eqb v "21 Valley Rd" then okResponse (JDeals [lostLoan])
      else if String.eqb v "168 Las Palmas" then okResponse (JDeals [fundedLoan])
      else okResponse (JDeals [])
  | ReqSearchField F_full_address _ => okResponse (JDeals [])
  | ReqEmailContacts id =>
      if String.eqb id "102" then assocs ["201"; "202"; "203"]
      else if String.eqb id "104" then assocs ["211"; "212"]
      else if String.eqb id "105" then assocs ["221"; "212"]
      else if String.eqb id "106" then assocs ["231"]
      else assocs []
  | ReqContactDeals id =>
      if String.eqb id "201" then assocs ["301"; "302"]
      else if String.eqb id "202" then assocs ["303"]
      else if String.eqb id "212" then assocs ["303"]
      else if String.eqb id "211"
      then errorResponse 500 "Internal Server Error" "internal error"
      else if String.eqb id "221"
      then errorResponse 404 "Not Found" "resource not found"
      else if String.eqb id "231" then assocs ["399"]
      else assocs []
  | ReqBatchGetDeals ids =>
      match ids with
      | [id] => if String.eqb id "303" then okResponse (JDeals [soleDeal])
                else okResponse (JDeals [])
      | _ => okResponse (JDeals [])
      end
  | ReqAssociate _ _ =>
      Ok (mkResponse 204 "No Content" None
            (Throw (mkError "Unexpected end of JSON input")))
  end.

Definition demoStore : Store := mkStore demoAnswer.

Definition emailEvent (id : Z) : WebhookEvent :=
  mkEvent "0-49" "object.creation" None (IdNum id).

Definition postInvocation (key : option string) (events : list WebhookEvent) : Invocation :=
  mkInvocation "POST" key (Ok events).

(* ------------------------------------------------------------------ *)
(** ** Further vocabulary *)
(* ------------------------------------------------------------------ *)

(** The events of a run. *)
Definition traceOf {W A} (run : outcome A * W * list Event) : list Event :=
  snd run.

(** The outcome of a run. *)
Definition resultOf {W A} (run : outcome A * W * list Event) : outcome A :=
  fst (fst run).

(** The trace of [n] attempts numbered from [attempt] that each end in the
    [catch] block's wait. *)
Fixpoint backoffTrace (apiKey : string) (req : Request) (attempt n : nat)
  : list Event :=
  match n with
  | O => []
  | S n' =>
      EvFetch apiKey req :: EvSleep (Js.Num ((Z.of_nat attempt + 1) * 1000))
        :: backoffTrace apiKey req (S attempt) n'
  end.

Section MoreVocabulary.
Context {W : Type} {net : Net W}.

(** [secondlyLimited apiKey req w es w']: from [w], the next [length es]
    calls of [fetch] for [req] reject with the errors [es], every one
    naming the secondly limit, and leave [w']. *)
Inductive secondlyLimited (apiKey : string) (req : Request)
  : W -> list JsError -> W -> Prop :=
| sl_done w : secondlyLimited apiKey req w [] w
| sl_next w e w1 es w2 :
    fetch apiKey req w = (Throw e, w1) ->
    Js.includes (message e) "secondly limit" = true ->
    secondlyLimited apiKey req w1 es w2 ->
    secondlyLimited apiKey req w (e :: es) w2.

End MoreVocabulary.

(** Three rejections by the network layer that name the secondly limit,
    then a fourth. *)
Definition secondlyError : JsError :=
  mkError "request failed: You have reached your secondly limit.".

Definition alwaysSecondly : Script :=
  mkScript [ Throw secondlyError; Throw secondlyError;
             Throw secondlyError; Throw secondlyError ].

(** Two rate-limit answers, then the listing asked for. *)
Definition limitedTwiceThenFine : Script :=
  mkScript [ Ok (rateLimitResponse (Some "1")); Ok (rateLimitResponse None);
             okResponse (JDeals [fundedLoan]) ].

(** A search of the deals, or a wait. *)
Definition isSearchOrWait (apiKey : string) (e : Event) : bool :=
  match e with
  | EvFetch k (ReqSearchLoanNumber _) | EvFetch k (ReqSearchField _ _) =>
      String.eqb k apiKey
  | EvSleep _ => true
  | _ => false
  end.

(** A read of associations or of deals for the email [emailId], a wait, or
    a logged error. *)
Definition isFallbackRead (apiKey emailId : string) (e : Event) : bool :=
  match e with
  | EvFetch k (ReqEmailContacts id) => String.eqb k apiKey && String.eqb id emailId
  | EvFetch k (ReqContactDeals _) | EvFetch k (ReqBatchGetDeals [_]) =>
      String.eqb k apiKey
  | EvSleep _ | EvError _ => true
  | _ => false
  end.

Definition isError (e : Event) : bool :=
  match e with EvError _ => true | _ => false end.

(** The score [findMatch] gives a candidate. *)
Definition candidateScore (parsed : Parsed) (c : Candidate) : Z :=
  scoreMatch (c_matchType c) (c_matchValue c) (c_deal c) parsed.

(** The candidates that pass the stage filter. *)
Definition allowedCandidates (candidates : list Candidate) : list Candidate :=
  filter (fun c => isTargetStage (c_deal c)) candidates.

(** A candidate of one of the two pooled channels. *)
Definition pooledType (c : Candidate) : Prop :=
  c_matchType c = deal_name \/ c_matchType c = address.

(** Scores never go up along the list. *)
Fixpoint descending (l : list Scored) : Prop :=
  match l with
  | [] => True
  | x :: l' => (forall y, In y l' -> score y <= score x) /\ descending l'
  end.

(** Two deals of the small store found by name and by address. *)
Definition candidateByName : Candidate := mkCandidate fundedLoan deal_name "Las Palmas".
Definition candidateByAddress : Candidate :=
  mkCandidate fundedLoan address "168 Las Palmas Dr, Miami, FL".
Definition candidateLost : Candidate := mkCandidate lostLoan deal_name "21 Valley Rd".

(** Channels 2 and 3 of [findMatch] one after the other: the pool of
    candidates that is then scored. *)
Definition poolCandidates {W} `{Net W} (apiKey : string) (parsed : Parsed)
  : M W (list Candidate) :=
  candidates <- dealNameChannel apiKey (dealNames parsed) [] ;;
  addressChannel apiKey (addresses parsed) candidates.

(** A candidate as the deal-name channel makes them from [names]. *)
Definition fromDealNames (names : list string) (c : Candidate) : Prop :=
  c_matchType c = deal_name
  /\ (3 <= String.length (c_matchValue c))%nat
  /\ exists name, In name names /\ c_matchValue c = cleanSearchValue name.

(** A candidate as the address channel makes them from [addrs]. *)
Definition fromAddresses (addrs : list string) (c : Candidate) : Prop :=
  c_matchType c = address
  /\ In (c_matchValue c) addrs
  /\ (5 <= String.length (cleanSearchValue (c_matchValue c)))%nat.

(** *** Strings seen as lists of characters *)

Definition chars (s : string) : list ascii := list_ascii_of_string s.

Fixpoint dropWhileL (p : ascii -> bool) (l : list ascii) : list ascii :=
  match l with
  | [] => []
  | c :: l' => if p c then dropWhileL p l' else l
  end.

(** [l] without its longest suffix of characters satisfying [p]. *)
Definition dropEndL (p : ascii -> bool) (l : list ascii) : list ascii :=
  rev (dropWhileL p (rev l)).

(** No white space at either end. *)
Definition trimmedL (l : list ascii) : Prop :=
  match l with [] => True | c :: _ => Js.isSpace c = false end
  /\ match rev l with [] => True | c :: _ => Js.isSpace c = false end.

(** Every white-space character is a plain space, and no two of them are
    next to each other. *)
Fixpoint singleSpacedL (l : list ascii) : Prop :=
  match l with
  | [] => True
  | a :: t =>
      (Js.isSpace a = true -> a = " "%char)
      /\ match t with
         | b :: _ => Js.isSpace a && Js.isSpace b = false
         | [] => True
         end
      /\ singleSpacedL t
  end.

(** [a] is a prefix of [b]. *)
Definition prefixL (a b : list ascii) : Prop := exists rest, b = a ++ rest.

(** A value fit for a search by field: not empty, trimmed and
    single-spaced. *)
Definition searchValueOk (v : string) : Prop :=
  v <> "" /\ trimmedL (chars v) /\ singleSpacedL (chars v).

Definition fieldSearchOk (e : Event) : Prop :=
  match e with
  | EvFetch _ (ReqSearchField _ v) => searchValueOk v
  | _ => True
  end.

(** [String(evt.objectId)], the key of the [seen] set. *)
Definition eventKey (evt : WebhookEvent) : string := String_ (objectId evt).

(** [a] is [b] with some elements left out, the order kept. *)
Inductive subsequence {A : Type} : list A -> list A -> Prop :=
| sub_nil : subsequence [] []
| sub_skip x a b : subsequence a b -> subsequence a (x :: b)
| sub_keep x a b : subsequence a b -> subsequence (x :: a) (x :: b).
(* ------------------------------------------------------------------ *)
(** ** Regular expressions *)
(* ------------------------------------------------------------------ *)

(** The Text Extractor is written with regular-expression literals. Module
    [RegExp] gives them the backtracking semantics of ECMA-262 (22.2.2,
    Pattern Semantics): a pattern compiles to a matcher, a function of a
    continuation and a state; quantifiers and alternatives are tried in the
    order the standard fixes; a capturing group records the text it
    matched; [exec] tries the start positions from [lastIndex] on.

    As everywhere in this development the input is a sequence of Latin-1
    code units. In that range [Canonicalize] with the [i] flag relates two
    characters exactly when [upperChar] maps them to the same character
    (U+00B5 and U+00FF have their capitals outside the range and are
    related to themselves only, U+00DF has a two-letter capital and stays
    as it is). The EN DASH U+2013, which some classes of the source list
    beside the hyphen, is a member of those classes here too ([CEnDash]);
    it is the canonical form of no character of the range, so that no
    character of a Latin-1 input is matched by it. *)

Module RegExp.

(** One member of a character class [[...]]. *)
Inductive ClassItem : Type :=
| CChar (c : ascii)
| CEnDash                    (* U+2013 *)
| CRange (lo hi : ascii)
| CDigit
| CWord
| CSpace.

Inductive regex : Type :=
| Empty
| Lit (s : string)
| Dot
| Class (items : list ClassItem)
| Seq (a b : regex)
| Alt (a b : regex)
| Group (n : nat) (r : regex)
| Repeat (greedy : bool) (min : nat) (max : option nat) (r : regex)
| Bol
| Eol
| WordB.

(** [r?], [r*], [r+], [r+?], [r{n}], [r{lo,hi}] and [r{n,}]. *)
Definition opt (r : regex) : regex := Repeat true 0 (Some 1%nat) r.
Definition star (r : regex) : regex := Repeat true 0 None r.
Definition plus (r : regex) : regex := Repeat true 1 None r.
Definition lazyPlus (r : regex) : regex := Repeat false 1 None r.
Definition count (n : nat) (r : regex) : regex := Repeat true n (Some n) r.
Definition range (lo hi : nat) (r : regex) : regex := Repeat true lo (Some hi) r.
Definition atLeast (n : nat) (r : regex) : regex := Repeat true n None r.

(** [r1 r2 ... rn] and [r1|r2|...|rn]. *)
Fixpoint seqs (l : list regex) : regex :=
  match l with
  | [] => Empty
  | r :: l' => Seq r (seqs l')
  end.

Fixpoint alts (l : list regex) : regex :=
  match l with
  | [] => Empty
  | [r] => r
  | r :: l' => Alt r (alts l')
  end.

(** [\d], [\s], [\w], [[A-Za-z]] and [[A-Z]]. *)
Definition digit : regex := Class [CDigit].
Definition space : regex := Class [CSpace].
Definition word : regex := Class [CWord].
Definition letter : regex := Class [CRange "A" "Z"; CRange "a" "z"].
Definition capital : regex := Class [CRange "A" "Z"].

(** The capturing groups inside [r], which a quantifier on [r] resets
    before every iteration. *)
Fixpoint groups (r : regex) : list nat :=
  match r with
  | Seq a b | Alt a b => groups a ++ groups b
  | Group n r' => n :: groups r'
  | Repeat _ _ _ r' => groups r'
  | _ => []
  end.

(** A match state: the input on both sides of the end index, and the
    captures. [before] has the character next to the end index first. *)
Record state : Type := mkState {
  before : list ascii;
  after : list ascii;
  caps : nat -> option (list ascii)
}.

Definition continuation : Type := state -> option state.
Definition matcher : Type := continuation -> state -> option state.

Definition noCaps : nat -> option (list ascii) := fun _ => None.

Definition setCap (n : nat) (v : list ascii) (x : state) : state :=
  mkState (before x) (after x)
    (fun j => if Nat.eqb j n then Some v else caps x j).

Definition clearCaps (ns : list nat) (x : state) : state :=
  mkState (before x) (after x)
    (fun j => if existsb (Nat.eqb j) ns then None else caps x j).

(** The input between the end index of [x] and that of a later [y]. *)
Definition span (x y : state) : list ascii :=
  firstn (length (after x) - length (after y)) (after x).

(** [String.prototype.toUpperCase] on one code unit, as [Canonicalize]
    uses it. *)
Definition upperChar (c : ascii) : ascii :=
  if Js.between 97 122 c
     || (Js.between 224 254 c && negb (Js.code c =? 247)%N)
  then ascii_of_N (Js.code c - 32)
  else c.

Definition canonicalize (i : bool) (c : ascii) : ascii :=
  if i then upperChar c else c.

Definition itemHas (it : ClassItem) (c : ascii) : bool :=
  match it with
  | CChar a => Ascii.eqb a c
  | CEnDash => (Js.code c =? 8211)%N
  | CRange lo hi => Js.between (Js.code lo) (Js.code hi) c
  | CDigit => Js.isDigit c
  | CWord => Js.isWord c
  | CSpace => Js.isSpace c
  end.

(** Membership in a class: some member has the canonical form of [c].
    With the [i] flag the members that share it are [c], its capital and
    its small letter. *)
Definition classHas (i : bool) (items : list ClassItem) (c : ascii) : bool :=
  existsb (fun it =>
             itemHas it c
             || (i && (itemHas it (upperChar c) || itemHas it (Js.lowerChar c))))
          items.

(** [.] matches all but the line terminators. *)
Definition isLineTerminator (c : ascii) : bool :=
  Ascii.eqb c Js.LF || Ascii.eqb c Js.CR.

Definition litHas (i : bool) (a c : ascii) : bool :=
  Ascii.eqb (canonicalize i a) (canonicalize i c).

(** A matcher for one character satisfying [p]. *)
Definition charMatcher (p : ascii -> bool) : matcher :=
  fun k x =>
    match after x with
    | c :: t => if p c then k (mkState (c :: before x) t (caps x)) else None
    | [] => None
    end.

Fixpoint litMatcher (i : bool) (s : string) : matcher :=
  fun k x =>
    match s with
    | EmptyString => k x
    | String a s' => charMatcher (litHas i a) (litMatcher i s' k) x
    end.

Definition isWordAt (o : option ascii) : bool :=
  match o with
  | Some c => Js.isWord c
  | None => false
  end.

(** [\b] holds where exactly one side of the end index is a word
    character. *)
Definition atWordBoundary (x : state) : bool :=
  xorb (isWordAt (hd_error (before x))) (isWordAt (hd_error (after x))).

(** [RepeatMatcher] of the standard. An iteration that is not required
    ([min = 0]) and consumes nothing is rejected, so the recursion is
    never deeper than [min] plus the length of the remaining input:
    [compile] passes one more than that as [fuel]. *)
Fixpoint repeatMatcher (fuel : nat) (m : matcher) (ns : list nat)
    (greedy : bool) (min : nat) (max : option nat) : matcher :=
  fun k x =>
    match max with
    | Some O => k x
    | _ =>
        match fuel with
        | O => None
        | S fuel' =>
            let d := fun y =>
              if Nat.eqb min 0
                 && Nat.eqb (length (after y)) (length (after x))
              then None
              else repeatMatcher fuel' m ns greedy (pred min)
                     (option_map pred max) k y in
            let xr := clearCaps ns x in
            if negb (Nat.eqb min 0) then m d xr
            else if greedy
                 then match m d xr with
                      | Some z => Some z
                      | None => k x
                      end
                 else match k x with
                      | Some z => Some z
                      | None => m d xr
                      end
        end
    end.

(** [CompileSubpattern], direction forward; [i] is the [i] flag. *)
Fixpoint compile (i : bool) (r : regex) : matcher :=
  match r with
  | Empty => fun k x => k x
  | Lit s => litMatcher i s
  | Dot => charMatcher (fun c => negb (isLineTerminator c))
  | Class items => charMatcher (classHas i items)
  | Seq a b => fun k x => compile i a (fun y => compile i b k y) x
  | Alt a b =>
      fun k x =>
        match compile i a k x with
        | Some z => Some z
        | None => compile i b k x
        end
  | Group n r' =>
      fun k x => compile i r' (fun y => k (setCap n (span x y) y)) x
  | Repeat greedy min max r' =>
      fun k x =>
        repeatMatcher (S (min + length (after x))) (compile i r') (groups r')
          greedy min max k x
  | Bol => fun k x => match before x with [] => k x | _ => None end
  | Eol => fun k x => match after x with [] => k x | _ => None end
  | WordB => fun k x => if atWordBoundary x then k x else None
  end.

(** A regular-expression object: its pattern and its [i] flag. The [g]
    flag is in the use: [execAll] for the [exec] loops of global patterns,
    [test] and [matchFirst] for the others. *)
Record RegExp : Type := mkRegExp {
  source : regex;
  ignoreCase : bool
}.

(** One attempt at the start position between [bef] and [aft]. *)
Definition matchAt (re : RegExp) (bef aft : list ascii) : option state :=
  compile (ignoreCase re) (source re) Some (mkState bef aft noCaps).

(** A successful match: the states at its start and at its end. *)
Definition Match : Type := (state * state)%type.

(** [RegExpBuiltinExec] from the position between [bef] and [aft]: the
    first start position, the end of the input included, at which the
    pattern matches. *)
Fixpoint search (re : RegExp) (bef aft : list ascii) : option Match :=
  match matchAt re bef aft with
  | Some y => Some (mkState bef aft noCaps, y)
  | None =>
      match aft with
      | [] => None
      | c :: t => search re (c :: bef) t
      end
  end.

(** [match[n]]: the matched text for [n = 0], the [n]-th capture otherwise;
    [None] is [undefined]. *)
Definition group (n : nat) (m : Match) : option string :=
  match n with
  | O => Some (string_of_list_ascii (span (fst m) (snd m)))
  | _ => option_map string_of_list_ascii (caps (snd m) n)
  end.

(** [match.index] *)
Definition index (m : Match) : nat := length (before (fst m)).

(** The matches that [while ((match = re.exec(s)) !== null)] goes through
    for a global [re] whose [lastIndex] is 0: every [exec] searches from
    the end of the match before. A match that leaves [lastIndex] where it
    was is found again by the next [exec], and the loop never ends: that
    is [None]. The input left gets shorter with every other match, so
    the [fuel] of [execAll] is never used up. *)
Fixpoint execLoop (fuel : nat) (re : RegExp) (bef aft : list ascii)
  : option (list Match) :=
  match fuel with
  | O => None
  | S fuel' =>
      match search re bef aft with
      | None => Some []
      | Some m =>
          if Nat.ltb (length (after (snd m))) (length aft)
          then option_map (cons m)
                 (execLoop fuel' re (before (snd m)) (after (snd m)))
          else None
      end
  end.

Definition execAll (re : RegExp) (s : string) : option (list Match) :=
  execLoop (S (String.length s)) re [] (list_ascii_of_string s).

(** [re.test(s)] and [s.match(re)] for a pattern without the [g] flag. *)
Definition matchFirst (re : RegExp) (s : string) : option Match :=
  search re [] (list_ascii_of_string s).

Definition test (re : RegExp) (s : string) : bool :=
  match matchFirst re s with
  | Some _ => true
  | None => false
  end.

(** *** What a successful match says

    [Matches i r x y]: read as a description of texts, [r] describes the
    input between [x] and [y], and the captures of [y] are those of [x]
    with the groups of [r] set as they are passed. The matcher only ever
    succeeds along such a reading ([compile_sound]). *)

Definition charStep (p : ascii -> bool) (x y : state) : Prop :=
  exists c t,
    after x = c :: t /\ p c = true /\ y = mkState (c :: before x) t (caps x).

Fixpoint litSteps (i : bool) (s : string) (x y : state) : Prop :=
  match s with
  | EmptyString => y = x
  | String a s' => exists z, charStep (litHas i a) x z /\ litSteps i s' z y
  end.

Fixpoint iterate (R : state -> state -> Prop) (n : nat) (x y : state) : Prop :=
  match n with
  | O => y = x
  | S n' => exists z, R x z /\ iterate R n' z y
  end.

Definition withinMax (n : nat) (max : option nat) : Prop :=
  match max with
  | Some mx => (n <= mx)%nat
  | None => True
  end.

Fixpoint Matches (i : bool) (r : regex) (x y : state) : Prop :=
  match r with
  | Empty => y = x
  | Lit s => litSteps i s x y
  | Dot => charStep (fun c => negb (isLineTerminator c)) x y
  | Class items => charStep (classHas i items) x y
  | Seq a b => exists z, Matches i a x z /\ Matches i b z y
  | Alt a b => Matches i a x y \/ Matches i b x y
  | Group n r' => exists z, Matches i r' x z /\ y = setCap n (span x z) z
  | Repeat _ min max r' =>
      exists n,
        (min <= n)%nat /\ withinMax n max
        /\ iterate (fun a b => Matches i r' (clearCaps (groups r') a) b) n x y
  | Bol => before x = [] /\ y = x
  | Eol => after x = [] /\ y = x
  | WordB => atWordBoundary x = true /\ y = x
  end.

(** [y] is [x] moved forward over the characters [u]. *)
Definition extends (x : state) (u : list ascii) (y : state) : Prop :=
  after x = u ++ after y /\ before y = rev u ++ before x.

(** No quantifier [{min,max}] with [min > max], which is a syntax error
    in a pattern. *)
Fixpoint wellFormed (r : regex) : bool :=
  match r with
  | Seq a b | Alt a b => wellFormed a && wellFormed b
  | Group _ r' => wellFormed r'
  | Repeat _ min max r' =>
      match max with
      | Some mx => Nat.leb min mx
      | None => true
      end && wellFormed r'
  | _ => true
  end.

(** The least number of characters a match of [r] consumes. *)
Fixpoint minLength (r : regex) : nat :=
  match r with
  | Lit s => String.length s
  | Dot | Class _ => 1
  | Seq a b => minLength a + minLength b
  | Alt a b => Nat.min (minLength a) (minLength b)
  | Group _ r' => minLength r'
  | Repeat _ min _ r' => min * minLength r'
  | _ => 0
  end.

(** Every quantified sub-pattern consumes at least one character, so that
    no iteration is rejected for being empty. *)
Fixpoint productive (r : regex) : bool :=
  match r with
  | Seq a b | Alt a b => productive a && productive b
  | Group _ r' => productive r'
  | Repeat _ _ _ r' => Nat.ltb 0 (minLength r') && productive r'
  | _ => true
  end.

(** A matcher that calls its continuation only at states with no more
    input left than the state it started from. *)
Definition forward (m : matcher) : Prop :=
  forall (k k' : continuation) x,
    (forall y, (length (after y) <= length (after x))%nat -> k y = k' y) ->
    m k x = m k' x.

(** The pattern of group [n] when every match of [r] ends with that group
    set: the group lies on the spine of the sequence [r] is, and no later
    part of [r] holds a group of that number. *)
Fixpoint mandatoryGroup (n : nat) (r : regex) : option regex :=
  match r with
  | Group m g => if Nat.eqb m n then Some g else None
  | Seq a b =>
      match mandatoryGroup n b with
      | Some g => Some g
      | None =>
          if existsb (Nat.eqb n) (groups b) then None else mandatoryGroup n a
      end
  | _ => None
  end.

End RegExp.

(* ------------------------------------------------------------------ *)
(** ** The Text Extractor *)
(* ------------------------------------------------------------------ *)

(** The class [Extractor] leaves the extractor open to the orchestration;
    module [TextExtractor] is the extractor of the source, [parseEmail]
    with the functions and patterns it is made of. *)

Module TextExtractor.
Import RegExp.

(** *** The patterns, in the order of the source

    Where a comment quotes a pattern in which a star is followed by a
    closing parenthesis, a blank is put between the two. *)

(** [/^\d+\s+(am|pm|quick|other|of\b)/i] *)
Definition blacklistTimeOfDay : RegExp :=
  mkRegExp
    (seqs [ Bol; plus digit; plus space;
            Group 1 (alts [ Lit "am"; Lit "pm"; Lit "quick"; Lit "other";
                            seqs [Lit "of"; WordB] ]) ])
    true.

(** [/bankruptcy|unsubscribe|copyright/i] *)
Definition blacklistBoilerplate : RegExp :=
  mkRegExp (alts [Lit "bankruptcy"; Lit "unsubscribe"; Lit "copyright"]) true.

(** [/^\d+\s+\w+\s+to\s+get\s+started/i] *)
Definition blacklistGetStarted : RegExp :=
  mkRegExp
    (seqs [ Bol; plus digit; plus space; plus word; plus space; Lit "to";
            plus space; Lit "get"; plus space; Lit "started" ])
    true.

Definition ADDRESS_BLACKLIST : list RegExp :=
  [blacklistTimeOfDay; blacklistBoilerplate; blacklistGetStarted].

(** [[-\s]] *)
Definition dashOrSpace : regex := Class [CChar "-"; CSpace].

(** [/\b(BF[-\s]?\d{4}[-\s]?\d{4})\b/gi] *)
Definition bfPattern : RegExp :=
  mkRegExp
    (seqs [ WordB;
            Group 1 (seqs [ Lit "BF"; opt dashOrSpace; count 4 digit;
                            opt dashOrSpace; count 4 digit ]);
            WordB ])
    true.

(** [/\b(?:loans?|deals?|files?|documents?)\s*(?:number|#|no\.?|num\.?)?\s*:?\s*[-–]?\s*(\d{5,10})\b/gi] *)
Definition numPattern : RegExp :=
  mkRegExp
    (seqs [ WordB;
            alts [ seqs [Lit "loan"; opt (Lit "s")];
                   seqs [Lit "deal"; opt (Lit "s")];
                   seqs [Lit "file"; opt (Lit "s")];
                   seqs [Lit "document"; opt (Lit "s")] ];
            star space;
            opt (alts [ Lit "number"; Lit "#";
                        seqs [Lit "no"; opt (Lit ".")];
                        seqs [Lit "num"; opt (Lit ".")] ]);
            star space; opt (Lit ":"); star space;
            opt (Class [CChar "-"; CEnDash]); star space;
            Group 1 (range 5 10 digit);
            WordB ])
    true.

(** [/(?:[-–|/]\s* )(\d{7,10})\b/g] *)
Definition subjectPattern : RegExp :=
  mkRegExp
    (seqs [ Class [CChar "-"; CEnDash; CChar "|"; CChar "/"]; star space;
            Group 1 (range 7 10 digit);
            WordB ])
    false.

(** [St(?:reet)?|Ave(?:nue)?|Rd|Road|...|Hwy|Highway] *)
Definition streetSuffix : regex :=
  alts [ seqs [Lit "St"; opt (Lit "reet")]; seqs [Lit "Ave"; opt (Lit "nue")];
         Lit "Rd"; Lit "Road"; seqs [Lit "Dr"; opt (Lit "ive")];
         Lit "Ln"; Lit "Lane"; Lit "Blvd"; Lit "Boulevard"; Lit "Ct";
         Lit "Court"; Lit "Way"; seqs [Lit "Pl"; opt (Lit "ace")];
         seqs [Lit "Cir"; opt (Lit "cle")]; Lit "Pkwy"; Lit "Parkway";
         seqs [Lit "Ter"; opt (Lit "race")]; Lit "Trl"; Lit "Trail";
         Lit "Hwy"; Lit "Highway" ].

(** [[A-Za-z]+(?:\s+[A-Za-z]+)*] *)
Definition cityName : regex :=
  seqs [plus letter; star (seqs [plus space; plus letter])].

(** [/\b(\d{1,6}\s+(?:[A-Za-z]{2,}\.?\s+){1,4}(?:St(?:reet)?|...|Highway)\.?)
      (?:[\s,]+(?:(?:Apt|Suite|Ste|Unit|#)\.?\s*[A-Za-z0-9-]+))?
      (?:\s*,\s*([A-Za-z]+(?:\s+[A-Za-z]+)* )\s*,?\s*([A-Z]{2}))?
      (?:\s+(\d{5}(?:-\d{4})?))?/g] *)
Definition addrPattern : RegExp :=
  mkRegExp
    (seqs [ WordB;
            Group 1 (seqs [ range 1 6 digit; plus space;
                            range 1 4 (seqs [ atLeast 2 letter; opt (Lit ".");
                                              plus space ]);
                            streetSuffix; opt (Lit ".") ]);
            opt (seqs [ plus (Class [CSpace; CChar ","]);
                        alts [ Lit "Apt"; Lit "Suite"; Lit "Ste"; Lit "Unit";
                               Lit "#" ];
                        opt (Lit "."); star space;
                        plus (Class [ CRange "A" "Z"; CRange "a" "z";
                                      CRange "0" "9"; CChar "-" ]) ]);
            opt (seqs [ star space; Lit ","; star space; Group 2 cityName;
                        star space; opt (Lit ","); star space;
                        Group 3 (count 2 capital) ]);
            opt (seqs [ plus space;
                        Group 4 (seqs [ count 5 digit;
                                        opt (seqs [Lit "-"; count 4 digit]) ]) ])
          ])
    false.

(** [/[|:–-]\s*(\d{1,6}\s+[A-Za-z][\w\s]+?(?:,\s*[A-Za-z]+(?:\s+[A-Za-z]+)* )?
      (?:,\s*[A-Z]{2})?(?:\s+\d{5})?)\s*$/] *)
Definition subjectAddrPattern : RegExp :=
  mkRegExp
    (seqs [ Class [CChar "|"; CChar ":"; CEnDash; CChar "-"]; star space;
            Group 1 (seqs [ range 1 6 digit; plus space; letter;
                            lazyPlus (Class [CWord; CSpace]);
                            opt (seqs [Lit ","; star space; cityName]);
                            opt (seqs [Lit ","; star space; count 2 capital]);
                            opt (seqs [plus space; count 5 digit]) ]);
            star space; Eol ])
    false.

(** [/(?:draw\s*\d*\s*[-–]\s*|payments?:\s*|title\s+work\s*[|]\s*|desktop\s+for\s+)
      (.+?)(?:\s*[-–|]\s*|$)/gi] *)
Definition dealSubjectPattern : RegExp :=
  mkRegExp
    (seqs [ alts [ seqs [ Lit "draw"; star space; star digit; star space;
                          Class [CChar "-"; CEnDash]; star space ];
                   seqs [Lit "payment"; opt (Lit "s"); Lit ":"; star space];
                   seqs [ Lit "title"; plus space; Lit "work"; star space;
                          Class [CChar "|"]; star space ];
                   seqs [Lit "desktop"; plus space; Lit "for"; plus space] ];
            Group 1 (lazyPlus Dot);
            alts [ seqs [ star space; Class [CChar "-"; CEnDash; CChar "|"];
                          star space ];
                   Eol ] ])
    true.

(** [/\b(?:property|loan|deal)\s+(?:at|on|for|located at)\s+(.+?)
      (?:\s+(?:has|have|was|were|is|will|shall|can|should|and|but|or|which|that)\b
         |[,.\n]|$)/gi] *)
Definition refPattern : RegExp :=
  mkRegExp
    (seqs [ WordB; alts [Lit "property"; Lit "loan"; Lit "deal"]; plus space;
            alts [Lit "at"; Lit "on"; Lit "for"; Lit "located at"]; plus space;
            Group 1 (lazyPlus Dot);
            alts [ seqs [ plus space;
                          alts [ Lit "has"; Lit "have"; Lit "was"; Lit "were";
                                 Lit "is"; Lit "will"; Lit "shall"; Lit "can";
                                 Lit "should"; Lit "and"; Lit "but"; Lit "or";
                                 Lit "which"; Lit "that" ];
                          WordB ];
                   Class [CChar ","; CChar "."; CChar Js.LF];
                   Eol ] ])
    true.

(** *** Strings and sets *)

(** [s.split(sep)] for a one-character separator. *)
Fixpoint split (sep : ascii) (s : string) : list string :=
  match s with
  | EmptyString => [EmptyString]
  | String c s' =>
      if Ascii.eqb c sep then EmptyString :: split sep s'
      else match split sep s' with
           | h :: t => String c h :: t
           | [] => [String c EmptyString]
           end
  end.

(** [s.replace(/\r\n/g, '\n')] *)
Fixpoint replaceCRLF (s : string) : string :=
  match s with
  | EmptyString => EmptyString
  | String c s' =>
      match s' with
      | String d s'' =>
          if Ascii.eqb c Js.CR && Ascii.eqb d Js.LF
          then String Js.LF (replaceCRLF s'')
          else String c (replaceCRLF s')
      | EmptyString => String c EmptyString
      end
  end.

(** [s.replace(/\r/g, '\n')] *)
Fixpoint replaceCR (s : string) : string :=
  match s with
  | EmptyString => EmptyString
  | String c s' =>
      String (if Ascii.eqb c Js.CR then Js.LF else c) (replaceCR s')
  end.

(** [s.replace(/[-\s]/g, '')] *)
Fixpoint removeDashesAndSpaces (s : string) : string :=
  match s with
  | EmptyString => EmptyString
  | String c s' =>
      if Ascii.eqb c "-" || Js.isSpace c then removeDashesAndSpaces s'
      else String c (removeDashesAndSpaces s')
  end.

(** [s.substring(from)] *)
Definition substringFrom (from : nat) (s : string) : string :=
  substring from (String.length s - from) s.

Definition isDotOrSpace (c : ascii) : bool := isDot c || Js.isSpace c.

(** [s.replace(/[.\s]+$/, '')] *)
Definition stripTrailingDotsAndSpaces (s : string) : string :=
  Js.reverse (Js.dropWhile isDotOrSpace (Js.reverse s)).

(** [set.add(x)] on a [Set] of strings listed in insertion order, which is
    the order [[...set]] returns. *)
Definition setAdd (x : string) (set : list string) : list string :=
  if existsb (String.eqb x) set then set else set ++ [x].

(** *** The extractor

    A function with an [exec] loop returns an [option]: [None] stands for
    a loop that never ends or a capture that is [undefined] where the code
    calls a method on it. Neither happens, which is proved below. *)

(** The body of the first loop of [extractLoanNumbers]. *)
Definition canonicalLoanNumber (match1 : string) : string :=
  let normalized := removeDashesAndSpaces match1 in
  ("BF-" ++ substring 2 4 normalized ++ "-" ++ substringFrom 6 normalized)%string.

(** [while ((match = re.exec(s)) !== null) body], where [body] adds
    [f match[1]] to [set] when that is not [None]. *)
Fixpoint addCaptures (f : string -> option string) (ms : list Match)
    (set : list string) : option (list string) :=
  match ms with
  | [] => Some set
  | m :: ms' =>
      match group 1 m with
      | None => None
      | Some match1 =>
          addCaptures f ms'
            (match f match1 with
             | Some v => setAdd v set
             | None => set
             end)
      end
  end.

Definition execLoop1 (re : RegExp) (s : string) (f : string -> option string)
    (set : list string) : option (list string) :=
  match execAll re s with
  | None => None
  | Some ms => addCaptures f ms set
  end.

Definition extractLoanNumbers (subject body : string) : option (list string) :=
  let text := (subject ++ String Js.LF body)%string in
  let loanNumbers := [] in
  match execLoop1 bfPattern text (fun m1 => Some (canonicalLoanNumber m1))
          loanNumbers with
  | None => None
  | Some loanNumbers =>
      match execLoop1 numPattern text Some loanNumbers with
      | None => None
      | Some loanNumbers => execLoop1 subjectPattern subject Some loanNumbers
      end
  end.

Definition cleanAddress (raw : string) : option string :=
  match raw with
  | EmptyString => None
  | _ =>
      let addr := Js.trim (Js.splitHead Js.CR (Js.splitHead Js.LF raw)) in
      let addr := Js.trim (stripTrailingDotsAndSpaces addr) in
      if Nat.ltb (String.length addr) 6 then None
      else if existsb (fun p => test p addr) ADDRESS_BLACKLIST then None
      else Some addr
  end.

(** [while ((match = addrPattern.exec(s)) !== null)] with its body. *)
Fixpoint addAddresses (ms : list Match) (set : list string) : list string :=
  match ms with
  | [] => set
  | m :: ms' =>
      addAddresses ms'
        (match group 0 m with
         | Some match0 =>
             match cleanAddress match0 with
             | Some addr => setAdd addr set
             | None => set
             end
         | None => set
         end)
  end.

Definition addressLoop (s : string) (set : list string)
  : option (list string) :=
  match execAll addrPattern s with
  | None => None
  | Some ms => Some (addAddresses ms set)
  end.

(** [for (const line of body.split('\n'))] with its body. *)
Fixpoint addressLines (lines : list string) (set : list string)
  : option (list string) :=
  match lines with
  | [] => Some set
  | line :: rest =>
      let cleanLine := Js.trim line in
      match cleanLine with
      | EmptyString => addressLines rest set
      | _ =>
          match addressLoop cleanLine set with
          | None => None
          | Some set' => addressLines rest set'
          end
      end
  end.

Definition extractAddresses (subject body : string) : option (list string) :=
  let addresses := [] in
  match addressLines (split Js.LF body) addresses with
  | None => None
  | Some addresses =>
      match addressLoop subject addresses with
      | None => None
      | Some addresses =>
          match matchFirst subjectAddrPattern subject with
          | None => Some addresses
          | Some subjectAddrMatch =>
              match group 1 subjectAddrMatch with
              | None => None
              | Some match1 =>
                  match cleanAddress match1 with
                  | Some addr =>
                      if Nat.ltb 5 (String.length addr)
                      then Some (setAdd addr addresses)
                      else Some addresses
                  | None => Some addresses
                  end
              end
          end
      end
  end.

(** The body of the first loop of [extractDealNames]. *)
Definition subjectName (match1 : string) : option string :=
  let name := Js.trim match1 in
  if Nat.leb 3 (String.length name) && Nat.leb (String.length name) 80
  then Some name else None.

(** The body of its second loop. *)
Definition referenceName (match1 : string) : option string :=
  let name := Js.trim match1 in
  if Nat.leb 3 (String.length name) && Nat.leb (String.length name) 60
     && negb (Js.includes name (String Js.LF EmptyString))
  then Some name else None.

Definition extractDealNames (subject body : string) : option (list string) :=
  let names := [] in
  match execLoop1 dealSubjectPattern subject subjectName names with
  | None => None
  | Some names =>
      let text := (subject ++ String Js.LF body)%string in
      execLoop1 refPattern text referenceName names
  end.

Definition parseEmail (subject body : string) : option Parsed :=
  let cleanSubject := Js.trim subject in
  let cleanBody := replaceCR (replaceCRLF body) in
  match extractLoanNumbers cleanSubject cleanBody with
  | None => None
  | Some loanNumbers =>
      match extractAddresses cleanSubject cleanBody with
      | None => None
      | Some addresses =>
          match extractDealNames cleanSubject cleanBody with
          | None => None
          | Some dealNames => Some (mkParsed loanNumbers addresses dealNames)
          end
      end
  end.

End TextExtractor.

(** *** The shapes of what is extracted *)

Definition allDigits (s : string) : bool := forallb Js.isDigit (chars s).

(** Five to ten digits. *)
Definition isBareNumber (s : string) : bool :=
  allDigits s && Nat.leb 5 (String.length s) && Nat.leb (String.length s) 10.

(** [BF-dddd-dddd] *)
Definition isCanonicalBF (s : string) : bool :=
  Nat.eqb (String.length s) 12
  && String.eqb (substring 0 3 s) "BF-"
  && allDigits (substring 3 4 s)
  && String.eqb (substring 7 1 s) "-"
  && allDigits (substring 8 4 s).

Definition isLoanNumber (s : string) : bool := isCanonicalBF s || isBareNumber s.

(** No line feed and no carriage return. *)
Definition oneLine (l : list ascii) : Prop :=
  Forall (fun c => RegExp.isLineTerminator c = false) l.

(** The last character, if any, is neither a dot nor white space. *)
Definition noTrailingDot (l : list ascii) : Prop :=
  match rev l with
  | [] => True
  | c :: _ => TextExtractor.isDotOrSpace c = false
  end.

(** A deal-name fragment: 3 to 80 characters of one line, trimmed. *)
Definition isNameFragment (name : string) : Prop :=
  (3 <= String.length name <= 80)%nat
  /\ trimmedL (chars name)
  /\ oneLine (chars name).

(** An address [cleanAddress] returns as it is. *)
Definition isCleanAddress (addr : string) : Prop :=
  TextExtractor.cleanAddress addr = Some addr.

(** The small letters [a] to [z], and the 256 characters. *)
Definition smallLetters : list ascii := chars "abcdefghijklmnopqrstuvwxyz".
Definition allChars : list ascii := map ascii_of_nat (seq 0 256).

(** No carriage return. *)
Definition noCR (s : string) : Prop :=
  Forall (fun c => Ascii.eqb c Js.CR = false) (chars s).

(** What a search by loan number asks for satisfies [P]. *)
Definition loanSearchOf (P : string -> Prop) (e : Event) : Prop :=
  match e with
  | EvFetch _ (ReqSearchLoanNumber n) => P n
  | _ => True
  end.

(** A character a deal name in a subject can have: no hyphen, no EN DASH,
    no bar, no line terminator. *)
Definition isNamePart (c : ascii) : bool :=
  negb (Ascii.eqb c "-" || (Js.code c =? 8211)%N || Ascii.eqb c "|"
        || RegExp.isLineTerminator c).

Definition isSpaceOrDigit (c : ascii) : bool := Js.isSpace c || Js.isDigit c.

(** Nothing, or one hyphen or white-space character: what may stand
    between the parts of a BF number. *)
Definition isSeparator (l : list ascii) : bool :=
  match l with
  | [] => true
  | [c] => Ascii.eqb c "-" || Js.isSpace c
  | _ => false
  end.

(** The text does not end, or does not start, with a letter, a digit or an
    underscore: a word ends before it, or starts after it. *)
Definition endsNoWord (l : list ascii) : Prop :=
  match rev l with [] => True | c :: _ => Js.isWord c = false end.

Definition startsNoWord (l : list ascii) : Prop :=
  match l with [] => True | c :: _ => Js.isWord c = false end.

(* ------------------------------------------------------------------ *)
(** ** The Confidence Scorer as the specification words it *)
(* ------------------------------------------------------------------ *)

(** The scorer of the specification (4.3) scores a candidate: a deal, the
    channel that found it and the matched text value. The orchestrator
    (4.2) hands over cleaned values, the cleaned fragment of the deal-name
    channel and the cleaned address of the address channel: one line, with
    no white space before or after it. *)
Definition isCleaned (value : string) : Prop :=
  trimmedL (chars value)
  /\ Forall (fun c => c <> Js.LF) (chars value).

Definition decimalDigits : list ascii := chars "0123456789".

Definition isDecimalDigit (c : ascii) : bool :=
  existsb (Ascii.eqb c) decimalDigits.

(** The leading street number: the digits the matched string begins with,
    none when it begins with something else. *)
Fixpoint spec_streetNumber (matched : string) : string :=
  match matched with
  | String c rest =>
      if isDecimalDigit c then String c (spec_streetNumber rest) else ""
  | EmptyString => ""
  end.

(** The text of a stored field; a field the deal lacks holds none. *)
Definition storedField (field : option string) : string :=
  match field with Some text => text | None => "" end.

(** Extracted identifiers are compared without regard to letter case
    (section 3 of the specification: case-insensitive comparison
    downstream). *)
Definition equalNoCase (a b : string) : bool :=
  String.eqb (Js.toLowerCase a) (Js.toLowerCase b).

(** [value] is a substring of [text]. *)
Definition foundIn (value text : string) : bool :=
  Js.includes (Js.toLowerCase text) (Js.toLowerCase value).

(** Base score of the deal-name channel: 85, 90 when the cleaned fragment is
    a substring of the stored name, 95 when the two are equal. *)
Definition spec_dealNameBase (fragment : string) (d : Deal) : Z :=
  let name := storedField (dealname (properties d)) in
  if equalNoCase fragment name then 95
  else if foundIn fragment name then 90
  else 85.

(** Base score of the address channel: 80, +5 when the leading street
    number appears in the stored address or the stored name, +5 when the
    matched string is longer than 25 characters. *)
Definition spec_addressBase (matched : string) (d : Deal) : Z :=
  let number := spec_streetNumber matched in
  let numberBonus :=
    if negb (String.eqb number "")
       && (foundIn number (storedField (full_address (properties d)))
           || foundIn number (storedField (dealname (properties d))))
    then 5 else 0 in
  let lengthBonus := if (25 <? String.length matched)%nat then 5 else 0 in
  80 + numberBonus + lengthBonus.

(** Is some extracted value of an identifier type a substring of the
    stored field of that type? *)
Definition corroborated (field : option string) (values : list string) : bool :=
  existsb (fun value => foundIn value (storedField field)) values.

(** The number of identifier types found in their stored field. *)
Definition corroboratedTypes (d : Deal) (parsed : Parsed) : nat :=
  length (filter (fun found : bool => found)
    [ corroborated (loan_number (properties d)) (loanNumbers parsed);
      corroborated (dealname (properties d)) (dealNames parsed);
      corroborated (full_address (properties d)) (addresses parsed) ]).

(** Ten points for each identifier type beyond the first. *)
Definition spec_corroboration (d : Deal) (parsed : Parsed) : Z :=
  10 * Z.of_nat (corroboratedTypes d parsed - 1).

(** The score: base and corroboration, capped at 100. *)
Definition spec_dealNameScore (fragment : string) (d : Deal) (parsed : Parsed) : Z :=
  Z.min 100 (spec_dealNameBase fragment d + spec_corroboration d parsed).

Definition spec_addressScore (matched : string) (d : Deal) (parsed : Parsed) : Z :=
  Z.min 100 (spec_addressBase matched d + spec_corroboration d parsed).

(** An email that names the street of deal 9001 and its loan number. *)
Definition parsedPalmas : Parsed :=
  mkParsed ["399536679"] ["168 Las Palmas Dr"] [].

(* ------------------------------------------------------------------ *)
(** ** The batch as the specification words it *)
(* ------------------------------------------------------------------ *)

(** What becomes of one email of a batch: it is matched and associated, and
    then has an entry in the response; or nothing matches it; or one of
    its steps fails. *)
Inductive Outcome : Type :=
| Associated (entry : ResultEntry)
| Unmatched
| Failed (error : JsError).

(** The entries of the matched emails, in the order of the batch, and their
    number. *)
Fixpoint matchedEntries (outcomes : list Outcome) : list ResultEntry :=
  match outcomes with
  | [] => []
  | Associated entry :: rest => entry :: matchedEntries rest
  | _ :: rest => matchedEntries rest
  end.

Definition isAssociated (o : Outcome) : bool :=
  match o with Associated _ => true | _ => false end.

Definition matchedCount (outcomes : list Outcome) : nat :=
  length (filter isAssociated outcomes).

Definition errorLine (evt : WebhookEvent) (error : JsError) : Event :=
  EvError ("Error processing email " ++ String_ (objectId evt) ++ ": "
           ++ message error).

Definition entryOf (evt : WebhookEvent) (m : MatchResult) : ResultEntry :=
  mkResult (objectId evt) (deal_id (deal m)) (dealname (properties (deal m)))
    (confidence m) (matchType m).

Section Batch.
Context {W : Type} {net : Net W} {extractor : Extractor}.

(** A failure is logged at the boundary of the email; what the email did
    before is done. *)
Definition emailFailed (evt : WebhookEvent) (error : JsError) (w : W)
    (tr : list Event) : Outcome * W * list Event :=
  (Failed error, w, tr ++ [errorLine evt error]).

(** Committing a match: the association is written, and the email has its
    entry when the write succeeds. *)
Definition spec_commit (apiKey : string) (evt : WebhookEvent) (m : MatchResult)
    (w : W) (tr : list Event) : Outcome * W * list Event :=
  match associateEmailToDeal apiKey (String_ (objectId evt)) (deal_id (deal m)) w with
  | (Ok _, w1, t1) =>
      (Associated (entryOf evt m), w1, tr ++ t1 ++ [EvSleep (Js.Num 200)])
  | (Throw error, w1, t1) => emailFailed evt error w1 (tr ++ t1)
  end.

(** One email: read it, parse it, search by content, fall back on the
    contacts, commit. *)
Definition spec_email (apiKey : string) (evt : WebhookEvent) (w : W)
  : Outcome * W * list Event :=
  let emailId := String_ (objectId evt) in
  match getEmail apiKey emailId w with
  | (Throw error, w1, t1) => emailFailed evt error w1 t1
  | (Ok (JEmail (Some props)), w1, t1) =>
      let subject := Js.orElse (hs_email_subject props) "" in
      let body :=
        Js.orElse (hs_email_text props) (Js.orElse (hs_email_html props) "") in
      match findMatch apiKey (parseEmail subject body) w1 with
      | (Throw error, w2, t2) => emailFailed evt error w2 (t1 ++ t2)
      | (Ok (Some m), w2, t2) => spec_commit apiKey evt m w2 (t1 ++ t2)
      | (Ok None, w2, t2) =>
          match fallbackSingleContactDeal apiKey emailId w2 with
          | (Throw error, w3, t3) => emailFailed evt error w3 (t1 ++ t2 ++ t3)
          | (Ok (Some m), w3, t3) => spec_commit apiKey evt m w3 (t1 ++ t2 ++ t3)
          | (Ok None, w3, t3) =>
              (Unmatched, w3, t1 ++ t2 ++ t3 ++ [EvSleep (Js.Num 200)])
          end
      end
  | (Ok _, w1, t1) =>
      emailFailed evt
        (mkError "Cannot read properties of undefined (reading 'hs_email_subject')")
        w1 t1
  end.

(** The batch: every email in its turn, from the world the one before
    left, whatever became of that one. *)
Fixpoint spec_batch (apiKey : string) (evts : list WebhookEvent) (w : W)
  : list Outcome * W * list Event :=
  match evts with
  | [] => ([], w, [])
  | evt :: rest =>
      let '(o, w1, t1) := spec_email apiKey evt w in
      let '(os, w2, t2) := spec_batch apiKey rest w1 in
      (o :: os, w2, t1 ++ t2)
  end.

End Batch.

(* ------------------------------------------------------------------ *)
(** ** The extractor of the source behind the handler *)
(* ------------------------------------------------------------------ *)

(** [TextExtractor.parseEmail] as the handler's extractor. It returns for
    every subject and body; the empty record stands where it would not. *)
Definition sourceExtractor : Extractor := {|
  parseEmail subject body :=
    match TextExtractor.parseEmail subject body with
    | Some parsed => parsed
    | None => mkParsed [] [] []
    end
|}.

(** The small store with subjects as they are written. Email 101 names
    loan 399536679 after a hyphen; email 107 is a draw on 168 Las Palmas;
    the association of email 102 is refused; the rest is as in
    [demoAnswer]. *)
Definition inboxAnswer (req : Request) : outcome Response :=
  match req with
  | ReqGetEmail id =>
      if String.eqb id "101" then emailWithSubject "RECORDED DOCUMENTS - 399536679"
      else if String.eqb id "107" then emailWithSubject "Draw 6 - 168 Las Palmas"
      else demoAnswer req
  | ReqAssociate id _ =>
      if String.eqb id "102" then errorResponse 400 "Bad Request" "invalid association"
      else demoAnswer req
  | _ => demoAnswer req
  end.

Definition inbox : Store := mkStore inboxAnswer.

(** Five emails: 101 is matched by its loan number, 103 cannot be read, the
    association of 102 is refused, 107 is matched by its name, 108 matches
    nothing. Email 101 is announced twice. *)
Definition inboxBatch : list WebhookEvent :=
  [ emailEvent 101; emailEvent 103; emailEvent 102; emailEvent 101;
    emailEvent 107; emailEvent 108 ].

(** The answers to an email whose association is refused once for the
    rate limit: the email, the search by loan number, the refusal, the
    approval. *)
Definition retriedAssociation : Script :=
  mkScript [ emailWithSubject "RECORDED DOCUMENTS - 399536679";
             okResponse (JDeals [fundedLoan]);
             Ok (rateLimitResponse None);
             Ok (mkResponse 204 "No Content" None
                   (Throw (mkError "Unexpected end of JSON input"))) ].

(* ------------------------------------------------------------------ *)
(** ** The primitives and the pure helpers on sample inputs *)
(* ------------------------------------------------------------------ *)

Example parseInt_seconds : Js.parseInt "30" = Js.Num 30.
Proof. reflexivity. Qed.

Example parseInt_hexadecimal : Js.parseInt " 0x1F" = Js.Num 31.
Proof. reflexivity. Qed.

Example parseInt_http_date : Js.parseInt "Wed, 21 Oct 2026 07:28:00 GMT" = Js.NaN.
Proof. reflexivity. Qed.

Example trim_no_break_space :
  Js.trim (String (ascii_of_N 160) " 12 Oak St. ") = "12 Oak St.".
Proof. reflexivity. Qed.

Example includes_404 :
  Js.includes "HubSpot API Error (404): resource not found" "404" = true.
Proof. reflexivity. Qed.

Example cleanSearchValue_first_line :
  cleanSearchValue ("Draw 6 -   168 Las Palmas..." ++ String Js.LF "second line")
  = "Draw 6 - 168 Las Palmas".
Proof. reflexivity. Qed.

(** Dots followed by white space are not at the end of the string when the
    dots are stripped. *)
Example cleanSearchValue_dots_then_space :
  cleanSearchValue "  12   Oak St...  " = "12 Oak St...".
Proof. reflexivity. Qed.

Example extractStreetCore_suffix :
  extractStreetCore "168 Las Palmas Dr., Miami, FL" = "168 Las Palmas".
Proof. reflexivity. Qed.

(** Without a leading number the part before the comma is kept whole. *)
Example extractStreetCore_no_number : extractStreetCore "Suite 4 Blvd" = "Suite 4 Blvd".
Proof. reflexivity. Qed.

Example scoreMatch_name_equal :
  scoreMatch deal_name "168 Las Palmas" fundedLoan (mkParsed [] [] ["168 Las Palmas"]) = 95.
Proof. reflexivity. Qed.

Example scoreMatch_name_and_loan :
  scoreMatch deal_name "Las Palmas" fundedLoan (mkParsed ["399536679"] [] ["Las Palmas"])
  = 100.
Proof. reflexivity. Qed.

Example scoreMatch_address_long :
  scoreMatch address "168 Las Palmas Dr, Miami, FL" fundedLoan
    (mkParsed [] ["168 Las Palmas Dr, Miami, FL"] []) = 90.
Proof. reflexivity. Qed.

Example scoreMatch_capped :
  scoreMatch address "168 Las Palmas Dr, Miami, FL" fundedLoan
    (mkParsed ["399536679"] ["168 Las Palmas Dr, Miami, FL"] ["168 Las Palmas"]) = 100.
Proof. reflexivity. Qed.

Example scoreMatch_address_plain :
  scoreMatch address "9 Elm St" fundedLoan (mkParsed [] ["9 Elm St"] []) = 80.
Proof. reflexivity. Qed.

(* ------------------------------------------------------------------ *)
(** ** Properties of the monad and of the repository client *)
(* ------------------------------------------------------------------ *)

Section MonadFacts.
Context {W : Type}.

Lemma bind_ok {A B} (m : M W A) (k : A -> M W B) w a w1 t1 :
  m w = (Ok a, w1, t1) -> bind m k w = andThen t1 (k a w1).
Proof. intros E. unfold bind, andThen. rewrite E. reflexivity. Qed.

Lemma bind_throw {A B} (m : M W A) (k : A -> M W B) w e w1 t1 :
  m w = (Throw e, w1, t1) -> bind m k w = (Throw e, w1, t1).
Proof. intros E. unfold bind. rewrite E. reflexivity. Qed.

Lemma bind_inv {A B} (m : M W A) (k : A -> M W B) w r w' tr :
  bind m k w = (r, w', tr) ->
  (exists a w1 t1 t2,
      m w = (Ok a, w1, t1) /\ k a w1 = (r, w', t2) /\ tr = t1 ++ t2)
  \/ (exists e, m w = (Throw e, w', tr) /\ r = Throw e).
Proof.
  unfold bind. destruct (m w) as [[[a | e] w1] t1].
  - destruct (k a w1) as [[r2 w2] t2] eqn:K. intros E. inversion E; subst.
    left. exists a, w1, t1, t2. auto.
  - intros E. inversion E; subst. right. exists e. auto.
Qed.

Lemma try_catch_ok {A} (m : M W A) h w a w1 t1 :
  m w = (Ok a, w1, t1) -> try_catch m h w = (Ok a, w1, t1).
Proof. intros E. unfold try_catch. rewrite E. reflexivity. Qed.

Lemma try_catch_throw {A} (m : M W A) h w e w1 t1 :
  m w = (Throw e, w1, t1) -> try_catch m h w = andThen t1 (h e w1).
Proof. intros E. unfold try_catch, andThen. rewrite E. reflexivity. Qed.

Lemma try_catch_inv {A} (m : M W A) h w r w' tr :
  try_catch m h w = (r, w', tr) ->
  (exists a, m w = (Ok a, w', tr) /\ r = Ok a)
  \/ (exists e w1 t1 t2,
        m w = (Throw e, w1, t1) /\ h e w1 = (r, w', t2) /\ tr = t1 ++ t2).
Proof.
  unfold try_catch. destruct (m w) as [[[a | e] w1] t1].
  - intros E. inversion E; subst. left. exists a. auto.
  - destruct (h e w1) as [[r2 w2] t2] eqn:K. intros E. inversion E; subst.
    right. exists e, w1, t1, t2. auto.
Qed.

Lemma andThen_nil {A} (run : outcome A * W * list Event) : andThen [] run = run.
Proof. destruct run as [[r w] t]. reflexivity. Qed.

Lemma andThen_andThen {A} t1 t2 (run : outcome A * W * list Event) :
  andThen t1 (andThen t2 run) = andThen (t1 ++ t2) run.
Proof. destruct run as [[r w] t]. unfold andThen. now rewrite app_assoc. Qed.

End MonadFacts.

Lemma ok_429 r : status r = 429 -> ok r = false.
Proof. unfold ok. intros ->. reflexivity. Qed.

(** The delay before a retry: the server's hint, read by [parseInt], in
    seconds; without a usable hint, one more second per attempt. *)
Lemma retryDelay_hint r attempt s :
  retry_after r = Some s -> s <> "" ->
  retryDelay r attempt = Js.times (Js.parseInt s) 1000.
Proof.
  unfold retryDelay. intros -> Hs. destruct s; [congruence | reflexivity].
Qed.

Lemma retryDelay_linear r attempt :
  retry_after r = None \/ retry_after r = Some "" ->
  retryDelay r attempt = Js.Num ((Z.of_nat attempt + 1) * 1000).
Proof. unfold retryDelay. intros [-> | ->]; reflexivity. Qed.

Lemma attemptsIn_app t1 t2 : attemptsIn (t1 ++ t2) = (attemptsIn t1 + attemptsIn t2)%nat.
Proof. unfold attemptsIn. now rewrite filter_app, length_app. Qed.

Lemma attemptsIn_retryTrace apiKey req a rs :
  attemptsIn (retryTrace apiKey req a rs) = length rs.
Proof.
  revert a. induction rs as [| r rs IH]; intros a; [reflexivity |].
  simpl. unfold attemptsIn in *. simpl. now rewrite IH.
Qed.

Lemma sleepsIn_app t1 t2 : sleepsIn (t1 ++ t2) = sleepsIn t1 ++ sleepsIn t2.
Proof.
  induction t1 as [| e t1 IH]; [reflexivity |].
  destruct e; simpl; now rewrite IH.
Qed.

Section ClientFacts.
Context {W : Type} {net : Net W}.

Lemma do_fetch_eq apiKey req w o w1 :
  fetch apiKey req w = (o, w1) ->
  do_fetch apiKey req w = (o, w1, [EvFetch apiKey req]).
Proof. unfold do_fetch. now intros ->. Qed.

(** A rate-limited attempt that is not the last one waits and goes round
    again. *)
Lemma attemptOnce_rate_limited apiKey req retries attempt w r w1 :
  fetch apiKey req w = (Ok r, w1) ->
  status r = 429 ->
  (attempt < retries)%nat ->
  attemptOnce apiKey req retries attempt w
  = (Ok Continue, w1, [EvFetch apiKey req; EvSleep (retryDelay r attempt)]).
Proof.
  intros F S429 Hlt. unfold attemptOnce.
  apply Nat.ltb_lt in Hlt.
  erewrite try_catch_ok; [reflexivity |].
  erewrite bind_ok by (apply do_fetch_eq; eassumption).
  rewrite S429, Hlt. reflexivity.
Qed.

(** A failed response ends the request when no retry is left or its
    message does not name the secondly limit. *)
Lemma attemptOnce_failure apiKey req retries attempt w r w1 :
  fetch apiKey req w = (Ok r, w1) ->
  ok r = false ->
  (status r =? 429) && (attempt <? retries)%nat = false ->
  (attempt <? retries)%nat
    && Js.includes (message (apiError r)) "secondly limit" = false ->
  attemptOnce apiKey req retries attempt w
  = (Throw (apiError r), w1, [EvFetch apiKey req]).
Proof.
  intros F Hok Hno429 Hcatch. unfold attemptOnce.
  erewrite try_catch_throw.
  2:{ erewrite bind_ok by (apply do_fetch_eq; eassumption).
      rewrite Hno429, Hok. reflexivity. }
  rewrite Hcatch. reflexivity.
Qed.

Lemma forAttempts_rate_limited apiKey req retries fallOut :
  forall rs a w rlast w',
    rateLimited apiKey req w (rs ++ [rlast]) w' ->
    (a + length rs = retries)%nat ->
    forAttempts apiKey req retries fallOut (seq a (S (length rs))) w
    = (Throw (apiError rlast), w', retryTrace apiKey req a rs ++ [EvFetch apiKey req]).
Proof.
  induction rs as [| r rs IH]; intros a w rlast w' RL Ha.
  - simpl in *. rewrite Nat.add_0_r in Ha. subst retries.
    inversion RL as [| ? ? ? ? ? F S429 RL']; subst.
    inversion RL'; subst.
    erewrite bind_throw; [reflexivity |].
    apply attemptOnce_failure; auto using ok_429.
    + rewrite Nat.ltb_irrefl. apply andb_false_r.
    + rewrite Nat.ltb_irrefl. reflexivity.
  - simpl in RL. inversion RL as [| ? ? ? ? ? F S429 RL']; subst.
    change (seq a (S (length (r :: rs))))
      with (a :: seq (S a) (S (length rs))).
    cbn [forAttempts].
    erewrite bind_ok.
    2:{ apply attemptOnce_rate_limited; eauto. simpl in *. lia. }
    cbv beta iota.
    rewrite (IH (S a) w1 rlast w' RL') by (simpl in *; lia).
    reflexivity.
Qed.

(** Rate-limited attempts that are not the last ones are gone through,
    each with its wait. *)
Lemma forAttempts_rate_limited_prefix apiKey req retries fallOut :
  forall rs a n w w1,
    rateLimited apiKey req w rs w1 ->
    (a + length rs + n = retries)%nat ->
    forAttempts apiKey req retries fallOut (seq a (S (length rs + n))) w
    = andThen (retryTrace apiKey req a rs)
        (forAttempts apiKey req retries fallOut (seq (a + length rs) (S n)) w1).
Proof.
  induction rs as [| r rs IH]; intros a n w w1 RL Ha.
  - inversion RL; subst. cbn [length retryTrace].
    rewrite Nat.add_0_r, andThen_nil. reflexivity.
  - inversion RL as [| ? ? w2 ? ? F S429 RL']; subst.
    change (seq a (S (length (r :: rs) + n)))
      with (a :: seq (S a) (S (length rs + n))).
    cbn [forAttempts].
    erewrite bind_ok.
    2:{ apply attemptOnce_rate_limited; eauto. simpl in *. lia. }
    cbv beta iota.
    rewrite (IH (S a) n w2 w1 RL') by (simpl in *; lia).
    rewrite andThen_andThen. cbn [length retryTrace app].
    replace (a + S (length rs))%nat with (S a + length rs)%nat by lia.
    reflexivity.
Qed.

(** The value given for falling out of the loop never matters. *)
Lemma forAttempts_fallOut apiKey req retries k1 k2 :
  forall n a w,
    (a + n = retries)%nat ->
    forAttempts apiKey req retries k1 (seq a (S n)) w
    = forAttempts apiKey req retries k2 (seq a (S n)) w.
Proof.
  induction n as [| n IH]; intros a w Ha.
  - cbn [seq forAttempts]. unfold bind.
    destruct (attemptOnce apiKey req retries a w) as [[[ctl | e] w1] t1] eqn:E;
      [| reflexivity].
    destruct ctl as [| data]; [| reflexivity].
    exfalso. unfold attemptOnce in E.
    assert (Hlt : (a <? retries)%nat = false) by (apply Nat.ltb_ge; lia).
    apply try_catch_inv in E as [(c & E & Hc) | (e & w2 & t2 & t3 & _ & E & _)].
    + injection Hc as <-.
      apply bind_inv in E as [(r & w2 & t2 & t3 & _ & E & _) | (e & _ & E)];
        [| discriminate].
      rewrite Hlt, andb_false_r in E.
      destruct (negb (ok r)); [discriminate |].
      destruct (status r =? 204); [discriminate |].
      apply bind_inv in E as [(j & ? & ? & ? & _ & E & _) | (e & _ & E)];
        discriminate.
    + rewrite Hlt in E. discriminate.
  - change (seq a (S (S n))) with (a :: seq (S a) (S n)).
    cbn [forAttempts]. unfold bind.
    destruct (attemptOnce apiKey req retries a w) as [[[ctl | e] w1] t1];
      [| reflexivity].
    destruct ctl as [| data]; [| reflexivity].
    rewrite (IH (S a) w1) by lia. reflexivity.
Qed.

Lemma hubspotRequest_fallOut_irrelevant apiKey req retries k w :
  hubspotRequest apiKey req retries w
  = forAttempts apiKey req retries k (seq 0 (S retries)) w.
Proof. unfold hubspotRequest. apply forAttempts_fallOut. lia. Qed.

End ClientFacts.

(* ------------------------------------------------------------------ *)
(** ** The retry policy *)
(* ------------------------------------------------------------------ *)

Lemma sleepsIn_retryTrace apiKey req :
  forall rs a i r,
    nth_error rs i = Some r ->
    nth_error (sleepsIn (retryTrace apiKey req a rs)) i = Some (retryDelay r (a + i)).
Proof.
  induction rs as [| r0 rs IH]; intros a i r Hi.
  - destruct i; discriminate.
  - destruct i as [| i]; simpl in *.
    + injection Hi as ->. now rewrite Nat.add_0_r.
    + rewrite (IH (S a) i r Hi). f_equal. f_equal. lia.
Qed.

Lemma length_sleepsIn_retryTrace apiKey req rs a :
  length (sleepsIn (retryTrace apiKey req a rs)) = length rs.
Proof. revert a. induction rs as [| r rs IH]; intros a; simpl; auto. Qed.

Lemma append_assoc (a b c : string) : (a ++ (b ++ c) = (a ++ b) ++ c)%string.
Proof. induction a as [| x a IH]; simpl; [reflexivity | now rewrite IH]. Qed.

Lemma startsWith_append (a b : string) : Js.startsWith (a ++ b)%string a = true.
Proof.
  induction a as [| c a IH]; simpl; [now destruct b |].
  now rewrite Ascii.eqb_refl, IH.
Qed.

Lemma apiError_status r :
  Js.startsWith (message (apiError r))
    ("HubSpot API Error (" ++ Js.showZ (status r) ++ "): ")%string = true.
Proof.
  unfold apiError. cbn [message].
  rewrite (append_assoc (Js.showZ (status r)) "): ").
  rewrite (append_assoc "HubSpot API Error (").
  apply startsWith_append.
Qed.

Section RetryPolicy.
Context {W : Type} {net : Net W}.

(** C6 (amended). When every attempt is answered 429, the client makes
    exactly [retries + 1] attempts, waits before each retry the server's
    retry-after hint (read by [parseInt], in seconds) when there is a
    non-empty one and otherwise one more second per attempt, and then
    raises the API error of status 429. Any other failed response, on the
    first attempt or after rate-limited ones, whose error message does not
    contain "secondly limit" raises the API error with its status and
    message at once: the failing attempt is the last event of the trace. *)
Theorem C6_retry_policy (apiKey : string) (req : Request) (retries : nat) (w : W) :
  (forall rs rlast w',
      rateLimited apiKey req w (rs ++ [rlast]) w' ->
      length rs = retries ->
      let tr := retryTrace apiKey req 0 rs ++ [EvFetch apiKey req] in
      hubspotRequest apiKey req retries w = (Throw (apiError rlast), w', tr)
      /\ attemptsIn tr = S retries
      /\ length (sleepsIn tr) = retries
      /\ (forall i r s,
            nth_error rs i = Some r -> retry_after r = Some s -> s <> "" ->
            nth_error (sleepsIn tr) i = Some (Js.times (Js.parseInt s) 1000))
      /\ (forall i r,
            nth_error rs i = Some r ->
            retry_after r = None \/ retry_after r = Some "" ->
            nth_error (sleepsIn tr) i = Some (Js.Num ((Z.of_nat i + 1) * 1000)))
      /\ Js.startsWith (message (apiError rlast)) "HubSpot API Error (429): " = true)
  /\ (forall rs r w1 w2,
        rateLimited apiKey req w rs w1 ->
        (length rs <= retries)%nat ->
        fetch apiKey req w1 = (Ok r, w2) ->
        ok r = false ->
        status r <> 429 ->
        Js.includes (message (apiError r)) "secondly limit" = false ->
        hubspotRequest apiKey req retries w
        = (Throw (apiError r), w2, retryTrace apiKey req 0 rs ++ [EvFetch apiKey req])
        /\ Js.startsWith (message (apiError r))
             ("HubSpot API Error (" ++ Js.showZ (status r) ++ "): ")%string = true).
Proof.
  split.
  - intros rs rlast w' RL Hlen tr.
    assert (Hlast : status rlast = 429).
    { clear - RL. revert w RL. induction rs as [| r rs IH]; intros w RL;
        inversion RL; subst; eauto. }
    assert (Hsl : sleepsIn tr = sleepsIn (retryTrace apiKey req 0 rs)).
    { unfold tr. rewrite sleepsIn_app. simpl. apply app_nil_r. }
    split; [| split; [| split; [| split; [| split]]]].
    + unfold hubspotRequest. rewrite <- Hlen.
      now apply forAttempts_rate_limited.
    + unfold tr. rewrite attemptsIn_app, attemptsIn_retryTrace, Hlen.
      unfold attemptsIn. simpl. lia.
    + now rewrite Hsl, length_sleepsIn_retryTrace.
    + intros i r s Hi Hs Hne. rewrite Hsl.
      rewrite (sleepsIn_retryTrace apiKey req rs 0 i r Hi).
      f_equal. now apply retryDelay_hint.
    + intros i r Hi Hs. rewrite Hsl.
      rewrite (sleepsIn_retryTrace apiKey req rs 0 i r Hi).
      f_equal. now apply retryDelay_linear.
    + pose proof (apiError_status rlast) as P. now rewrite Hlast in P.
  - intros rs r w1 w2 RL Hlen F Hok Hst Hmsg. split; [| apply apiError_status].
    unfold hubspotRequest.
    replace (S retries) with (S (length rs + (retries - length rs)))%nat by lia.
    erewrite forAttempts_rate_limited_prefix by (eauto; lia).
    cbn [Nat.add seq forAttempts].
    erewrite bind_throw; [reflexivity |].
    apply attemptOnce_failure; auto.
    + apply Z.eqb_neq in Hst. now rewrite Hst.
    + rewrite Hmsg. apply andb_false_r.
Qed.

End RetryPolicy.

Lemma C6_retry_policy_witness :
  hubspotRequest "key" (ReqGetEmail "7") 3 alwaysLimited
  = (Throw (mkError "HubSpot API Error (429): You have reached your secondly limit."),
     mkScript [],
     [ EvFetch "key" (ReqGetEmail "7"); EvSleep (Js.Num 2000);
       EvFetch "key" (ReqGetEmail "7"); EvSleep (Js.Num 2000);
       EvFetch "key" (ReqGetEmail "7"); EvSleep (Js.Num 3000);
       EvFetch "key" (ReqGetEmail "7") ])
  /\ hubspotRequest "key" (ReqGetEmail "7") 3 limitedThenBad
     = (Throw (mkError "HubSpot API Error (400): Invalid input JSON"),
        mkScript [],
        [ EvFetch "key" (ReqGetEmail "7"); EvSleep (Js.Num 1000);
          EvFetch "key" (ReqGetEmail "7") ]).
Proof.
  split.
  - apply (proj1 (C6_retry_policy "key" (ReqGetEmail "7") 3 alwaysLimited)
             [ rateLimitResponse (Some "2"); rateLimitResponse None;
               rateLimitResponse (Some "") ]
             (rateLimitResponse None) (mkScript [])).
    + repeat (eapply rl_next; [reflexivity | reflexivity |]). apply rl_done.
    + reflexivity.
  - apply (proj2 (C6_retry_policy "key" (ReqGetEmail "7") 3 limitedThenBad)
             [rateLimitResponse None]
             (mkResponse 400 "Bad Request" None (Ok (JMessage "Invalid input JSON")))
             (mkScript [errorResponse 400 "Bad Request" "Invalid input JSON"])
             (mkScript [])).
    + eapply rl_next; [reflexivity | reflexivity | apply rl_done].
    + simpl. lia.
    + reflexivity.
    + reflexivity.
    + discriminate.
    + reflexivity.
Defined.

(** C6 as stated fails: a failed response that is not a 429 is retried when
    its message names the secondly limit. Here the first answer is a 500
    with such a message; the client waits a second, asks again and returns
    the second answer instead of raising the API failure at once. *)
Lemma C6_counterexample :
  fetch "key" (ReqSearchLoanNumber "12345") limitedThenFine
  = (Ok secondlyLimit500, mkScript [okResponse (JDeals [])])
  /\ ok secondlyLimit500 = false
  /\ status secondlyLimit500 <> 429
  /\ hubspotRequest "key" (ReqSearchLoanNumber "12345") 3 limitedThenFine
     = (Ok (JDeals []), mkScript [],
        [ EvFetch "key" (ReqSearchLoanNumber "12345"); EvSleep (Js.Num 1000);
          EvFetch "key" (ReqSearchLoanNumber "12345") ])
  /\ hubspotRequest "key" (ReqSearchLoanNumber "12345") 3 limitedThenFine
     <> (Throw (apiError secondlyLimit500), mkScript [okResponse (JDeals [])],
         [EvFetch "key" (ReqSearchLoanNumber "12345")]).
Proof.
  split; [reflexivity |]. split; [reflexivity |]. split; [discriminate |].
  split; [reflexivity | discriminate].
Qed.

(* ------------------------------------------------------------------ *)
(** ** What each computation can cause *)
(* ------------------------------------------------------------------ *)

Section Emits.
Context {W : Type}.

Lemma emits_ret {A} P (a : A) : emits P (ret (W := W) a).
Proof. intros w r w' tr E. inversion E. constructor. Qed.

Lemma emits_throw {A} P e : emits P (throw (W := W) (A := A) e).
Proof. intros w r w' tr E. inversion E. constructor. Qed.

Lemma emits_await {A} P (p : outcome A) : emits P (await (W := W) p).
Proof. intros w r w' tr E. inversion E. constructor. Qed.

Lemma emits_emit P e : P e -> emits P (emit (W := W) e).
Proof. intros Pe w r w' tr E. inversion E. auto. Qed.

Lemma emits_bind {A B} P (m : M W A) (k : A -> M W B) :
  emits P m -> (forall a, emits P (k a)) -> emits P (bind m k).
Proof.
  intros Hm Hk w r w' tr E.
  apply bind_inv in E as [(a & w1 & t1 & t2 & E1 & E2 & ->) | (e & E1 & _)].
  - apply Forall_app. split; [eapply Hm | eapply Hk]; eauto.
  - eapply Hm; eauto.
Qed.

Lemma emits_try_catch {A} P (m : M W A) h :
  emits P m -> (forall e, emits P (h e)) -> emits P (try_catch m h).
Proof.
  intros Hm Hh w r w' tr E.
  apply try_catch_inv in E as [(a & E1 & _) | (e & w1 & t1 & t2 & E1 & E2 & ->)].
  - eapply Hm; eauto.
  - apply Forall_app. split; [eapply Hm | eapply Hh]; eauto.
Qed.

Lemma emits_weaken {A} (P Q : Event -> Prop) (m : M W A) :
  (forall e, P e -> Q e) -> emits P m -> emits Q m.
Proof.
  intros PQ Hm w r w' tr E. eapply Forall_impl; [exact PQ | eapply Hm; eauto].
Qed.

Lemma emits_do_fetch `{Net W} apiKey req :
  emits (clientEvent apiKey req) (do_fetch apiKey req).
Proof.
  intros w r w' tr E. unfold do_fetch in E.
  destruct (fetch apiKey req w) as [o w1]. inversion E; subst.
  repeat constructor.
Qed.

End Emits.

Section ClientEmits.
Context {W : Type} {net : Net W}.

Lemma emits_sleep apiKey req ms :
  emits (W := W) (clientEvent apiKey req) (sleep ms).
Proof. apply emits_emit. right. eauto. Qed.

Lemma emits_attemptOnce apiKey req retries attempt :
  emits (clientEvent apiKey req) (attemptOnce apiKey req retries attempt).
Proof.
  unfold attemptOnce. apply emits_try_catch.
  - apply emits_bind; [apply emits_do_fetch |]. intros r.
    destruct ((status r =? 429) && (attempt <? retries)%nat).
    + apply emits_bind; [apply emits_sleep | intros; apply emits_ret].
    + destruct (negb (ok r)); [apply emits_throw |].
      destruct (status r =? 204); [apply emits_ret |].
      apply emits_bind; [apply emits_await | intros; apply emits_ret].
  - intros e.
    destruct ((attempt <? retries)%nat && Js.includes (message e) "secondly limit").
    + apply emits_bind; [apply emits_sleep | intros; apply emits_ret].
    + apply emits_throw.
Qed.

Lemma emits_hubspotRequest apiKey req retries :
  emits (clientEvent apiKey req) (hubspotRequest apiKey req retries).
Proof.
  unfold hubspotRequest. generalize (seq 0 (S retries)) as attempts.
  induction attempts as [| a attempts IH]; cbn [forAttempts].
  - apply emits_ret.
  - apply emits_bind; [apply emits_attemptOnce |].
    intros [| data]; [exact IH | apply emits_ret].
Qed.

Lemma emits_request_then {A} apiKey req retries (f : Json -> A) :
  emits (clientEvent apiKey req)
    (bind (hubspotRequest apiKey req retries) (fun data => ret (f data))).
Proof.
  apply emits_bind; [apply emits_hubspotRequest | intros; apply emits_ret].
Qed.

Lemma emits_searchDealsByLoanNumber apiKey ln :
  emits (clientEvent apiKey (ReqSearchLoanNumber ln))
    (searchDealsByLoanNumber apiKey ln).
Proof. apply emits_request_then. Qed.

Lemma emits_searchDealsByField apiKey f v :
  emits (clientEvent apiKey (ReqSearchField f v)) (searchDealsByField apiKey f v).
Proof. apply emits_request_then. Qed.

Lemma emits_batchGetDeals apiKey ids :
  emits (clientEvent apiKey (ReqBatchGetDeals ids)) (batchGetDeals apiKey ids).
Proof. apply emits_request_then. Qed.

Lemma emits_getEmailContactAssociations apiKey emailId :
  emits (clientEvent apiKey (ReqEmailContacts emailId))
    (getEmailContactAssociations apiKey emailId).
Proof.
  apply emits_try_catch; [apply emits_request_then |].
  intros e. destruct (Js.includes (message e) "404");
    [apply emits_ret | apply emits_throw].
Qed.

Lemma emits_getContactDealAssociations apiKey contactId :
  emits (clientEvent apiKey (ReqContactDeals contactId))
    (getContactDealAssociations apiKey contactId).
Proof.
  apply emits_try_catch; [apply emits_request_then |].
  intros e. destruct (Js.includes (message e) "404");
    [apply emits_ret | apply emits_throw].
Qed.

End ClientEmits.

(* ------------------------------------------------------------------ *)
(** ** The stage filter and the ranking *)
(* ------------------------------------------------------------------ *)

Lemma isTargetStage_allowed d :
  isTargetStage d = true <->
  exists stage, dealstage (properties d) = Some stage /\ In stage TARGET_STAGE_VALUES.
Proof.
  unfold isTargetStage. destruct (dealstage (properties d)) as [stage |].
  - rewrite existsb_exists. split.
    + intros (x & Hin & Heq). apply String.eqb_eq in Heq. subst. eauto.
    + intros (s & Hs & Hin). injection Hs as <-. exists stage.
      split; [assumption | apply String.eqb_refl].
  - split; [discriminate | intros (s & Hs & _); discriminate].
Qed.

Lemma insertByScore_In x y l : In y (insertByScore x l) <-> y = x \/ In y l.
Proof.
  induction l as [| z l IH]; simpl.
  - intuition congruence.
  - destruct (score z <=? score x); simpl; [intuition congruence |].
    rewrite IH. intuition congruence.
Qed.

(** Sorting neither adds nor loses candidates. *)
Lemma sortByScore_In y l : In y (sortByScore l) <-> In y l.
Proof.
  induction l as [| x l IH]; simpl; [tauto |].
  rewrite insertByScore_In, IH. intuition congruence.
Qed.

Lemma pickBest_sound candidates parsed m :
  pickBest candidates parsed = Some m ->
  isTargetStage (deal m) = true /\ CONFIDENCE_THRESHOLD <= confidence m
  /\ exists c, In c candidates /\ deal m = c_deal c /\ matchType m = c_matchType c.
Proof.
  unfold pickBest.
  destruct (sortByScore _) as [| best rest] eqn:S; [discriminate |].
  destruct (CONFIDENCE_THRESHOLD <=? score best) eqn:T; [| discriminate].
  intros E. injection E as <-. cbn [deal confidence matchType].
  assert (Hin : In best (sortByScore
    (map (fun c => mkScored c
                     (scoreMatch (c_matchType c) (c_matchValue c) (c_deal c) parsed))
         (filter (fun c => isTargetStage (c_deal c)) candidates))))
    by (rewrite S; now left).
  apply sortByScore_In, in_map_iff in Hin as (c & <- & Hc).
  apply filter_In in Hc as [Hc Ht]. cbn [s_cand].
  split; [assumption |]. split; [now apply Z.leb_le |]. eauto.
Qed.

(* ------------------------------------------------------------------ *)
(** ** The matching orchestrator *)
(* ------------------------------------------------------------------ *)

Section MatchingFacts.
Context {W : Type} {net : Net W}.

(** Loan numbers whose search finds nothing in an allowed stage are
    passed over. *)
Lemma loanNumberChannel_app apiKey pre rest :
  forall w w1 t1,
    loanNumberChannel apiKey pre w = (Ok None, w1, t1) ->
    loanNumberChannel apiKey (pre ++ rest) w
    = andThen t1 (loanNumberChannel apiKey rest w1).
Proof.
  induction pre as [| ln pre IH]; intros w w1 t1 E.
  - inversion E; subst. simpl. now rewrite andThen_nil.
  - cbn [app loanNumberChannel] in *.
    apply bind_inv in E as [(deals & w2 & t2 & t3 & E1 & E2 & ->) | (e & _ & E)];
      [| discriminate].
    erewrite bind_ok by eassumption.
    destruct (filter isTargetStage deals); [| discriminate].
    erewrite IH by eassumption. now rewrite andThen_andThen.
Qed.

Lemma loanNumberChannel_no_match apiKey lns w w1 t1 :
  NoLoanMatch apiKey lns w w1 t1 ->
  loanNumberChannel apiKey lns w = (Ok None, w1, t1).
Proof.
  induction 1 as [w | ln lns deals w w1 t1 w2 t2 E F _ IH]; [reflexivity |].
  cbn [loanNumberChannel]. erewrite bind_ok by eassumption.
  now rewrite F, IH.
Qed.

Lemma loanNumberChannel_hit apiKey ln post w deals w1 t1 d rest :
  searchDealsByLoanNumber apiKey ln w = (Ok deals, w1, t1) ->
  filter isTargetStage deals = d :: rest ->
  loanNumberChannel apiKey (ln :: post) w
  = (Ok (Some (mkMatch d 100 loan_number_match)), w1, t1).
Proof.
  intros E F. cbn [loanNumberChannel]. erewrite bind_ok by eassumption.
  rewrite F. unfold andThen, ret. now rewrite app_nil_r.
Qed.

Lemma loanNumberChannel_sound apiKey lns :
  forall w m w' tr,
    loanNumberChannel apiKey lns w = (Ok (Some m), w', tr) ->
    isTargetStage (deal m) = true /\ confidence m = 100
    /\ matchType m = loan_number_match.
Proof.
  induction lns as [| ln lns IH]; intros w m w' tr E; [discriminate |].
  cbn [loanNumberChannel] in E.
  apply bind_inv in E as [(deals & w2 & t2 & t3 & E1 & E2 & ->) | (e & _ & E)];
    [| discriminate].
  destruct (filter isTargetStage deals) as [| d rest] eqn:F; [eauto |].
  inversion E2; subst. cbn.
  assert (Hin : In d (filter isTargetStage deals)) by (rewrite F; now left).
  apply filter_In in Hin as [_ Ht]. auto.
Qed.

Lemma emits_loanNumberChannel apiKey lns :
  emits (fun e => isFieldSearch e = false /\ isAssociate e = false)
    (loanNumberChannel apiKey lns).
Proof.
  induction lns as [| ln lns IH]; cbn [loanNumberChannel]; [apply emits_ret |].
  apply emits_bind.
  - eapply emits_weaken; [| apply emits_searchDealsByLoanNumber].
    intros e [-> | (ms & ->)]; auto.
  - intros deals. destruct (filter isTargetStage deals); [exact IH | apply emits_ret].
Qed.

Lemma findMatch_sound apiKey parsed w m w' tr :
  findMatch apiKey parsed w = (Ok (Some m), w', tr) ->
  isTargetStage (deal m) = true
  /\ ((confidence m = 100 /\ matchType m = loan_number_match)
      \/ CONFIDENCE_THRESHOLD <= confidence m).
Proof.
  unfold findMatch. intros E.
  apply bind_inv in E as [(byLoan & w1 & t1 & t2 & E1 & E2 & ->) | (e & _ & E)];
    [| discriminate].
  destruct byLoan as [m1 |].
  - inversion E2; subst. apply loanNumberChannel_sound in E1. tauto.
  - apply bind_inv in E2 as [(c1 & w2 & t3 & t4 & C1 & E2 & ->) | (e & _ & E)];
      [| discriminate].
    apply bind_inv in E2 as [(c2 & w3 & t5 & t6 & C2 & E2 & ->) | (e & _ & E)];
      [| discriminate].
    inversion E2 as [[P Hw Ht]].
    apply pickBest_sound in P as (Ht' & Hc & _). auto.
Qed.

(** C1. When the search for one of the extracted loan numbers returns a
    deal in an allowed stage (the searches for the loan numbers before it
    having returned none), [findMatch] returns the first such deal at
    confidence 100 with match type ['loan_number'], in the world that
    search left, and the only requests made are the loan-number searches:
    the deal-name and address channels search nothing. *)
Theorem C1_loan_number_short_circuit
    (apiKey : string) (parsed : Parsed) (pre post : list string) (ln : string)
    (w w1 w2 : W) (t1 t2 : list Event) (deals rest : list Deal) (d : Deal) :
  loanNumbers parsed = pre ++ ln :: post ->
  NoLoanMatch apiKey pre w w1 t1 ->
  searchDealsByLoanNumber apiKey ln w1 = (Ok deals, w2, t2) ->
  filter isTargetStage deals = d :: rest ->
  findMatch apiKey parsed w
  = (Ok (Some (mkMatch d 100 loan_number_match)), w2, t1 ++ t2)
  /\ Forall (fun e => isFieldSearch e = false) (t1 ++ t2).
Proof.
  intros Hl Hpre Hs Hf. apply loanNumberChannel_no_match in Hpre.
  assert (E : loanNumberChannel apiKey (loanNumbers parsed) w
              = (Ok (Some (mkMatch d 100 loan_number_match)), w2, t1 ++ t2)).
  { rewrite Hl. erewrite loanNumberChannel_app by eassumption.
    erewrite loanNumberChannel_hit by eassumption. reflexivity. }
  split.
  - unfold findMatch. erewrite bind_ok by eassumption.
    unfold andThen, ret. now rewrite app_nil_r.
  - eapply Forall_impl; [| eapply emits_loanNumberChannel; exact E].
    intros e [He _]. exact He.
Qed.

(** C3. A deal whose stage is not in the allowed stage set is never the
    deal [findMatch] returns, whichever channel produced the match. *)
Theorem C3_stage_allow_list (d : Deal) (apiKey : string) (parsed : Parsed)
    (w w' : W) (m : MatchResult) (tr : list Event) :
  (forall stage, dealstage (properties d) = Some stage ->
                 ~ In stage TARGET_STAGE_VALUES) ->
  findMatch apiKey parsed w = (Ok (Some m), w', tr) ->
  deal m <> d.
Proof.
  intros Hout E Heq. apply findMatch_sound in E as [Ht _].
  rewrite Heq in Ht. apply isTargetStage_allowed in Ht as (stage & Hs & Hin).
  exact (Hout stage Hs Hin).
Qed.

End MatchingFacts.

(* ------------------------------------------------------------------ *)
(** ** The fallback resolver *)
(* ------------------------------------------------------------------ *)

Section FallbackFacts.
Context {W : Type} {net : Net W}.

Lemma fallbackContacts_skip apiKey c rest w w1 t1 :
  Skipped apiKey c w w1 t1 ->
  fallbackContacts apiKey (c :: rest) w
  = andThen t1 (fallbackContacts apiKey rest w1).
Proof.
  intros S. cbn [fallbackContacts].
  destruct S as [das w1 t1 E Hn | a deals w1 t1 w2 t2 E B Hn].
  - erewrite bind_ok by eassumption.
    destruct das as [| a [| b das]]; try reflexivity. now elim Hn.
  - erewrite bind_ok by eassumption. cbv beta iota.
    erewrite bind_ok by eassumption.
    rewrite andThen_andThen.
    destruct deals as [| d [| d' deals]]; try reflexivity. now elim Hn.
Qed.

Lemma fallbackContacts_all_skipped apiKey pre rest w w1 t1 :
  AllSkipped apiKey pre w w1 t1 ->
  fallbackContacts apiKey (pre ++ rest) w
  = andThen t1 (fallbackContacts apiKey rest w1).
Proof.
  induction 1 as [w | c cs w w1 t1 w2 t2 S _ IH].
  - simpl. now rewrite andThen_nil.
  - cbn [app]. erewrite fallbackContacts_skip by eassumption.
    now rewrite IH, andThen_andThen.
Qed.

Lemma fallbackContacts_hit apiKey c rest w d w2 t :
  Qualifies apiKey c w d w2 t ->
  fallbackContacts apiKey (c :: rest) w
  = (Ok (Some (mkMatch d 100 single_contact_deal)), w2, t).
Proof.
  intros [a d' w1 t1 w2' t2 E B]. cbn [fallbackContacts].
  erewrite bind_ok by eassumption. cbv beta iota.
  erewrite bind_ok by eassumption.
  unfold andThen, ret. now rewrite app_nil_r.
Qed.

Lemma fallbackContacts_sound apiKey contacts :
  forall w m w' tr,
    fallbackContacts apiKey contacts w = (Ok (Some m), w', tr) ->
    confidence m = 100 /\ matchType m = single_contact_deal.
Proof.
  induction contacts as [| c contacts IH]; intros w m w' tr E; [discriminate |].
  cbn [fallbackContacts] in E.
  apply bind_inv in E as [(das & w2 & t2 & t3 & E1 & E2 & ->) | (e & _ & E)];
    [| discriminate].
  destruct das as [| a [| b das]]; eauto.
  apply bind_inv in E2 as [(ds & w3 & t4 & t5 & B1 & B2 & ->) | (e & _ & E)];
    [| discriminate].
  destruct ds as [| d [| d' ds]]; eauto.
  inversion B2; subst. auto.
Qed.

Lemma fallbackSingleContactDeal_sound apiKey emailId w m w' tr :
  fallbackSingleContactDeal apiKey emailId w = (Ok (Some m), w', tr) ->
  confidence m = 100 /\ matchType m = single_contact_deal.
Proof.
  unfold fallbackSingleContactDeal. intros E.
  apply try_catch_inv in E as [(a & E & Ha) | (e & w1 & t1 & t2 & _ & E & _)].
  - injection Ha as <-.
    apply bind_inv in E as [(cs & w2 & t2 & t3 & _ & E2 & _) | (e & _ & E)];
      [| discriminate].
    eapply fallbackContacts_sound; eauto.
  - apply bind_inv in E as [(u & w2 & t3 & t4 & _ & E2 & _) | (e' & _ & E)];
      discriminate.
Qed.

(** The resolver itself never raises. *)
Lemma fallbackSingleContactDeal_total apiKey emailId w :
  exists r w' tr, fallbackSingleContactDeal apiKey emailId w = (Ok r, w', tr).
Proof.
  unfold fallbackSingleContactDeal, try_catch.
  destruct (bind _ _ w) as [[[a | e] w1] t1]; eauto.
  unfold bind, console_error, emit, ret. eauto.
Qed.

Lemma emits_fallbackContacts apiKey contacts :
  emits (fun e => isAssociate e = false) (fallbackContacts apiKey contacts).
Proof.
  induction contacts as [| c contacts IH]; cbn [fallbackContacts];
    [apply emits_ret |].
  apply emits_bind.
  - eapply emits_weaken; [| apply emits_getContactDealAssociations].
    intros e [-> | (ms & ->)]; auto.
  - intros [| a [| b das]]; try exact IH.
    apply emits_bind.
    + eapply emits_weaken; [| apply emits_batchGetDeals].
      intros e [-> | (ms & ->)]; auto.
    + intros [| d [| d' ds]]; try exact IH. apply emits_ret.
Qed.

Lemma emits_fallbackSingleContactDeal apiKey emailId :
  emits (fun e => isAssociate e = false)
    (fallbackSingleContactDeal apiKey emailId).
Proof.
  apply emits_try_catch.
  - apply emits_bind; [| intros; apply emits_fallbackContacts].
    eapply emits_weaken; [| apply emits_getEmailContactAssociations].
    intros e [-> | (ms & ->)]; auto.
  - intros e. apply emits_bind; [now apply emits_emit | intros; apply emits_ret].
Qed.

Lemma fallback_first_sole_deal apiKey emailId pre c post d w w0 t0 w1 t1 w2 t2 :
  getEmailContactAssociations apiKey emailId w = (Ok (pre ++ c :: post), w0, t0) ->
  AllSkipped apiKey pre w0 w1 t1 ->
  Qualifies apiKey c w1 d w2 t2 ->
  fallbackSingleContactDeal apiKey emailId w
  = (Ok (Some (mkMatch d 100 single_contact_deal)), w2, t0 ++ t1 ++ t2).
Proof.
  intros E S Q.
  unfold fallbackSingleContactDeal. erewrite try_catch_ok; [reflexivity |].
  erewrite bind_ok by eassumption.
  erewrite fallbackContacts_all_skipped by eassumption.
  erewrite fallbackContacts_hit by eassumption. reflexivity.
Qed.

(** C5 (amended). The resolver goes through the email's contacts in
    association order. Every contact with zero or several associated
    deals, or with one deal whose read does not return exactly one record,
    is skipped; the first contact with exactly one associated deal whose
    read returns exactly one record yields that record at confidence 100
    with match type ['single_contact_deal']; when every contact is
    skipped the resolver returns no match. *)
Theorem C5_fallback_first_sole_deal
    (apiKey emailId : string) (contacts : list Assoc) (w w0 : W) (t0 : list Event) :
  getEmailContactAssociations apiKey emailId w = (Ok contacts, w0, t0) ->
  (forall pre c post d w1 t1 w2 t2,
      contacts = pre ++ c :: post ->
      AllSkipped apiKey pre w0 w1 t1 ->
      Qualifies apiKey c w1 d w2 t2 ->
      fallbackSingleContactDeal apiKey emailId w
      = (Ok (Some (mkMatch d 100 single_contact_deal)), w2, t0 ++ t1 ++ t2))
  /\ (forall w1 t1,
        AllSkipped apiKey contacts w0 w1 t1 ->
        fallbackSingleContactDeal apiKey emailId w = (Ok None, w1, t0 ++ t1)).
Proof.
  intros E. split.
  - intros pre c post d w1 t1 w2 t2 -> S Q.
    eapply fallback_first_sole_deal; eassumption.
  - intros w1 t1 S.
    unfold fallbackSingleContactDeal. erewrite try_catch_ok; [reflexivity |].
    erewrite bind_ok by eassumption.
    rewrite <- (app_nil_r contacts).
    erewrite fallbackContacts_all_skipped by eassumption.
    cbn. now rewrite app_nil_r.
Qed.

(** C4 (amended). When the deal lookup of one contact fails (the contacts
    before it having been skipped), what happens depends on the failure. If its message contains "404", the lookup
    helper swallows it without logging, the contact counts as having no
    deals and the resolver goes on with the next contact. Any other
    failure is caught at the resolver's own boundary: it is logged, the
    resolver returns no match, and no later contact is looked up. *)
Theorem C4_fallback_lookup_failure
    (apiKey emailId : string) (pre post : list Assoc) (c : Assoc)
    (w w0 w1 w2 : W) (t0 t1 t2 : list Event) (e : JsError) :
  getEmailContactAssociations apiKey emailId w = (Ok (pre ++ c :: post), w0, t0) ->
  AllSkipped apiKey pre w0 w1 t1 ->
  hubspotRequest apiKey (ReqContactDeals (toObjectId c)) default_retries w1
  = (Throw e, w2, t2) ->
  fallbackSingleContactDeal apiKey emailId w
  = if Js.includes (message e) "404"
    then andThen (t0 ++ t1 ++ t2)
           (try_catch (fallbackContacts apiKey post)
              (fun error =>
                 console_error ("Fallback error: " ++ message error) ;;
                 ret None) w2)
    else (Ok None, w2,
          t0 ++ t1 ++ t2 ++ [EvError ("Fallback error: " ++ message e)]).
Proof.
  intros E Hpre Hreq.
  assert (L : getContactDealAssociations apiKey (toObjectId c) w1
              = if Js.includes (message e) "404"
                then (Ok [], w2, t2) else (Throw e, w2, t2)).
  { unfold getContactDealAssociations. erewrite try_catch_throw.
    2:{ erewrite bind_throw by eassumption. reflexivity. }
    destruct (Js.includes (message e) "404"); cbn; now rewrite app_nil_r. }
  assert (F : bind (getEmailContactAssociations apiKey emailId)
                (fun contactAssocs => fallbackContacts apiKey contactAssocs) w
              = andThen (t0 ++ t1)
                  (fallbackContacts apiKey (c :: post) w1)).
  { erewrite bind_ok by eassumption.
    erewrite fallbackContacts_all_skipped by eassumption.
    now rewrite andThen_andThen. }
  unfold fallbackSingleContactDeal, try_catch. rewrite F.
  cbn [fallbackContacts]. unfold bind at 1. rewrite L.
  destruct (Js.includes (message e) "404").
  - unfold try_catch, andThen.
    destruct (fallbackContacts apiKey post w2) as [[[r | e'] w3] t3]; cbn.
    + now rewrite <- !app_assoc.
    + now rewrite <- !app_assoc.
  - cbn. now rewrite <- !app_assoc.
Qed.

End FallbackFacts.

(* ------------------------------------------------------------------ *)
(** ** The handler *)
(* ------------------------------------------------------------------ *)

Lemma clientEvent_not_associate apiKey req e :
  (forall eid did, req <> ReqAssociate eid did) ->
  clientEvent apiKey req e -> isAssociate e = false.
Proof.
  intros Hreq [-> | (ms & ->)]; [| reflexivity].
  destruct req; try reflexivity. now elim (Hreq emailId dealId).
Qed.

Section RequestFacts.
Context {W : Type} {net : Net W}.

(** Every call of the client puts at least one request on the wire. *)
Lemma hubspotRequest_first_fetch apiKey req retries w r w' tr :
  hubspotRequest apiKey req retries w = (r, w', tr) ->
  exists tr', tr = EvFetch apiKey req :: tr'.
Proof.
  unfold hubspotRequest. cbn [seq forAttempts]. intros E.
  assert (D : forall o w1 t1,
             do_fetch apiKey req w = (o, w1, t1) -> t1 = [EvFetch apiKey req]).
  { intros o w1 t1. unfold do_fetch.
    destruct (fetch apiKey req w). now intros [= _ _ <-]. }
  assert (A : forall c w1 t1,
             attemptOnce apiKey req retries 0 w = (c, w1, t1) ->
             exists t', t1 = EvFetch apiKey req :: t').
  { intros c w1 t1 A. unfold attemptOnce in A.
    apply try_catch_inv in A
      as [(a & A & _) | (e & w2 & t2 & t3 & A & _ & ->)];
      apply bind_inv in A
        as [(resp & w3 & t4 & t5 & F & _ & ->) | (e' & F & _)];
      apply D in F; subst; cbn; eauto. }
  apply bind_inv in E as [(c & w1 & t1 & t2 & E1 & _ & ->) | (e & E1 & _)];
    apply A in E1 as (t' & ->); cbn; eauto.
Qed.

Lemma emits_dealNameChannel apiKey names :
  forall candidates,
    emits (fun e => isAssociate e = false)
      (dealNameChannel apiKey names candidates).
Proof.
  induction names as [| name names IH]; intros candidates;
    cbn [dealNameChannel]; [apply emits_ret |].
  destruct (String.length (cleanSearchValue name) <? 3)%nat; [apply IH |].
  apply emits_bind; [now apply emits_emit | intros _].
  apply emits_bind.
  { eapply emits_weaken; [| apply emits_searchDealsByField].
    intros e. now apply clientEvent_not_associate. }
  intros deals. apply emits_bind; [| intros; apply IH].
  destruct deals; [| apply emits_ret].
  eapply emits_weaken; [| apply emits_searchDealsByField].
  intros e. now apply clientEvent_not_associate.
Qed.

Lemma emits_addressChannel apiKey addrs :
  forall candidates,
    emits (fun e => isAssociate e = false)
      (addressChannel apiKey addrs candidates).
Proof.
  induction addrs as [| addr addrs IH]; intros candidates;
    cbn [addressChannel]; [apply emits_ret |].
  destruct (String.length (cleanSearchValue addr) <? 5)%nat; [apply IH |].
  cbv zeta.
  apply emits_bind; [now apply emits_emit | intros _].
  apply emits_bind.
  { eapply emits_weaken; [| apply emits_searchDealsByField].
    intros e. now apply clientEvent_not_associate. }
  intros deals. apply emits_bind; [| intros; apply IH].
  destruct deals; [| apply emits_ret].
  eapply emits_weaken; [| apply emits_searchDealsByField].
  intros e. now apply clientEvent_not_associate.
Qed.

Lemma emits_findMatch apiKey parsed :
  emits (fun e => isAssociate e = false) (findMatch apiKey parsed).
Proof.
  unfold findMatch. apply emits_bind.
  - eapply emits_weaken; [| apply emits_loanNumberChannel]. now intros e [_ ?].
  - intros [m |]; [apply emits_ret |].
    apply emits_bind; [apply emits_dealNameChannel | intros c1].
    apply emits_bind; [apply emits_addressChannel | intros; apply emits_ret].
Qed.

End RequestFacts.

Section HandlerFacts.
Context {W : Type} {net : Net W} {extractor : Extractor}.

Lemma emits_matchEmail apiKey evt :
  emits (fun e => isAssociate e = false) (matchEmail apiKey evt).
Proof.
  unfold matchEmail. apply emits_bind.
  { eapply emits_weaken; [| apply emits_hubspotRequest].
    intros e. now apply clientEvent_not_associate. }
  intros email. apply emits_bind.
  { destruct email as [| | | | [p |]]; (apply emits_ret || apply emits_throw). }
  intros props. apply emits_bind; [apply emits_findMatch |].
  intros [m |]; [apply emits_ret | apply emits_fallbackSingleContactDeal].
Qed.

Lemma matchEmail_acceptable apiKey evt w m w' tr :
  matchEmail apiKey evt w = (Ok (Some m), w', tr) -> acceptable m.
Proof.
  unfold matchEmail. intros E.
  apply bind_inv in E as [(email & w1 & t1 & t2 & _ & E & _) | (e & _ & E)];
    [| discriminate].
  apply bind_inv in E as [(props & w2 & t3 & t4 & _ & E & _) | (e & _ & E)];
    [| discriminate].
  apply bind_inv in E as [(found & w3 & t5 & t6 & F & E & _) | (e & _ & E)];
    [| discriminate].
  destruct found as [m' |].
  - inversion E; subst.
    apply findMatch_sound in F as [_ [[Hc Hm] | Hc]]; [right | left]; auto.
  - apply fallbackSingleContactDeal_sound in E as [Hc Hm]. right. auto.
Qed.

(** An association write in the trace of one email's processing is the
    write for the match that was resolved for that email. *)
Lemma processEmail_associate apiKey evt w r w' tr k eid did :
  processEmail apiKey evt w = (r, w', tr) ->
  In (EvFetch k (ReqAssociate eid did)) tr ->
  exists m w1 t1,
    matchEmail apiKey evt w = (Ok (Some m), w1, t1)
    /\ k = apiKey /\ eid = String_ (objectId evt) /\ did = deal_id (deal m).
Proof.
  unfold processEmail. intros E Hin.
  assert (NoA : forall r1 w1 t1, matchEmail apiKey evt w = (r1, w1, t1) ->
                                 ~ In (EvFetch k (ReqAssociate eid did)) t1).
  { intros r1 w1 t1 M Hin1. apply emits_matchEmail in M.
    rewrite Forall_forall in M. now specialize (M _ Hin1). }
  apply bind_inv in E as [(found & w1 & t1 & t2 & M & C & ->) | (e & M & _)].
  2:{ now elim (NoA _ _ _ M). }
  apply in_app_or in Hin as [Hin | Hin]; [now elim (NoA _ _ _ M) |].
  destruct found as [m |]; cbn [commitMatch] in C.
  - exists m, w1, t1. split; [assumption |].
    assert (P : Forall (fun e => e = EvFetch apiKey
                  (ReqAssociate (String_ (objectId evt)) (deal_id (deal m)))
                  \/ exists ms, e = EvSleep ms) t2).
    { revert C. apply (emits_bind (W := W)).
      - apply emits_hubspotRequest.
      - intros _. apply emits_bind; [| intros; apply emits_ret].
        apply emits_emit. right. eauto. }
    rewrite Forall_forall in P.
    destruct (P _ Hin) as [Q | (ms & Q)]; [| discriminate].
    injection Q as -> -> ->. auto.
  - inversion C; subst. destruct Hin as [Q | []]. discriminate.
Qed.

Lemma processEvent_cases apiKey evt w :
  (exists r w' tr, processEmail apiKey evt w = (Ok r, w', tr)
                   /\ processEvent apiKey evt w = (Ok r, w', tr))
  \/ (exists e w' tr,
        processEmail apiKey evt w = (Throw e, w', tr)
        /\ processEvent apiKey evt w
           = (Ok None, w',
              tr ++ [EvError ("Error processing email " ++ String_ (objectId evt)
                              ++ ": " ++ message e)])).
Proof.
  unfold processEvent, try_catch.
  destruct (processEmail apiKey evt w) as [[[r | e] w1] t1]; [left | right]; eauto 7.
Qed.

Lemma matchEmail_first_fetch apiKey evt w r w' tr :
  matchEmail apiKey evt w = (r, w', tr) ->
  In (EvFetch apiKey (ReqGetEmail (String_ (objectId evt)))) tr.
Proof.
  unfold matchEmail, getEmail. intros E.
  apply bind_inv in E as [(a & w2 & t2 & t3 & R & _ & ->) | (e & R & _)];
    apply hubspotRequest_first_fetch in R as (t' & ->); now left.
Qed.

Lemma processEmail_first_fetch apiKey evt w r w' tr :
  processEmail apiKey evt w = (r, w', tr) ->
  In (EvFetch apiKey (ReqGetEmail (String_ (objectId evt)))) tr.
Proof.
  unfold processEmail. intros E.
  apply bind_inv in E as [(found & w1 & t1 & t2 & M & _ & ->) | (e & M & _)];
    apply matchEmail_first_fetch in M; [apply in_or_app; now left | assumption].
Qed.

Lemma processEmail_result apiKey evt w entry w' tr :
  processEmail apiKey evt w = (Ok (Some entry), w', tr) ->
  r_emailId entry = objectId evt
  /\ In (EvFetch apiKey
           (ReqAssociate (String_ (r_emailId entry)) (r_dealId entry))) tr.
Proof.
  unfold processEmail. intros E.
  apply bind_inv in E as [(found & w1 & t1 & t2 & _ & C & ->) | (e & _ & E)];
    [| discriminate].
  destruct found as [m |]; cbn [commitMatch] in C.
  - apply bind_inv in C as [(j & w2 & t3 & t4 & A & C & ->) | (e & _ & E)];
      [| discriminate].
    apply bind_inv in C as [(u & w3 & t5 & t6 & _ & C & ->) | (e & _ & E)];
      [| discriminate].
    inversion C; subst. cbn [r_emailId r_dealId]. split; [reflexivity |].
    apply hubspotRequest_first_fetch in A as (t' & ->).
    apply in_or_app. right. now left.
  - apply bind_inv in C as [(u & w3 & t5 & t6 & _ & C & ->) | (e & _ & E)];
      discriminate.
Qed.

(** The loop over the batch always completes, and it is a [BatchRun]. *)
Lemma processEvents_run apiKey evts :
  forall results w,
  exists added w' tr,
    BatchRun apiKey evts w added w' tr
    /\ processEvents apiKey evts results w = (Ok (results ++ added), w', tr).
Proof.
  induction evts as [| evt evts IH]; intros results w.
  - exists [], w, []. split; [constructor |].
    cbn [processEvents]. now rewrite app_nil_r.
  - cbn [processEvents].
    destruct (processEvent_cases apiKey evt w)
      as [(r & w1 & t1 & PE & PV) | (e & w1 & t1 & PE & PV)];
      erewrite bind_ok by eassumption.
    + destruct r as [entry |].
      * destruct (IH (results ++ [entry]) w1) as (added & w2 & t2 & R & E).
        rewrite E. exists (entry :: added), w2, (t1 ++ t2).
        split; [eapply batch_matched; eassumption |].
        cbn. now rewrite <- app_assoc.
      * destruct (IH results w1) as (added & w2 & t2 & R & E).
        rewrite E. exists added, w2, (t1 ++ t2).
        split; [eapply batch_unmatched; eassumption | reflexivity].
    + destruct (IH results w1) as (added & w2 & t2 & R & E).
      rewrite E. eexists added, w2, _.
      split; [eapply batch_failed; eassumption |].
      cbn. now rewrite <- app_assoc.
Qed.

(** A run starts on every email of the batch. *)
Lemma BatchRun_started apiKey evts w results w' tr :
  BatchRun apiKey evts w results w' tr ->
  forall evt, In evt evts ->
    In (EvFetch apiKey (ReqGetEmail (String_ (objectId evt)))) tr.
Proof.
  induction 1 as [w | evt rest entry results w w1 t1 w2 t2 PE _ IH
                    | evt rest results w w1 t1 w2 t2 PE _ IH
                    | evt rest results e w w1 t1 w2 t2 PE _ IH];
    intros x Hx; [destruct Hx | | |];
    apply processEmail_first_fetch in PE;
    (destruct Hx as [<- | Hx]; apply in_or_app; [now left | right]);
    auto using in_cons.
Qed.

(** Every entry of a run stands for an email of the batch whose
    association request was sent. *)
Lemma BatchRun_entries apiKey evts w results w' tr :
  BatchRun apiKey evts w results w' tr ->
  forall entry, In entry results ->
    (exists evt, In evt evts /\ r_emailId entry = objectId evt)
    /\ In (EvFetch apiKey
             (ReqAssociate (String_ (r_emailId entry)) (r_dealId entry))) tr.
Proof.
  induction 1 as [w | evt rest entry results w w1 t1 w2 t2 PE _ IH
                    | evt rest results w w1 t1 w2 t2 PE _ IH
                    | evt rest results e w w1 t1 w2 t2 PE _ IH];
    intros x Hx.
  - destruct Hx.
  - destruct Hx as [<- | Hx].
    + apply processEmail_result in PE as [Hid Hassoc].
      split; [exists evt; split; [now left | assumption] |].
      apply in_or_app. now left.
    + destruct (IH x Hx) as ((y & Hy & Hxy) & Hin).
      split; [exists y; split; [now right | assumption] |].
      apply in_or_app. now right.
  - destruct (IH x Hx) as ((y & Hy & Hxy) & Hin).
    split; [exists y; split; [now right | assumption] |].
    apply in_or_app. now right.
  - destruct (IH x Hx) as ((y & Hy & Hxy) & Hin).
    split; [exists y; split; [now right | assumption] |].
    apply in_or_app. right. now right.
Qed.

Lemma processEvents_associate apiKey evts k eid did :
  forall results w r w' tr,
    processEvents apiKey evts results w = (r, w', tr) ->
    In (EvFetch k (ReqAssociate eid did)) tr ->
    exists evt w0 m w1 t1,
      In evt evts
      /\ matchEmail apiKey evt w0 = (Ok (Some m), w1, t1)
      /\ k = apiKey /\ eid = String_ (objectId evt) /\ did = deal_id (deal m).
Proof.
  induction evts as [| evt evts IH]; intros results w r w' tr E Hin.
  - inversion E; subst. destruct Hin.
  - cbn [processEvents] in E.
    assert (Here : forall r1 w1 t1,
               processEvent apiKey evt w = (r1, w1, t1) ->
               In (EvFetch k (ReqAssociate eid did)) t1 ->
               exists m w2 t2,
                 matchEmail apiKey evt w = (Ok (Some m), w2, t2)
                 /\ k = apiKey /\ eid = String_ (objectId evt)
                 /\ did = deal_id (deal m)).
    { intros r1 w1 t1 PV Hin1.
      destruct (processEvent_cases apiKey evt w)
        as [(r2 & w2 & t2 & PE & PV') | (e & w2 & t2 & PE & PV')];
        rewrite PV' in PV; inversion PV; subst.
      - eapply processEmail_associate; eauto.
      - apply in_app_or in Hin1 as [Hin1 | [Q | []]]; [| discriminate].
        eapply processEmail_associate; eauto. }
    apply bind_inv in E as [(r1 & w1 & t1 & t2 & PV & E & ->) | (e & PV & _)].
    + apply in_app_or in Hin as [Hin | Hin].
      * destruct (Here _ _ _ PV Hin) as (m & w2 & t3 & M & Q).
        exists evt, w, m, w2, t3. split; [now left | auto].
      * destruct (IH _ _ _ _ _ E Hin) as (x & w0 & m & w2 & t3 & Hx & Q).
        exists x, w0, m, w2, t3. split; [now right | auto].
    + destruct (Here _ _ _ PV Hin) as (m & w2 & t3 & M & Q).
      exists evt, w, m, w2, t3. split; [now left | auto].
Qed.

(** C2. Whenever the handler writes an email-to-deal association, the
    write is for a match resolved for one of the batch's emails, and that
    match is at or above the acceptance threshold, or it is a loan-number
    or single-contact match, which carry confidence 100. *)
Theorem C2_commit_only_acceptable
    (event : Invocation) (w w' : W) (r : outcome HttpResponse) (tr : list Event)
    (k eid did : string) :
  handler event w = (r, w', tr) ->
  In (EvFetch k (ReqAssociate eid did)) tr ->
  exists evs evt w0 m w1 t1,
    parsed_body event = Ok evs /\ In evt (uniqueEvents evs)
    /\ matchEmail k evt w0 = (Ok (Some m), w1, t1)
    /\ eid = String_ (objectId evt) /\ did = deal_id (deal m)
    /\ acceptable m.
Proof.
  unfold handler. intros E Hin.
  destruct (String.eqb (httpMethod event) "GET");
    [inversion E; subst; destruct Hin |].
  destruct (String.eqb (httpMethod event) "POST");
    [| inversion E; subst; destruct Hin].
  assert (Body : forall apiKey r1 w1 t1,
    bind (await (parsed_body event))
      (fun events =>
         bind (processEvents apiKey (uniqueEvents events) [])
           (fun results => ret (mkHttp 200 (BodySuccess (length results) results))))
      w = (r1, w1, t1) ->
    In (EvFetch k (ReqAssociate eid did)) t1 ->
    exists evs evt w0 m w2 t2,
      parsed_body event = Ok evs /\ In evt (uniqueEvents evs)
      /\ matchEmail k evt w0 = (Ok (Some m), w2, t2)
      /\ eid = String_ (objectId evt) /\ did = deal_id (deal m)
      /\ acceptable m).
  { intros apiKey r1 w1 t1 B Hin1.
    apply bind_inv in B as [(evs & w2 & t2 & t3 & Aw & B & ->) | (e & Aw & _)].
    2:{ inversion Aw; subst. destruct Hin1. }
    inversion Aw; subst. cbn [app] in Hin1.
    assert (exists r2 w3 t4,
               processEvents apiKey (uniqueEvents evs) [] w2 = (r2, w3, t4)
               /\ In (EvFetch k (ReqAssociate eid did)) t4) as (r2 & w3 & t4 & P & Hin4).
    { apply bind_inv in B as [(rs & w3 & t4 & t5 & P & B & ->) | (e & P & _)].
      - inversion B; subst. rewrite app_nil_r in Hin1. eauto.
      - eauto. }
    destruct (processEvents_associate _ _ _ _ _ _ _ _ _ _ P Hin4)
      as (evt & w0 & m & w4 & t5 & Hevt & M & -> & -> & ->).
    exists evs, evt, w0, m, w4, t5.
    repeat (split; [solve [auto] |]).
    eapply matchEmail_acceptable; eauto. }
  apply try_catch_inv in E
    as [(a & E & _) | (e & w1 & t1 & t2 & E & Hh & ->)].
  - destruct (env_HUBSPOT_API_KEY event) as [[| c key] |];
      try (inversion E; subst; now destruct Hin).
    eapply Body; eauto.
  - apply in_app_or in Hin as [Hin | Hin].
    + destruct (env_HUBSPOT_API_KEY event) as [[| c key] |];
        try (inversion E; subst; now destruct Hin).
      eapply Body; eauto.
    + apply bind_inv in Hh as [(u & w2 & t3 & t4 & L & R & ->) | (e' & L & _)];
        inversion L; subst.
      inversion R; subst. destruct Hin as [Q | []]. discriminate.
Qed.

(** C10. The fallback resolver does not look at the stage. When content
    matching finds nothing and the first contact that is not skipped has
    exactly one associated deal, the resolver returns that deal at
    confidence 100 and the handler writes the association, also when the
    deal's stage is outside the allowed stage set. *)
Theorem C10_fallback_ignores_stage
    (apiKey : string) (evt : WebhookEvent) (props : EmailProps)
    (pre post : list Assoc) (c : Assoc) (d : Deal)
    (w w1 w2 w3 w4 w5 : W) (t1 t2 t3 t4 t5 : list Event) :
  let emailId := String_ (objectId evt) in
  let subject := Js.orElse (hs_email_subject props) "" in
  let body := Js.orElse (hs_email_text props) (Js.orElse (hs_email_html props) "") in
  getEmail apiKey emailId w = (Ok (JEmail (Some props)), w1, t1) ->
  findMatch apiKey (parseEmail subject body) w1 = (Ok None, w2, t2) ->
  getEmailContactAssociations apiKey emailId w2 = (Ok (pre ++ c :: post), w3, t3) ->
  AllSkipped apiKey pre w3 w4 t4 ->
  Qualifies apiKey c w4 d w5 t5 ->
  isTargetStage d = false ->
  fallbackSingleContactDeal apiKey emailId w2
  = (Ok (Some (mkMatch d 100 single_contact_deal)), w5, t3 ++ t4 ++ t5)
  /\ exists r w6 tr,
       processEvent apiKey evt w = (r, w6, tr)
       /\ In (EvFetch apiKey (ReqAssociate emailId (deal_id d))) tr.
Proof.
  intros emailId subject body G F A S Q _.
  assert (FB : fallbackSingleContactDeal apiKey emailId w2
               = (Ok (Some (mkMatch d 100 single_contact_deal)), w5,
                  t3 ++ t4 ++ t5)).
  { eapply fallback_first_sole_deal; eassumption. }
  split; [exact FB |].
  assert (M : matchEmail apiKey evt w
              = (Ok (Some (mkMatch d 100 single_contact_deal)), w5,
                 t1 ++ t2 ++ t3 ++ t4 ++ t5)).
  { unfold matchEmail. fold emailId.
    erewrite bind_ok by exact G. cbv beta iota.
    erewrite bind_ok by reflexivity. rewrite andThen_nil. cbv beta zeta.
    fold subject body.
    erewrite bind_ok by exact F. cbv beta iota.
    rewrite FB. reflexivity. }
  destruct (associateEmailToDeal apiKey emailId (deal_id d) w5)
    as [[ra w6] ta] eqn:A6.
  pose proof A6 as A6'.
  apply hubspotRequest_first_fetch in A6' as (ta' & ->).
  assert (exists r w7 tc,
             commitMatch apiKey evt
               (Some (mkMatch d 100 single_contact_deal)) w5 = (r, w7, tc)
             /\ In (EvFetch apiKey (ReqAssociate emailId (deal_id d))) tc)
    as (rc & w7 & tc & C & Hin).
  { cbn [commitMatch deal]. fold emailId. unfold bind at 1. rewrite A6.
    destruct ra as [j | e].
    - eexists _, _, _. split; [reflexivity |]. now left.
    - eexists _, _, _. split; [reflexivity |]. now left. }
  assert (PE : processEmail apiKey evt w
               = (rc, w7, (t1 ++ t2 ++ t3 ++ t4 ++ t5) ++ tc)).
  { unfold processEmail. erewrite bind_ok by exact M. now rewrite C. }
  destruct (processEvent_cases apiKey evt w)
    as [(r & w8 & t8 & PE' & PV) | (e & w8 & t8 & PE' & PV)];
    rewrite PE in PE'; inversion PE'; subst; rewrite PV;
    eexists _, _, _; (split; [reflexivity |]).
  - apply in_or_app. now right.
  - apply in_or_app. left. apply in_or_app. now right.
Qed.

End HandlerFacts.

(* ------------------------------------------------------------------ *)
(** ** The confidence scorer *)
(* ------------------------------------------------------------------ *)

Lemma orElse_empty o :
  Js.orElse o "" = match o with Some s => s | None => "" end.
Proof. destruct o as [[| c s] |]; reflexivity. Qed.

(* ------------------------------------------------------------------ *)
(** ** The event filter *)
(* ------------------------------------------------------------------ *)

(** What the filter keeps, before de-duplication: email events, except
    property changes of a property other than the direction. *)
Lemma relevantEvent_spec evt :
  relevantEvent evt = true <->
  objectTypeId evt = "0-49"
  /\ (subscriptionType evt = "object.propertyChange" ->
      propertyName evt = Some "hs_email_direction").
Proof.
  unfold relevantEvent.
  destruct (String.eqb_spec (objectTypeId evt) "0-49") as [Ht | Ht]; cbn [negb].
  2:{ split; [discriminate | now intros [? _]]. }
  destruct (String.eqb_spec (subscriptionType evt) "object.propertyChange")
    as [Hs | Hs]; cbn [andb].
  2:{ split; [intros _; split; [assumption | now intros ?] | reflexivity]. }
  destruct (propertyName evt) as [p |].
  - destruct (String.eqb_spec p "hs_email_direction") as [-> | Hp]; cbn [negb].
    + split; [intros _; split; auto | reflexivity].
    + split; [discriminate | intros [_ Q]]. specialize (Q Hs). congruence.
  - cbn [negb]. split; [discriminate | intros [_ Q]]. now specialize (Q Hs).
Qed.

Lemma filterEvents_In seen events evt :
  In evt (filterEvents seen events) ->
  In evt events /\ relevantEvent evt = true
  /\ existsb (String.eqb (String_ (objectId evt))) seen = false.
Proof.
  revert seen. induction events as [| e events IH]; intros seen; cbn [filterEvents].
  - intros [].
  - destruct (relevantEvent e) eqn:R; cbn [negb].
    2:{ intros Hin. apply IH in Hin as (? & ? & ?). repeat split; auto. now right. }
    destruct (existsb (String.eqb (String_ (objectId e))) seen) eqn:S.
    + intros Hin. apply IH in Hin as (? & ? & ?). repeat split; auto. now right.
    + intros [<- | Hin]; [repeat split; auto; now left |].
      apply IH in Hin as (? & ? & Hs). cbn [existsb] in Hs.
      apply orb_false_iff in Hs as [_ Hs]. repeat split; auto. now right.
Qed.

(** Retained events have pairwise different identifiers. *)
Lemma filterEvents_NoDup events :
  forall seen, NoDup (map (fun evt => String_ (objectId evt)) (filterEvents seen events)).
Proof.
  induction events as [| e events IH]; intros seen; cbn [filterEvents];
    [constructor |].
  destruct (negb (relevantEvent e)); [apply IH |].
  destruct (existsb (String.eqb (String_ (objectId e))) seen); [apply IH |].
  cbn [map]. constructor; [| apply IH].
  intros Hin. apply in_map_iff in Hin as (x & Hx & Hin).
  apply filterEvents_In in Hin as (_ & _ & Hs). cbn [existsb] in Hs.
  apply orb_false_iff in Hs as [Hs _]. rewrite <- Hx, String.eqb_refl in Hs.
  discriminate.
Qed.

(** Every relevant identifier is represented among the retained events. *)
Lemma filterEvents_complete events :
  forall seen evt,
    In evt events -> relevantEvent evt = true ->
    existsb (String.eqb (String_ (objectId evt))) seen = false ->
    exists kept, In kept (filterEvents seen events)
                 /\ String_ (objectId kept) = String_ (objectId evt).
Proof.
  induction events as [| e events IH]; intros seen evt Hin R S;
    [destruct Hin |].
  destruct Hin as [<- | Hin]; cbn [filterEvents].
  - rewrite R, S. cbn [negb]. exists e. split; [now left | reflexivity].
  - destruct (negb (relevantEvent e)); [now apply IH |].
    destruct (existsb (String.eqb (String_ (objectId e))) seen); [now apply IH |].
    destruct (String.eqb_spec (String_ (objectId e)) (String_ (objectId evt)))
      as [Heq | Hne].
    + exists e. split; [now left | assumption].
    + destruct (IH (String_ (objectId e) :: seen) evt Hin R) as (kept & Hk & Hid).
      * cbn [existsb]. rewrite S, orb_false_r.
        apply String.eqb_neq. congruence.
      * exists kept. split; [now right | assumption].
Qed.

(** The batch of three: the two events for email 7 leave one. *)
Example uniqueEvents_batchOfThree :
  uniqueEvents batchOfThree
  = [ mkEvent "0-49" "object.creation" None (IdNum 7);
      mkEvent "0-49" "object.propertyChange" (Some "hs_email_direction") (IdNum 8) ].
Proof. reflexivity. Qed.

(** C8, at the failing input: an email event whose change is a deletion,
    neither a creation nor a change of the direction property, passes the
    filter and is processed. *)
Theorem C8_deletion_event_is_retained :
  uniqueEvents [deletionEvent] = [deletionEvent].
Proof. reflexivity. Qed.

(* ------------------------------------------------------------------ *)
(** ** The statements at work on the small store *)
(* ------------------------------------------------------------------ *)

(** Loan 11111 is unknown, loan 399536679 finds a funded deal (after one in
    a stage that is not allowed): two loan-number searches and nothing
    else, although a deal name and an address were extracted too. *)
Lemma C1_loan_number_short_circuit_witness :
  findMatch "key" (mkParsed ["11111"; "399536679"] ["12 Oak St"] ["168 Las Palmas"])
    demoStore
  = (Ok (Some (mkMatch fundedLoan 100 loan_number_match)), demoStore,
     [ EvFetch "key" (ReqSearchLoanNumber "11111");
       EvFetch "key" (ReqSearchLoanNumber "399536679") ]).
Proof.
  exact (proj1
    (C1_loan_number_short_circuit "key"
       (mkParsed ["11111"; "399536679"] ["12 Oak St"] ["168 Las Palmas"])
       ["11111"] [] "399536679" demoStore demoStore demoStore
       [EvFetch "key" (ReqSearchLoanNumber "11111")]
       [EvFetch "key" (ReqSearchLoanNumber "399536679")]
       [lostLoan; fundedLoan] [] fundedLoan
       eq_refl
       (no_loan_cons "key" "11111" [] [] demoStore demoStore
          [EvFetch "key" (ReqSearchLoanNumber "11111")] demoStore []
          eq_refl eq_refl (no_loan_nil "key" demoStore))
       eq_refl eq_refl)).
Defined.

(** A batch in which email 103 cannot be read and email 101 arrives twice:
    the one association written, email 101 to deal 9001, is for an
    acceptable match. *)
Lemma C2_commit_only_acceptable_witness :
  exists evs evt w0 m w1 t1,
    parsed_body (postInvocation (Some "key")
                   [emailEvent 103; emailEvent 101; emailEvent 101]) = Ok evs
    /\ In evt (uniqueEvents evs)
    /\ matchEmail (extractor := subjectIsLoanNumber) "key" evt w0
       = (Ok (Some m), w1, t1)
    /\ "101" = String_ (objectId evt) /\ "9001" = deal_id (deal m)
    /\ acceptable m.
Proof.
  eapply (C2_commit_only_acceptable (extractor := subjectIsLoanNumber)
            (postInvocation (Some "key")
               [emailEvent 103; emailEvent 101; emailEvent 101])
            demoStore).
  - reflexivity.
  - vm_compute. do 4 right. left. reflexivity.
Defined.

(** The deal-name search for "21 Valley Rd" finds a deal whose stage is not
    allowed; the match returned is another deal. *)
Lemma C3_stage_allow_list_witness :
  findMatch "key" (mkParsed [] [] ["21 Valley Rd"; "168 Las Palmas"]) demoStore
  = (Ok (Some (mkMatch fundedLoan 95 deal_name)), demoStore,
     [ EvSleep (Js.Num 150); EvFetch "key" (ReqSearchField F_dealname "21 Valley Rd");
       EvSleep (Js.Num 150); EvFetch "key" (ReqSearchField F_dealname "168 Las Palmas") ])
  /\ fundedLoan <> lostLoan.
Proof.
  split; [reflexivity |].
  apply (C3_stage_allow_list lostLoan "key"
           (mkParsed [] [] ["21 Valley Rd"; "168 Las Palmas"])
           demoStore demoStore (mkMatch fundedLoan 95 deal_name)
           [ EvSleep (Js.Num 150);
             EvFetch "key" (ReqSearchField F_dealname "21 Valley Rd");
             EvSleep (Js.Num 150);
             EvFetch "key" (ReqSearchField F_dealname "168 Las Palmas") ]).
  - intros stage Hs. injection Hs as <-. simpl. intuition discriminate.
  - reflexivity.
Defined.

(** Email 104: the lookup of its first contact fails with a server error;
    the resolver logs it and stops. Email 105: the lookup of its first
    contact answers 404; the resolver goes on to contact 212. *)
Lemma C4_fallback_lookup_failure_witness :
  fallbackSingleContactDeal "key" "104" demoStore
  = (Ok None, demoStore,
     [ EvFetch "key" (ReqEmailContacts "104"); EvFetch "key" (ReqContactDeals "211");
       EvError "Fallback error: HubSpot API Error (500): internal error" ])
  /\ fallbackSingleContactDeal "key" "105" demoStore
     = (Ok (Some (mkMatch soleDeal 100 single_contact_deal)), demoStore,
        [ EvFetch "key" (ReqEmailContacts "105"); EvFetch "key" (ReqContactDeals "221");
          EvFetch "key" (ReqContactDeals "212"); EvFetch "key" (ReqBatchGetDeals ["303"]) ]).
Proof.
  split.
  - exact (C4_fallback_lookup_failure "key" "104" [] [mkAssoc "212"] (mkAssoc "211")
             demoStore demoStore demoStore demoStore
             [EvFetch "key" (ReqEmailContacts "104")] []
             [EvFetch "key" (ReqContactDeals "211")]
             (mkError "HubSpot API Error (500): internal error")
             eq_refl (all_skipped_nil "key" demoStore) eq_refl).
  - exact (C4_fallback_lookup_failure "key" "105" [] [mkAssoc "212"] (mkAssoc "221")
             demoStore demoStore demoStore demoStore
             [EvFetch "key" (ReqEmailContacts "105")] []
             [EvFetch "key" (ReqContactDeals "221")]
             (mkError "HubSpot API Error (404): resource not found")
             eq_refl (all_skipped_nil "key" demoStore) eq_refl).
Defined.

(** C4 as stated fails. Email 104 has contacts 211 and 212. The deal lookup
    of 211 fails; contact 212, looked at on its own, has exactly one deal
    and would yield a match; but the resolver returns no match, and its
    trace shows that contact 212 was never looked up. *)
Lemma C4_counterexample :
  getContactDealAssociations "key" "211" demoStore
  = (Throw (mkError "HubSpot API Error (500): internal error"), demoStore,
     [EvFetch "key" (ReqContactDeals "211")])
  /\ fallbackContacts "key" [mkAssoc "212"] demoStore
     = (Ok (Some (mkMatch soleDeal 100 single_contact_deal)), demoStore,
        [EvFetch "key" (ReqContactDeals "212"); EvFetch "key" (ReqBatchGetDeals ["303"])])
  /\ fallbackSingleContactDeal "key" "104" demoStore
     = (Ok None, demoStore,
        [ EvFetch "key" (ReqEmailContacts "104"); EvFetch "key" (ReqContactDeals "211");
          EvError "Fallback error: HubSpot API Error (500): internal error" ])
  /\ fst (fst (fallbackSingleContactDeal "key" "104" demoStore))
     <> Ok (Some (mkMatch soleDeal 100 single_contact_deal)).
Proof. repeat split. discriminate. Qed.

(** Email 102: contact 201 has two deals and is skipped, contact 202 has
    one, which is read and returned; contact 203 is not looked at. *)
Lemma C5_fallback_first_sole_deal_witness :
  fallbackSingleContactDeal "key" "102" demoStore
  = (Ok (Some (mkMatch soleDeal 100 single_contact_deal)), demoStore,
     [ EvFetch "key" (ReqEmailContacts "102"); EvFetch "key" (ReqContactDeals "201");
       EvFetch "key" (ReqContactDeals "202"); EvFetch "key" (ReqBatchGetDeals ["303"]) ]).
Proof.
  refine (proj1
    (C5_fallback_first_sole_deal "key" "102"
       [mkAssoc "201"; mkAssoc "202"; mkAssoc "203"] demoStore demoStore
       [EvFetch "key" (ReqEmailContacts "102")] eq_refl)
    [mkAssoc "201"] (mkAssoc "202") [mkAssoc "203"] soleDeal
    demoStore [EvFetch "key" (ReqContactDeals "201")]
    demoStore [EvFetch "key" (ReqContactDeals "202"); EvFetch "key" (ReqBatchGetDeals ["303"])]
    eq_refl _ _).
  - exact (all_skipped_cons "key" (mkAssoc "201") [] demoStore
             demoStore [EvFetch "key" (ReqContactDeals "201")] demoStore []
             (skipped_count "key" (mkAssoc "201") demoStore
                [mkAssoc "301"; mkAssoc "302"] demoStore
                [EvFetch "key" (ReqContactDeals "201")] eq_refl
                (fun E : 2%nat = 1%nat => eq_ind 2%nat
                   (fun n => match n with 2%nat => True | _ => False end) I 1%nat E))
             (all_skipped_nil "key" demoStore)).
  - exact (qualifies "key" (mkAssoc "202") demoStore (mkAssoc "303") soleDeal
             demoStore [EvFetch "key" (ReqContactDeals "202")]
             demoStore [EvFetch "key" (ReqBatchGetDeals ["303"])]
             eq_refl eq_refl).
Defined.

(** C5 as stated fails. Email 106 has one contact, 231, and that contact
    has exactly one associated deal, 399; but reading deal 399 returns no
    record, and the resolver returns no match instead of that deal. *)
Lemma C5_counterexample :
  getEmailContactAssociations "key" "106" demoStore
  = (Ok [mkAssoc "231"], demoStore, [EvFetch "key" (ReqEmailContacts "106")])
  /\ getContactDealAssociations "key" "231" demoStore
     = (Ok [mkAssoc "399"], demoStore, [EvFetch "key" (ReqContactDeals "231")])
  /\ fallbackSingleContactDeal "key" "106" demoStore
     = (Ok None, demoStore,
        [ EvFetch "key" (ReqEmailContacts "106"); EvFetch "key" (ReqContactDeals "231");
          EvFetch "key" (ReqBatchGetDeals ["399"]) ]).
Proof. repeat split. Qed.

(** The whole invocation on the small store: email 103 cannot be read,
    the error is logged, and email 101 is still processed and matched. *)
Example handler_skips_failed_email :
  handler (extractor := subjectIsLoanNumber)
    (postInvocation (Some "key") [emailEvent 103; emailEvent 101; emailEvent 101])
    demoStore
  = (Ok (mkHttp 200
           (BodySuccess 1
              [mkResult (IdNum 101) "9001" (Some "168 Las Palmas") 100
                 loan_number_match])),
     demoStore,
     [ EvFetch "key" (ReqGetEmail "103");
       EvError "Error processing email 103: HubSpot API Error (500): internal error";
       EvFetch "key" (ReqGetEmail "101");
       EvFetch "key" (ReqSearchLoanNumber "399536679");
       EvFetch "key" (ReqAssociate "101" "9001"); EvSleep (Js.Num 200) ]).
Proof. reflexivity. Qed.

(** Email 102 names nothing the store knows; its contact 202 has the one
    deal 303, whose stage is not an allowed one: the resolver returns it and
    the association is written. *)
Lemma C10_fallback_ignores_stage_witness :
  isTargetStage soleDeal = false
  /\ fallbackSingleContactDeal "key" "102" demoStore
     = (Ok (Some (mkMatch soleDeal 100 single_contact_deal)), demoStore,
        [ EvFetch "key" (ReqEmailContacts "102"); EvFetch "key" (ReqContactDeals "201");
          EvFetch "key" (ReqContactDeals "202"); EvFetch "key" (ReqBatchGetDeals ["303"]) ])
  /\ exists r w6 tr,
       processEvent (extractor := subjectIsLoanNumber) "key" (emailEvent 102) demoStore
       = (r, w6, tr)
       /\ In (EvFetch "key" (ReqAssociate "102" "303")) tr.
Proof.
  split; [reflexivity |].
  refine (C10_fallback_ignores_stage (extractor := subjectIsLoanNumber) "key"
    (emailEvent 102) (mkEmailProps (Some "unknown") (Some "see attached") None)
    [mkAssoc "201"] [mkAssoc "203"] (mkAssoc "202") soleDeal
    demoStore demoStore demoStore demoStore demoStore demoStore
    [EvFetch "key" (ReqGetEmail "102")]
    [EvFetch "key" (ReqSearchLoanNumber "unknown")]
    [EvFetch "key" (ReqEmailContacts "102")]
    [EvFetch "key" (ReqContactDeals "201")]
    [EvFetch "key" (ReqContactDeals "202"); EvFetch "key" (ReqBatchGetDeals ["303"])]
    eq_refl eq_refl eq_refl _ _ eq_refl).
  - exact (all_skipped_cons "key" (mkAssoc "201") [] demoStore
             demoStore [EvFetch "key" (ReqContactDeals "201")] demoStore []
             (skipped_count "key" (mkAssoc "201") demoStore
                [mkAssoc "301"; mkAssoc "302"] demoStore
                [EvFetch "key" (ReqContactDeals "201")] eq_refl
                (fun E : 2%nat = 1%nat => eq_ind 2%nat
                   (fun n => match n with 2%nat => True | _ => False end) I 1%nat E))
             (all_skipped_nil "key" demoStore)).
  - exact (qualifies "key" (mkAssoc "202") demoStore (mkAssoc "303") soleDeal
             demoStore [EvFetch "key" (ReqContactDeals "202")]
             demoStore [EvFetch "key" (ReqBatchGetDeals ["303"])]
             eq_refl eq_refl).
Defined.

(* ------------------------------------------------------------------ *)
(** ** More on the repository client *)
(* ------------------------------------------------------------------ *)

Section MoreClientFacts.
Context {W : Type} {net : Net W}.

(** One pass through the loop body makes one request; it is followed by
    one wait exactly when the pass ends in [continue], which needs a retry
    to be left. *)
Lemma attemptOnce_shape apiKey req retries attempt w c w1 t :
  attemptOnce apiKey req retries attempt w = (c, w1, t) ->
  (c = Ok Continue /\ (attempt < retries)%nat
   /\ exists ms, t = [EvFetch apiKey req; EvSleep ms])
  \/ (c <> Ok Continue /\ t = [EvFetch apiKey req]).
Proof.
  unfold attemptOnce. intros E.
  assert (D : forall o w2 t2,
             do_fetch apiKey req w = (o, w2, t2) -> t2 = [EvFetch apiKey req]).
  { intros o w2 t2. unfold do_fetch.
    destruct (fetch apiKey req w). now intros [= _ _ <-]. }
  assert (Catch : forall e w2 c2 w3 t3,
    (if (attempt <? retries)%nat && Js.includes (message e) "secondly limit"
     then sleep (W := W) (Js.Num ((Z.of_nat attempt + 1) * 1000)) ;;
          ret (@Continue Json)
     else throw e) w2 = (c2, w3, t3) ->
    (c2 = Ok Continue /\ (attempt < retries)%nat /\ exists ms, t3 = [EvSleep ms])
    \/ (c2 <> Ok (@Continue Json) /\ t3 = [])).
  { intros e w2 c2 w3 t3.
    destruct (attempt <? retries)%nat eqn:L; cbn [andb].
    - destruct (Js.includes (message e) "secondly limit").
      + intros [= <- <- <-]. left. apply Nat.ltb_lt in L. eauto.
      + intros [= <- <- <-]. right. split; [discriminate | reflexivity].
    - intros [= <- <- <-]. right. split; [discriminate | reflexivity]. }
  apply try_catch_inv in E
    as [(a & E & ->) | (e & w2 & t2 & t3 & E & Hh & ->)].
  - apply bind_inv in E as [(r & w2 & t2 & t3 & F & E & ->) | (e & _ & E)];
      [| discriminate].
    apply D in F. subst t2.
    destruct ((status r =? 429) && (attempt <? retries)%nat) eqn:C.
    + inversion E; subst. left. apply andb_prop in C as [_ L].
      apply Nat.ltb_lt in L.
      split; [reflexivity | split; [assumption | eexists; reflexivity]].
    + destruct (negb (ok r)); [discriminate |].
      destruct (status r =? 204).
      * inversion E; subst. right. split; [discriminate | reflexivity].
      * apply bind_inv in E as [(j & w3 & t4 & t5 & A & E & ->) | (e & _ & E)];
          [| discriminate].
        inversion A; subst. inversion E; subst.
        right. split; [discriminate | reflexivity].
  - apply Catch in Hh.
    assert (T : t2 = [EvFetch apiKey req]).
    { apply bind_inv in E as [(r & w3 & t4 & t5 & F & E & ->) | (e' & F & _)].
      - apply D in F. subst t4.
        destruct ((status r =? 429) && (attempt <? retries)%nat);
          [discriminate |].
        destruct (negb (ok r)); [now inversion E |].
        destruct (status r =? 204); [discriminate |].
        apply bind_inv in E as [(j & w4 & t6 & t7 & A & E & ->) | (e' & A & _)];
          [discriminate |].
        now inversion A.
      - now apply D in F. }
    subst t2.
    destruct Hh as [(-> & L & ms & ->) | (Hc & ->)]; [left | right].
    + split; [reflexivity | split; [assumption | eexists; reflexivity]].
    + split; [assumption | reflexivity].
Qed.

Lemma forAttempts_counts apiKey req retries fallOut :
  forall n a w r w' tr,
    (a + n = retries)%nat ->
    forAttempts apiKey req retries fallOut (seq a (S n)) w = (r, w', tr) ->
    attemptsIn tr = S (length (sleepsIn tr)) /\ (attemptsIn tr <= S n)%nat.
Proof.
  induction n as [| n IH]; intros a w r w' tr Ha E.
  - cbn [seq forAttempts] in E.
    apply bind_inv in E as [(c & w1 & t1 & t2 & A & E & ->) | (e & A & _)];
      apply attemptOnce_shape in A
        as [(Hc & L & ms & ->) | (Hc & ->)]; try lia; try discriminate.
    + destruct c as [| data]; [now elim Hc |].
      inversion E; subst. cbn. split; reflexivity || lia.
    + cbn. split; reflexivity || lia.
  - change (seq a (S (S n))) with (a :: seq (S a) (S n)) in E.
    cbn [forAttempts] in E.
    apply bind_inv in E as [(c & w1 & t1 & t2 & A & E & ->) | (e & A & _)];
      apply attemptOnce_shape in A
        as [(Hc & L & ms & ->) | (Hc & ->)]; try discriminate.
    + injection Hc as ->.
      apply IH in E as [E1 E2]; [| lia].
      rewrite attemptsIn_app, sleepsIn_app, length_app.
      unfold attemptsIn in *. cbn. lia.
    + destruct c as [| data]; [now elim Hc |].
      inversion E; subst. cbn. split; reflexivity || lia.
    + cbn. split; reflexivity || lia.
Qed.

(** X1. Whatever the store answers, a call of the client puts at least one
    and at most [retries + 1] requests on the wire, and waits exactly once
    between two consecutive requests. *)
Theorem hubspotRequest_attempt_bound (apiKey : string) (req : Request)
    (retries : nat) (w : W) :
  let tr := traceOf (hubspotRequest apiKey req retries w) in
  (1 <= attemptsIn tr <= S retries)%nat
  /\ attemptsIn tr = S (length (sleepsIn tr)).
Proof.
  intros tr. unfold tr, traceOf.
  destruct (hubspotRequest apiKey req retries w) as [[r w'] t] eqn:E.
  unfold hubspotRequest in E.
  apply forAttempts_counts in E as [E1 E2]; [| lia].
  cbn [snd]. lia.
Qed.

(** X2. When the first [k <= retries] attempts are rate-limited and the
    next one succeeds, the client returns the decoded body of that answer
    ([{}] for a 204, whose body is not read), after [k + 1] requests and the
    [k] waits. *)
Theorem hubspotRequest_recovers (apiKey : string) (req : Request) (retries : nat)
    (rs : list Response) (r : Response) (data : Json) (w w1 w2 : W) :
  rateLimited apiKey req w rs w1 ->
  (length rs <= retries)%nat ->
  fetch apiKey req w1 = (Ok r, w2) ->
  ok r = true ->
  (if status r =? 204 then Ok JEmpty else body r) = Ok data ->
  hubspotRequest apiKey req retries w
  = (Ok data, w2, retryTrace apiKey req 0 rs ++ [EvFetch apiKey req]).
Proof.
  intros RL Hlen F Hok Hbody.
  unfold hubspotRequest.
  replace (S retries) with (S (length rs + (retries - length rs)))%nat by lia.
  erewrite forAttempts_rate_limited_prefix by (eauto; lia).
  cbn [Nat.add seq forAttempts].
  assert (N429 : (status r =? 429) = false).
  { unfold ok in Hok. apply andb_prop in Hok as [_ H2].
    apply Z.leb_le in H2. apply Z.eqb_neq. lia. }
  assert (A : attemptOnce apiKey req retries (length rs) w1
              = (Ok (Return data), w2, [EvFetch apiKey req])).
  { unfold attemptOnce. erewrite try_catch_ok; [reflexivity |].
    erewrite bind_ok by (apply do_fetch_eq; eassumption).
    rewrite N429, Hok. cbn [andb negb].
    destruct (status r =? 204).
    - injection Hbody as <-. reflexivity.
    - erewrite bind_ok by (unfold await; rewrite Hbody; reflexivity).
      reflexivity. }
  erewrite bind_ok by exact A. reflexivity.
Qed.

Lemma attemptOnce_secondly apiKey req retries attempt w e w1 :
  fetch apiKey req w = (Throw e, w1) ->
  Js.includes (message e) "secondly limit" = true ->
  attemptOnce apiKey req retries attempt w
  = if (attempt <? retries)%nat
    then (Ok Continue, w1,
          [EvFetch apiKey req; EvSleep (Js.Num ((Z.of_nat attempt + 1) * 1000))])
    else (Throw e, w1, [EvFetch apiKey req]).
Proof.
  intros F Hs. unfold attemptOnce.
  erewrite try_catch_throw.
  2:{ erewrite bind_throw by (apply do_fetch_eq; eassumption). reflexivity. }
  rewrite Hs. destruct (attempt <? retries)%nat; reflexivity.
Qed.

Lemma forAttempts_secondly apiKey req retries fallOut :
  forall es a w elast w',
    secondlyLimited apiKey req w (es ++ [elast]) w' ->
    (a + length es = retries)%nat ->
    forAttempts apiKey req retries fallOut (seq a (S (length es))) w
    = (Throw elast, w',
       backoffTrace apiKey req a (length es) ++ [EvFetch apiKey req]).
Proof.
  induction es as [| e es IH]; intros a w elast w' SL Ha.
  - simpl in *. rewrite Nat.add_0_r in Ha. subst retries.
    inversion SL as [| ? ? ? ? ? F Hs SL']; subst. inversion SL'; subst.
    erewrite bind_throw; [reflexivity |].
    rewrite (attemptOnce_secondly _ _ _ _ _ _ _ F Hs).
    now rewrite Nat.ltb_irrefl.
  - simpl in SL. inversion SL as [| ? ? w1 ? ? F Hs SL']; subst.
    change (seq a (S (length (e :: es))))
      with (a :: seq (S a) (S (length es))).
    cbn [forAttempts].
    erewrite bind_ok.
    2:{ rewrite (attemptOnce_secondly _ _ _ _ _ _ _ F Hs).
        assert (L : (a <? a + length (e :: es))%nat = true)
          by (apply Nat.ltb_lt; simpl; lia).
        rewrite L. reflexivity. }
    cbv beta iota.
    rewrite (IH (S a) w1 elast w' SL') by (simpl in *; lia).
    reflexivity.
Qed.

(** X3. A rejection of [fetch] whose message names the secondly limit is
    retried like a rate limit, with one more second of wait per attempt;
    when every attempt is rejected so, the client gives up after
    [retries + 1] requests and raises the last rejection unchanged. *)
Theorem hubspotRequest_secondly_limit (apiKey : string) (req : Request)
    (retries : nat) (es : list JsError) (elast : JsError) (w w' : W) :
  secondlyLimited apiKey req w (es ++ [elast]) w' ->
  length es = retries ->
  let tr := backoffTrace apiKey req 0 retries ++ [EvFetch apiKey req] in
  hubspotRequest apiKey req retries w = (Throw elast, w', tr)
  /\ attemptsIn tr = S retries
  /\ sleepsIn tr
     = map (fun i => Js.Num ((Z.of_nat i + 1) * 1000)) (seq 0 retries).
Proof.
  intros SL Hlen tr. split; [| split].
  - unfold hubspotRequest, tr. rewrite <- Hlen.
    now apply forAttempts_secondly.
  - unfold tr. rewrite attemptsIn_app.
    assert (B : forall a n, attemptsIn (backoffTrace apiKey req a n) = n).
    { intros a n. revert a. induction n as [| n IH]; intros a; [reflexivity |].
      unfold attemptsIn in *. cbn. now rewrite IH. }
    rewrite B. unfold attemptsIn. cbn. lia.
  - unfold tr. rewrite sleepsIn_app. cbn [sleepsIn]. rewrite app_nil_r.
    generalize 0%nat as a. induction retries as [| n IH] in |- *; intros a;
      [reflexivity |].
    cbn. now rewrite IH.
Qed.

End MoreClientFacts.

Lemma hubspotRequest_recovers_witness :
  hubspotRequest "key" (ReqSearchLoanNumber "399536679") 3 limitedTwiceThenFine
  = (Ok (JDeals [fundedLoan]), mkScript [],
     [ EvFetch "key" (ReqSearchLoanNumber "399536679"); EvSleep (Js.Num 1000);
       EvFetch "key" (ReqSearchLoanNumber "399536679"); EvSleep (Js.Num 2000);
       EvFetch "key" (ReqSearchLoanNumber "399536679") ]).
Proof.
  apply (hubspotRequest_recovers "key" (ReqSearchLoanNumber "399536679") 3
           [rateLimitResponse (Some "1"); rateLimitResponse None]
           (mkResponse 200 "OK" None (Ok (JDeals [fundedLoan])))
           (JDeals [fundedLoan]) limitedTwiceThenFine
           (mkScript [okResponse (JDeals [fundedLoan])]) (mkScript [])).
  - repeat (eapply rl_next; [reflexivity | reflexivity |]). apply rl_done.
  - simpl. lia.
  - reflexivity.
  - reflexivity.
  - reflexivity.
Defined.

Lemma hubspotRequest_secondly_limit_witness :
  hubspotRequest "key" (ReqGetEmail "7") 3 alwaysSecondly
  = (Throw secondlyError, mkScript [],
     [ EvFetch "key" (ReqGetEmail "7"); EvSleep (Js.Num 1000);
       EvFetch "key" (ReqGetEmail "7"); EvSleep (Js.Num 2000);
       EvFetch "key" (ReqGetEmail "7"); EvSleep (Js.Num 3000);
       EvFetch "key" (ReqGetEmail "7") ]).
Proof.
  apply (hubspotRequest_secondly_limit "key" (ReqGetEmail "7") 3
           [secondlyError; secondlyError; secondlyError] secondlyError
           alwaysSecondly (mkScript [])).
  - repeat (eapply sl_next; [reflexivity | reflexivity |]). apply sl_done.
  - reflexivity.
Defined.

(* ------------------------------------------------------------------ *)
(** ** Association listings and the 404 answer *)
(* ------------------------------------------------------------------ *)

Lemma startsWith_append_r s t p :
  Js.startsWith s p = true -> Js.startsWith (s ++ t)%string p = true.
Proof.
  revert s. induction p as [| c p IH]; intros s.
  { intros _. destruct (s ++ t)%string; reflexivity. }
  destruct s as [| d s]; [discriminate |]. cbn.
  intros E. apply andb_prop in E as [-> E]. now rewrite IH.
Qed.

Lemma includes_append_r s t p :
  Js.includes s p = true -> Js.includes (s ++ t)%string p = true.
Proof.
  induction s as [| c s IH]; cbn [Js.includes append].
  - rewrite orb_false_r. intros E.
    destruct p; [now destruct t | discriminate].
  - intros E. apply orb_prop in E as [E | E].
    + change (String c (s ++ t)) with (String c s ++ t)%string.
      now rewrite startsWith_append_r.
    + apply IH in E. cbn [Js.includes] in *. rewrite E. apply orb_true_r.
Qed.

(** The message of a 404 failure contains "404". *)
Lemma apiError_404 r : status r = 404 -> Js.includes (message (apiError r)) "404" = true.
Proof.
  intros E. unfold apiError. cbn [message]. rewrite E.
  change (Js.showZ 404) with "404".
  rewrite (append_assoc "404" "): ").
  rewrite (append_assoc "HubSpot API Error (").
  apply includes_append_r. reflexivity.
Qed.

Section ListingFacts.
Context {W : Type} {net : Net W}.

Lemma hubspotRequest_fails_at_once apiKey req retries w r w1 :
  fetch apiKey req w = (Ok r, w1) ->
  ok r = false ->
  status r <> 429 ->
  Js.includes (message (apiError r)) "secondly limit" = false ->
  hubspotRequest apiKey req retries w = (Throw (apiError r), w1, [EvFetch apiKey req]).
Proof.
  intros F Hok Hst Hmsg. unfold hubspotRequest. cbn [seq forAttempts].
  erewrite bind_throw; [reflexivity |].
  apply attemptOnce_failure; auto.
  - apply Z.eqb_neq in Hst. now rewrite Hst.
  - rewrite Hmsg. apply andb_false_r.
Qed.

(** X4. A 404 answer to either association listing counts as an empty
    listing: the helper returns [[]] after the one request instead of
    raising. Any other failure whose message does not contain "404" is
    raised to the caller. *)
Theorem association_listing_404 (apiKey id : string) (r : Response) (w w1 : W) :
  ok r = false ->
  status r <> 429 ->
  Js.includes (message (apiError r)) "secondly limit" = false ->
  (fetch apiKey (ReqEmailContacts id) w = (Ok r, w1) ->
   getEmailContactAssociations apiKey id w
   = if Js.includes (message (apiError r)) "404"
     then (Ok [], w1, [EvFetch apiKey (ReqEmailContacts id)])
     else (Throw (apiError r), w1, [EvFetch apiKey (ReqEmailContacts id)]))
  /\ (fetch apiKey (ReqContactDeals id) w = (Ok r, w1) ->
      getContactDealAssociations apiKey id w
      = if Js.includes (message (apiError r)) "404"
        then (Ok [], w1, [EvFetch apiKey (ReqContactDeals id)])
        else (Throw (apiError r), w1, [EvFetch apiKey (ReqContactDeals id)]))
  /\ (status r = 404 -> Js.includes (message (apiError r)) "404" = true).
Proof.
  intros Hok Hst Hmsg. split; [| split; [| apply apiError_404]].
  - intros F. unfold getEmailContactAssociations.
    erewrite try_catch_throw.
    2:{ erewrite bind_throw; [reflexivity |].
        apply hubspotRequest_fails_at_once; eassumption. }
    destruct (Js.includes (message (apiError r)) "404"); reflexivity.
  - intros F. unfold getContactDealAssociations.
    erewrite try_catch_throw.
    2:{ erewrite bind_throw; [reflexivity |].
        apply hubspotRequest_fails_at_once; eassumption. }
    destruct (Js.includes (message (apiError r)) "404"); reflexivity.
Qed.

End ListingFacts.

(** Contact 221 of the small store answers 404, contact 211 answers 500. *)
Lemma association_listing_404_witness :
  getContactDealAssociations "key" "221" demoStore
  = (Ok [], demoStore, [EvFetch "key" (ReqContactDeals "221")])
  /\ getContactDealAssociations "key" "211" demoStore
     = (Throw (mkError "HubSpot API Error (500): internal error"), demoStore,
        [EvFetch "key" (ReqContactDeals "211")]).
Proof.
  split.
  - exact (proj1 (proj2
      (association_listing_404 "key" "221"
         (mkResponse 404 "Not Found" None (Ok (JMessage "resource not found")))
         demoStore demoStore eq_refl ltac:(discriminate) eq_refl)) eq_refl).
  - exact (proj1 (proj2
      (association_listing_404 "key" "211"
         (mkResponse 500 "Internal Server Error" None (Ok (JMessage "internal error")))
         demoStore demoStore eq_refl ltac:(discriminate) eq_refl)) eq_refl).
Defined.

(* ------------------------------------------------------------------ *)
(** ** What matching and the fallback never do *)
(* ------------------------------------------------------------------ *)

Section ReadOnlyFacts.
Context {W : Type} {net : Net W}.

Lemma emits_search apiKey req :
  (forall e, clientEvent apiKey req e -> isSearchOrWait apiKey e = true) ->
  forall retries,
    emits (fun e => isSearchOrWait apiKey e = true)
      (bind (hubspotRequest apiKey req retries)
         (fun data => ret (deal_results data))).
Proof.
  intros Hreq retries. eapply emits_weaken; [exact Hreq |].
  apply emits_request_then.
Qed.

Lemma emits_findMatch_searches apiKey parsed :
  emits (fun e => isSearchOrWait apiKey e = true) (findMatch apiKey parsed).
Proof.
  assert (L : forall ln, emits (fun e => isSearchOrWait apiKey e = true)
                           (searchDealsByLoanNumber apiKey ln)).
  { intros ln. apply emits_search.
    intros e [-> | (ms & ->)]; cbn; [apply String.eqb_refl | reflexivity]. }
  assert (F : forall f v, emits (fun e => isSearchOrWait apiKey e = true)
                            (searchDealsByField apiKey f v)).
  { intros f v. apply emits_search.
    intros e [-> | (ms & ->)]; cbn; [apply String.eqb_refl | reflexivity]. }
  assert (F2 : forall f v deals,
             emits (fun e => isSearchOrWait apiKey e = true)
               (match deals with
                | [] => searchDealsByField apiKey f v
                | _ => ret deals
                end)).
  { intros f v [| d ds]; [apply F | apply emits_ret]. }
  unfold findMatch. apply emits_bind.
  { generalize (loanNumbers parsed) as lns.
    induction lns as [| ln lns IH]; cbn [loanNumberChannel]; [apply emits_ret |].
    apply emits_bind; [apply L |].
    intros deals. destruct (filter isTargetStage deals);
      [exact IH | apply emits_ret]. }
  intros [m |]; [apply emits_ret |].
  apply emits_bind.
  { generalize (@nil Candidate) as cs. generalize (dealNames parsed) as names.
    induction names as [| name names IH]; intros cs; cbn [dealNameChannel];
      [apply emits_ret |].
    destruct (String.length (cleanSearchValue name) <? 3)%nat; [apply IH |].
    apply emits_bind; [now apply emits_emit | intros _].
    apply emits_bind; [apply F | intros deals].
    apply emits_bind; [apply F2 | intros; apply IH]. }
  intros c1. apply emits_bind; [| intros; apply emits_ret].
  generalize c1 as cs. generalize (addresses parsed) as addrs.
  induction addrs as [| addr addrs IH]; intros cs; cbn [addressChannel];
    [apply emits_ret |].
  destruct (String.length (cleanSearchValue addr) <? 5)%nat; [apply IH |].
  cbv zeta.
  apply emits_bind; [now apply emits_emit | intros _].
  apply emits_bind; [apply F | intros deals].
  apply emits_bind; [apply F2 | intros; apply IH].
Qed.

Lemma emits_fallback_reads apiKey emailId :
  emits (fun e => isFallbackRead apiKey emailId e = true)
    (fallbackSingleContactDeal apiKey emailId).
Proof.
  apply emits_try_catch.
  - apply emits_bind.
    + eapply emits_weaken; [| apply emits_getEmailContactAssociations].
      intros e [-> | (ms & ->)]; cbn; [| reflexivity].
      now rewrite !String.eqb_refl.
    + intros contacts.
      induction contacts as [| c contacts IH]; cbn [fallbackContacts];
        [apply emits_ret |].
      apply emits_bind.
      * eapply emits_weaken; [| apply emits_getContactDealAssociations].
        intros e [-> | (ms & ->)]; cbn; [apply String.eqb_refl | reflexivity].
      * intros [| a [| b das]]; try exact IH.
        apply emits_bind.
        -- eapply emits_weaken; [| apply emits_batchGetDeals].
           intros e [-> | (ms & ->)]; cbn; [apply String.eqb_refl | reflexivity].
        -- intros [| d [| d' ds]]; try exact IH. apply emits_ret.
  - intros e. apply emits_bind; [now apply emits_emit | intros; apply emits_ret].
Qed.

(** X5. Matching only reads. Every event of [findMatch] is a deal search
    under the caller's API key or a wait; every event of the fallback
    resolver is a listing of the email's contacts, a listing of a contact's
    deals, a read of a single deal, a wait or a logged error. Neither ever
    sends an association write. *)
Theorem matching_only_reads (apiKey emailId : string) (parsed : Parsed) (w : W) :
  Forall (fun e => isSearchOrWait apiKey e = true)
    (traceOf (findMatch apiKey parsed w))
  /\ Forall (fun e => isFallbackRead apiKey emailId e = true)
       (traceOf (fallbackSingleContactDeal apiKey emailId w))
  /\ Forall (fun e => isAssociate e = false)
       (traceOf (findMatch apiKey parsed w)
        ++ traceOf (fallbackSingleContactDeal apiKey emailId w)).
Proof.
  unfold traceOf.
  destruct (findMatch apiKey parsed w) as [[r1 w1] t1] eqn:E1.
  destruct (fallbackSingleContactDeal apiKey emailId w) as [[r2 w2] t2] eqn:E2.
  cbn [snd].
  pose proof (emits_findMatch_searches _ _ _ _ _ _ E1) as S1.
  pose proof (emits_fallback_reads _ _ _ _ _ _ E2) as S2.
  split; [exact S1 |]. split; [exact S2 |].
  apply Forall_app. split.
  - eapply Forall_impl; [| exact S1].
    intros [k [] | ms | line]; cbn; congruence.
  - eapply Forall_impl; [| exact S2].
    intros [k [] | ms | line]; cbn; congruence.
Qed.

(** X6. The fallback resolver never raises: whatever fails inside it, the
    caller gets a result. It logs at most one error, and only when it
    returns no match; the logged line is then the last event. *)
Theorem fallback_never_raises (apiKey emailId : string) (w : W) :
  exists found w' tr,
    fallbackSingleContactDeal apiKey emailId w = (Ok found, w', tr)
    /\ ((Forall (fun e => isError e = false) tr)
        \/ (found = None
            /\ exists tr0 line,
                 tr = tr0 ++ [EvError line]
                 /\ Forall (fun e => isError e = false) tr0)).
Proof.
  assert (Inner : emits (fun e => isError e = false)
            (bind (getEmailContactAssociations apiKey emailId)
               (fun contactAssocs => fallbackContacts apiKey contactAssocs))).
  { apply emits_bind.
    - eapply emits_weaken; [| apply emits_getEmailContactAssociations].
      intros e [-> | (ms & ->)]; reflexivity.
    - intros contacts.
      induction contacts as [| c contacts IH]; cbn [fallbackContacts];
        [apply emits_ret |].
      apply emits_bind.
      + eapply emits_weaken; [| apply emits_getContactDealAssociations].
        intros e [-> | (ms & ->)]; reflexivity.
      + intros [| a [| b das]]; try exact IH.
        apply emits_bind.
        * eapply emits_weaken; [| apply emits_batchGetDeals].
          intros e [-> | (ms & ->)]; reflexivity.
        * intros [| d [| d' ds]]; try exact IH. apply emits_ret. }
  unfold fallbackSingleContactDeal, try_catch.
  destruct (bind _ _ w) as [[[found | e] w1] t1] eqn:E.
  - exists found, w1, t1. split; [reflexivity |]. left. eapply Inner; eauto.
  - eexists None, w1, _. split; [reflexivity |]. right.
    split; [reflexivity |].
    exists t1, ("Fallback error: " ++ message e)%string.
    split; [reflexivity | eapply Inner; eauto].
Qed.

End ReadOnlyFacts.

(* ------------------------------------------------------------------ *)
(** ** Scores, ranking and the acceptance threshold *)
(* ------------------------------------------------------------------ *)

Lemma scoreMatch_bounds (matchValue : string) (d : Deal) (parsed : Parsed) :
  85 <= scoreMatch deal_name matchValue d parsed <= 100
  /\ 80 <= scoreMatch address matchValue d parsed <= 100
  /\ scoreMatch loan_number_match matchValue d parsed = 100.
Proof.
  unfold scoreMatch.
  destruct (someIncluded (Js.orElse (loan_number (properties d)) "")
              (loanNumbers parsed)),
           (someIncluded (Js.orElse (dealname (properties d)) "")
              (dealNames parsed)),
           (someIncluded (Js.orElse (full_address (properties d)) "")
              (addresses parsed));
    cbn [Z.add Z.ltb Z.compare Pos.compare Pos.compare_cont Z.sub Z.mul
         Z.opp Z.pos_sub Pos.mul Pos.add Pos.succ Pos.pred_double];
    (split; [| split]);
    try (destruct (String.eqb _ _); [| destruct (Js.includes _ _)]);
    try (destruct (leadingDigits _) as [n |];
         [destruct (Js.includes _ n || Js.includes _ n) |];
         destruct (25 <? String.length _)%nat);
    lia.
Qed.

Lemma pooled_meets_threshold parsed c :
  pooledType c -> CONFIDENCE_THRESHOLD <= candidateScore parsed c.
Proof.
  intros [Hc | Hc]; unfold candidateScore, CONFIDENCE_THRESHOLD; rewrite Hc;
    destruct (scoreMatch_bounds (c_matchValue c) (c_deal c) parsed)
      as (C1 & C2 & _); lia.
Qed.

(** X7. The range of the scorer: a deal-name candidate scores between 85
    and 100, an address candidate between 80 and 100, a loan-number match
    exactly 100. Every pooled candidate is therefore at or above the
    acceptance threshold of 65. *)
Theorem scoreMatch_range (matchValue : string) (d : Deal) (parsed : Parsed) :
  85 <= scoreMatch deal_name matchValue d parsed <= 100
  /\ 80 <= scoreMatch address matchValue d parsed <= 100
  /\ scoreMatch loan_number_match matchValue d parsed = 100
  /\ forall c, pooledType c -> CONFIDENCE_THRESHOLD <= candidateScore parsed c.
Proof.
  destruct (scoreMatch_bounds matchValue d parsed) as (B1 & B2 & B3).
  repeat (split; [assumption |]).
  intros c. apply pooled_meets_threshold.
Qed.

Lemma insertByScore_descending x l :
  descending l -> descending (insertByScore x l).
Proof.
  induction l as [| y l IH]; intros D.
  - cbn. split; [intros ? [] | exact I].
  - cbn [insertByScore]. destruct (score y <=? score x) eqn:C.
    + apply Z.leb_le in C. destruct D as [Dy Dl].
      split; [| split; assumption].
      intros z [<- | Hz]; [assumption |]. specialize (Dy z Hz). lia.
    + apply Z.leb_gt in C. destruct D as [Dy Dl].
      split; [| apply IH; assumption].
      intros z Hz. apply insertByScore_In in Hz as [-> | Hz]; [lia | auto].
Qed.

Lemma sortByScore_descending l : descending (sortByScore l).
Proof.
  induction l as [| x l IH]; [exact I |].
  cbn [sortByScore fold_right]. now apply insertByScore_descending.
Qed.

Lemma insertByScore_Permutation x l :
  Permutation (x :: l) (insertByScore x l).
Proof.
  induction l as [| y l IH]; [apply Permutation_refl |].
  cbn [insertByScore]. destruct (score y <=? score x).
  - apply Permutation_refl.
  - eapply perm_trans; [apply perm_swap |].
    now apply perm_skip.
Qed.

(** X8. Sorting by score rearranges the candidates without adding or
    losing any, into an order in which scores never go up. *)
Theorem sortByScore_sorts (l : list Scored) :
  Permutation l (sortByScore l) /\ descending (sortByScore l).
Proof.
  split; [| apply sortByScore_descending].
  induction l as [| x l IH]; [apply Permutation_refl |].
  cbn [sortByScore fold_right].
  eapply perm_trans; [| apply insertByScore_Permutation].
  now apply perm_skip.
Qed.

(** The head of the sorted list is the first element of the input with the
    highest score (the sort is stable). *)
Lemma sortByScore_head l best rest :
  sortByScore l = best :: rest ->
  exists l1 l2,
    l = l1 ++ best :: l2
    /\ (forall x, In x l1 -> score x < score best)
    /\ (forall x, In x l2 -> score x <= score best).
Proof.
  revert best rest. induction l as [| x l IH]; intros best rest E; [discriminate |].
  cbn [sortByScore fold_right] in E.
  destruct (fold_right insertByScore [] l) as [| y t] eqn:Hs.
  - cbn in E. injection E as <- <-.
    assert (l = []) as ->.
    { destruct l as [| z l]; [reflexivity |]. exfalso.
      assert (In z (sortByScore (z :: l)))
        by (apply sortByScore_In; now left).
      unfold sortByScore in H. rewrite Hs in H. destruct H. }
    exists [], []. repeat split; intros ? [].
  - cbn [insertByScore] in E.
    destruct (IH y t Hs) as (l1 & l2 & -> & H1 & H2).
    destruct (score y <=? score x) eqn:C.
    + apply Z.leb_le in C. injection E as <- <-.
      exists [], (l1 ++ y :: l2). split; [reflexivity |].
      split; [intros ? [] |].
      intros z Hz. apply in_app_or in Hz as [Hz | [<- | Hz]].
      * specialize (H1 z Hz). lia.
      * assumption.
      * specialize (H2 z Hz). lia.
    + apply Z.leb_gt in C. injection E as <- <-.
      exists (x :: l1), l2. split; [reflexivity |].
      split; [| assumption].
      intros z [<- | Hz]; auto.
Qed.

(** X9. The match picked from the pooled candidates is the allowed-stage
    candidate with the highest score, and among equal scores the one that
    was pooled first; its confidence is that score. *)
Theorem pickBest_is_first_maximum (candidates : list Candidate) (parsed : Parsed)
    (m : MatchResult) :
  pickBest candidates parsed = Some m ->
  exists before c after,
    allowedCandidates candidates = before ++ c :: after
    /\ m = mkMatch (c_deal c) (candidateScore parsed c) (c_matchType c)
    /\ (forall x, In x before -> candidateScore parsed x < candidateScore parsed c)
    /\ (forall x, In x after -> candidateScore parsed x <= candidateScore parsed c).
Proof.
  unfold pickBest.
  destruct (sortByScore _) as [| best rest] eqn:S; [discriminate |].
  destruct (CONFIDENCE_THRESHOLD <=? score best); [| discriminate].
  intros [= <-].
  apply sortByScore_head in S as (l1 & l2 & E & H1 & H2).
  apply map_eq_app in E as (before & tl & Ef & <- & E).
  apply map_eq_cons in E as (c & after & -> & <- & <-).
  exists before, c, after. split; [exact Ef |]. split; [reflexivity |].
  cbn [score] in *. split.
  - intros x Hx. apply (H1 (mkScored x (candidateScore parsed x))).
    apply in_map_iff. exists x. split; [reflexivity | assumption].
  - intros x Hx. apply (H2 (mkScored x (candidateScore parsed x))).
    apply in_map_iff. exists x. split; [reflexivity | assumption].
Qed.

(** X10. With the threshold at 65 the acceptance test never rejects a
    pooled candidate: no match is picked exactly when no candidate is in an
    allowed stage. *)
Theorem pickBest_none_iff (candidates : list Candidate) (parsed : Parsed) :
  Forall pooledType candidates ->
  (pickBest candidates parsed = None <-> allowedCandidates candidates = []).
Proof.
  intros Hp. unfold pickBest. fold (allowedCandidates candidates).
  destruct (allowedCandidates candidates) as [| c cs] eqn:A.
  - cbn. tauto.
  - split; [| discriminate]. intros E. exfalso.
    destruct (sortByScore _) as [| best rest] eqn:S.
    + assert (In (mkScored c (candidateScore parsed c)) [])
        by (rewrite <- S; apply sortByScore_In; now left).
      destruct H.
    + assert (Hin : In best (sortByScore
                (map (fun c0 => mkScored c0
                        (scoreMatch (c_matchType c0) (c_matchValue c0)
                           (c_deal c0) parsed)) (c :: cs))))
        by (rewrite S; now left).
      apply sortByScore_In, in_map_iff in Hin as (x & <- & Hx).
      cbn [score] in E.
      assert (P : pooledType x).
      { rewrite Forall_forall in Hp. apply Hp.
        assert (In x (allowedCandidates candidates)) by (rewrite A; exact Hx).
        unfold allowedCandidates in H. now apply filter_In in H as [? _]. }
      pose proof (pooled_meets_threshold parsed x P) as T.
      fold (candidateScore parsed x) in E.
      apply Z.leb_le in T. rewrite T in E. discriminate.
Qed.

Lemma pickBest_is_first_maximum_witness :
  pickBest [candidateLost; candidateByAddress; candidateByName]
    (mkParsed [] ["168 Las Palmas Dr, Miami, FL"] ["Las Palmas"])
  = Some (mkMatch fundedLoan 100 address)
  /\ exists before c after,
       allowedCandidates [candidateLost; candidateByAddress; candidateByName]
       = before ++ c :: after
       /\ mkMatch fundedLoan 100 address
          = mkMatch (c_deal c)
              (candidateScore
                 (mkParsed [] ["168 Las Palmas Dr, Miami, FL"] ["Las Palmas"]) c)
              (c_matchType c)
       /\ (forall x, In x before ->
             candidateScore
               (mkParsed [] ["168 Las Palmas Dr, Miami, FL"] ["Las Palmas"]) x
             < candidateScore
                 (mkParsed [] ["168 Las Palmas Dr, Miami, FL"] ["Las Palmas"]) c)
       /\ (forall x, In x after ->
             candidateScore
               (mkParsed [] ["168 Las Palmas Dr, Miami, FL"] ["Las Palmas"]) x
             <= candidateScore
                  (mkParsed [] ["168 Las Palmas Dr, Miami, FL"] ["Las Palmas"]) c).
Proof.
  split; [reflexivity |].
  apply (pickBest_is_first_maximum
           [candidateLost; candidateByAddress; candidateByName]
           (mkParsed [] ["168 Las Palmas Dr, Miami, FL"] ["Las Palmas"])
           (mkMatch fundedLoan 100 address)).
  reflexivity.
Defined.

Lemma pickBest_none_iff_witness :
  Forall pooledType [candidateLost]
  /\ pickBest [candidateLost] (mkParsed [] [] ["21 Valley Rd"]) = None.
Proof.
  assert (P : Forall pooledType [candidateLost]).
  { constructor; [left; reflexivity | constructor]. }
  split; [exact P |].
  apply (proj2 (pickBest_none_iff [candidateLost]
                  (mkParsed [] [] ["21 Valley Rd"]) P)).
  reflexivity.
Defined.

Section PoolFacts.
Context {W : Type} {net : Net W}.

Lemma dealNameChannel_candidates apiKey names :
  forall cs w cs' w' tr,
    dealNameChannel apiKey names cs w = (Ok cs', w', tr) ->
    exists new, cs' = cs ++ new /\ Forall (fromDealNames names) new.
Proof.
  induction names as [| name names IH]; intros cs w cs' w' tr E;
    cbn [dealNameChannel] in E.
  - inversion E; subst. exists []. split; [now rewrite app_nil_r | constructor].
  - assert (Up : forall new, Forall (fromDealNames names) new ->
                             Forall (fromDealNames (name :: names)) new).
    { intros new. apply Forall_impl. intros c (T & L & n & Hn & V).
      split; [assumption |]. split; [assumption |].
      exists n. split; [now right | assumption]. }
    destruct (String.length (cleanSearchValue name) <? 3)%nat eqn:L.
    + apply IH in E as (new & -> & F). exists new. auto.
    + apply Nat.ltb_ge in L.
      apply bind_inv in E as [(u & w1 & t1 & t2 & _ & E & _) | (e & _ & E)];
        [| discriminate].
      apply bind_inv in E as [(d1 & w2 & t3 & t4 & _ & E & _) | (e & _ & E)];
        [| discriminate].
      apply bind_inv in E as [(d2 & w3 & t5 & t6 & _ & E & _) | (e & _ & E)];
        [| discriminate].
      apply IH in E as (new & -> & F).
      exists (map (fun d => mkCandidate d deal_name (cleanSearchValue name)) d2
              ++ new).
      split; [now rewrite app_assoc |].
      apply Forall_app. split; [| auto].
      apply Forall_forall. intros c Hc.
      apply in_map_iff in Hc as (d & <- & _).
      split; [reflexivity |]. split; [exact L |].
      exists name. split; [now left | reflexivity].
Qed.

Lemma addressChannel_candidates apiKey addrs :
  forall cs w cs' w' tr,
    addressChannel apiKey addrs cs w = (Ok cs', w', tr) ->
    exists new, cs' = cs ++ new /\ Forall (fromAddresses addrs) new.
Proof.
  induction addrs as [| addr addrs IH]; intros cs w cs' w' tr E;
    cbn [addressChannel] in E.
  - inversion E; subst. exists []. split; [now rewrite app_nil_r | constructor].
  - assert (Up : forall new, Forall (fromAddresses addrs) new ->
                             Forall (fromAddresses (addr :: addrs)) new).
    { intros new. apply Forall_impl. intros c (T & Hin & L).
      split; [assumption |]. split; [now right | assumption]. }
    destruct (String.length (cleanSearchValue addr) <? 5)%nat eqn:L.
    + apply IH in E as (new & -> & F). exists new. auto.
    + apply Nat.ltb_ge in L. cbv zeta in E.
      apply bind_inv in E as [(u & w1 & t1 & t2 & _ & E & _) | (e & _ & E)];
        [| discriminate].
      apply bind_inv in E as [(d1 & w2 & t3 & t4 & _ & E & _) | (e & _ & E)];
        [| discriminate].
      apply bind_inv in E as [(d2 & w3 & t5 & t6 & _ & E & _) | (e & _ & E)];
        [| discriminate].
      apply IH in E as (new & -> & F).
      exists (map (fun d => mkCandidate d address addr) d2 ++ new).
      split; [now rewrite app_assoc |].
      apply Forall_app. split; [| auto].
      apply Forall_forall. intros c Hc.
      apply in_map_iff in Hc as (d & <- & _).
      split; [reflexivity |]. split; [now left | exact L].
Qed.

(** X11. What is pooled: deal-name candidates first, then address
    candidates. A deal-name candidate carries the cleaned fragment it was
    searched with, at least 3 characters long; an address candidate carries
    the extracted address as it was, whose cleaned form has at least 5
    characters. When no loan number is extracted, [findMatch] is the pick
    from this pool. *)
Theorem pool_of_candidates (apiKey : string) (parsed : Parsed)
    (w w' : W) (pool : list Candidate) (tr : list Event) :
  poolCandidates apiKey parsed w = (Ok pool, w', tr) ->
  (exists byName byAddress,
      pool = byName ++ byAddress
      /\ Forall (fromDealNames (dealNames parsed)) byName
      /\ Forall (fromAddresses (addresses parsed)) byAddress)
  /\ Forall pooledType pool
  /\ (loanNumbers parsed = [] ->
      findMatch apiKey parsed w = (Ok (pickBest pool parsed), w', tr)).
Proof.
  unfold poolCandidates. intros E.
  pose proof E as E0.
  apply bind_inv in E as [(c1 & w1 & t1 & t2 & D & A & ->) | (e & _ & E)];
    [| discriminate].
  apply dealNameChannel_candidates in D as (byName & -> & FN).
  apply addressChannel_candidates in A as (byAddress & -> & FA).
  cbn [app] in *.
  split; [exists byName, byAddress; auto |]. split.
  - apply Forall_app. split.
    + eapply Forall_impl; [| exact FN]. intros c (T & _). now left.
    + eapply Forall_impl; [| exact FA]. intros c (T & _). now right.
  - intros Hl. unfold findMatch. rewrite Hl. cbn [loanNumberChannel].
    erewrite bind_ok by reflexivity. rewrite andThen_nil. cbv beta iota.
    change (bind (dealNameChannel apiKey (dealNames parsed) [])
              (fun candidates =>
                 bind (addressChannel apiKey (addresses parsed) candidates)
                   (fun candidates0 => ret (pickBest candidates0 parsed))) w
            = (Ok (pickBest (byName ++ byAddress) parsed), w', t1 ++ t2)).
    unfold bind in *.
    destruct (dealNameChannel apiKey (dealNames parsed) [] w)
      as [[[c1 | e] w1'] t1']; [| discriminate].
    destruct (addressChannel apiKey (addresses parsed) c1 w1')
      as [[[c2 | e] w2'] t2']; [| discriminate].
    injection E0 as -> -> <-. cbn. now rewrite app_nil_r.
Qed.

End PoolFacts.

(** On the small store, the names "21 Valley Rd" and "168 Las Palmas" pool
    one candidate each. *)
Lemma pool_of_candidates_witness :
  poolCandidates "key" (mkParsed [] [] ["21 Valley Rd"; "168 Las Palmas"]) demoStore
  = (Ok [ mkCandidate lostLoan deal_name "21 Valley Rd";
          mkCandidate fundedLoan deal_name "168 Las Palmas" ],
     demoStore,
     [ EvSleep (Js.Num 150); EvFetch "key" (ReqSearchField F_dealname "21 Valley Rd");
       EvSleep (Js.Num 150); EvFetch "key" (ReqSearchField F_dealname "168 Las Palmas") ])
  /\ Forall pooledType
       [ mkCandidate lostLoan deal_name "21 Valley Rd";
         mkCandidate fundedLoan deal_name "168 Las Palmas" ].
Proof.
  split; [reflexivity |].
  exact (proj1 (proj2
    (pool_of_candidates "key" (mkParsed [] [] ["21 Valley Rd"; "168 Las Palmas"])
       demoStore demoStore
       [ mkCandidate lostLoan deal_name "21 Valley Rd";
         mkCandidate fundedLoan deal_name "168 Las Palmas" ]
       [ EvSleep (Js.Num 150);
         EvFetch "key" (ReqSearchField F_dealname "21 Valley Rd");
         EvSleep (Js.Num 150);
         EvFetch "key" (ReqSearchField F_dealname "168 Las Palmas") ]
       eq_refl))).
Defined.

(* ------------------------------------------------------------------ *)
(** ** The shape of search values *)
(* ------------------------------------------------------------------ *)

Lemma chars_append a b : chars (a ++ b)%string = chars a ++ chars b.
Proof.
  unfold chars. induction a as [| c a IH]; cbn; [reflexivity | now rewrite IH].
Qed.

Lemma chars_of_list l : chars (string_of_list_ascii l) = l.
Proof. apply list_ascii_of_string_of_list_ascii. Qed.

Lemma chars_inj a b : chars a = chars b -> a = b.
Proof.
  intros E. rewrite <- (string_of_list_ascii_of_string a),
    <- (string_of_list_ascii_of_string b). unfold chars in E. now rewrite E.
Qed.

Lemma chars_reverse s : chars (Js.reverse s) = rev (chars s).
Proof. unfold Js.reverse. apply chars_of_list. Qed.

Lemma chars_dropWhile p s : chars (Js.dropWhile p s) = dropWhileL p (chars s).
Proof.
  unfold chars. induction s as [| c s IH]; cbn; [reflexivity |].
  destruct (p c); [exact IH | reflexivity].
Qed.

Lemma chars_dropEnd p s :
  chars (Js.reverse (Js.dropWhile p (Js.reverse s))) = dropEndL p (chars s).
Proof.
  unfold dropEndL. now rewrite chars_reverse, chars_dropWhile, chars_reverse.
Qed.

Lemma chars_length s : length (chars s) = String.length s.
Proof.
  unfold chars. induction s as [| c s IH]; cbn; [reflexivity | now rewrite IH].
Qed.

(** What is dropped in front satisfies [p]; what stays does not start with
    a character satisfying [p]. *)
Lemma dropWhileL_spec p l :
  exists pre,
    l = pre ++ dropWhileL p l /\ Forall (fun c => p c = true) pre
    /\ match dropWhileL p l with [] => True | c :: _ => p c = false end.
Proof.
  induction l as [| c l (pre & E & F & H)]; cbn.
  - exists []. repeat split. constructor.
  - destruct (p c) eqn:C.
    + exists (c :: pre). split; [cbn; now rewrite <- E |].
      split; [now constructor | assumption].
    + exists []. repeat split; [constructor | assumption].
Qed.

Lemma dropEndL_spec p l :
  exists post,
    l = dropEndL p l ++ post /\ Forall (fun c => p c = true) post
    /\ match rev (dropEndL p l) with [] => True | c :: _ => p c = false end.
Proof.
  unfold dropEndL. destruct (dropWhileL_spec p (rev l)) as (pre & E & F & H).
  exists (rev pre). split; [| split].
  - rewrite <- rev_app_distr, <- E. now rewrite rev_involutive.
  - now apply Forall_rev.
  - now rewrite rev_involutive.
Qed.

Lemma trimmedL_trim l : trimmedL (dropEndL Js.isSpace (dropWhileL Js.isSpace l)).
Proof.
  destruct (dropWhileL_spec Js.isSpace l) as (pre & _ & _ & Hhead).
  destruct (dropEndL_spec Js.isSpace (dropWhileL Js.isSpace l))
    as (post & E & _ & Hlast).
  split; [| exact Hlast].
  destruct (dropEndL Js.isSpace (dropWhileL Js.isSpace l)) as [| c m];
    [exact I |].
  rewrite E in Hhead. exact Hhead.
Qed.

Lemma chars_trim s :
  chars (Js.trim s) = dropEndL Js.isSpace (dropWhileL Js.isSpace (chars s)).
Proof.
  unfold Js.trim, Js.trimEnd, Js.trimStart.
  now rewrite chars_dropEnd, chars_dropWhile.
Qed.

Lemma singleSpacedL_app_l a b : singleSpacedL (a ++ b) -> singleSpacedL a.
Proof.
  induction a as [| x a IH]; [intros; exact I |].
  cbn [app singleSpacedL]. intros (H1 & H2 & H3).
  split; [assumption |]. split; [| auto].
  destruct a as [| y a]; [exact I | exact H2].
Qed.

Lemma singleSpacedL_app_r a b : singleSpacedL (a ++ b) -> singleSpacedL b.
Proof.
  induction a as [| x a IH]; [auto |].
  cbn [app singleSpacedL]. intros (_ & _ & H3). auto.
Qed.

Lemma singleSpacedL_collapse s :
  forall inRun,
    singleSpacedL (chars (collapseSpaces inRun s))
    /\ (inRun = true ->
        match chars (collapseSpaces inRun s) with
        | [] => True
        | c :: _ => Js.isSpace c = false
        end).
Proof.
  induction s as [| c s IH]; intros inRun; cbn [collapseSpaces].
  - split; [exact I | intros; exact I].
  - destruct (Js.isSpace c) eqn:C.
    + destruct inRun.
      * apply IH.
      * destruct (IH true) as [S1 S2]. specialize (S2 eq_refl).
        split; [| discriminate].
        cbn [chars list_ascii_of_string singleSpacedL].
        split; [reflexivity |]. split; [| exact S1].
        change (list_ascii_of_string (collapseSpaces true s))
          with (chars (collapseSpaces true s)).
        destruct (chars (collapseSpaces true s)) as [| b t]; [exact I |].
        rewrite S2. apply andb_false_r.
    + destruct (IH false) as [S1 _].
      split; [| intros _; exact C].
      cbn [chars list_ascii_of_string singleSpacedL].
      split; [congruence |]. split; [| exact S1].
      change (list_ascii_of_string (collapseSpaces false s))
        with (chars (collapseSpaces false s)).
      destruct (chars (collapseSpaces false s)) as [| b t]; [exact I |].
      now rewrite C.
Qed.

Lemma cleanSearchValue_trimmed_single (value : string) :
  trimmedL (chars (cleanSearchValue value))
  /\ singleSpacedL (chars (cleanSearchValue value)).
Proof.
  unfold cleanSearchValue. destruct value as [| c v].
  - split; [split; exact I | exact I].
  - set (line := Js.splitHead Js.CR (Js.splitHead Js.LF (String c v))).
    rewrite chars_trim. split; [apply trimmedL_trim |].
    destruct (singleSpacedL_collapse line false) as [S _].
    unfold stripTrailingDots. rewrite chars_dropEnd.
    destruct (dropEndL_spec isDot (chars (collapseSpaces false line)))
      as (post1 & E1 & _).
    rewrite E1 in S. apply singleSpacedL_app_l in S.
    destruct (dropWhileL_spec Js.isSpace
                (dropEndL isDot (chars (collapseSpaces false line))))
      as (pre2 & E2 & _).
    rewrite E2 in S. apply singleSpacedL_app_r in S.
    destruct (dropEndL_spec Js.isSpace
                (dropWhileL Js.isSpace
                   (dropEndL isDot (chars (collapseSpaces false line)))))
      as (post3 & E3 & _).
    rewrite E3 in S. now apply singleSpacedL_app_l in S.
Qed.

(** X12. A cleaned search value is trimmed and single-spaced: it neither
    starts nor ends with white space, its only white-space characters are
    plain spaces (so it has no line break or tab), and no two of them are
    adjacent. *)
Theorem cleanSearchValue_shape (value : string) :
  trimmedL (chars (cleanSearchValue value))
  /\ singleSpacedL (chars (cleanSearchValue value)).
Proof. apply cleanSearchValue_trimmed_single. Qed.

Lemma prefixL_refl l : prefixL l l.
Proof. exists []. now rewrite app_nil_r. Qed.

Lemma prefixL_trans a b c : prefixL a b -> prefixL b c -> prefixL a c.
Proof. intros (r1 & ->) (r2 & ->). exists (r1 ++ r2). now rewrite app_assoc. Qed.

Lemma dropEndL_prefix p l : prefixL (dropEndL p l) l.
Proof. destruct (dropEndL_spec p l) as (post & E & _). now exists post. Qed.

Lemma chars_takeWhile_prefix p s :
  prefixL (chars (Js.takeWhile p s)) (chars s)
  /\ Forall (fun c => p c = true) (chars (Js.takeWhile p s)).
Proof.
  unfold chars. induction s as [| c s [(rest & E) F]]; cbn.
  - split; [apply prefixL_refl | constructor].
  - destruct (p c) eqn:C; cbn.
    + split; [exists rest; now rewrite E at 1 | now constructor].
    + split; [now exists (c :: list_ascii_of_string s) | constructor].
Qed.

(** Trimming a prefix of a string that does not start with white space
    gives a prefix of that string. *)
Lemma trim_prefix p b :
  prefixL p b ->
  match b with [] => True | c :: _ => Js.isSpace c = false end ->
  prefixL (dropEndL Js.isSpace (dropWhileL Js.isSpace p)) b.
Proof.
  intros (rest & ->) Hb.
  assert (D : dropWhileL Js.isSpace p = p).
  { destruct p as [| c p]; [reflexivity |]. cbn in *. now rewrite Hb. }
  rewrite D. eapply prefixL_trans; [apply dropEndL_prefix |]. now exists rest.
Qed.

Lemma reverse_suffix_prefix s pre t :
  rev (chars s) = pre ++ chars t ->
  prefixL (chars (Js.reverse (Js.dropWhile Js.isSpace t))) (chars s).
Proof.
  intros E. rewrite chars_reverse, chars_dropWhile.
  destruct (dropWhileL_spec Js.isSpace (chars t)) as (pre2 & E2 & _).
  exists (rev (pre ++ pre2)).
  rewrite <- rev_app_distr, <- app_assoc, <- E2, <- E.
  now rewrite rev_involutive.
Qed.

Lemma stripStreetSuffix_prefix s :
  prefixL (chars (stripStreetSuffix s)) (chars s).
Proof.
  unfold stripStreetSuffix.
  set (r1 := Js.dropWhile Js.isSpace (Js.reverse s)).
  set (r2 := match r1 with
             | String c r => if isDot c then r else r1
             | EmptyString => r1
             end).
  assert (S1 : exists pre, rev (chars s) = pre ++ chars r1).
  { unfold r1. rewrite chars_dropWhile, chars_reverse.
    destruct (dropWhileL_spec Js.isSpace (rev (chars s))) as (pre & E & _).
    now exists pre. }
  assert (S2 : exists pre, chars r1 = pre ++ chars r2).
  { unfold r2. destruct r1 as [| c r]; [now exists [] |].
    destruct (isDot c); [now exists [c] | now exists []]. }
  assert (S3 : exists pre, rev (chars s)
                           = pre ++ chars (Js.dropWhile notSpace r2)).
  { rewrite chars_dropWhile.
    destruct (dropWhileL_spec notSpace (chars r2)) as (p3 & E3 & _).
    destruct S1 as (p1 & E1), S2 as (p2 & E2).
    exists (p1 ++ p2 ++ p3). now rewrite <- !app_assoc, <- E3, <- E2. }
  destruct S3 as (pre & E).
  destruct (Js.dropWhile notSpace r2) as [| b0 before'];
    [apply prefixL_refl |].
  destruct (existsb _ STREET_SUFFIXES); [| apply prefixL_refl].
  eapply reverse_suffix_prefix. exact E.
Qed.

Lemma Forall_prefixL P a b : prefixL a b -> Forall P b -> Forall P a.
Proof. intros (rest & ->) F. now apply Forall_app in F as [F _]. Qed.

Lemma chars_trim_sub s :
  exists pre post, chars s = pre ++ chars (Js.trim s) ++ post.
Proof.
  rewrite chars_trim.
  destruct (dropWhileL_spec Js.isSpace (chars s)) as (pre & E & _).
  destruct (dropEndL_spec Js.isSpace (dropWhileL Js.isSpace (chars s)))
    as (post & E2 & _).
  exists pre, post. now rewrite <- E2.
Qed.

Lemma trimmedL_head l :
  trimmedL l -> match l with [] => True | c :: _ => Js.isSpace c = false end.
Proof. now intros [H _]. Qed.

Lemma extractStreetCore_facts (address : string) :
  prefixL (chars (extractStreetCore address))
    (chars (Js.trim (Js.splitHead "," address)))
  /\ Forall (fun c => c <> ","%char) (chars (extractStreetCore address))
  /\ trimmedL (chars (extractStreetCore address)).
Proof.
  set (beforeComma := Js.trim (Js.splitHead "," address)).
  assert (Tb : trimmedL (chars beforeComma))
    by (unfold beforeComma; rewrite chars_trim; apply trimmedL_trim).
  assert (Nb : Forall (fun c => c <> ","%char) (chars beforeComma)).
  { unfold beforeComma.
    destruct (chars_trim_sub (Js.splitHead "," address)) as (pre & post & E).
    destruct (chars_takeWhile_prefix
                (fun c => negb (Ascii.eqb c ",")) address) as [_ F].
    fold (Js.splitHead "," address) in F. rewrite E in F.
    apply Forall_app in F as [_ F]. apply Forall_app in F as [F _].
    eapply Forall_impl; [| exact F]. cbn. intros c Hc ->.
    now rewrite Ascii.eqb_refl in Hc. }
  assert (P : prefixL (chars (extractStreetCore address)) (chars beforeComma)).
  { unfold extractStreetCore. fold beforeComma.
    destruct (startsWithNumberAndWord _); [| apply prefixL_refl].
    rewrite chars_trim. apply trim_prefix.
    - apply stripStreetSuffix_prefix.
    - now apply trimmedL_head. }
  split; [exact P |]. split; [eapply Forall_prefixL; eassumption |].
  unfold extractStreetCore. fold beforeComma.
  destruct (startsWithNumberAndWord _); [| exact Tb].
  rewrite chars_trim. apply trimmedL_trim.
Qed.

(** X13. The street core of an address is a prefix of the trimmed text
    before its first comma: cutting the suffix word only ever shortens that
    text at the end. It contains no comma and is itself trimmed. *)
Theorem extractStreetCore_prefix (address : string) :
  prefixL (chars (extractStreetCore address))
    (chars (Js.trim (Js.splitHead "," address)))
  /\ Forall (fun c => c <> ","%char) (chars (extractStreetCore address))
  /\ trimmedL (chars (extractStreetCore address)).
Proof. apply extractStreetCore_facts. Qed.

Lemma length_nonempty (v : string) : (1 <= String.length v)%nat -> v <> "".
Proof. destruct v; cbn; [lia | discriminate]. Qed.

Lemma singleSpacedL_sub pre mid post :
  singleSpacedL (pre ++ mid ++ post) -> singleSpacedL mid.
Proof.
  intros S. apply singleSpacedL_app_r in S. now apply singleSpacedL_app_l in S.
Qed.

Lemma cleanSearchValue_ok (value : string) :
  (1 <= String.length (cleanSearchValue value))%nat ->
  searchValueOk (cleanSearchValue value).
Proof.
  intros L. split; [now apply length_nonempty |].
  apply cleanSearchValue_trimmed_single.
Qed.

Lemma extractStreetCore_single (value : string) :
  singleSpacedL (chars value) -> singleSpacedL (chars (extractStreetCore value)).
Proof.
  intros S. destruct (extractStreetCore_facts value) as ((rest & E) & _ & _).
  destruct (chars_trim_sub (Js.splitHead "," value)) as (pre & post & E2).
  destruct (chars_takeWhile_prefix (fun c => negb (Ascii.eqb c ",")) value)
    as [(rest3 & E3) _].
  fold (Js.splitHead "," value) in E3.
  rewrite E3 in S. apply singleSpacedL_app_l in S.
  rewrite E2 in S. apply singleSpacedL_sub in S.
  rewrite E in S. now apply singleSpacedL_app_l in S.
Qed.

Section SearchValueFacts.
Context {W : Type} {net : Net W}.

Lemma emits_field_search apiKey f v :
  searchValueOk v -> emits fieldSearchOk (searchDealsByField apiKey f v).
Proof.
  intros Hv. eapply emits_weaken; [| apply emits_searchDealsByField].
  intros e [-> | (ms & ->)]; cbn; auto.
Qed.

Lemma emits_findMatch_values apiKey parsed :
  emits fieldSearchOk (findMatch apiKey parsed).
Proof.
  assert (F2 : forall f v deals, searchValueOk v ->
             emits fieldSearchOk
               (match deals with
                | [] => searchDealsByField apiKey f v
                | _ => ret deals
                end)).
  { intros f v [| d ds] Hv; [now apply emits_field_search | apply emits_ret]. }
  unfold findMatch. apply emits_bind.
  { eapply emits_weaken; [| apply emits_loanNumberChannel].
    intros [k [] | ms | line] [H1 H2]; cbn in *; auto; discriminate. }
  intros [m |]; [apply emits_ret |].
  apply emits_bind.
  { generalize (@nil Candidate) as cs. generalize (dealNames parsed) as names.
    induction names as [| name names IH]; intros cs; cbn [dealNameChannel];
      [apply emits_ret |].
    destruct (String.length (cleanSearchValue name) <? 3)%nat eqn:L;
      [apply IH |].
    apply Nat.ltb_ge in L.
    assert (Hv : searchValueOk (cleanSearchValue name))
      by (apply cleanSearchValue_ok; lia).
    apply emits_bind; [now apply emits_emit | intros _].
    apply emits_bind; [now apply emits_field_search | intros deals].
    apply emits_bind; [now apply F2 | intros; apply IH]. }
  intros c1. apply emits_bind; [| intros; apply emits_ret].
  generalize c1 as cs. generalize (addresses parsed) as addrs.
  induction addrs as [| addr addrs IH]; intros cs; cbn [addressChannel];
    [apply emits_ret |].
  destruct (String.length (cleanSearchValue addr) <? 5)%nat eqn:L; [apply IH |].
  apply Nat.ltb_ge in L. cbv zeta.
  assert (Hc : searchValueOk (cleanSearchValue addr))
    by (apply cleanSearchValue_ok; lia).
  assert (Hv : searchValueOk
                 match extractStreetCore (cleanSearchValue addr) with
                 | EmptyString => cleanSearchValue addr
                 | String _ _ => extractStreetCore (cleanSearchValue addr)
                 end).
  { destruct (extractStreetCore (cleanSearchValue addr)) as [| c0 core] eqn:E;
      [exact Hc |].
    rewrite <- E. split; [rewrite E; discriminate |].
    split; [apply extractStreetCore_facts |].
    apply extractStreetCore_single, Hc. }
  apply emits_bind; [now apply emits_emit | intros _].
  apply emits_bind; [now apply emits_field_search | intros deals].
  apply emits_bind; [now apply F2 | intros; apply IH].
Qed.

(** X14. Every search by deal name or by address that [findMatch] sends
    carries a value that is not empty, is trimmed, and is single-spaced on
    one line, whatever was extracted from the email. *)
Theorem findMatch_search_values (apiKey : string) (parsed : Parsed) (w : W) :
  Forall fieldSearchOk (traceOf (findMatch apiKey parsed w)).
Proof.
  unfold traceOf.
  destruct (findMatch apiKey parsed w) as [[r w'] tr] eqn:E. cbn [snd].
  eapply emits_findMatch_values. exact E.
Qed.

(** X15. Fragments too short to search with are passed over silently:
    when no loan number was extracted, every deal-name fragment cleans to
    fewer than 3 characters and every address to fewer than 5, [findMatch]
    returns no match without a single request or wait. *)
Theorem findMatch_nothing_usable (apiKey : string) (parsed : Parsed) (w : W) :
  loanNumbers parsed = [] ->
  Forall (fun name => (String.length (cleanSearchValue name) < 3)%nat)
    (dealNames parsed) ->
  Forall (fun addr => (String.length (cleanSearchValue addr) < 5)%nat)
    (addresses parsed) ->
  findMatch apiKey parsed w = (Ok None, w, []).
Proof.
  intros Hl Hn Ha. unfold findMatch. rewrite Hl. cbn [loanNumberChannel].
  erewrite bind_ok by reflexivity. rewrite andThen_nil. cbv beta iota.
  assert (D : forall cs, dealNameChannel apiKey (dealNames parsed) cs w
                         = (Ok cs, w, [])).
  { induction Hn as [| name names L _ IH]; intros cs; [reflexivity |].
    cbn [dealNameChannel]. apply Nat.ltb_lt in L. rewrite L. apply IH. }
  assert (A : forall cs, addressChannel apiKey (addresses parsed) cs w
                         = (Ok cs, w, [])).
  { induction Ha as [| addr addrs L _ IH]; intros cs; [reflexivity |].
    cbn [addressChannel]. apply Nat.ltb_lt in L. rewrite L. apply IH. }
  erewrite bind_ok by apply D. rewrite andThen_nil.
  erewrite bind_ok by apply A. reflexivity.
Qed.

End SearchValueFacts.

Lemma findMatch_nothing_usable_witness :
  findMatch "key" (mkParsed [] ["7 A."] ["ok"; "  a.  "]) demoStore
  = (Ok None, demoStore, []).
Proof.
  apply (findMatch_nothing_usable "key"
           (mkParsed [] ["7 A."] ["ok"; "  a.  "]) demoStore).
  - reflexivity.
  - repeat constructor.
  - repeat constructor.
Defined.

(* ------------------------------------------------------------------ *)
(** ** The event filter, further *)
(* ------------------------------------------------------------------ *)

Lemma filterEvents_subsequence events :
  forall seen, subsequence (filterEvents seen events) events.
Proof.
  induction events as [| e events IH]; intros seen; cbn [filterEvents];
    [constructor |].
  destruct (negb (relevantEvent e)); [constructor; apply IH |].
  destruct (existsb _ seen); constructor; apply IH.
Qed.

Lemma filterEvents_first_occurrence events :
  forall seen evt,
    In evt (filterEvents seen events) <->
    exists pre post,
      events = pre ++ evt :: post
      /\ relevantEvent evt = true
      /\ existsb (String.eqb (eventKey evt)) seen = false
      /\ forall e, In e pre -> relevantEvent e = true -> eventKey e <> eventKey evt.
Proof.
  unfold eventKey.
  induction events as [| e events IH]; intros seen evt; cbn [filterEvents].
  - split; [intros [] | intros ([| ? ?] & post & E & _); discriminate].
  - destruct (relevantEvent e) eqn:R; cbn [negb].
    + destruct (existsb (String.eqb (String_ (objectId e))) seen) eqn:S.
      * rewrite IH. split.
        -- intros (pre & post & -> & Rv & Sv & First).
           exists (e :: pre), post. repeat split; auto.
           intros x [<- | Hx] Rx; [| auto].
           intros K. rewrite K in S. congruence.
        -- intros ([| x pre] & post & E & Rv & Sv & First);
             injection E as <- ->; [congruence |].
           exists pre, post. repeat split; auto.
           intros y Hy. apply First. now right.
      * split.
        -- intros [<- | Hin].
           ++ exists [], events. repeat split; auto; intros ? [].
           ++ apply IH in Hin as (pre & post & -> & Rv & Sv & First).
              cbn [existsb] in Sv. apply orb_false_iff in Sv as [Ne Sv].
              exists (e :: pre), post. repeat split; auto.
              intros x [<- | Hx] Rx; [| auto].
              intros K. rewrite K, String.eqb_refl in Ne. discriminate.
        -- intros ([| x pre] & post & E & Rv & Sv & First);
             injection E as <- ->; [now left |].
           right. apply IH. exists pre, post. repeat split; auto.
           ++ cbn [existsb]. rewrite Sv, orb_false_r.
              apply String.eqb_neq. intros K.
              apply (First e (or_introl eq_refl) R). now symmetry.
           ++ intros y Hy. apply First. now right.
    + rewrite IH. split.
      * intros (pre & post & -> & Rv & Sv & First).
        exists (e :: pre), post. repeat split; auto.
        intros x [<- | Hx] Rx; [congruence | auto].
      * intros ([| x pre] & post & E & Rv & Sv & First);
          injection E as <- ->; [congruence |].
        exists pre, post. repeat split; auto.
        intros y Hy. apply First. now right.
Qed.

(** X16. What the filter retains, exactly: an event is retained if and
    only if it is a relevant email event and no relevant event before it in
    the batch has the same identifier. *)
Theorem uniqueEvents_first_occurrence (events : list WebhookEvent)
    (evt : WebhookEvent) :
  In evt (uniqueEvents events) <->
  exists pre post,
    events = pre ++ evt :: post
    /\ relevantEvent evt = true
    /\ forall e, In e pre -> relevantEvent e = true -> eventKey e <> eventKey evt.
Proof.
  unfold uniqueEvents. rewrite filterEvents_first_occurrence. split.
  - intros (pre & post & E & R & _ & F). eauto 6.
  - intros (pre & post & E & R & F). exists pre, post. auto.
Qed.

(** X17. The retained events are a subsequence of the batch (nothing is
    reordered or invented), they are all relevant, and their identifiers
    are pairwise different, an identifier sent as a number and as a string
    counting as the same. *)
Theorem uniqueEvents_sound (events : list WebhookEvent) :
  subsequence (uniqueEvents events) events
  /\ Forall (fun evt => relevantEvent evt = true) (uniqueEvents events)
  /\ NoDup (map eventKey (uniqueEvents events))
  /\ (length (uniqueEvents events) <= length events)%nat.
Proof.
  split; [apply filterEvents_subsequence |]. split; [| split].
  - apply Forall_forall. intros evt Hin.
    now apply filterEvents_In in Hin as (_ & R & _).
  - apply filterEvents_NoDup.
  - unfold uniqueEvents. generalize (@nil string) as seen.
    induction events as [| e events IH]; intros seen; cbn [filterEvents];
      [reflexivity |].
    destruct (negb (relevantEvent e)); [cbn; specialize (IH seen); lia |].
    destruct (existsb _ seen); cbn; [specialize (IH seen); lia |].
    specialize (IH (String_ (objectId e) :: seen)). lia.
Qed.

Lemma filterEvents_fixed l :
  forall seen,
    Forall (fun evt => relevantEvent evt = true) l ->
    NoDup (map eventKey l) ->
    (forall evt, In evt l -> existsb (String.eqb (eventKey evt)) seen = false) ->
    filterEvents seen l = l.
Proof.
  unfold eventKey.
  induction l as [| e l IH]; intros seen R N S; [reflexivity |].
  cbn [filterEvents]. inversion R as [| ? ? Re Rl]; subst.
  inversion N as [| ? ? Ne Nl]; subst.
  rewrite Re, (S e (or_introl eq_refl)). cbn [negb]. f_equal.
  apply IH; auto.
  intros evt Hin. cbn [existsb]. rewrite (S evt (or_intror Hin)), orb_false_r.
  apply String.eqb_neq. intros K. apply Ne. rewrite <- K.
  apply in_map_iff. exists evt. auto.
Qed.

(** X18. Filtering is idempotent: a batch that has been filtered passes
    the filter unchanged. *)
Theorem uniqueEvents_idempotent (events : list WebhookEvent) :
  uniqueEvents (uniqueEvents events) = uniqueEvents events.
Proof.
  unfold uniqueEvents at 1. apply filterEvents_fixed.
  - apply Forall_forall. intros evt Hin.
    now apply filterEvents_In in Hin as (_ & R & _).
  - apply filterEvents_NoDup.
  - reflexivity.
Qed.

(* ------------------------------------------------------------------ *)
(** ** The handler, further *)
(* ------------------------------------------------------------------ *)

Section MoreHandlerFacts.
Context {W : Type} {net : Net W} {extractor : Extractor}.

Lemma BatchRun_nil apiKey w results w' tr :
  BatchRun apiKey [] w results w' tr -> tr = [].
Proof. now inversion 1. Qed.

(** X19. The handler always answers and never raises: the status is 200,
    405 or 500, and a 200 to a POST reports as [processed] the number of
    entries it lists. A request reaches the store only for a POST with an
    API key and a decoded batch that retains at least one event, and that
    invocation is answered 200 whatever happens to the individual emails. *)
Theorem handler_always_answers (event : Invocation) (w : W) :
  exists resp w' tr,
    handler event w = (Ok resp, w', tr)
    /\ In (statusCode resp) [200; 405; 500]
    /\ (forall n results, http_body resp = BodySuccess n results ->
                          n = length results)
    /\ (attemptsIn tr <> 0%nat ->
        statusCode resp = 200
        /\ httpMethod event = "POST"
        /\ Js.truthy (env_HUBSPOT_API_KEY event) = true
        /\ exists evs, parsed_body event = Ok evs /\ uniqueEvents evs <> []).
Proof.
  unfold handler.
  destruct (String.eqb_spec (httpMethod event) "GET") as [G | G].
  { eexists _, _, _. split; [reflexivity |]. cbn.
    split; [auto |]. split; [discriminate | intros N; now elim N]. }
  destruct (String.eqb_spec (httpMethod event) "POST") as [P | P].
  2:{ eexists _, _, _. split; [reflexivity |]. cbn.
      split; [auto |]. split; [discriminate | intros N; now elim N]. }
  destruct (env_HUBSPOT_API_KEY event) as [[| c key] |] eqn:K.
  1,3: eexists _, _, _; (split; [reflexivity |]); cbn;
       (split; [auto |]); (split; [discriminate | intros N; now elim N]).
  destruct (parsed_body event) as [evs | e] eqn:B.
  - destruct (processEvents_run (String c key) (uniqueEvents evs) [] w)
      as (added & w' & tr & R & E).
    exists (mkHttp 200 (BodySuccess (length added) added)), w', tr.
    split.
    { erewrite try_catch_ok; [reflexivity |].
      erewrite bind_ok by reflexivity. rewrite andThen_nil.
      erewrite bind_ok by eassumption. cbn. now rewrite app_nil_r. }
    cbn. split; [auto |]. split; [now intros n results [= <- <-] |].
    intros N. repeat split; auto. exists evs. split; [reflexivity |].
    intros Z. rewrite Z in R. apply BatchRun_nil in R. subst tr. now elim N.
  - eexists _, _, _. split.
    { erewrite try_catch_throw by (erewrite bind_throw; reflexivity).
      reflexivity. }
    cbn. split; [auto |]. split; [discriminate | intros N; now elim N].
Qed.

Lemma BatchRun_associate apiKey evts w results w' tr k eid did :
  BatchRun apiKey evts w results w' tr ->
  In (EvFetch k (ReqAssociate eid did)) tr ->
  exists evt, In evt evts /\ eid = eventKey evt.
Proof.
  induction 1 as [w | evt rest entry results w w1 t1 w2 t2 PE _ IH
                    | evt rest results w w1 t1 w2 t2 PE _ IH
                    | evt rest results e w w1 t1 w2 t2 PE _ IH];
    intros Hin; [destruct Hin | | |];
    (apply in_app_or in Hin as [Hin | Hin];
     [ apply (processEmail_associate _ _ _ _ _ _ _ _ _ PE) in Hin
         as (m & w3 & t3 & _ & _ & -> & _);
       exists evt; split; [now left | reflexivity]
     | ]).
  - destruct (IH Hin) as (x & Hx & E). exists x. split; [now right | exact E].
  - destruct (IH Hin) as (x & Hx & E). exists x. split; [now right | exact E].
  - destruct Hin as [Q | Hin]; [discriminate |].
    destruct (IH Hin) as (x & Hx & E). exists x. split; [now right | exact E].
Qed.

Lemma processEmail_one_deal apiKey evt w r w' tr k1 k2 e1 e2 d1 d2 :
  processEmail apiKey evt w = (r, w', tr) ->
  In (EvFetch k1 (ReqAssociate e1 d1)) tr ->
  In (EvFetch k2 (ReqAssociate e2 d2)) tr ->
  d1 = d2.
Proof.
  intros PE H1 H2.
  apply (processEmail_associate _ _ _ _ _ _ _ _ _ PE) in H1
    as (m1 & w1 & t1 & M1 & _ & _ & ->).
  apply (processEmail_associate _ _ _ _ _ _ _ _ _ PE) in H2
    as (m2 & w2 & t2 & M2 & _ & _ & ->).
  rewrite M1 in M2. now injection M2 as <- _ _.
Qed.

Lemma BatchRun_one_deal apiKey evts w results w' tr :
  BatchRun apiKey evts w results w' tr ->
  NoDup (map eventKey evts) ->
  forall k1 k2 eid d1 d2,
    In (EvFetch k1 (ReqAssociate eid d1)) tr ->
    In (EvFetch k2 (ReqAssociate eid d2)) tr ->
    d1 = d2.
Proof.
  assert (Step : forall evt rest (u u1 u2 : W) r t1 t2 res,
    processEmail apiKey evt u = (r, u1, t1) ->
    BatchRun apiKey rest u1 res u2 t2 ->
    NoDup (map eventKey (evt :: rest)) ->
    (NoDup (map eventKey rest) ->
     forall k1 k2 eid d1 d2,
       In (EvFetch k1 (ReqAssociate eid d1)) t2 ->
       In (EvFetch k2 (ReqAssociate eid d2)) t2 -> d1 = d2) ->
    forall k1 k2 eid d1 d2,
      In (EvFetch k1 (ReqAssociate eid d1)) t1
        \/ In (EvFetch k1 (ReqAssociate eid d1)) t2 ->
      In (EvFetch k2 (ReqAssociate eid d2)) t1
        \/ In (EvFetch k2 (ReqAssociate eid d2)) t2 -> d1 = d2).
  { intros evt rest u u1 u2 r t1 t2 res PE R N IH k1 k2 eid d1 d2 H1 H2.
    inversion N as [| ? ? Ne Nl]; subst.
    assert (Cross : forall k d k' d',
      In (EvFetch k (ReqAssociate eid d)) t1 ->
      In (EvFetch k' (ReqAssociate eid d')) t2 -> False).
    { intros k d k' d' A B.
      apply (processEmail_associate _ _ _ _ _ _ _ _ _ PE) in A
        as (m & w3 & t3 & _ & _ & E & _).
      apply (BatchRun_associate _ _ _ _ _ _ _ _ _ R) in B as (x & Hx & Ex).
      apply Ne. apply in_map_iff. exists x. split; [| assumption].
      unfold eventKey in *. congruence. }
    destruct H1 as [H1 | H1]; destruct H2 as [H2 | H2].
    - eapply processEmail_one_deal; eauto.
    - now elim (Cross _ _ _ _ H1 H2).
    - now elim (Cross _ _ _ _ H2 H1).
    - eapply IH; eauto. }
  induction 1 as [w | evt rest entry results w w1 t1 w2 t2 PE R IH
                    | evt rest results w w1 t1 w2 t2 PE R IH
                    | evt rest results e w w1 t1 w2 t2 PE R IH];
    intros N k1 k2 eid d1 d2 H1 H2.
  - destruct H1.
  - apply in_app_or in H1, H2. eapply Step; eauto.
  - apply in_app_or in H1, H2. eapply Step; eauto.
  - apply in_app_or in H1, H2.
    assert (H1' : In (EvFetch k1 (ReqAssociate eid d1)) t1
                  \/ In (EvFetch k1 (ReqAssociate eid d1)) t2)
      by (destruct H1 as [H | [Q | H]]; [now left | discriminate | now right]).
    assert (H2' : In (EvFetch k2 (ReqAssociate eid d2)) t1
                  \/ In (EvFetch k2 (ReqAssociate eid d2)) t2)
      by (destruct H2 as [H | [Q | H]]; [now left | discriminate | now right]).
    eapply Step; eauto.
Qed.

(** X20. One deal per email: within one invocation, all association
    requests that name the same email name the same deal. *)
Theorem handler_one_deal_per_email (event : Invocation) (w w' : W)
    (r : outcome HttpResponse) (tr : list Event) (k1 k2 eid d1 d2 : string) :
  handler event w = (r, w', tr) ->
  In (EvFetch k1 (ReqAssociate eid d1)) tr ->
  In (EvFetch k2 (ReqAssociate eid d2)) tr ->
  d1 = d2.
Proof.
  unfold handler. intros E H1 H2.
  destruct (String.eqb (httpMethod event) "GET");
    [inversion E; subst; destruct H1 |].
  destruct (String.eqb (httpMethod event) "POST");
    [| inversion E; subst; destruct H1].
  destruct (env_HUBSPOT_API_KEY event) as [[| c key] |];
    try (inversion E; subst; now destruct H1).
  destruct (parsed_body event) as [evs | e].
  - destruct (processEvents_run (String c key) (uniqueEvents evs) [] w)
      as (added & w1 & t1 & R & P).
    erewrite try_catch_ok in E.
    2:{ erewrite bind_ok by reflexivity. rewrite andThen_nil.
        erewrite bind_ok by eassumption. cbn. now rewrite app_nil_r. }
    injection E as _ _ <-.
    eapply (BatchRun_one_deal _ _ _ _ _ _ R); eauto.
    apply filterEvents_NoDup.
  - erewrite try_catch_throw in E by (erewrite bind_throw; reflexivity).
    cbn in E. injection E as _ _ <-.
    destruct H1 as [Q | []]. discriminate.
Qed.

End MoreHandlerFacts.


(** The association of email 101 is refused once for the rate limit and
    sent again: the invocation sends two association requests for the
    email, the third and the fifth event of its trace, and both name deal
    9001. *)
Lemma handler_one_deal_per_email_witness :
  let tr :=
    [ EvFetch "key" (ReqGetEmail "101");
      EvFetch "key" (ReqSearchLoanNumber "399536679");
      EvFetch "key" (ReqAssociate "101" "9001");
      EvSleep (Js.Num 1000);
      EvFetch "key" (ReqAssociate "101" "9001");
      EvSleep (Js.Num 200) ] in
  handler (extractor := sourceExtractor)
    (postInvocation (Some "key") [emailEvent 101]) retriedAssociation
  = (Ok (mkHttp 200
           (BodySuccess 1
              [mkResult (IdNum 101) "9001" (Some "168 Las Palmas") 100
                 loan_number_match])),
     mkScript [], tr)
  /\ nth_error tr 2 = Some (EvFetch "key" (ReqAssociate "101" "9001"))
  /\ nth_error tr 4 = Some (EvFetch "key" (ReqAssociate "101" "9001"))
  /\ "9001" = "9001".
Proof.
  intros tr.
  assert (E : handler (extractor := sourceExtractor)
                (postInvocation (Some "key") [emailEvent 101]) retriedAssociation
              = (Ok (mkHttp 200
                       (BodySuccess 1
                          [mkResult (IdNum 101) "9001" (Some "168 Las Palmas") 100
                             loan_number_match])),
                 mkScript [], tr))
    by (vm_compute; reflexivity).
  split; [exact E |]. split; [reflexivity |]. split; [reflexivity |].
  exact (handler_one_deal_per_email (extractor := sourceExtractor)
           (postInvocation (Some "key") [emailEvent 101]) retriedAssociation
           (mkScript [])
           (Ok (mkHttp 200
                  (BodySuccess 1
                     [mkResult (IdNum 101) "9001" (Some "168 Las Palmas") 100
                        loan_number_match])))
           tr "key" "key" "101" "9001" "9001" E
           (nth_error_In tr 2 eq_refl) (nth_error_In tr 4 eq_refl)).
Defined.
(* ------------------------------------------------------------------ *)
(** ** Regular expressions: what the matcher guarantees *)
(* ------------------------------------------------------------------ *)

Import RegExp.

Lemma charMatcher_sound p k x z :
  charMatcher p k x = Some z ->
  exists y, charStep p x y /\ k y = Some z.
Proof.
  unfold charMatcher, charStep. destruct (after x) as [| c t] eqn:A; [discriminate |].
  destruct (p c) eqn:P; [| discriminate]. intros K.
  eexists. split; [| exact K]. now exists c, t.
Qed.

Lemma litMatcher_sound i s : forall k x z,
  litMatcher i s k x = Some z ->
  exists y, litSteps i s x y /\ k y = Some z.
Proof.
  induction s as [| a s IH]; intros k x z H; cbn in H.
  - now exists x.
  - apply charMatcher_sound in H as (y & St & H).
    apply IH in H as (y' & L & K). exists y'. split; [| exact K].
    cbn. now exists y.
Qed.

Lemma repeatMatcher_sound (m : matcher) (R : state -> state -> Prop) ns
    (Hm : forall k x z, m k x = Some z -> exists y, R x y /\ k y = Some z) :
  forall fuel greedy min max k x z,
    match max with Some mx => (min <= mx)%nat | None => True end ->
    repeatMatcher fuel m ns greedy min max k x = Some z ->
    exists n y,
      (min <= n)%nat /\ withinMax n max
      /\ iterate (fun a b => R (clearCaps ns a) b) n x y
      /\ k y = Some z.
Proof.
  induction fuel as [| fuel IH]; intros greedy min max k x z Wf H.
  - destruct max as [[| mx] |]; cbn in H; try discriminate.
    exists 0%nat, x. cbn. repeat split; auto; lia.
  - assert (Next : forall y,
      repeatMatcher fuel m ns greedy (pred min) (option_map pred max) k y = Some z ->
      max <> Some 0%nat ->
      R (clearCaps ns x) y ->
      exists n y',
        (min <= n)%nat /\ withinMax n max
        /\ iterate (fun a b => R (clearCaps ns a) b) n x y'
        /\ k y' = Some z).
    { intros y Hy M0 Rxy. apply IH in Hy as (n & y' & Ln & Lm & It & K).
      - exists (S n), y'. repeat split; [lia | | | exact K].
        + destruct max as [mx |]; cbn in *; [| exact I].
          destruct mx; [congruence | lia].
        + cbn. now exists y.
      - destruct max as [mx |]; cbn in *; [lia | exact I]. }
    assert (Zero : k x = Some z -> min = 0%nat ->
      exists n y',
        (min <= n)%nat /\ withinMax n max
        /\ iterate (fun a b => R (clearCaps ns a) b) n x y'
        /\ k y' = Some z).
    { intros K ->. exists 0%nat, x. cbn.
      repeat split; auto; destruct max; cbn; (lia || exact I). }
    destruct max as [[| mx] |].
    + cbn in H. apply Zero; [exact H | lia].
    + cbn [repeatMatcher] in H. cbv zeta in H.
      destruct (Nat.eqb min 0) eqn:M; cbn [negb andb] in H.
      * apply Nat.eqb_eq in M.
        destruct greedy.
        -- destruct (m _ (clearCaps ns x)) as [z' |] eqn:B.
           ++ injection H as ->. apply Hm in B as (y & Rxy & D).
              destruct (Nat.eqb (length (after y)) (length (after x)));
                [discriminate |].
              eapply Next; eauto. discriminate.
           ++ now apply Zero.
        -- destruct (k x) as [z' |] eqn:K.
           ++ injection H as ->. now apply Zero.
           ++ apply Hm in H as (y & Rxy & D).
              destruct (Nat.eqb (length (after y)) (length (after x)));
                [discriminate |].
              eapply Next; eauto. discriminate.
      * apply Hm in H as (y & Rxy & D). eapply Next; eauto. discriminate.
    + cbn [repeatMatcher] in H. cbv zeta in H.
      destruct (Nat.eqb min 0) eqn:M; cbn [negb andb] in H.
      * apply Nat.eqb_eq in M.
        destruct greedy.
        -- destruct (m _ (clearCaps ns x)) as [z' |] eqn:B.
           ++ injection H as ->. apply Hm in B as (y & Rxy & D).
              destruct (Nat.eqb (length (after y)) (length (after x)));
                [discriminate |].
              eapply Next; eauto. discriminate.
           ++ now apply Zero.
        -- destruct (k x) as [z' |] eqn:K.
           ++ injection H as ->. now apply Zero.
           ++ apply Hm in H as (y & Rxy & D).
              destruct (Nat.eqb (length (after y)) (length (after x)));
                [discriminate |].
              eapply Next; eauto. discriminate.
      * apply Hm in H as (y & Rxy & D). eapply Next; eauto. discriminate.
Qed.

(** The matcher is sound for the declarative reading: when it succeeds,
    the continuation was entered at a state the pattern leads to. *)
Lemma compile_sound i r :
  wellFormed r = true ->
  forall k x z,
    compile i r k x = Some z ->
    exists y, Matches i r x y /\ k y = Some z.
Proof.
  induction r as [| s | | items | a IHa b IHb | a IHa b IHb | n r IH
                  | greedy min max r IH | | |];
    intros Wf k x z H; cbn [compile wellFormed] in Wf, H.
  - now exists x.
  - now apply litMatcher_sound.
  - now apply charMatcher_sound.
  - now apply charMatcher_sound.
  - apply andb_true_iff in Wf as [Wa Wb].
    apply (IHa Wa) in H as (y & Ma & H).
    apply (IHb Wb) in H as (y' & Mb & K).
    exists y'. split; [| exact K]. cbn. now exists y.
  - apply andb_true_iff in Wf as [Wa Wb].
    destruct (compile i a k x) as [z' |] eqn:A.
    + injection H as ->. apply (IHa Wa) in A as (y & Ma & K).
      exists y. split; [now left | exact K].
    + apply (IHb Wb) in H as (y & Mb & K).
      exists y. split; [now right | exact K].
  - apply (IH Wf) in H as (y & Mr & K).
    exists (setCap n (span x y) y). split; [| exact K]. cbn. now exists y.
  - apply andb_true_iff in Wf as [Wm Wr].
    apply (repeatMatcher_sound _ _ _ (IH Wr)) in H
      as (n & y & Ln & Lm & It & K).
    + exists y. split; [| exact K]. cbn. now exists n.
    + destruct max as [mx |]; [now apply Nat.leb_le | exact I].
  - destruct (before x) eqn:B; [| discriminate]. now exists x.
  - destruct (after x) eqn:A; [| discriminate]. now exists x.
  - destruct (atWordBoundary x) eqn:B; [| discriminate]. now exists x.
Qed.

(** *** The fuel of [repeatMatcher] is never used up *)

Lemma charMatcher_forward p : forward (charMatcher p).
Proof.
  intros k k' x Hk. unfold charMatcher.
  destruct (after x) as [| c t] eqn:A; [reflexivity |].
  destruct (p c); [| reflexivity]. apply Hk. cbn. lia.
Qed.

Lemma litMatcher_forward i s : forward (litMatcher i s).
Proof.
  induction s as [| a s IH]; intros k k' x Hk; cbn [litMatcher].
  - apply Hk. lia.
  - apply charMatcher_forward. intros y Ly. apply IH.
    intros z Lz. apply Hk. lia.
Qed.

Lemma repeatMatcher_forward m ns (Hm : forward m) :
  forall fuel greedy min max, forward (repeatMatcher fuel m ns greedy min max).
Proof.
  induction fuel as [| fuel IH]; intros greedy min max k k' x Hk.
  - cbn. destruct max as [[| mx] |]; [apply Hk; lia | reflexivity | reflexivity].
  - cbn [repeatMatcher]. cbv zeta.
    assert (Kx : k x = k' x) by (apply Hk; lia).
    assert (D : m (fun y =>
                     if Nat.eqb min 0
                        && Nat.eqb (length (after y)) (length (after x))
                     then None
                     else repeatMatcher fuel m ns greedy (pred min)
                            (option_map pred max) k y) (clearCaps ns x)
                = m (fun y =>
                     if Nat.eqb min 0
                        && Nat.eqb (length (after y)) (length (after x))
                     then None
                     else repeatMatcher fuel m ns greedy (pred min)
                            (option_map pred max) k' y) (clearCaps ns x)).
    { apply Hm. intros y Ly. cbn in Ly.
      destruct (Nat.eqb min 0 && _); [reflexivity |].
      apply IH. intros z Lz. apply Hk. lia. }
    destruct max as [[| mx] |]; [exact Kx | |]; now rewrite D, Kx.
Qed.

Lemma compile_forward i r : forward (compile i r).
Proof.
  induction r as [| s | | items | a IHa b IHb | a IHa b IHb | n r IH
                  | greedy min max r IH | | |];
    intros k k' x Hk; cbn [compile].
  - apply Hk. lia.
  - now apply litMatcher_forward.
  - now apply charMatcher_forward.
  - now apply charMatcher_forward.
  - apply IHa. intros y Ly. apply IHb. intros z Lz. apply Hk. lia.
  - rewrite (IHa k k' x Hk), (IHb k k' x Hk). reflexivity.
  - apply IH. intros y Ly. apply Hk. cbn. lia.
  - now apply repeatMatcher_forward.
  - destruct (before x); [apply Hk; lia | reflexivity].
  - assert (Kx : k x = k' x) by (apply Hk; lia).
    destruct (after x); [exact Kx | reflexivity].
  - destruct (atWordBoundary x); [apply Hk; lia | reflexivity].
Qed.

(** With [min] plus the length of the remaining input plus one as fuel,
    [repeatMatcher] never reaches the end of its fuel: more changes
    nothing. *)
Lemma repeatMatcher_fuel m ns (Hm : forward m) :
  forall fuel fuel' greedy min max k x,
    (S (min + length (after x)) <= fuel)%nat ->
    (S (min + length (after x)) <= fuel')%nat ->
    repeatMatcher fuel m ns greedy min max k x
    = repeatMatcher fuel' m ns greedy min max k x.
Proof.
  induction fuel as [| fuel IH]; intros fuel' greedy min max k x L L'; [lia |].
  destruct fuel' as [| fuel']; [lia |].
  cbn [repeatMatcher]. cbv zeta.
  assert (D : m (fun y =>
                   if Nat.eqb min 0
                      && Nat.eqb (length (after y)) (length (after x))
                   then None
                   else repeatMatcher fuel m ns greedy (pred min)
                          (option_map pred max) k y) (clearCaps ns x)
              = m (fun y =>
                   if Nat.eqb min 0
                      && Nat.eqb (length (after y)) (length (after x))
                   then None
                   else repeatMatcher fuel' m ns greedy (pred min)
                          (option_map pred max) k y) (clearCaps ns x)).
  { apply Hm. intros y Ly. cbn in Ly.
    destruct (Nat.eqb_spec min 0) as [-> | Nz]; cbn [andb].
    - destruct (Nat.eqb_spec (length (after y)) (length (after x)));
        [reflexivity |].
      apply IH; cbn; lia.
    - apply IH; lia. }
  destruct max as [[| mx] |]; [reflexivity | |]; now rewrite D.
Qed.

Lemma compile_repeat_fuel i greedy min max r k x extra :
  compile i (Repeat greedy min max r) k x
  = repeatMatcher (S (min + length (after x)) + extra) (compile i r) (groups r)
      greedy min max k x.
Proof.
  cbn [compile]. apply repeatMatcher_fuel; [apply compile_forward | lia | lia].
Qed.

Lemma extends_refl x : extends x [] x.
Proof. now split. Qed.

Lemma extends_trans x u y v z :
  extends x u y -> extends y v z -> extends x (u ++ v) z.
Proof.
  intros [A1 B1] [A2 B2]. split.
  - now rewrite A1, A2, app_assoc.
  - now rewrite B2, B1, rev_app_distr, app_assoc.
Qed.

Lemma extends_span x u y : extends x u y -> span x y = u.
Proof.
  intros [A _]. unfold span. rewrite A, length_app.
  replace (length u + length (after y) - length (after y))%nat
    with (length u + 0)%nat by lia.
  now rewrite firstn_app_2, app_nil_r.
Qed.

Lemma extends_length x u y :
  extends x u y -> length (after x) = (length u + length (after y))%nat.
Proof. intros [A _]. now rewrite A, length_app. Qed.

Lemma extends_inj x u v y : extends x u y -> extends x v y -> u = v.
Proof. intros U V. now rewrite <- (extends_span _ _ _ U), (extends_span _ _ _ V). Qed.

Lemma charStep_extends p x y :
  charStep p x y ->
  exists c, p c = true /\ extends x [c] y /\ caps y = caps x.
Proof.
  intros (c & t & A & P & ->). exists c. repeat split; auto.
Qed.

Lemma litSteps_extends i s : forall x y,
  litSteps i s x y ->
  exists u, extends x u y /\ caps y = caps x
            /\ Forall2 (fun a c => litHas i a c = true) (list_ascii_of_string s) u.
Proof.
  induction s as [| a s IH]; intros x y H; cbn in H.
  - subst y. exists []. repeat split; auto; constructor.
  - destruct H as (z & St & L).
    apply charStep_extends in St as (c & P & E & C).
    apply IH in L as (u & E' & C' & F).
    exists (c :: u). split; [exact (extends_trans _ _ _ _ _ E E') |].
    split; [congruence |]. cbn. now constructor.
Qed.

Lemma setCap_extends n v x u y : extends x u y -> extends x u (setCap n v y).
Proof. now intros [A B]. Qed.

Lemma clearCaps_extends ns x u y : extends (clearCaps ns x) u y -> extends x u y.
Proof. now intros [A B]. Qed.

Lemma iterate_extends (R : state -> state -> Prop) ns
    (HR : forall x y, R x y -> exists u, extends x u y) :
  forall n x y,
    iterate (fun a b => R (clearCaps ns a) b) n x y -> exists u, extends x u y.
Proof.
  induction n as [| n IH]; intros x y H; cbn in H.
  - subst y. exists []. apply extends_refl.
  - destruct H as (z & Rxz & It).
    apply HR in Rxz as (u & E). apply clearCaps_extends in E.
    apply IH in It as (v & E'). exists (u ++ v). eapply extends_trans; eauto.
Qed.

(** A match moves the end index forward over a piece of the input. *)
Lemma Matches_extends i r : forall x y,
  Matches i r x y -> exists u, extends x u y.
Proof.
  induction r as [| s | | items | a IHa b IHb | a IHa b IHb | n r IH
                  | greedy min max r IH | | |];
    intros x y H; cbn [Matches] in H.
  - subst y. exists []. apply extends_refl.
  - apply litSteps_extends in H as (u & E & _). now exists u.
  - apply charStep_extends in H as (c & _ & E & _). now exists [c].
  - apply charStep_extends in H as (c & _ & E & _). now exists [c].
  - destruct H as (z & Ha & Hb).
    apply IHa in Ha as (u & E). apply IHb in Hb as (v & E').
    exists (u ++ v). eapply extends_trans; eauto.
  - destruct H as [H | H]; [now apply IHa | now apply IHb].
  - destruct H as (z & Hr & ->). apply IH in Hr as (u & E).
    exists u. now apply setCap_extends.
  - destruct H as (n & _ & _ & It). eapply iterate_extends; eauto.
  - destruct H as [_ ->]. exists []. apply extends_refl.
  - destruct H as [_ ->]. exists []. apply extends_refl.
  - destruct H as [_ ->]. exists []. apply extends_refl.
Qed.

Lemma Matches_span i r x y :
  Matches i r x y -> extends x (span x y) y.
Proof.
  intros H. apply Matches_extends in H as (u & E).
  now rewrite (extends_span _ _ _ E).
Qed.

(** A match consumes at least [minLength r] characters. *)
Lemma Matches_minLength i r : forall x y,
  Matches i r x y ->
  (length (after y) + minLength r <= length (after x))%nat.
Proof.
  induction r as [| s | | items | a IHa b IHb | a IHa b IHb | n r IH
                  | greedy min max r IH | | |];
    intros x y H; cbn [Matches minLength] in *.
  - subst y. lia.
  - apply litSteps_extends in H as (u & E & _ & F).
    apply extends_length in E. apply Forall2_length in F.
    rewrite <- F in E. unfold list_ascii_of_string in E.
    assert (L : forall t, length (list_ascii_of_string t) = String.length t)
      by (induction t; cbn; congruence).
    rewrite L in E. lia.
  - apply charStep_extends in H as (c & _ & E & _).
    apply extends_length in E. cbn in E. lia.
  - apply charStep_extends in H as (c & _ & E & _).
    apply extends_length in E. cbn in E. lia.
  - destruct H as (z & Ha & Hb). apply IHa in Ha. apply IHb in Hb. lia.
  - destruct H as [H | H]; [apply IHa in H | apply IHb in H]; lia.
  - destruct H as (z & Hr & ->). apply IH in Hr. cbn. lia.
  - destruct H as (n & Ln & _ & It).
    assert (G : forall n x y,
      iterate (fun a b => Matches i r (clearCaps (groups r) a) b) n x y ->
      (length (after y) + n * minLength r <= length (after x))%nat).
    { clear - IH. induction n as [| n IHn]; intros x y It; cbn in It.
      - subst y. lia.
      - destruct It as (z & Hr & It). apply IH in Hr. apply IHn in It.
        cbn in Hr. cbn. lia. }
    apply G in It. nia.
  - destruct H as [_ ->]. lia.
  - destruct H as [_ ->]. lia.
  - destruct H as [_ ->]. lia.
Qed.

Lemma existsb_eqb_In j ns : existsb (Nat.eqb j) ns = true <-> In j ns.
Proof.
  rewrite existsb_exists. split.
  - intros (n & Hin & E). apply Nat.eqb_eq in E. now subst.
  - intros Hin. exists j. split; [exact Hin | apply Nat.eqb_refl].
Qed.

(** A match leaves alone the captures of the groups outside the pattern. *)
Lemma Matches_caps i r : forall x y j,
  Matches i r x y -> ~ In j (groups r) -> caps y j = caps x j.
Proof.
  induction r as [| s | | items | a IHa b IHb | a IHa b IHb | n r IH
                  | greedy min max r IH | | |];
    intros x y j H Nin; cbn [Matches groups] in *.
  - now subst y.
  - apply litSteps_extends in H as (u & _ & C & _). now rewrite C.
  - apply charStep_extends in H as (c & _ & _ & C). now rewrite C.
  - apply charStep_extends in H as (c & _ & _ & C). now rewrite C.
  - destruct H as (z & Ha & Hb).
    rewrite (IHb _ _ j Hb), (IHa _ _ j Ha); auto;
      intros Hin; apply Nin, in_or_app; auto.
  - destruct H as [H | H]; [apply (IHa _ _ j H) | apply (IHb _ _ j H)];
      intros Hin; apply Nin, in_or_app; auto.
  - destruct H as (z & Hr & ->). cbn.
    destruct (Nat.eqb_spec j n) as [-> | Ne]; [elim Nin; now left |].
    apply (IH _ _ j Hr). intros Hin. apply Nin. now right.
  - destruct H as (n & _ & _ & It).
    revert x It. induction n as [| n IHn]; intros x It; cbn in It.
    + now subst y.
    + destruct It as (z & Hr & It). rewrite (IHn _ It).
      rewrite (IH _ _ j Hr Nin). cbn.
      destruct (existsb (Nat.eqb j) (groups r)) eqn:E; [| reflexivity].
      apply existsb_eqb_In in E. contradiction.
  - now destruct H as [_ ->].
  - now destruct H as [_ ->].
  - now destruct H as [_ ->].
Qed.

(** *** The matcher finds a match when there is one *)

Lemma charMatcher_complete p k x y z :
  charStep p x y -> k y = Some z -> charMatcher p k x = Some z.
Proof.
  intros (c & t & A & P & ->) K. unfold charMatcher. now rewrite A, P.
Qed.

Lemma litMatcher_complete i s : forall k x y z,
  litSteps i s x y -> k y = Some z -> litMatcher i s k x = Some z.
Proof.
  induction s as [| a s IH]; intros k x y z H K; cbn in H |- *.
  - now subst y.
  - destruct H as (w & St & L). eapply charMatcher_complete; eauto.
Qed.

Lemma repeatMatcher_complete (m : matcher) (R : state -> state -> Prop) ns
    (Hm : forall k x y z, R x y -> k y = Some z -> exists z', m k x = Some z')
    (Hp : forall x y, R x y -> (length (after y) < length (after x))%nat) :
  forall n fuel greedy min max k x y z,
    (S (min + length (after x)) <= fuel)%nat ->
    (min <= n)%nat -> withinMax n max ->
    iterate (fun a b => R (clearCaps ns a) b) n x y ->
    k y = Some z ->
    exists z', repeatMatcher fuel m ns greedy min max k x = Some z'.
Proof.
  induction n as [| n IH]; intros fuel greedy min max k x y z Lf Ln Lm It K;
    cbn [iterate] in It.
  - subst y. assert (min = 0%nat) by lia. subst min.
    destruct fuel as [| fuel]; [lia |].
    cbn [repeatMatcher]. cbv zeta.
    destruct max as [[| mx] |]; [now exists z | |]; cbn [Nat.eqb negb andb].
    + destruct greedy.
      * destruct (m _ _) as [z' |]; [now exists z' | now exists z].
      * rewrite K. now exists z.
    + destruct greedy.
      * destruct (m _ _) as [z' |]; [now exists z' | now exists z].
      * rewrite K. now exists z.
  - destruct It as (w & Rw & It).
    destruct fuel as [| fuel]; [lia |].
    pose proof (Hp _ _ Rw) as Lw. cbn in Lw.
    assert (M0 : max <> Some 0%nat)
      by (intros ->; cbn in Lm; lia).
    cbn [repeatMatcher]. cbv zeta.
    set (d := fun y0 : state =>
         if Nat.eqb min 0 && Nat.eqb (length (after y0)) (length (after x))
         then None
         else repeatMatcher fuel m ns greedy (pred min) (option_map pred max) k y0).
    assert (D : exists z1, d w = Some z1).
    { unfold d.
      replace (Nat.eqb (length (after w)) (length (after x))) with false
        by (symmetry; apply Nat.eqb_neq; lia).
      rewrite andb_false_r.
      apply (IH fuel greedy (pred min) (option_map pred max) k w y z);
        [lia | lia | | exact It | exact K].
      destruct max as [mx |]; cbn in *; [lia | exact I]. }
    destruct D as (z1 & D).
    destruct (Hm d _ _ _ Rw D) as (z2 & B).
    destruct max as [[| mx] |]; [congruence | |].
    + destruct (Nat.eqb min 0); cbn [negb]; [| now exists z2].
      destruct greedy; [rewrite B; now exists z2 |].
      destruct (k x) as [z' |]; [now exists z' | now exists z2].
    + destruct (Nat.eqb min 0); cbn [negb]; [| now exists z2].
      destruct greedy; [rewrite B; now exists z2 |].
      destruct (k x) as [z' |]; [now exists z' | now exists z2].
Qed.

(** For a pattern whose quantified parts are never empty, the matcher
    succeeds whenever some reading of the pattern leads to a state the
    continuation accepts. *)
Lemma compile_complete i r :
  productive r = true ->
  forall k x y z,
    Matches i r x y -> k y = Some z -> exists z', compile i r k x = Some z'.
Proof.
  induction r as [| s | | items | a IHa b IHb | a IHa b IHb | n r IH
                  | greedy min max r IH | | |];
    intros Pr k x y z H K; cbn [productive] in Pr; cbn [Matches] in H;
    cbn [compile].
  - subst y. now exists z.
  - exists z. eapply litMatcher_complete; eauto.
  - exists z. eapply charMatcher_complete; eauto.
  - exists z. eapply charMatcher_complete; eauto.
  - apply andb_true_iff in Pr as [Pa Pb]. destruct H as (w & Ha & Hb).
    destruct (IHb Pb k w y z Hb K) as (z1 & B).
    exact (IHa Pa (fun y0 => compile i b k y0) x w z1 Ha B).
  - apply andb_true_iff in Pr as [Pa Pb].
    destruct (compile i a k x) as [z' |] eqn:A; [now exists z' |].
    destruct H as [H | H].
    + destruct (IHa Pa k x y z H K) as (z1 & A'). congruence.
    + exact (IHb Pb k x y z H K).
  - destruct H as (w & Hr & ->).
    exact (IH Pr (fun y0 => k (setCap n (span x y0) y0)) x w z Hr K).
  - apply andb_true_iff in Pr as [Pm Pr]. apply Nat.ltb_lt in Pm.
    destruct H as (n & Ln & Lm & It).
    eapply (repeatMatcher_complete (compile i r) (Matches i r) (groups r));
      eauto.
    intros x0 y0 M. apply Matches_minLength in M. lia.
  - destruct H as [B ->]. rewrite B. now exists z.
  - destruct H as [A ->]. rewrite A. now exists z.
  - destruct H as [B ->]. rewrite B. now exists z.
Qed.

(** *** [exec] *)

Lemma matchAt_sound re bef aft y :
  wellFormed (source re) = true ->
  matchAt re bef aft = Some y ->
  Matches (ignoreCase re) (source re) (mkState bef aft noCaps) y.
Proof.
  intros Wf H. apply (compile_sound _ _ Wf) in H as (y' & M & [= ->]).
  exact M.
Qed.

(** What [search] returns is a match of the pattern from a start position
    of the input searched. *)
Lemma search_sound re : forall aft bef m,
  wellFormed (source re) = true ->
  search re bef aft = Some m ->
  Matches (ignoreCase re) (source re) (fst m) (snd m)
  /\ caps (fst m) = noCaps
  /\ exists pre, extends (mkState bef aft noCaps) pre (fst m).
Proof.
  induction aft as [| c t IH]; intros bef m Wf H; cbn [search] in H.
  - destruct (matchAt re bef []) as [y |] eqn:A; [| discriminate].
    injection H as <-. cbn. split; [now apply matchAt_sound |].
    split; [reflexivity |]. exists []. apply extends_refl.
  - destruct (matchAt re bef (c :: t)) as [y |] eqn:A.
    + injection H as <-. cbn. split; [now apply matchAt_sound |].
      split; [reflexivity |]. exists []. apply extends_refl.
    + apply IH in H as (M & C & pre & E); [| exact Wf].
      split; [exact M |]. split; [exact C |].
      exists (c :: pre). destruct E as [E1 E2]. split; cbn in *.
      * now rewrite E1.
      * now rewrite E2, <- app_assoc.
Qed.

(** A pattern that cannot match the empty text makes every [exec] loop
    end. *)
Lemma execLoop_returns re :
  wellFormed (source re) = true ->
  (0 < minLength (source re))%nat ->
  forall fuel bef aft,
    (length aft < fuel)%nat ->
    exists ms, execLoop fuel re bef aft = Some ms.
Proof.
  intros Wf Pos. induction fuel as [| fuel IH]; intros bef aft L; [lia |].
  cbn [execLoop]. destruct (search re bef aft) as [m |] eqn:S; [| now exists []].
  apply search_sound in S as (M & _ & pre & E); [| exact Wf].
  apply Matches_minLength in M. apply extends_length in E. cbn in E.
  assert (Lt : (length (after (snd m)) < length aft)%nat) by lia.
  apply Nat.ltb_lt in Lt as Lt'. rewrite Lt'.
  destruct (IH (before (snd m)) (after (snd m))) as (ms & ->); [lia |].
  now eexists.
Qed.

Lemma length_chars s : length (list_ascii_of_string s) = String.length s.
Proof. induction s; cbn; congruence. Qed.

Lemma execAll_returns re s :
  wellFormed (source re) = true ->
  (0 < minLength (source re))%nat ->
  exists ms, execAll re s = Some ms.
Proof.
  intros Wf Pos. apply execLoop_returns; auto. rewrite length_chars. lia.
Qed.

(** Every match an [exec] loop goes through is a match of the pattern. *)
Lemma execLoop_sound re :
  wellFormed (source re) = true ->
  forall fuel bef aft ms,
    execLoop fuel re bef aft = Some ms ->
    Forall (fun m => Matches (ignoreCase re) (source re) (fst m) (snd m)
                     /\ caps (fst m) = noCaps) ms.
Proof.
  intros Wf. induction fuel as [| fuel IH]; intros bef aft ms H; [discriminate |].
  cbn [execLoop] in H. destruct (search re bef aft) as [m |] eqn:S.
  - destruct (Nat.ltb _ _); [| discriminate].
    destruct (execLoop fuel re _ _) as [ms' |] eqn:L; [| discriminate].
    injection H as <-. constructor; [| eapply IH; eauto].
    apply search_sound in S as (M & C & _); auto.
  - injection H as <-. constructor.
Qed.

Lemma execAll_sound re s ms :
  wellFormed (source re) = true ->
  execAll re s = Some ms ->
  Forall (fun m => Matches (ignoreCase re) (source re) (fst m) (snd m)
                   /\ caps (fst m) = noCaps) ms.
Proof. intros Wf H. eapply execLoop_sound; eauto. Qed.

(** *** What an [exec] loop is sure to visit *)

Lemma matchAt_complete re bef aft y :
  productive (source re) = true ->
  Matches (ignoreCase re) (source re) (mkState bef aft noCaps) y ->
  exists y', matchAt re bef aft = Some y'.
Proof.
  intros Pr M. unfold matchAt. eapply compile_complete; eauto.
Qed.

(** When the pattern can match after [skipped], [search] returns a match
    that starts there or earlier. *)
Lemma search_finds re :
  productive (source re) = true ->
  forall skipped bef target,
    (exists y, Matches (ignoreCase re) (source re)
                 (mkState (rev skipped ++ bef) target noCaps) y) ->
    exists m u rest,
      search re bef (skipped ++ target) = Some m
      /\ skipped ++ target = u ++ rest
      /\ (length u <= length skipped)%nat
      /\ fst m = mkState (rev u ++ bef) rest noCaps.
Proof.
  intros Pr. induction skipped as [| c sk IH]; intros bef target (y & M).
  - cbn [rev app] in M. apply (matchAt_complete _ _ _ _ Pr) in M as (y' & A).
    exists (mkState bef target noCaps, y'), [], target. cbn [app rev fst].
    repeat split; auto. destruct target; cbn [search]; now rewrite A.
  - cbn [app search]. destruct (matchAt re bef (c :: sk ++ target)) as [y' |] eqn:A.
    + exists (mkState bef (c :: sk ++ target) noCaps, y'), [], (c :: sk ++ target).
      cbn. repeat split; auto. lia.
    + destruct (IH (c :: bef) target) as (m & u & rest & S & E & L & F).
      { exists y. cbn [rev] in M. now rewrite <- app_assoc in M. }
      exists m, (c :: u), rest. split; [exact S |]. split; [cbn; now rewrite E |].
      split; [cbn; lia |]. rewrite F. cbn [rev]. now rewrite <- app_assoc.
Qed.

Lemma app_split_tail {A} : forall (b a t c : list A),
  a ++ t = b ++ c -> (length t <= length c)%nat ->
  exists s, c = s ++ t /\ a = b ++ s.
Proof.
  induction b as [| x b IH]; intros a t c E L; cbn in E.
  - exists a. now split.
  - destruct a as [| x' a]; cbn in E.
    + subst t. cbn in L. rewrite length_app in L. lia.
    + injection E as -> E. destruct (IH _ _ _ E L) as (s & -> & ->).
      now exists s.
Qed.

(** The match at the position after [skipped] is one of those an [exec]
    loop goes through, when no match that starts earlier reaches beyond
    that position. *)
Lemma execLoop_visits re :
  wellFormed (source re) = true ->
  productive (source re) = true ->
  (0 < minLength (source re))%nat ->
  forall fuel skipped bef target,
    (length (skipped ++ target) < fuel)%nat ->
    (exists y, Matches (ignoreCase re) (source re)
                 (mkState (rev skipped ++ bef) target noCaps) y) ->
    (forall u rest y,
        skipped ++ target = u ++ rest ->
        (length u < length skipped)%nat ->
        Matches (ignoreCase re) (source re) (mkState (rev u ++ bef) rest noCaps) y ->
        (length target <= length (after y))%nat) ->
    exists ms m,
      execLoop fuel re bef (skipped ++ target) = Some ms
      /\ In m ms
      /\ fst m = mkState (rev skipped ++ bef) target noCaps.
Proof.
  intros Wf Pr Pos.
  induction fuel as [| fuel IH]; intros skipped bef target Lf Ex No; [lia |].
  destruct (search_finds re Pr skipped bef target Ex)
    as (m1 & u & rest & S & E & Lu & F).
  cbn [execLoop]. rewrite S.
  pose proof (search_sound re _ _ _ Wf S) as (M & _ & _).
  pose proof (Matches_minLength _ _ _ _ M) as Lm.
  destruct (Matches_extends _ _ _ _ M) as (v & Ev).
  rewrite F in Lm, Ev. cbn [after] in Lm. destruct Ev as [Ev1 Ev2].
  cbn [after before] in Ev1, Ev2.
  assert (Lr : (length rest <= length (skipped ++ target))%nat)
    by (rewrite E, length_app; lia).
  assert (Lt : Nat.ltb (length (after (snd m1))) (length (skipped ++ target)) = true)
    by (apply Nat.ltb_lt; lia).
  rewrite Lt.
  destruct (Nat.eq_dec (length u) (length skipped)) as [Eq | Ne].
  - destruct (execLoop_returns re Wf Pos fuel (before (snd m1)) (after (snd m1)))
      as (ms & ->); [lia |].
    exists (m1 :: ms), m1. cbn [option_map]. split; [reflexivity |].
    split; [now left |]. rewrite F.
    assert (U : u = skipped /\ rest = target).
    { clear - E Eq. revert skipped E Eq.
      induction u as [| a u IHu]; intros [| b sk] E Eq; cbn in *; try lia.
      - now split.
      - injection E as -> E. destruct (IHu sk) as [-> ->]; auto. }
    destruct U as [-> ->]. reflexivity.
  - assert (Lt' : (length u < length skipped)%nat) by lia.
    assert (M' : Matches (ignoreCase re) (source re)
                   (mkState (rev u ++ bef) rest noCaps) (snd m1))
      by (rewrite <- F; exact M).
    pose proof (No u rest (snd m1) E Lt' M') as Lo.
    assert (E' : skipped ++ target = (u ++ v) ++ after (snd m1))
      by (rewrite E, Ev1, app_assoc; reflexivity).
    destruct (app_split_tail _ _ _ _ E' Lo) as (sk' & Ea & Es).
    assert (B : before (snd m1) = rev (u ++ v) ++ bef)
      by (rewrite Ev2, rev_app_distr, app_assoc; reflexivity).
    assert (X : rev sk' ++ before (snd m1) = rev skipped ++ bef).
    { rewrite B, Es, !rev_app_distr, !app_assoc. reflexivity. }
    destruct (IH sk' (before (snd m1)) target) as (ms & m & L & Hin & Fm).
    + rewrite <- Ea. lia.
    + rewrite X. exact Ex.
    + intros u2 rest2 y E2 L2 M2.
      apply (No ((u ++ v) ++ u2) rest2 y).
      * rewrite Es, <- !app_assoc, E2. reflexivity.
      * rewrite Es, !length_app. rewrite length_app in *. lia.
      * rewrite rev_app_distr, <- app_assoc, <- B. exact M2.
    + rewrite Ea, L. exists (m1 :: ms), m. cbn [option_map].
      split; [reflexivity |]. split; [now right |]. now rewrite Fm, X.
Qed.

(** *** Captures *)

Lemma Matches_mandatoryGroup i n : forall r g x y,
  mandatoryGroup n r = Some g ->
  Matches i r x y ->
  exists x' z, Matches i g x' z /\ caps y n = Some (span x' z).
Proof.
  induction r as [| s | | items | a IHa b IHb | a IHa b IHb | m r IH
                  | greedy min max r IH | | |];
    intros g x y Hg H; cbn [mandatoryGroup] in Hg; try discriminate;
    cbn [Matches] in H.
  - destruct H as (z & Ha & Hb).
    destruct (mandatoryGroup n b) as [g' |] eqn:Gb.
    + injection Hg as ->. eapply IHb; eauto.
    + destruct (existsb (Nat.eqb n) (groups b)) eqn:E; [discriminate |].
      destruct (IHa _ _ _ Hg Ha) as (x' & z' & Mg & C).
      exists x', z'. split; [exact Mg |]. rewrite <- C.
      apply (Matches_caps _ _ _ _ _ Hb). intros Hin.
      apply existsb_eqb_In in Hin. congruence.
  - destruct (Nat.eqb_spec m n) as [-> | Ne]; [| discriminate].
    injection Hg as ->. destruct H as (z & Hr & ->).
    exists x, z. split; [exact Hr |]. cbn. now rewrite Nat.eqb_refl.
Qed.

Lemma iterate_chars p ns : forall n x y,
  iterate (fun a b => charStep p (clearCaps ns a) b) n x y ->
  exists u, extends x u y /\ length u = n /\ Forall (fun c => p c = true) u.
Proof.
  induction n as [| n IH]; intros x y H; cbn in H.
  - subst y. exists []. repeat split; auto using extends_refl.
  - destruct H as (z & St & It).
    apply charStep_extends in St as (c & P & E & _).
    apply clearCaps_extends in E.
    apply IH in It as (u & E' & L & F).
    exists (c :: u). split; [exact (extends_trans _ _ _ _ _ E E') |].
    split; [cbn; congruence | now constructor].
Qed.

(** A quantified class matches a run of characters of the class. *)
Lemma Matches_repeat_class i greedy min max items x y :
  Matches i (Repeat greedy min max (Class items)) x y ->
  extends x (span x y) y
  /\ (min <= length (span x y))%nat
  /\ withinMax (length (span x y)) max
  /\ Forall (fun c => classHas i items c = true) (span x y).
Proof.
  intros (n & Ln & Lm & It). apply iterate_chars in It as (u & E & L & F).
  rewrite (extends_span _ _ _ E). subst n. auto.
Qed.

Lemma Matches_repeat_dot i greedy min max x y :
  Matches i (Repeat greedy min max Dot) x y ->
  extends x (span x y) y
  /\ (min <= length (span x y))%nat
  /\ Forall (fun c => isLineTerminator c = false) (span x y).
Proof.
  intros (n & Ln & Lm & It). apply iterate_chars in It as (u & E & L & F).
  rewrite (extends_span _ _ _ E). subst n.
  split; [exact E |]. split; [exact Ln |].
  eapply Forall_impl; [| exact F]. cbn. intros c Hc.
  now apply negb_true_iff in Hc.
Qed.

(** *** Sets *)

Import TextExtractor.

Lemma existsb_eqb_string x l : existsb (String.eqb x) l = true <-> In x l.
Proof.
  rewrite existsb_exists. split.
  - intros (y & Hin & E). apply String.eqb_eq in E. now subst.
  - intros Hin. exists x. split; [exact Hin | apply String.eqb_refl].
Qed.

Lemma setAdd_In x l v : In v (setAdd x l) <-> v = x \/ In v l.
Proof.
  unfold setAdd. destruct (existsb (String.eqb x) l) eqn:E.
  - apply existsb_eqb_string in E. split; [auto |]. now intros [-> | H].
  - rewrite in_app_iff. cbn. split.
    + intros [H | [-> | []]]; auto.
    + intros [-> | H]; auto.
Qed.

Lemma setAdd_NoDup x l : NoDup l -> NoDup (setAdd x l).
Proof.
  unfold setAdd. intros N. destruct (existsb (String.eqb x) l) eqn:E; [exact N |].
  assert (Nin : ~ In x l).
  { intros Hin. apply existsb_eqb_string in Hin. congruence. }
  apply NoDup_rev in N. rewrite <- (rev_involutive (l ++ [x])).
  apply NoDup_rev. rewrite rev_app_distr. cbn. constructor; [| exact N].
  now rewrite <- in_rev.
Qed.

(** An [exec] loop that adds [f match[1]] to a set: when every match has
    its first group set to a text satisfying [Q], the loop ends, keeps the
    set free of duplicates, and adds only values [f] gives for such
    texts. *)
Lemma addCaptures_spec f (Q : string -> Prop) : forall ms set,
  Forall (fun m => exists s, group 1 m = Some s /\ Q s) ms ->
  exists set',
    addCaptures f ms set = Some set'
    /\ (NoDup set -> NoDup set')
    /\ (forall v, In v set' -> In v set \/ exists s, Q s /\ f s = Some v).
Proof.
  induction ms as [| m ms IH]; intros set F; cbn [addCaptures].
  - exists set. auto.
  - inversion F as [| ? ? (s & G & Qs) F']; subst. rewrite G.
    destruct (IH (match f s with Some v => setAdd v set | None => set end) F')
      as (set' & E & N & I).
    exists set'. split; [exact E |]. split.
    + intros Nd. apply N. destruct (f s); [now apply setAdd_NoDup | exact Nd].
    + intros v Hin. apply I in Hin as [Hin | Hin]; [| now right].
      destruct (f s) as [v' |] eqn:Fs; [| now left].
      apply setAdd_In in Hin as [-> | Hin]; [right | now left].
      now exists s.
Qed.

Lemma execLoop1_spec re s f set g (Q : string -> Prop) :
  wellFormed (source re) = true ->
  (0 < minLength (source re))%nat ->
  mandatoryGroup 1 (source re) = Some g ->
  (forall x z, Matches (ignoreCase re) g x z ->
               Q (string_of_list_ascii (span x z))) ->
  exists set',
    execLoop1 re s f set = Some set'
    /\ (NoDup set -> NoDup set')
    /\ (forall v, In v set' -> In v set \/ exists s, Q s /\ f s = Some v).
Proof.
  intros Wf Pos Hg HQ. unfold execLoop1.
  destruct (execAll_returns re s Wf Pos) as (ms & E). rewrite E.
  apply addCaptures_spec.
  apply (execAll_sound _ _ _ Wf) in E.
  eapply Forall_impl; [| exact E]. cbn. intros m (M & _).
  destruct (Matches_mandatoryGroup _ _ _ _ _ _ Hg M) as (x' & z & Mg & C).
  exists (string_of_list_ascii (span x' z)). split; [| now apply HQ].
  unfold group. now rewrite C.
Qed.

(* ------------------------------------------------------------------ *)
(** ** The Text Extractor *)
(* ------------------------------------------------------------------ *)

Lemma length_of_list l : String.length (string_of_list_ascii l) = length l.
Proof. now rewrite <- chars_length, chars_of_list. Qed.

Ltac each_char c :=
  destruct c as [[] [] [] [] [] [] [] []]; try discriminate; try reflexivity.

Lemma digit_class i c : classHas i [CDigit] c = true -> Js.isDigit c = true.
Proof. destruct i; each_char c. Qed.

Lemma digit_kept c :
  Js.isDigit c = true -> Ascii.eqb c "-" || Js.isSpace c = false.
Proof. each_char c. Qed.

Lemma dashOrSpace_class c :
  classHas true [CChar "-"; CSpace] c = true ->
  Ascii.eqb c "-" || Js.isSpace c = true.
Proof. each_char c. Qed.

Lemma letter_B c : litHas true "B" c = true -> c = "B"%char \/ c = "b"%char.
Proof. each_char c; auto. Qed.

Lemma letter_F c : litHas true "F" c = true -> c = "F"%char \/ c = "f"%char.
Proof. each_char c; auto. Qed.

(** Groups [(\d{5,10})] and [(\d{7,10})]. *)
Lemma digits_capture i lo hi x z :
  (5 <= lo)%nat -> (hi <= 10)%nat ->
  Matches i (range lo hi digit) x z ->
  isBareNumber (string_of_list_ascii (span x z)) = true.
Proof.
  intros Lo Hi H. apply Matches_repeat_class in H as (_ & Ln & Lm & F).
  cbn in Lm. unfold isBareNumber, allDigits.
  rewrite chars_of_list, length_of_list.
  apply andb_true_iff. split; [apply andb_true_iff; split |].
  - apply forallb_forall. rewrite Forall_forall in F.
    intros c Hc. eapply digit_class; eauto.
  - apply Nat.leb_le. lia.
  - apply Nat.leb_le. lia.
Qed.

Lemma removeDashesAndSpaces_filter l :
  removeDashesAndSpaces (string_of_list_ascii l)
  = string_of_list_ascii
      (filter (fun c => negb (Ascii.eqb c "-" || Js.isSpace c)) l).
Proof.
  induction l as [| c l IH]; cbn [string_of_list_ascii removeDashesAndSpaces filter];
    [reflexivity |].
  destruct (Ascii.eqb c "-" || Js.isSpace c); cbn [negb]; [exact IH |].
  cbn. now rewrite IH.
Qed.

Lemma filter_all {A} (p : A -> bool) l :
  Forall (fun c => p c = true) l -> filter p l = l.
Proof.
  induction 1 as [| c l Hc _ IH]; cbn; [reflexivity |]. now rewrite Hc, IH.
Qed.

Lemma filter_none {A} (p : A -> bool) l :
  Forall (fun c => p c = false) l -> filter p l = [].
Proof.
  induction 1 as [| c l Hc _ IH]; cbn; [reflexivity |]. now rewrite Hc, IH.
Qed.

Lemma four_digits i x y :
  Matches i (count 4 digit) x y ->
  exists d1 d2 d3 d4,
    extends x [d1; d2; d3; d4] y
    /\ Js.isDigit d1 = true /\ Js.isDigit d2 = true
    /\ Js.isDigit d3 = true /\ Js.isDigit d4 = true.
Proof.
  intros H. apply Matches_repeat_class in H as (E & Ln & Lm & F).
  cbn in Lm. destruct (span x y) as [| d1 [| d2 [| d3 [| d4 [| d5 u]]]]];
    cbn in Ln, Lm; try lia.
  exists d1, d2, d3, d4. split; [exact E |].
  repeat match goal with
         | H : Forall _ (_ :: _) |- _ => inversion H; subst; clear H
         end.
  repeat split; eapply digit_class; eauto.
Qed.

Lemma optional_separator x y :
  Matches true (opt dashOrSpace) x y ->
  exists u, extends x u y
       /\ Forall (fun c => Ascii.eqb c "-" || Js.isSpace c = true) u.
Proof.
  intros H. apply Matches_repeat_class in H as (E & _ & _ & F).
  exists (span x y). split; [exact E |].
  eapply Forall_impl; [| exact F]. intros c. apply dashOrSpace_class.
Qed.

(** Group [(BF[-\s]?\d{4}[-\s]?\d{4})] and the rewriting of its text. *)
Lemma bf_capture x z :
  Matches true
    (seqs [Lit "BF"; opt dashOrSpace; count 4 digit; opt dashOrSpace;
           count 4 digit]) x z ->
  isCanonicalBF (canonicalLoanNumber (string_of_list_ascii (span x z))) = true.
Proof.
  cbn [seqs]. intros (z1 & H1 & z2 & H2 & z3 & H3 & z4 & H4 & z5 & H5 & ->).
  cbn [Matches] in H1. apply litSteps_extends in H1 as (u1 & E1 & _ & F1).
  cbn in F1.
  inversion F1 as [| ? c1 ? ? B F1']; subst.
  inversion F1' as [| ? c2 ? ? F F1'']; subst. inversion F1''; subst.
  apply optional_separator in H2 as (u2 & E2 & S2).
  apply four_digits in H3 as (d1 & d2 & d3 & d4 & E3 & D1 & D2 & D3 & D4).
  apply optional_separator in H4 as (u4 & E4 & S4).
  apply four_digits in H5 as (d5 & d6 & d7 & d8 & E5 & D5 & D6 & D7 & D8).
  pose proof (extends_trans _ _ _ _ _ E1
               (extends_trans _ _ _ _ _ E2
                 (extends_trans _ _ _ _ _ E3
                   (extends_trans _ _ _ _ _ E4 E5)))) as E.
  rewrite (extends_span _ _ _ E). unfold canonicalLoanNumber.
  rewrite removeDashesAndSpaces_filter, !filter_app.
  rewrite (filter_none _ u2), (filter_none _ u4).
  2,3: eapply Forall_impl; [| eassumption]; cbn; intros c Hc; now rewrite Hc.
  assert (K1 : Ascii.eqb c1 "-" || Js.isSpace c1 = false)
    by (destruct (letter_B _ B) as [-> | ->]; reflexivity).
  assert (K2 : Ascii.eqb c2 "-" || Js.isSpace c2 = false)
    by (destruct (letter_F _ F) as [-> | ->]; reflexivity).
  cbn [filter app].
  rewrite K1, K2, !digit_kept by assumption. cbn [negb app].
  cbn [string_of_list_ascii substring substringFrom String.length Nat.sub
       String.append].
  unfold isCanonicalBF, allDigits.
  cbn [String.length substring String.append Nat.eqb chars
       list_ascii_of_string forallb andb].
  rewrite D1, D2, D3, D4, D5, D6, D7, D8. reflexivity.
Qed.

Lemma Forall_added (P : string -> Prop) set set' :
  (forall v, In v set' -> In v set \/ P v) ->
  Forall P set -> Forall P set'.
Proof.
  intros I F. apply Forall_forall. intros v Hin.
  apply I in Hin as [Hin | Hp]; [| exact Hp].
  rewrite Forall_forall in F. now apply F.
Qed.

Lemma extractLoanNumbers_facts (subject body : string) :
  exists numbers,
    TextExtractor.extractLoanNumbers subject body = Some numbers
    /\ NoDup numbers
    /\ Forall (fun n => isLoanNumber n = true) numbers.
Proof.
  unfold extractLoanNumbers.
  set (text := (subject ++ String Js.LF body)%string).
  destruct (execLoop1_spec bfPattern text
              (fun m1 => Some (canonicalLoanNumber m1)) []
              _ (fun s => isCanonicalBF (canonicalLoanNumber s) = true)
              eq_refl (Nat.lt_0_succ _) eq_refl bf_capture)
    as (set1 & -> & N1 & I1).
  destruct (execLoop1_spec numPattern text Some set1
              _ (fun s => isBareNumber s = true)
              eq_refl (Nat.lt_0_succ _) eq_refl
              (fun x z => digits_capture _ 5 10 x z (Nat.le_refl _) (Nat.le_refl _)))
    as (set2 & -> & N2 & I2).
  destruct (execLoop1_spec subjectPattern subject Some set2
              _ (fun s => isBareNumber s = true)
              eq_refl (Nat.lt_0_succ _) eq_refl
              (fun x z => digits_capture _ 7 10 x z ltac:(lia) (Nat.le_refl _)))
    as (set3 & -> & N3 & I3).
  exists set3. split; [reflexivity |].
  split; [apply N3, N2, N1; constructor |].
  assert (F1 : Forall (fun n => isLoanNumber n = true) set1).
  { apply (Forall_added _ []); [| constructor].
    intros v Hin. apply I1 in Hin as [[] | (s & Q & [= <-])].
    right. unfold isLoanNumber. now rewrite Q. }
  assert (F2 : Forall (fun n => isLoanNumber n = true) set2).
  { apply (Forall_added _ set1); [| exact F1].
    intros v Hin. apply I2 in Hin as [Hin | (s & Q & [= <-])]; [now left |].
    right. unfold isLoanNumber. rewrite Q. apply orb_true_r. }
  apply (Forall_added _ set2); [| exact F2].
  intros v Hin. apply I3 in Hin as [Hin | (s & Q & [= <-])]; [now left |].
  right. unfold isLoanNumber. rewrite Q. apply orb_true_r.
Qed.

(** *** Addresses *)

Lemma dropWhileL_fixed p l :
  match l with [] => True | c :: _ => p c = false end -> dropWhileL p l = l.
Proof. destruct l as [| c l]; cbn; [reflexivity |]. now intros ->. Qed.

Lemma dropEndL_fixed p l :
  match rev l with [] => True | c :: _ => p c = false end -> dropEndL p l = l.
Proof.
  intros H. unfold dropEndL. rewrite (dropWhileL_fixed _ _ H).
  apply rev_involutive.
Qed.

Lemma trim_fixed s : trimmedL (chars s) -> Js.trim s = s.
Proof.
  intros [H T]. apply chars_inj. rewrite chars_trim.
  rewrite (dropWhileL_fixed _ _ H). now apply dropEndL_fixed.
Qed.

Lemma takeWhile_fixed p s :
  Forall (fun c => p c = true) (chars s) -> Js.takeWhile p s = s.
Proof.
  induction s as [| c s IH]; cbn; [reflexivity |].
  intros F. inversion F as [| ? ? Hc F']; subst. rewrite Hc. now rewrite IH.
Qed.

Lemma oneLine_sub pre mid post : oneLine (pre ++ mid ++ post) -> oneLine mid.
Proof.
  unfold oneLine. intros F. apply Forall_app in F as [_ F].
  now apply Forall_app in F as [F _].
Qed.

Lemma oneLine_trim s : oneLine (chars s) -> oneLine (chars (Js.trim s)).
Proof.
  intros F. destruct (chars_trim_sub s) as (pre & post & E).
  rewrite E in F. now apply oneLine_sub in F.
Qed.

Lemma oneLine_firstLine raw :
  oneLine (chars (Js.splitHead Js.CR (Js.splitHead Js.LF raw))).
Proof.
  unfold Js.splitHead.
  destruct (chars_takeWhile_prefix (fun c => negb (Ascii.eqb c Js.LF)) raw)
    as [_ F1].
  destruct (chars_takeWhile_prefix (fun c => negb (Ascii.eqb c Js.CR))
              (Js.takeWhile (fun c => negb (Ascii.eqb c Js.LF)) raw))
    as [P2 F2].
  apply (Forall_prefixL _ _ _ P2) in F1.
  unfold oneLine, isLineTerminator. apply Forall_forall. intros c Hin.
  rewrite Forall_forall in F1, F2. specialize (F1 _ Hin). specialize (F2 _ Hin).
  apply negb_true_iff in F1, F2. now rewrite F1, F2.
Qed.

Lemma firstLine_fixed s :
  oneLine (chars s) -> Js.splitHead Js.CR (Js.splitHead Js.LF s) = s.
Proof.
  intros F. unfold Js.splitHead.
  rewrite (takeWhile_fixed (fun c => negb (Ascii.eqb c Js.LF)) s).
  - apply takeWhile_fixed. eapply Forall_impl; [| exact F].
    unfold isLineTerminator. cbn. intros c Hc.
    apply orb_false_iff in Hc as [_ Hc]. now rewrite Hc.
  - eapply Forall_impl; [| exact F].
    unfold isLineTerminator. cbn. intros c Hc.
    apply orb_false_iff in Hc as [Hc _]. now rewrite Hc.
Qed.

Lemma chars_stripTrailing s :
  chars (stripTrailingDotsAndSpaces s) = dropEndL isDotOrSpace (chars s).
Proof. apply chars_dropEnd. Qed.

Lemma isDotOrSpace_space c : isDotOrSpace c = false -> Js.isSpace c = false.
Proof. unfold isDotOrSpace. intros H. now apply orb_false_iff in H. Qed.

(** The text [cleanAddress] tests and returns. *)
Lemma cleaned_text raw :
  let addr := Js.trim (stripTrailingDotsAndSpaces
                         (Js.trim (Js.splitHead Js.CR (Js.splitHead Js.LF raw)))) in
  trimmedL (chars addr) /\ oneLine (chars addr) /\ noTrailingDot (chars addr).
Proof.
  set (line := Js.splitHead Js.CR (Js.splitHead Js.LF raw)).
  set (addr1 := Js.trim line).
  set (addr2 := stripTrailingDotsAndSpaces addr1).
  cbv zeta.
  assert (T1 : trimmedL (chars addr1))
    by (unfold addr1; rewrite chars_trim; apply trimmedL_trim).
  assert (O1 : oneLine (chars addr1))
    by (apply oneLine_trim, oneLine_firstLine).
  assert (P2 : prefixL (chars addr2) (chars addr1))
    by (unfold addr2; rewrite chars_stripTrailing; apply dropEndL_prefix).
  assert (N2 : noTrailingDot (chars addr2)).
  { unfold addr2, noTrailingDot. rewrite chars_stripTrailing.
    now destruct (dropEndL_spec isDotOrSpace (chars addr1)) as (post & _ & _ & L). }
  assert (T2 : trimmedL (chars addr2)).
  { split.
    - destruct P2 as (rest & E). destruct T1 as [H1 _]. rewrite E in H1.
      now destruct (chars addr2).
    - unfold noTrailingDot in N2. destruct (rev (chars addr2)); [exact I |].
      now apply isDotOrSpace_space. }
  rewrite (trim_fixed _ T2). split; [exact T2 |]. split; [| exact N2].
  unfold oneLine. eapply Forall_prefixL; eauto.
Qed.

Lemma stripTrailing_fixed s :
  noTrailingDot (chars s) -> stripTrailingDotsAndSpaces s = s.
Proof.
  intros N. apply chars_inj. rewrite chars_stripTrailing.
  now apply dropEndL_fixed.
Qed.

(** What [cleanAddress] returns: at least six characters of one line,
    trimmed, with no dot at the end, passing the blacklist; and it cleans
    to itself. *)
Lemma cleanAddress_unfold raw :
  raw <> "" ->
  cleanAddress raw
  = let addr := Js.trim (stripTrailingDotsAndSpaces
                           (Js.trim (Js.splitHead Js.CR (Js.splitHead Js.LF raw)))) in
    if Nat.ltb (String.length addr) 6 then None
    else if existsb (fun p => test p addr) ADDRESS_BLACKLIST then None
    else Some addr.
Proof. destruct raw; [congruence | reflexivity]. Qed.

Lemma cleanAddress_facts raw addr :
  cleanAddress raw = Some addr ->
  (6 <= String.length addr)%nat
  /\ trimmedL (chars addr)
  /\ oneLine (chars addr)
  /\ noTrailingDot (chars addr)
  /\ Forall (fun p => RegExp.test p addr = false) ADDRESS_BLACKLIST
  /\ cleanAddress addr = Some addr.
Proof.
  intros H.
  assert (Ne : raw <> "") by (intros ->; unfold cleanAddress in H; discriminate H).
  rewrite (cleanAddress_unfold _ Ne) in H.
  destruct (cleaned_text raw) as (T & O & N). cbv zeta in T, O, N, H.
  set (a := Js.trim (stripTrailingDotsAndSpaces
    (Js.trim (Js.splitHead Js.CR (Js.splitHead Js.LF raw))))) in *.
  clearbody a.
  destruct (Nat.ltb (String.length a) 6) eqn:L; [discriminate H |].
  destruct (existsb (fun p => test p a) ADDRESS_BLACKLIST) eqn:B;
    [discriminate H |].
  injection H as <-. apply Nat.ltb_ge in L as L'.
  split; [exact L' |]. split; [exact T |]. split; [exact O |]. split; [exact N |].
  split.
  - apply Forall_forall. intros p Hp.
    destruct (test p a) eqn:Tp; [| reflexivity].
    assert (B' : existsb (fun p => test p a) ADDRESS_BLACKLIST = true).
    { apply existsb_exists. exists p. split; assumption. }
    rewrite B' in B. discriminate B.
  - assert (Na : a <> "") by (intros ->; cbn in L'; lia).
    rewrite (cleanAddress_unfold _ Na). cbv zeta.
    rewrite (firstLine_fixed _ O), (trim_fixed _ T), (stripTrailing_fixed _ N),
      (trim_fixed _ T).
    rewrite L, B. reflexivity.
Qed.

Lemma addAddresses_spec : forall ms set,
  (NoDup set -> NoDup (addAddresses ms set))
  /\ (Forall isCleanAddress set -> Forall isCleanAddress (addAddresses ms set)).
Proof.
  induction ms as [| m ms IH]; intros set; cbn [addAddresses]; [auto |].
  cbn [group]. destruct (cleanAddress _) as [addr |] eqn:C; [| apply IH].
  destruct (IH (setAdd addr set)) as [N F]. split.
  - intros Nd. now apply N, setAdd_NoDup.
  - intros Fa. apply F. apply Forall_forall. intros v Hin.
    apply setAdd_In in Hin as [-> | Hin].
    + now apply cleanAddress_facts in C.
    + rewrite Forall_forall in Fa. now apply Fa.
Qed.

Lemma addressLoop_spec s set :
  exists set',
    addressLoop s set = Some set'
    /\ (NoDup set -> NoDup set')
    /\ (Forall isCleanAddress set -> Forall isCleanAddress set').
Proof.
  unfold addressLoop.
  destruct (execAll_returns addrPattern s eq_refl (Nat.lt_0_succ _)) as (ms & ->).
  eexists. split; [reflexivity |]. apply addAddresses_spec.
Qed.

Lemma addressLines_spec : forall lines set,
  exists set',
    addressLines lines set = Some set'
    /\ (NoDup set -> NoDup set')
    /\ (Forall isCleanAddress set -> Forall isCleanAddress set').
Proof.
  induction lines as [| line rest IH]; intros set; cbn [addressLines].
  - exists set. auto.
  - destruct (Js.trim line) as [| c t] eqn:T; [apply IH |].
    destruct (addressLoop_spec (String c t) set) as (set1 & -> & N1 & F1).
    destruct (IH set1) as (set2 & -> & N2 & F2).
    exists set2. auto.
Qed.

Lemma extractAddresses_facts (subject body : string) :
  exists found,
    TextExtractor.extractAddresses subject body = Some found
    /\ NoDup found
    /\ Forall isCleanAddress found.
Proof.
  unfold extractAddresses.
  destruct (addressLines_spec (split Js.LF body) []) as (set1 & -> & N1 & F1).
  destruct (addressLoop_spec subject set1) as (set2 & -> & N2 & F2).
  assert (N : NoDup set2) by (apply N2, N1; constructor).
  assert (F : Forall isCleanAddress set2) by (apply F2, F1; constructor).
  destruct (matchFirst subjectAddrPattern subject) as [m |] eqn:S;
    [| now exists set2].
  unfold matchFirst in S. apply search_sound in S as (M & _ & _); [| reflexivity].
  destruct (Matches_mandatoryGroup _ 1 (source subjectAddrPattern) _ _ _ eq_refl M)
    as (x' & z & _ & C).
  unfold group. rewrite C. cbn [option_map].
  destruct (cleanAddress _) as [addr |] eqn:Ca; [| now exists set2].
  destruct (Nat.ltb 5 (String.length addr)); [| now exists set2].
  exists (setAdd addr set2). split; [reflexivity |].
  split; [now apply setAdd_NoDup |].
  apply Forall_forall. intros v Hin. apply setAdd_In in Hin as [-> | Hin].
  - now apply cleanAddress_facts in Ca.
  - rewrite Forall_forall in F. now apply F.
Qed.

(** *** Deal names *)

Lemma name_capture i greedy x z :
  Matches i (Repeat greedy 1 None Dot) x z ->
  oneLine (chars (string_of_list_ascii (span x z))).
Proof.
  intros H. apply Matches_repeat_dot in H as (_ & _ & F).
  now rewrite chars_of_list.
Qed.

Lemma subjectName_fragment s v :
  oneLine (chars s) -> subjectName s = Some v -> isNameFragment v.
Proof.
  unfold subjectName. intros O H.
  destruct (Nat.leb 3 _ && Nat.leb _ 80) eqn:B; [| discriminate].
  injection H as <-. apply andb_true_iff in B as [B1 B2].
  apply Nat.leb_le in B1, B2. split; [lia |]. split.
  - rewrite chars_trim. apply trimmedL_trim.
  - now apply oneLine_trim.
Qed.

Lemma referenceName_fragment s v :
  oneLine (chars s) -> referenceName s = Some v -> isNameFragment v.
Proof.
  unfold referenceName. intros O H.
  destruct (Nat.leb 3 _ && Nat.leb _ 60 && negb _) eqn:B; [| discriminate].
  injection H as <-. apply andb_true_iff in B as [B _].
  apply andb_true_iff in B as [B1 B2].
  apply Nat.leb_le in B1, B2. split; [lia |]. split.
  - rewrite chars_trim. apply trimmedL_trim.
  - now apply oneLine_trim.
Qed.

Lemma extractDealNames_facts (subject body : string) :
  exists names,
    TextExtractor.extractDealNames subject body = Some names
    /\ NoDup names
    /\ Forall isNameFragment names.
Proof.
  unfold extractDealNames.
  destruct (execLoop1_spec dealSubjectPattern subject subjectName []
              _ (fun s => oneLine (chars s))
              eq_refl (Nat.lt_0_succ _) eq_refl (name_capture _ _))
    as (set1 & -> & N1 & I1).
  destruct (execLoop1_spec refPattern (subject ++ String Js.LF body)%string
              referenceName set1
              _ (fun s => oneLine (chars s))
              eq_refl (Nat.lt_0_succ _) eq_refl (name_capture _ _))
    as (set2 & -> & N2 & I2).
  exists set2. split; [reflexivity |]. split; [apply N2, N1; constructor |].
  assert (F1 : Forall isNameFragment set1).
  { apply (Forall_added _ []); [| constructor].
    intros v Hin. apply I1 in Hin as [[] | (s & Q & Fs)].
    right. eapply subjectName_fragment; eauto. }
  apply (Forall_added _ set1); [| exact F1].
  intros v Hin. apply I2 in Hin as [Hin | (s & Q & Fs)]; [now left |].
  right. eapply referenceName_fragment; eauto.
Qed.

(** *** [parseEmail] *)

Lemma replaceCR_noCR s : noCR (replaceCR s).
Proof.
  unfold noCR, chars.
  induction s as [| c s IH]; cbn [replaceCR list_ascii_of_string];
    constructor; [| exact IH].
  destruct (Ascii.eqb c Js.CR) eqn:E; [reflexivity | exact E].
Qed.

Lemma replaceCR_fixed s : noCR s -> replaceCR s = s.
Proof.
  unfold noCR, chars.
  induction s as [| c s IH]; cbn [replaceCR list_ascii_of_string];
    [reflexivity |].
  intros F. inversion F as [| ? ? Hc F']; subst. now rewrite Hc, IH.
Qed.

Lemma replaceCRLF_fixed s : noCR s -> replaceCRLF s = s.
Proof.
  unfold noCR, chars. induction s as [| c s IH]; [reflexivity |].
  cbn [list_ascii_of_string].
  intros F. inversion F as [| ? ? Hc F']; subst.
  cbn [replaceCRLF]. destruct s as [| d s']; [reflexivity |].
  rewrite Hc. cbn [andb]. now rewrite (IH F').
Qed.

Lemma trim_trim s : Js.trim (Js.trim s) = Js.trim s.
Proof. apply trim_fixed. rewrite chars_trim. apply trimmedL_trim. Qed.

(** [parseEmail] returns, and returns the same for a subject already
    trimmed and a body whose line ends are already line feeds. *)
Lemma parseEmail_facts subject body :
  exists parsed,
    TextExtractor.parseEmail subject body = Some parsed
    /\ TextExtractor.parseEmail (Js.trim subject) (replaceCR (replaceCRLF body))
       = Some parsed
    /\ (NoDup (loanNumbers parsed)
        /\ Forall (fun n => isLoanNumber n = true) (loanNumbers parsed))
    /\ (NoDup (addresses parsed) /\ Forall isCleanAddress (addresses parsed))
    /\ (NoDup (dealNames parsed) /\ Forall isNameFragment (dealNames parsed)).
Proof.
  unfold TextExtractor.parseEmail.
  rewrite trim_trim.
  rewrite (replaceCRLF_fixed _ (replaceCR_noCR _)),
    (replaceCR_fixed _ (replaceCR_noCR _)).
  destruct (extractLoanNumbers_facts (Js.trim subject)
              (replaceCR (replaceCRLF body))) as (l & -> & Nl & Fl).
  destruct (extractAddresses_facts (Js.trim subject)
              (replaceCR (replaceCRLF body))) as (a & -> & Na & Fa).
  destruct (extractDealNames_facts (Js.trim subject)
              (replaceCR (replaceCRLF body))) as (d & -> & Nd & Fd).
  eexists. split; [reflexivity |]. split; [reflexivity |]. cbn. auto.
Qed.

(** *** The blacklist *)

Lemma allChars_In c : In c allChars.
Proof.
  unfold allChars. apply in_map_iff. exists (nat_of_ascii c).
  split; [apply ascii_nat_embedding |]. apply in_seq.
  pose proof (nat_ascii_bounded c). lia.
Qed.

Lemma litHas_small_table :
  forallb (fun c =>
             forallb (fun a => Bool.eqb (litHas true a c)
                                 (Ascii.eqb a (Js.lowerChar c)))
               smallLetters)
    allChars = true.
Proof. vm_compute. reflexivity. Qed.

(** With the [i] flag a small letter of a pattern matches the characters
    that [toLowerCase] turns into it. *)
Lemma litHas_small a c :
  In a smallLetters -> litHas true a c = Ascii.eqb a (Js.lowerChar c).
Proof.
  intros Ha. pose proof litHas_small_table as T.
  rewrite forallb_forall in T. specialize (T c (allChars_In c)).
  rewrite forallb_forall in T. specialize (T a Ha).
  now apply Bool.eqb_prop in T.
Qed.

Lemma litMatcher_small w :
  Forall (fun a => In a smallLetters) (chars w) ->
  forall k x,
    Js.startsWith (Js.toLowerCase (string_of_list_ascii (after x))) w = true ->
    exists y, litMatcher true w k x = k y.
Proof.
  induction w as [| a w IH]; intros F k x H; cbn [litMatcher].
  - now exists x.
  - inversion F as [| ? ? Ha F']; subst. unfold charMatcher.
    destruct (after x) as [| c t] eqn:A; cbn in H; [discriminate |].
    apply andb_true_iff in H as [Hc H].
    rewrite (litHas_small _ _ Ha), Hc.
    apply (IH F' k (mkState (c :: before x) t (caps x))). exact H.
Qed.

Lemma word_not_found re w : forall aft bef,
  ignoreCase re = true ->
  (forall k x, compile true (source re) k x = None ->
               litMatcher true w k x = None) ->
  Forall (fun a => In a smallLetters) (chars w) ->
  w <> "" ->
  search re bef aft = None ->
  Js.includes (Js.toLowerCase (string_of_list_ascii aft)) w = false.
Proof.
  intros aft bef I Hw F Ne. revert bef.
  assert (Here : forall bef aft,
    matchAt re bef aft = None ->
    Js.startsWith (Js.toLowerCase (string_of_list_ascii aft)) w = false).
  { intros bef aft0 M. unfold matchAt in M. rewrite I in M. apply Hw in M.
    destruct (Js.startsWith _ w) eqn:S; [| reflexivity].
    destruct (litMatcher_small w F Some (mkState bef aft0 noCaps) S) as (y & E).
    congruence. }
  induction aft as [| c t IH]; intros bef S; cbn [search] in S.
  - destruct (matchAt re bef []) eqn:M; [discriminate |].
    apply Here in M. cbn in *. rewrite M. reflexivity.
  - destruct (matchAt re bef (c :: t)) eqn:M; [discriminate |].
    apply Here in M. apply IH in S.
    cbn [string_of_list_ascii Js.toLowerCase Js.includes] in *.
    now rewrite M, S.
Qed.

Lemma small_word w :
  forallb (fun a => existsb (Ascii.eqb a) smallLetters) (chars w) = true ->
  Forall (fun a => In a smallLetters) (chars w).
Proof.
  intros H. rewrite forallb_forall in H. apply Forall_forall. intros a Ha.
  apply H in Ha. apply existsb_exists in Ha as (b & Hb & E).
  apply Ascii.eqb_eq in E. now subst.
Qed.

Lemma boilerplate_words addr :
  test blacklistBoilerplate addr = false ->
  Js.includes (Js.toLowerCase addr) "bankruptcy" = false
  /\ Js.includes (Js.toLowerCase addr) "unsubscribe" = false
  /\ Js.includes (Js.toLowerCase addr) "copyright" = false.
Proof.
  unfold test, matchFirst. intros T.
  destruct (search blacklistBoilerplate [] (list_ascii_of_string addr)) eqn:S;
    [discriminate T |]. clear T.
  assert (A : string_of_list_ascii (list_ascii_of_string addr) = addr)
    by apply string_of_list_ascii_of_string.
  assert (W : forall w,
    (forall k x, compile true (source blacklistBoilerplate) k x = None ->
                 litMatcher true w k x = None) ->
    forallb (fun a => existsb (Ascii.eqb a) smallLetters) (chars w) = true ->
    w <> "" ->
    Js.includes (Js.toLowerCase addr) w = false).
  { intros w Hw Sw Ne. rewrite <- A.
    apply (word_not_found blacklistBoilerplate w _ [] eq_refl Hw
             (small_word _ Sw) Ne S). }
  split; [| split];
    (apply W; [intros k x; cbn [source blacklistBoilerplate alts compile]
              | vm_compute; reflexivity | discriminate]).
  - destruct (litMatcher true "bankruptcy" k x); [discriminate | reflexivity].
  - destruct (litMatcher true "bankruptcy" k x); [discriminate |].
    destruct (litMatcher true "unsubscribe" k x); [discriminate | reflexivity].
  - destruct (litMatcher true "bankruptcy" k x); [discriminate |].
    destruct (litMatcher true "unsubscribe" k x); [discriminate |].
    exact (fun H => H).
Qed.

(** *** What the extractor is sure to find *)

Lemma setAdd_keeps x l v : In v l -> In v (setAdd x l).
Proof. intros H. apply setAdd_In. now right. Qed.

Lemma addCaptures_keeps f : forall ms set set' v,
  addCaptures f ms set = Some set' -> In v set -> In v set'.
Proof.
  induction ms as [| m ms IH]; intros set set' v H Hin; cbn [addCaptures] in H.
  - now injection H as <-.
  - destruct (group 1 m) as [s |]; [| discriminate].
    eapply IH; [exact H |]. destruct (f s); [now apply setAdd_keeps | exact Hin].
Qed.

Lemma addCaptures_adds f : forall ms set set' m s v,
  addCaptures f ms set = Some set' ->
  In m ms -> group 1 m = Some s -> f s = Some v -> In v set'.
Proof.
  induction ms as [| m0 ms IH]; intros set set' m s v H Hin G Fs;
    [destruct Hin |]. cbn [addCaptures] in H.
  destruct Hin as [-> | Hin].
  - rewrite G, Fs in H. eapply addCaptures_keeps; [exact H |].
    apply setAdd_In. now left.
  - destruct (group 1 m0) as [s0 |]; [| discriminate]. eapply IH; eauto.
Qed.

(** An [exec] loop that adds [f match[1]] adds the value for the match at
    the position after [pre], when the pattern matches there and no
    earlier match reaches beyond that position. *)
Lemma execLoop1_finds re s f set g (pre target : list ascii) (w : string) :
  wellFormed (source re) = true ->
  productive (source re) = true ->
  (0 < minLength (source re))%nat ->
  mandatoryGroup 1 (source re) = Some g ->
  chars s = pre ++ target ->
  (exists y, Matches (ignoreCase re) (source re)
               (mkState (rev pre) target noCaps) y) ->
  (forall u rest y,
      pre ++ target = u ++ rest ->
      (length u < length pre)%nat ->
      Matches (ignoreCase re) (source re) (mkState (rev u) rest noCaps) y ->
      (length target <= length (after y))%nat) ->
  (forall y, Matches (ignoreCase re) (source re)
               (mkState (rev pre) target noCaps) y ->
             exists v, caps y 1 = Some v /\ f (string_of_list_ascii v) = Some w) ->
  exists set',
    execLoop1 re s f set = Some set'
    /\ In w set'
    /\ (forall a, In a set -> In a set').
Proof.
  intros Wf Pr Pos Hg Es Ex No Pin.
  destruct (execLoop1_spec re s f set g (fun _ => True) Wf Pos Hg (fun _ _ _ => I))
    as (set' & E & _ & _).
  exists set'. split; [exact E |]. unfold execLoop1 in E.
  destruct (execAll re s) as [ms |] eqn:A; [| discriminate].
  split; [| intros a; now apply (addCaptures_keeps _ _ _ _ _ E)].
  destruct (execLoop_visits re Wf Pr Pos (S (String.length s)) pre [] target)
    as (ms' & m & L & Hin & Fm).
  - rewrite <- Es, chars_length. lia.
  - now rewrite app_nil_r.
  - intros u rest y Eu Lu M. rewrite app_nil_r in M. eapply No; eauto.
  - unfold execAll in A. fold (chars s) in A. rewrite Es, L in A.
    injection A as <-.
    pose proof (execLoop_sound re Wf _ _ _ _ L) as Fa.
    rewrite Forall_forall in Fa. destruct (Fa m Hin) as (M & _).
    rewrite Fm, app_nil_r in M. destruct (Pin _ M) as (v & C & Fv).
    eapply addCaptures_adds; eauto. unfold group. now rewrite C.
Qed.

(** A run of characters of a class is matched by the quantified class. *)
Lemma Matches_run i greedy min max items : forall run bef rest cs,
  Forall (fun c => classHas i items c = true) run ->
  (min <= length run)%nat -> withinMax (length run) max ->
  Matches i (Repeat greedy min max (Class items))
    (mkState bef (run ++ rest) cs) (mkState (rev run ++ bef) rest cs).
Proof.
  intros run bef rest cs F Ln Lm. exists (length run).
  split; [exact Ln |]. split; [exact Lm |].
  clear Ln Lm. revert bef.
  induction F as [| c run Hc _ IH]; intros bef; cbn [iterate length app rev].
  - reflexivity.
  - exists (mkState (c :: bef) (run ++ rest) cs). split.
    + exists c, (run ++ rest). repeat split; auto.
    + rewrite <- app_assoc. apply IH.
Qed.

Lemma app_reaches {A} : forall (p w t a : list A) (x : A),
  p ++ x :: t = w ++ a -> (length a <= length t)%nat -> In x w.
Proof.
  induction p as [| c p IH]; intros w t a x E L; cbn in E.
  - destruct w as [| d w]; cbn in E.
    + subst a. cbn in L. lia.
    + injection E as -> _. now left.
  - destruct w as [| d w]; cbn in E.
    + subst a. cbn in L. rewrite length_app in L. cbn in L. lia.
    + injection E as _ E. right. eapply IH; eauto.
Qed.

(** A match that starts before a character [x] which none of its
    characters but the first can be does not reach beyond [x]. *)
Lemma no_overlap (P : ascii -> Prop) pre x t u rest c w a :
  pre ++ x :: t = u ++ rest ->
  (length u < length pre)%nat ->
  rest = (c :: w) ++ a ->
  Forall P w -> ~ P x ->
  (length (x :: t) <= length a)%nat.
Proof.
  intros E Lu -> F Nx.
  destruct (Nat.le_gt_cases (length (x :: t)) (length a)) as [Le | Gt];
    [exact Le | exfalso].
  assert (Le : (length pre + length (x :: t)
                = length u + length ((c :: w) ++ a))%nat)
    by (rewrite <- !length_app; now f_equal).
  assert (Sp : exists p2, pre = u ++ p2).
  { destruct (app_split_tail u pre (x :: t) ((c :: w) ++ a) E) as (s & _ & Ep);
      [lia | now exists s]. }
  destruct Sp as (p2 & ->). rewrite <- app_assoc in E.
  apply app_inv_head in E. rewrite length_app in Lu.
  destruct p2 as [| c' p2]; [cbn in Lu; lia |].
  cbn in E. injection E as _ E.
  apply Nx. rewrite Forall_forall in F. apply F.
  eapply app_reaches; [exact E |]. cbn in Gt. lia.
Qed.

Lemma digit_word c : Js.isDigit c = true -> Js.isWord c = true.
Proof. unfold Js.isWord. intros ->. now rewrite orb_true_r. Qed.

Lemma digit_no_space c : Js.isDigit c = true -> Js.isSpace c = false.
Proof. each_char c. Qed.

Lemma space_class i c : classHas i [CSpace] c = true -> Js.isSpace c = true.
Proof. destruct i; each_char c. Qed.

Lemma digit_has i c : Js.isDigit c = true -> classHas i [CDigit] c = true.
Proof. intros H. cbn. now rewrite H. Qed.

Lemma space_has i c : Js.isSpace c = true -> classHas i [CSpace] c = true.
Proof. intros H. cbn. now rewrite H. Qed.

(** Two ways of cutting a text into a run of [p] and a rest that does not
    go on with [p] are the same. *)
Lemma run_unique (p : ascii -> bool) : forall a a' b b',
  a ++ b = a' ++ b' ->
  Forall (fun c => p c = true) a -> Forall (fun c => p c = true) a' ->
  match b with [] => True | c :: _ => p c = false end ->
  match b' with [] => True | c :: _ => p c = false end ->
  a = a' /\ b = b'.
Proof.
  induction a as [| c a IH]; intros a' b b' E F F' Hb Hb'.
  - destruct a' as [| c' a']; [now split |]. cbn in E. subst b.
    inversion F'; subst. congruence.
  - destruct a' as [| c' a']; cbn in E.
    + subst b'. inversion F; subst. congruence.
    + injection E as -> E. inversion F; inversion F'; subst.
      destruct (IH _ _ _ E) as [-> ->]; auto.
Qed.

Lemma last_digit_boundary bef ds rest cs :
  ds <> [] -> Forall (fun c => Js.isDigit c = true) ds ->
  atWordBoundary (mkState (rev ds ++ bef) rest cs)
  = negb (isWordAt (hd_error rest)).
Proof.
  intros Ne F. unfold atWordBoundary. cbn [before after].
  destruct (rev ds) as [| d r] eqn:R.
  - apply (f_equal (@rev ascii)) in R. rewrite rev_involutive in R. now subst.
  - assert (In d ds) by (apply in_rev; rewrite R; now left).
    rewrite Forall_forall in F. cbn. rewrite (digit_word _ (F _ H)).
    now destruct (isWordAt (hd_error rest)).
Qed.

(** The third pattern of [extractLoanNumbers] at a separator followed by
    white space and a run of seven to ten digits. *)
Lemma subjectPattern_at bef sep ws ds rest :
  In sep (chars "-|/") ->
  Forall (fun c => Js.isSpace c = true) ws ->
  Forall (fun c => Js.isDigit c = true) ds ->
  (7 <= length ds <= 10)%nat ->
  match rest with [] => True | c :: _ => Js.isWord c = false end ->
  let x := mkState bef (sep :: ws ++ ds ++ rest) noCaps in
  (exists y, Matches false (source subjectPattern) x y)
  /\ (forall y, Matches false (source subjectPattern) x y -> caps y 1 = Some ds).
Proof.
  intros Hsep Fw Fd Ld Hr x. split.
  - exists (setCap 1 ds (mkState (rev ds ++ rev ws ++ sep :: bef) rest noCaps)).
    cbn [source subjectPattern seqs Matches].
    exists (mkState (sep :: bef) (ws ++ ds ++ rest) noCaps). split.
    { exists sep, (ws ++ ds ++ rest). repeat split; auto.
      cbn in Hsep. destruct Hsep as [<- | [<- | [<- | []]]]; reflexivity. }
    exists (mkState (rev ws ++ sep :: bef) (ds ++ rest) noCaps). split.
    { apply Matches_run; [| lia | exact I].
      eapply Forall_impl; [| exact Fw]. intros c. apply space_has. }
    exists (setCap 1 ds (mkState (rev ds ++ rev ws ++ sep :: bef) rest noCaps)).
    split.
    { exists (mkState (rev ds ++ rev ws ++ sep :: bef) rest noCaps). split.
      - apply Matches_run; [| lia | cbn; lia].
        eapply Forall_impl; [| exact Fd]. intros c. apply digit_has.
      - f_equal. unfold span. cbn [after]. rewrite length_app.
        replace (length ds + length rest - length rest)%nat
          with (length ds + 0)%nat by lia.
        now rewrite firstn_app_2, app_nil_r. }
    exists (setCap 1 ds (mkState (rev ds ++ rev ws ++ sep :: bef) rest noCaps)).
    split; [| reflexivity]. split; [| reflexivity].
    unfold setCap. cbn [before after].
    rewrite last_digit_boundary; [| intros ->; cbn in Ld; lia | exact Fd].
    destruct rest as [| c rest]; [reflexivity |]. cbn. now rewrite Hr.
  - cbn [source subjectPattern seqs]. intros y M.
    cbn [Matches] in M. destruct M as (z1 & M1 & z2 & M2 & z3 & M3 & z4 & M4 & ->).
    fold (Matches false (star space) z1 z2) in M2.
    destruct M1 as (c & t & A1 & _ & ->). cbn [after x] in A1.
    injection A1 as <- <-.
    apply Matches_repeat_class in M2 as (E2 & _ & _ & F2).
    destruct M3 as (z3' & M3 & ->).
    fold (Matches false (range 7 10 digit) z2 z3') in M3.
    apply Matches_repeat_class in M3 as (E3 & L3 & _ & F3).
    destruct M4 as [B ->]. cbn [setCap caps Nat.eqb].
    f_equal.
    destruct E2 as [E2 B2]. destruct E3 as [E3 B3]. cbn [after] in E2.
    rewrite E3 in E2.
    assert (Nd : span z2 z3' <> []) by (intros Z; rewrite Z in L3; cbn in L3; lia).
    destruct (run_unique Js.isSpace ws (span (mkState (sep :: bef) (ws ++ ds ++ rest) noCaps) z2)
                (ds ++ rest) (span z2 z3' ++ after z3') E2) as [Ew Er].
    + exact Fw.
    + eapply Forall_impl; [| exact F2]. intros c. apply space_class.
    + destruct ds as [| d ds]; [cbn in Ld; lia |]. inversion Fd; subst.
      now apply digit_no_space.
    + destruct (span z2 z3') as [| d sp]; [congruence |]. inversion F3; subst.
      apply digit_no_space. eapply digit_class; eauto.
    + assert (Fd3 : Forall (fun c => Js.isDigit c = true) (span z2 z3')).
      { eapply Forall_impl; [| exact F3]. intros c. apply digit_class. }
      destruct (run_unique Js.isDigit ds (span z2 z3') rest (after z3') Er)
        as [Ed _]; auto.
      * destruct rest as [| c rest]; [exact I |].
        destruct (Js.isDigit c) eqn:D; [| reflexivity].
        apply digit_word in D. congruence.
      * unfold atWordBoundary in B. cbn [setCap before after] in B.
        rewrite B3 in B.
        destruct (rev (span z2 z3')) as [| d r] eqn:R.
        { apply (f_equal (@rev ascii)) in R. rewrite rev_involutive in R.
          cbn in R. congruence. }
        assert (Hd : In d (span z2 z3')) by (apply in_rev; rewrite R; now left).
        rewrite Forall_forall in Fd3. cbn in B.
        rewrite (digit_word _ (Fd3 _ Hd)) in B.
        destruct (after z3') as [| c r']; [exact I |]. cbn in B.
        destruct (Js.isWord c) eqn:Wc; [discriminate |].
        destruct (Js.isDigit c) eqn:D; [| reflexivity].
        apply digit_word in D. congruence.
Qed.

(** No match of that pattern which starts earlier reaches beyond the
    separator. *)
Lemma subjectPattern_before pre sep t u rest y :
  In sep (chars "-|/") ->
  pre ++ sep :: t = u ++ rest ->
  (length u < length pre)%nat ->
  Matches false (source subjectPattern) (mkState (rev u) rest noCaps) y ->
  (length (sep :: t) <= length (after y))%nat.
Proof.
  intros Hsep E Lu M. cbn [source subjectPattern seqs Matches] in M.
  destruct M as (z1 & M1 & z2 & M2 & z3 & M3 & z4 & M4 & ->).
  fold (Matches false (star space) z1 z2) in M2.
  destruct M1 as (c & t1 & A1 & _ & ->). cbn [after] in A1.
  apply Matches_repeat_class in M2 as ([E2 _] & _ & _ & F2).
  cbn [after before caps] in E2, F2.
  destruct M3 as (z3' & M3 & ->).
  fold (Matches false (range 7 10 digit) z2 z3') in M3.
  apply Matches_repeat_class in M3 as ([E3 _] & _ & _ & F3).
  destruct M4 as [_ ->]. cbn [setCap after].
  set (s2 := span _ z2) in *. set (s3 := span z2 z3') in *.
  clearbody s2 s3.
  apply (no_overlap (fun c => Js.isSpace c = true \/ Js.isDigit c = true)
           pre sep t u rest c (s2 ++ s3) (after z3') E Lu).
  - rewrite A1, E2, E3. cbn. now rewrite <- app_assoc.
  - apply Forall_app. split.
    + eapply Forall_impl; [| exact F2]. cbv beta. intros a Ha. left.
      exact (space_class false a Ha).
    + eapply Forall_impl; [| exact F3]. cbv beta. intros a Ha. right.
      exact (digit_class false a Ha).
  - cbn in Hsep. destruct Hsep as [<- | [<- | [<- | []]]];
      intros [H | H]; discriminate H.
Qed.

Lemma servicer_number_facts (subject body : string) (pre ws ds rest : list ascii)
    (sep : ascii) :
  chars subject = pre ++ sep :: ws ++ ds ++ rest ->
  In sep (chars "-|/") ->
  Forall (fun c => Js.isSpace c = true) ws ->
  Forall (fun c => Js.isDigit c = true) ds ->
  (7 <= length ds <= 10)%nat ->
  startsNoWord rest ->
  exists numbers,
    TextExtractor.extractLoanNumbers subject body = Some numbers
    /\ In (string_of_list_ascii ds) numbers.
Proof.
  intros Es Hsep Fw Fd Ld Hr. unfold extractLoanNumbers.
  set (text := (subject ++ String Js.LF body)%string).
  destruct (execLoop1_spec bfPattern text
              (fun m1 => Some (canonicalLoanNumber m1)) []
              _ (fun _ => True) eq_refl (Nat.lt_0_succ _) eq_refl
              (fun _ _ _ => I)) as (set1 & -> & _ & _).
  destruct (execLoop1_spec numPattern text Some set1
              _ (fun _ => True) eq_refl (Nat.lt_0_succ _) eq_refl
              (fun _ _ _ => I)) as (set2 & -> & _ & _).
  destruct (subjectPattern_at (rev pre) sep ws ds rest Hsep Fw Fd Ld Hr)
    as [Ex Pin].
  destruct (execLoop1_finds subjectPattern subject Some set2 _ pre
              (sep :: ws ++ ds ++ rest) (string_of_list_ascii ds)
              eq_refl eq_refl (Nat.lt_0_succ _) eq_refl Es Ex)
    as (set3 & -> & Hin & _).
  - intros u rest0 y E Lu M. eapply subjectPattern_before; eauto.
  - intros y M. exists ds. split; [now apply Pin | reflexivity].
  - now exists set3.
Qed.

Lemma execLoop1_keeps re s f set set' a :
  execLoop1 re s f set = Some set' -> In a set -> In a set'.
Proof.
  unfold execLoop1. destruct (execAll re s) as [ms |]; [| discriminate].
  apply addCaptures_keeps.
Qed.

Lemma Matches_dots i greedy min max : forall run bef rest cs,
  Forall (fun c => isLineTerminator c = false) run ->
  (min <= length run)%nat -> withinMax (length run) max ->
  Matches i (Repeat greedy min max Dot)
    (mkState bef (run ++ rest) cs) (mkState (rev run ++ bef) rest cs).
Proof.
  intros run bef rest cs F Ln Lm. exists (length run).
  split; [exact Ln |]. split; [exact Lm |].
  clear Ln Lm. revert bef.
  induction F as [| c run Hc _ IH]; intros bef; cbn [iterate length app rev].
  - reflexivity.
  - exists (mkState (c :: bef) (run ++ rest) cs). split.
    + exists c, (run ++ rest). repeat split; auto. now rewrite Hc.
    + rewrite <- app_assoc. apply IH.
Qed.

Lemma Matches_lit i s : forall u bef rest cs,
  Forall2 (fun a c => litHas i a c = true) (chars s) u ->
  Matches i (Lit s) (mkState bef (u ++ rest) cs) (mkState (rev u ++ bef) rest cs).
Proof.
  cbn [Matches]. induction s as [| a s IH]; intros u bef rest cs F;
    inversion F as [| ? c ? u' Hc F']; subst; cbn [litSteps app rev].
  - reflexivity.
  - exists (mkState (c :: bef) (u' ++ rest) cs). split.
    + exists c, (u' ++ rest). repeat split; auto.
    + rewrite <- app_assoc. now apply IH.
Qed.

Lemma dropWhileL_run p a v :
  Forall (fun c => p c = true) a -> dropWhileL p (a ++ v) = dropWhileL p v.
Proof. induction 1 as [| c a Hc _ IH]; cbn; [reflexivity |]. now rewrite Hc. Qed.

Lemma trim_after_spaces a v :
  Forall (fun c => Js.isSpace c = true) a ->
  Js.trim (string_of_list_ascii (a ++ v)) = Js.trim (string_of_list_ascii v).
Proof.
  intros F. apply chars_inj. rewrite !chars_trim, !chars_of_list.
  now rewrite dropWhileL_run.
Qed.

(** The characters that match the small letters of a word under the [i]
    flag are those [toLowerCase] turns into the word. *)
Lemma lowered_word w : forall u,
  Forall (fun a => In a smallLetters) (chars w) ->
  Js.toLowerCase (string_of_list_ascii u) = w ->
  Forall2 (fun a c => litHas true a c = true) (chars w) u.
Proof.
  induction w as [| a w IH]; intros u F E; destruct u as [| c u];
    cbn in E; try discriminate; [constructor |].
  injection E as Ec E. inversion F as [| ? ? Ha F']; subst.
  constructor; [| now apply IH].
  rewrite (litHas_small _ _ Ha). apply Ascii.eqb_refl.
Qed.

Lemma draw_head c1 c2 c3 c4 :
  Js.toLowerCase (string_of_list_ascii [c1; c2; c3; c4]) = "draw" ->
  litHas true "p" c1 = false /\ litHas true "t" c1 = false
  /\ litHas true "e" c2 = false.
Proof.
  intros E. cbn [string_of_list_ascii Js.toLowerCase] in E.
  injection E as E1 E2 E3 E4.
  rewrite !litHas_small by (cbn; tauto).
  rewrite E1, E2. repeat split; reflexivity.
Qed.

Lemma class_dash c :
  classHas true [CChar "-"; CEnDash] c = true -> c = "-"%char.
Proof. each_char c. Qed.

Lemma class_dash_bar c :
  classHas true [CChar "-"; CEnDash; CChar "|"] c = true ->
  c = "-"%char \/ c = "|"%char.
Proof. each_char c; auto. Qed.

Lemma namePart_no_dash c :
  isNamePart c = true -> c <> "-"%char /\ c <> "|"%char /\ isLineTerminator c = false.
Proof.
  unfold isNamePart. intros H. apply negb_true_iff in H.
  apply orb_false_iff in H as [H H3]. apply orb_false_iff in H as [H H2].
  apply orb_false_iff in H as [H1 _].
  repeat split; try assumption; intros ->; discriminate.
Qed.

Lemma dealSubjectPattern_draw dr ws1 ds ws2 name :
  Js.toLowerCase (string_of_list_ascii dr) = "draw" ->
  Forall (fun c => Js.isSpace c = true) ws1 ->
  Forall (fun c => Js.isDigit c = true) ds ->
  Forall (fun c => Js.isSpace c = true) ws2 ->
  Forall (fun c => isNamePart c = true) name ->
  name <> [] ->
  let x := mkState [] (dr ++ ws1 ++ ds ++ ws2 ++ "-"%char :: name) noCaps in
  (exists y, Matches true (source dealSubjectPattern) x y)
  /\ (forall y, Matches true (source dealSubjectPattern) x y ->
        exists a v, caps y 1 = Some v /\ name = a ++ v
                    /\ Forall (fun c => Js.isSpace c = true) a).
Proof.
  intros Hd F1 Fd F2 Fn Ne x.
  assert (Fdr : Forall2 (fun a c => litHas true a c = true) (chars "draw") dr).
  { apply lowered_word; [| exact Hd]. apply small_word. reflexivity. }
  split.
  - exists (setCap 1 name
              (mkState (rev name ++ "-"%char :: rev ws2 ++ rev ds ++ rev ws1 ++ rev dr)
                 [] noCaps)).
    cbn [source dealSubjectPattern seqs].
    exists (mkState ("-"%char :: rev ws2 ++ rev ds ++ rev ws1 ++ rev dr) name noCaps).
    split.
    { cbn [alts]. left. cbn [Matches]. fold Matches.
      exists (mkState (rev dr ++ []) (ws1 ++ ds ++ ws2 ++ "-"%char :: name) noCaps).
      split; [apply (Matches_lit true "draw"); exact Fdr |].
      rewrite app_nil_r.
      exists (mkState (rev ws1 ++ rev dr) (ds ++ ws2 ++ "-"%char :: name) noCaps).
      split.
      { apply Matches_run; [| lia | exact I].
        eapply Forall_impl; [| exact F1]. intros c. apply space_has. }
      exists (mkState (rev ds ++ rev ws1 ++ rev dr) (ws2 ++ "-"%char :: name) noCaps).
      split.
      { apply Matches_run; [| lia | exact I].
        eapply Forall_impl; [| exact Fd]. intros c. apply digit_has. }
      exists (mkState (rev ws2 ++ rev ds ++ rev ws1 ++ rev dr) ("-"%char :: name) noCaps).
      split.
      { apply Matches_run; [| lia | exact I].
        eapply Forall_impl; [| exact F2]. intros c. apply space_has. }
      exists (mkState ("-"%char :: rev ws2 ++ rev ds ++ rev ws1 ++ rev dr) name noCaps).
      split; [exists "-"%char, name; repeat split; reflexivity |].
      exists (mkState ("-"%char :: rev ws2 ++ rev ds ++ rev ws1 ++ rev dr) name noCaps).
      split; [| reflexivity].
      apply (Matches_run true true 0 None [CSpace] []); [constructor | cbn; lia | exact I]. }
    exists (setCap 1 name
              (mkState (rev name ++ "-"%char :: rev ws2 ++ rev ds ++ rev ws1 ++ rev dr)
                 [] noCaps)).
    split.
    { exists (mkState (rev name ++ "-"%char :: rev ws2 ++ rev ds ++ rev ws1 ++ rev dr)
                [] noCaps).
      split.
      - rewrite <- (app_nil_r name) at 1. apply Matches_dots; [| | exact I].
        + eapply Forall_impl; [| exact Fn]. intros c Hc.
          now apply namePart_no_dash in Hc.
        + destruct name; [congruence | cbn; lia].
      - f_equal. unfold span. cbn [after length]. rewrite Nat.sub_0_r.
        symmetry. apply firstn_all. }
    exists (setCap 1 name
              (mkState (rev name ++ "-"%char :: rev ws2 ++ rev ds ++ rev ws1 ++ rev dr)
                 [] noCaps)).
    split; [| reflexivity]. cbn [alts Matches]. right. split; reflexivity.
  - intros y M. cbn [source dealSubjectPattern seqs] in M.
    destruct M as (z1 & Mp & z2 & Mg & z3 & Ms & ->).
    inversion Fdr as [| ? c1 ? dr1 H1 Fdr1]; subst.
    inversion Fdr1 as [| ? c2 ? dr2 H2 Fdr2]; subst.
    inversion Fdr2 as [| ? c3 ? dr3 H3 Fdr3]; subst.
    inversion Fdr3 as [| ? c4 ? dr4 H4 Fdr4]; subst.
    inversion Fdr4; subst.
    destruct (draw_head _ _ _ _ Hd) as (Np & Nt & Ne2).
    cbn [alts] in Mp.
    assert (Mp1 : Matches true
              (Seq (Lit "draw")
                 (Seq (star space)
                    (Seq (star digit)
                       (Seq (star space)
                          (Seq (Class [CChar "-"; CEnDash]) (Seq (star space) Empty))))))
              x z1).
    { destruct Mp as [M | [M | [M | M]]]; [exact M | exfalso ..].
      - destruct M as (z & L & _). cbn [Matches litSteps] in L.
        destruct L as (z' & (c & t & A & P & _) & _).
        cbn [x after app] in A. injection A as <- _. congruence.
      - destruct M as (z & L & _). cbn [Matches litSteps] in L.
        destruct L as (z' & (c & t & A & P & _) & _).
        cbn [x after app] in A. injection A as <- _. congruence.
      - destruct M as (z & L & _). cbn [Matches litSteps] in L.
        destruct L as (z' & (c & t & A & P & ->) & z'' & (c' & t' & A' & P' & _) & _).
        cbn [x after app] in A. injection A as <- <-.
        cbn [after] in A'. injection A' as <- _. congruence. }
    clear Mp. destruct Mp1 as (y1 & L & y2 & S1 & y3 & D & y4 & S2 & y5 & C & y6 & S3 & ->).
    cbn [Matches] in L. apply litSteps_extends in L as (u & [Eu _] & _ & Fu).
    fold (Matches true (star space) y1 y2) in S1.
    fold (Matches true (star digit) y2 y3) in D.
    fold (Matches true (star space) y3 y4) in S2.
    fold (Matches true (star space) y5 y6) in S3.
    apply Matches_repeat_class in S1 as ([E1 _] & _ & _ & G1).
    apply Matches_repeat_class in D as ([E2 _] & _ & _ & G2).
    apply Matches_repeat_class in S2 as ([E3 _] & _ & _ & G3).
    destruct C as (m & t & A & Pm & ->). apply class_dash in Pm. subst m.
    apply Matches_repeat_class in S3 as ([E4 _] & _ & _ & G4).
    cbn [after] in E4.
    destruct Mg as (z2' & Mg & ->).
    apply Matches_repeat_dot in Mg as ([E5 _] & L5 & G5).
    cbn [after before caps] in E4, G4.
    set (s1 := span y1 y2) in *. set (s2 := span y2 y3) in *.
    set (s3 := span y3 y4) in *. set (s4 := span _ y6) in *.
    set (v := span y6 z2') in *. clearbody s1 s2 s3 s4 v.
    assert (R : after y1 = ws1 ++ ds ++ ws2 ++ "-"%char :: name).
    { apply Forall2_length in Fu. cbn in Fu. cbn [x after app] in Eu.
      destruct u as [| a1 [| a2 [| a3 [| a4 [| a5 u]]]]]; try discriminate Fu.
      cbn [app] in Eu. inversion Eu. reflexivity. }
    rewrite E1, E2, E3, A, E4, E5 in R.
    assert (Sd : forall l, Forall (fun c => Js.isSpace c = true) l ->
                           Forall (fun c => isSpaceOrDigit c = true) l).
    { intros l F. eapply Forall_impl; [| exact F]. unfold isSpaceOrDigit.
      cbv beta. now intros c ->. }
    assert (Dd : forall l, Forall (fun c => Js.isDigit c = true) l ->
                           Forall (fun c => isSpaceOrDigit c = true) l).
    { intros l F. eapply Forall_impl; [| exact F]. unfold isSpaceOrDigit.
      cbv beta. intros c ->. apply orb_true_r. }
    assert (G1' : Forall (fun c => Js.isSpace c = true) s1).
    { eapply Forall_impl; [| exact G1]. intros c. apply space_class. }
    assert (G2' : Forall (fun c => Js.isDigit c = true) s2).
    { eapply Forall_impl; [| exact G2]. intros c. apply digit_class. }
    assert (G3' : Forall (fun c => Js.isSpace c = true) s3).
    { eapply Forall_impl; [| exact G3]. intros c. apply space_class. }
    assert (G4' : Forall (fun c => Js.isSpace c = true) s4).
    { eapply Forall_impl; [| exact G4]. intros c. apply space_class. }
    destruct (run_unique isSpaceOrDigit (s1 ++ s2 ++ s3) (ws1 ++ ds ++ ws2)
                ("-"%char :: s4 ++ v ++ after z2') ("-"%char :: name))
      as [_ En].
    { now rewrite <- !app_assoc. }
    { repeat (apply Forall_app; split); auto. }
    { repeat (apply Forall_app; split); auto. }
    { reflexivity. }
    { reflexivity. }
    injection En as En.
    cbn [alts Matches] in Ms. destruct Ms as [Ms | Ms].
    + exfalso. destruct Ms as (w1 & S5 & w2 & C5 & _).
      fold (Matches true (star space) (setCap 1 v z2') w1) in S5.
      apply Matches_repeat_class in S5 as ([E6 _] & _ & _ & G6).
      cbn [setCap after] in E6.
      destruct C5 as (m & t' & A' & Pm & _).
      apply class_dash_bar in Pm.
      assert (Hin : In m name).
      { rewrite <- En, E6, A'. apply in_or_app. right. apply in_or_app. right.
        apply in_or_app. right. now left. }
      rewrite Forall_forall in Fn. apply Fn in Hin.
      apply namePart_no_dash in Hin as (N1 & N2 & _). tauto.
    + destruct Ms as [Ae ->]. cbn [setCap after] in Ae.
      exists s4, v. cbn [setCap caps Nat.eqb].
      split; [reflexivity |]. split; [| exact G4'].
      now rewrite <- En, Ae, app_nil_r.
Qed.

Lemma draw_name_facts (subject body : string) (dr ws1 ds ws2 name : list ascii) :
  chars subject = dr ++ ws1 ++ ds ++ ws2 ++ "-"%char :: name ->
  Js.toLowerCase (string_of_list_ascii dr) = "draw" ->
  Forall (fun c => Js.isSpace c = true) ws1 ->
  Forall (fun c => Js.isDigit c = true) ds ->
  Forall (fun c => Js.isSpace c = true) ws2 ->
  Forall (fun c => isNamePart c = true) name ->
  (3 <= String.length (Js.trim (string_of_list_ascii name)) <= 80)%nat ->
  exists names,
    TextExtractor.extractDealNames subject body = Some names
    /\ In (Js.trim (string_of_list_ascii name)) names.
Proof.
  intros Es Hd F1 Fd F2 Fn Ln.
  assert (Ne : name <> []) by (intros ->; cbn in Ln; lia).
  destruct (dealSubjectPattern_draw dr ws1 ds ws2 name Hd F1 Fd F2 Fn Ne)
    as [Ex Pin].
  unfold extractDealNames.
  destruct (execLoop1_finds dealSubjectPattern subject subjectName [] _ []
              (dr ++ ws1 ++ ds ++ ws2 ++ "-"%char :: name)
              (Js.trim (string_of_list_ascii name))
              eq_refl eq_refl (Nat.lt_0_succ _) eq_refl Es Ex)
    as (set1 & -> & Hin & _).
  - intros u rest y _ Lu. cbn in Lu. lia.
  - intros y M. destruct (Pin y M) as (a & v & C & En & Fa).
    exists v. split; [exact C |]. unfold subjectName.
    rewrite <- (trim_after_spaces a v Fa), <- En.
    destruct Ln as [L1 L2]. apply Nat.leb_le in L1, L2. now rewrite L1, L2.
  - destruct (execLoop1_spec refPattern (subject ++ String Js.LF body)%string
                referenceName set1 _ (fun _ => True)
                eq_refl (Nat.lt_0_succ _) eq_refl (fun _ _ _ => I))
      as (set2 & E2 & _ & _).
    rewrite E2. exists set2. split; [reflexivity |].
    eapply execLoop1_keeps; eauto.
Qed.

Lemma lowered_B c : Js.lowerChar c = "b"%char -> litHas true "B" c = true.
Proof. each_char c. Qed.

Lemma lowered_F c : Js.lowerChar c = "f"%char -> litHas true "F" c = true.
Proof. each_char c. Qed.

Lemma lowered_B_word c : Js.lowerChar c = "b"%char -> Js.isWord c = true.
Proof. each_char c. Qed.

Lemma isSeparator_class l :
  isSeparator l = true ->
  Forall (fun c => classHas true [CChar "-"; CSpace] c = true) l
  /\ (length l <= 1)%nat.
Proof.
  destruct l as [| c [| d l]]; cbn [isSeparator]; try discriminate.
  - intros _. split; [constructor | cbn; lia].
  - intros H. split; [| cbn; lia]. constructor; [| constructor].
    cbn. apply orb_true_iff in H as [H | H].
    + apply Ascii.eqb_eq in H. subst. reflexivity.
    + rewrite H. now rewrite !orb_true_r.
Qed.

Lemma canonical_of_parts b f s1 s2 x1 x2 x3 x4 x5 x6 x7 x8 :
  Js.lowerChar b = "b"%char -> Js.lowerChar f = "f"%char ->
  Forall (fun c => Ascii.eqb c "-" || Js.isSpace c = true) s1 ->
  Forall (fun c => Ascii.eqb c "-" || Js.isSpace c = true) s2 ->
  Forall (fun c => Js.isDigit c = true) [x1; x2; x3; x4; x5; x6; x7; x8] ->
  canonicalLoanNumber
    (string_of_list_ascii ([b; f] ++ s1 ++ [x1; x2; x3; x4] ++ s2 ++ [x5; x6; x7; x8]))
  = string_of_list_ascii
      (chars "BF-" ++ [x1; x2; x3; x4] ++ "-"%char :: [x5; x6; x7; x8]).
Proof.
  intros Hb Hf S1 S2 D. unfold canonicalLoanNumber.
  rewrite removeDashesAndSpaces_filter, !filter_app.
  rewrite (filter_none _ s1), (filter_none _ s2).
  2,3: eapply Forall_impl; [| eassumption]; cbn; intros c Hc; now rewrite Hc.
  assert (K1 : Ascii.eqb b "-" || Js.isSpace b = false)
    by (destruct (letter_B _ (lowered_B _ Hb)) as [-> | ->]; reflexivity).
  assert (K2 : Ascii.eqb f "-" || Js.isSpace f = false)
    by (destruct (letter_F _ (lowered_F _ Hf)) as [-> | ->]; reflexivity).
  repeat match goal with
         | H : Forall _ (_ :: _) |- _ => inversion H; subst; clear H
         end.
  cbn [filter app].
  rewrite K1, K2, !digit_kept by assumption. cbn [negb app].
  reflexivity.
Qed.

Lemma span_prefix u r b1 b2 c1 c2 :
  span (mkState b1 (u ++ r) c1) (mkState b2 r c2) = u.
Proof.
  unfold span. cbn [after]. rewrite length_app.
  replace (length u + length r - length r)%nat with (length u + 0)%nat by lia.
  now rewrite firstn_app_2, app_nil_r.
Qed.

Lemma span_of_app x y v : after x = v ++ after y -> span x y = v.
Proof.
  intros E. unfold span. rewrite E, length_app.
  replace (length v + length (after y) - length (after y))%nat
    with (length v + 0)%nat by lia.
  now rewrite firstn_app_2, app_nil_r.
Qed.

Lemma app_eq_length {A} : forall (a a' b b' : list A),
  a ++ b = a' ++ b' -> length a = length a' -> a = a' /\ b = b'.
Proof.
  induction a as [| x a IH]; intros [| x' a'] b b' E L; cbn in *; try lia.
  - now split.
  - injection E as -> E. destruct (IH a' b b' E) as [-> ->]; [lia | now split].
Qed.

Lemma separator_kept l :
  isSeparator l = true ->
  Forall (fun c => Ascii.eqb c "-" || Js.isSpace c = true) l.
Proof.
  destruct l as [| c [| d l]]; cbn [isSeparator]; try discriminate.
  - constructor.
  - intros H. constructor; [exact H | constructor].
Qed.

Lemma bfPattern_at bef b f s1 d1 s2 d2 rest :
  Js.lowerChar b = "b"%char -> Js.lowerChar f = "f"%char ->
  match bef with [] => True | c :: _ => Js.isWord c = false end ->
  isSeparator s1 = true -> isSeparator s2 = true ->
  Forall (fun c => Js.isDigit c = true) d1 -> length d1 = 4%nat ->
  Forall (fun c => Js.isDigit c = true) d2 -> length d2 = 4%nat ->
  startsNoWord rest ->
  let x := mkState bef ([b; f] ++ s1 ++ d1 ++ s2 ++ d2 ++ rest) noCaps in
  (exists y, Matches true (source bfPattern) x y)
  /\ (forall y, Matches true (source bfPattern) x y ->
        caps y 1 = Some ([b; f] ++ s1 ++ d1 ++ s2 ++ d2)).
Proof.
  intros Hb Hf Hbef S1 S2 D1 L1 D2 L2 Hr x.
  destruct (isSeparator_class _ S1) as [C1 N1].
  destruct (isSeparator_class _ S2) as [C2 N2].
  split.
  - exists (setCap 1 ([b; f] ++ s1 ++ d1 ++ s2 ++ d2)
              (mkState (rev d2 ++ rev s2 ++ rev d1 ++ rev s1 ++ [f; b] ++ bef)
                 rest noCaps)).
    cbn [source bfPattern seqs]. cbn [Matches]. fold Matches.
    exists x. split.
    { split; [| reflexivity]. unfold atWordBoundary. cbn [x before after app hd_error].
      cbn [isWordAt]. rewrite (lowered_B_word _ Hb).
      destruct bef as [| c bef]; [reflexivity |]. cbn. now rewrite Hbef. }
    eexists. split.
    { eexists. split; [| reflexivity].
      exists (mkState ([f; b] ++ bef) (s1 ++ d1 ++ s2 ++ d2 ++ rest) noCaps).
      split.
      { apply (Matches_lit true "BF" [b; f]).
        repeat constructor; [now apply lowered_B | now apply lowered_F]. }
      exists (mkState (rev s1 ++ [f; b] ++ bef) (d1 ++ s2 ++ d2 ++ rest) noCaps).
      split; [apply Matches_run; [exact C1 | lia | exact N1] |].
      exists (mkState (rev d1 ++ rev s1 ++ [f; b] ++ bef) (s2 ++ d2 ++ rest) noCaps).
      split.
      { apply Matches_run; [| lia | cbn; lia].
        eapply Forall_impl; [| exact D1]. intros c. apply digit_has. }
      exists (mkState (rev s2 ++ rev d1 ++ rev s1 ++ [f; b] ++ bef) (d2 ++ rest) noCaps).
      split; [apply Matches_run; [exact C2 | lia | exact N2] |].
      exists (mkState (rev d2 ++ rev s2 ++ rev d1 ++ rev s1 ++ [f; b] ++ bef) rest noCaps).
      split; [| reflexivity].
      apply Matches_run; [| lia | cbn; lia].
      eapply Forall_impl; [| exact D2]. intros c. apply digit_has. }
    assert (Sp : span x (mkState (rev d2 ++ rev s2 ++ rev d1 ++ rev s1 ++ [f; b] ++ bef)
                            rest noCaps)
                 = [b; f] ++ s1 ++ d1 ++ s2 ++ d2).
    { unfold x. replace ([b; f] ++ s1 ++ d1 ++ s2 ++ d2 ++ rest)
        with (([b; f] ++ s1 ++ d1 ++ s2 ++ d2) ++ rest)
        by (now rewrite <- !app_assoc).
      apply span_prefix. }
    rewrite Sp. eexists. split; [| reflexivity]. split; [| reflexivity].
    unfold setCap. cbn [before after].
    rewrite last_digit_boundary; [| intros ->; discriminate L2 | exact D2].
    unfold startsNoWord in Hr. destruct rest as [| c rest]; [reflexivity |].
    cbn. now rewrite Hr.
  - intros y M. cbn [source bfPattern seqs] in M.
    destruct M as (z0 & [_ ->] & z1 & Mg & z2 & [_ ->] & ->).
    destruct Mg as (z & Mg & ->). cbn [setCap caps Nat.eqb]. f_equal.
    destruct Mg as (y1 & L & y2 & O1 & y3 & G1 & y4 & O2 & y5 & G2 & ->).
    cbn [Matches] in L. apply litSteps_extends in L as (u & [Eu _] & _ & Fu).
    apply Matches_repeat_class in O1 as ([E1 _] & _ & M1 & F1).
    apply Matches_repeat_class in G1 as ([E2 _] & M2a & M2b & F2).
    apply Matches_repeat_class in O2 as ([E3 _] & _ & M3 & F3).
    apply Matches_repeat_class in G2 as (E4 & M4a & M4b & F4).
    set (a1 := span y1 y2) in *. set (a2 := span y2 y3) in *.
    set (a3 := span y3 y4) in *. set (a4 := span y4 y5) in *.
    destruct E4 as [E4 _]. clearbody a1 a2 a3 a4.
    assert (Dg : forall l, Forall (fun c => classHas true [CDigit] c = true) l ->
                           Forall (fun c => Js.isDigit c = true) l).
    { intros l F. eapply Forall_impl; [| exact F]. intros c. apply digit_class. }
    assert (Sp : forall l,
               Forall (fun c => classHas true [CChar "-"; CSpace] c = true) l ->
               Forall (fun c => Ascii.eqb c "-" || Js.isSpace c = true) l).
    { intros l F. eapply Forall_impl; [| exact F]. intros c. apply dashOrSpace_class. }
    apply Dg in F2, F4. apply Sp in F1, F3.
    pose proof (separator_kept _ S1) as K1. pose proof (separator_kept _ S2) as K2.
    cbn in M2b, M4b.
    assert (Hd : forall l r, Forall (fun c => Js.isDigit c = true) l ->
                             (4 <= length l)%nat ->
                             match l ++ r with
                             | [] => True
                             | c :: _ => Ascii.eqb c "-" || Js.isSpace c = false
                             end).
    { intros l r F L. destruct l as [| c l]; [cbn in L; lia |].
      inversion F; subst. cbn. now apply digit_kept. }
    apply Forall2_length in Fu as Lu. cbn in Lu. cbn [x after] in Eu.
    rewrite E1, E2, E3, E4 in Eu.
    destruct (app_eq_length [b; f] u _ _ Eu) as [<- Eu1]; [now rewrite <- Lu |].
    destruct (run_unique (fun c => Ascii.eqb c "-" || Js.isSpace c) s1 a1 _ _ Eu1 K1 F1)
      as [<- Eu2]; [apply Hd; auto; lia | apply Hd; auto |].
    destruct (app_eq_length d1 a2 _ _ Eu2) as [<- Eu3]; [lia |].
    destruct (run_unique (fun c => Ascii.eqb c "-" || Js.isSpace c) s2 a3 _ _ Eu3 K2 F3)
      as [<- Eu4]; [apply Hd; auto; lia | apply Hd; auto |].
    destruct (app_eq_length d2 a4 _ _ Eu4) as [<- Eu5]; [lia |].
    apply span_of_app. cbn [x after]. rewrite <- Eu5.
    now rewrite <- !app_assoc.
Qed.

Lemma lowered_B_other c :
  Js.lowerChar c = "b"%char ->
  litHas true "F" c = false
  /\ Ascii.eqb c "-" || Js.isSpace c = false
  /\ Js.isDigit c = false.
Proof. each_char c; repeat split. Qed.

Lemma bfPattern_before pre b t u rest y :
  Js.lowerChar b = "b"%char ->
  pre ++ b :: t = u ++ rest ->
  (length u < length pre)%nat ->
  Matches true (source bfPattern) (mkState (rev u) rest noCaps) y ->
  (length (b :: t) <= length (after y))%nat.
Proof.
  intros Hb E Lu M. cbn [source bfPattern seqs] in M.
  destruct M as (z0 & [_ ->] & z1 & Mg & z2 & [_ ->] & ->).
  destruct Mg as (z & Mg & ->). cbn [setCap after].
  destruct Mg as (y1 & L & y2 & O1 & y3 & G1 & y4 & O2 & y5 & G2 & ->).
  cbn [Matches] in L. apply litSteps_extends in L as (v & [Ev _] & _ & Fv).
  apply Matches_repeat_class in O1 as ([E1 _] & _ & _ & F1).
  apply Matches_repeat_class in G1 as ([E2 _] & _ & _ & F2).
  apply Matches_repeat_class in O2 as ([E3 _] & _ & _ & F3).
  apply Matches_repeat_class in G2 as ([E4 _] & _ & _ & F4).
  set (a1 := span y1 y2) in *. set (a2 := span y2 y3) in *.
  set (a3 := span y3 y4) in *. set (a4 := span y4 y5) in *.
  clearbody a1 a2 a3 a4. cbn [after] in Ev.
  inversion Fv as [| ? c1 ? v1 H1 Fv1]; subst.
  inversion Fv1 as [| ? c2 ? v2 H2 Fv2]; subst. inversion Fv2; subst.
  destruct (lowered_B_other _ Hb) as (NF & NS & ND).
  apply (no_overlap (fun c => litHas true "F" c = true
                              \/ Ascii.eqb c "-" || Js.isSpace c = true
                              \/ Js.isDigit c = true)
           pre b t u _ c1 (c2 :: a1 ++ a2 ++ a3 ++ a4) (after y5) E Lu).
  - rewrite E1, E2, E3, E4. cbn. now rewrite <- !app_assoc.
  - constructor; [now left |]. repeat (apply Forall_app; split).
    + eapply Forall_impl; [| exact F1]. cbv beta. intros a Ha. right. left.
      now apply dashOrSpace_class.
    + eapply Forall_impl; [| exact F2]. cbv beta. intros a Ha. right. right.
      exact (digit_class true a Ha).
    + eapply Forall_impl; [| exact F3]. cbv beta. intros a Ha. right. left.
      now apply dashOrSpace_class.
    + eapply Forall_impl; [| exact F4]. cbv beta. intros a Ha. right. right.
      exact (digit_class true a Ha).
  - intros [H | [H | H]]; congruence.
Qed.

Lemma bf_number_facts (subject body : string)
    (pre s1 d1 s2 d2 rest : list ascii) (b f : ascii) :
  chars subject ++ Js.LF :: chars body
  = pre ++ [b; f] ++ s1 ++ d1 ++ s2 ++ d2 ++ rest ->
  Js.lowerChar b = "b"%char -> Js.lowerChar f = "f"%char ->
  endsNoWord pre -> startsNoWord rest ->
  isSeparator s1 = true -> isSeparator s2 = true ->
  Forall (fun c => Js.isDigit c = true) d1 -> length d1 = 4%nat ->
  Forall (fun c => Js.isDigit c = true) d2 -> length d2 = 4%nat ->
  exists numbers,
    TextExtractor.extractLoanNumbers subject body = Some numbers
    /\ In (string_of_list_ascii (chars "BF-" ++ d1 ++ "-"%char :: d2)) numbers.
Proof.
  intros Et Hb Hf Hp Hr S1 S2 D1 L1 D2 L2. unfold extractLoanNumbers.
  set (text := (subject ++ String Js.LF body)%string).
  assert (Es : chars text = pre ++ [b; f] ++ s1 ++ d1 ++ s2 ++ d2 ++ rest).
  { unfold text. rewrite chars_append. exact Et. }
  destruct (bfPattern_at (rev pre) b f s1 d1 s2 d2 rest Hb Hf Hp S1 S2 D1 L1 D2 L2 Hr)
    as [Ex Pin].
  destruct (execLoop1_finds bfPattern text
              (fun m1 => Some (canonicalLoanNumber m1)) [] _ pre
              ([b; f] ++ s1 ++ d1 ++ s2 ++ d2 ++ rest)
              (string_of_list_ascii (chars "BF-" ++ d1 ++ "-"%char :: d2))
              eq_refl eq_refl (Nat.lt_0_succ _) eq_refl Es Ex)
    as (set1 & -> & Hin & _).
  - intros u rest0 y E Lu M. eapply bfPattern_before; eauto.
  - intros y M. eexists. split; [now apply Pin |]. f_equal.
    destruct d1 as [| x1 [| x2 [| x3 [| x4 [| x5 d1]]]]]; try discriminate L1.
    destruct d2 as [| x5 [| x6 [| x7 [| x8 [| x9 d2]]]]]; try discriminate L2.
    apply canonical_of_parts; auto using separator_kept.
    change [x1; x2; x3; x4; x5; x6; x7; x8]
      with ([x1; x2; x3; x4] ++ [x5; x6; x7; x8]).
    apply Forall_app. split; assumption.
  - destruct (execLoop1_spec numPattern text Some set1
                _ (fun _ => True) eq_refl (Nat.lt_0_succ _) eq_refl
                (fun _ _ _ => I)) as (set2 & E2 & _ & _).
    rewrite E2.
    destruct (execLoop1_spec subjectPattern subject Some set2
                _ (fun _ => True) eq_refl (Nat.lt_0_succ _) eq_refl
                (fun _ _ _ => I)) as (set3 & E3 & _ & _).
    rewrite E3. exists set3. split; [reflexivity |].
    eapply execLoop1_keeps; [exact E3 |]. eapply execLoop1_keeps; eauto.
Qed.

(** *** What the orchestrator searches with *)

Section ParsedSearches.
Context {W : Type} {net : Net W}.

Lemma clientEvent_no_loan_search apiKey f v (P : string -> Prop) e :
  clientEvent apiKey (ReqSearchField f v) e -> loanSearchOf P e.
Proof. intros [-> | (ms & ->)]; exact I. Qed.

Lemma emits_loanNumberChannel_of apiKey (P : string -> Prop) lns :
  Forall P lns -> emits (loanSearchOf P) (loanNumberChannel apiKey lns).
Proof.
  induction 1 as [| ln lns Hp _ IH]; cbn [loanNumberChannel]; [apply emits_ret |].
  apply emits_bind.
  - eapply emits_weaken; [| apply emits_searchDealsByLoanNumber].
    intros e [-> | (ms & ->)]; [exact Hp | exact I].
  - intros deals.
    destruct (filter isTargetStage deals); [exact IH | apply emits_ret].
Qed.

Lemma emits_dealNameChannel_of apiKey (P : string -> Prop) names :
  forall candidates,
    emits (loanSearchOf P) (dealNameChannel apiKey names candidates).
Proof.
  induction names as [| name names IH]; intros candidates;
    cbn [dealNameChannel]; [apply emits_ret |].
  destruct (String.length (cleanSearchValue name) <? 3)%nat; [apply IH |].
  apply emits_bind; [apply emits_emit; exact I | intros _].
  apply emits_bind.
  { eapply emits_weaken; [| apply emits_searchDealsByField].
    intros e. apply clientEvent_no_loan_search. }
  intros deals. apply emits_bind; [| intros; apply IH].
  destruct deals; [| apply emits_ret].
  eapply emits_weaken; [| apply emits_searchDealsByField].
  intros e. apply clientEvent_no_loan_search.
Qed.

Lemma emits_addressChannel_of apiKey (P : string -> Prop) addrs :
  forall candidates,
    emits (loanSearchOf P) (addressChannel apiKey addrs candidates).
Proof.
  induction addrs as [| addr addrs IH]; intros candidates;
    cbn [addressChannel]; [apply emits_ret |].
  destruct (String.length (cleanSearchValue addr) <? 5)%nat; [apply IH |].
  cbv zeta.
  apply emits_bind; [apply emits_emit; exact I | intros _].
  apply emits_bind.
  { eapply emits_weaken; [| apply emits_searchDealsByField].
    intros e. apply clientEvent_no_loan_search. }
  intros deals. apply emits_bind; [| intros; apply IH].
  destruct deals; [| apply emits_ret].
  eapply emits_weaken; [| apply emits_searchDealsByField].
  intros e. apply clientEvent_no_loan_search.
Qed.

Lemma emits_findMatch_of apiKey (P : string -> Prop) parsed :
  Forall P (loanNumbers parsed) ->
  emits (loanSearchOf P) (findMatch apiKey parsed).
Proof.
  intros F. unfold findMatch. apply emits_bind.
  - now apply emits_loanNumberChannel_of.
  - intros [m |]; [apply emits_ret |].
    apply emits_bind; [apply emits_dealNameChannel_of | intros c1].
    apply emits_bind; [apply emits_addressChannel_of | intros c2].
    apply emits_ret.
Qed.

(** X27. From the extractor to the orchestrator: for an email parsed by
    [parseEmail], every search by loan number that [findMatch] sends asks
    for a canonical [BF-dddd-dddd] number or a number of five to ten
    digits. *)
Theorem parsed_loan_searches (apiKey subject body : string) (parsed : Parsed)
    (w : W) :
  TextExtractor.parseEmail subject body = Some parsed ->
  Forall (loanSearchOf (fun n => isLoanNumber n = true))
    (traceOf (findMatch apiKey parsed w)).
Proof.
  intros E. destruct (parseEmail_facts subject body)
    as (p & E' & _ & (_ & F) & _).
  rewrite E in E'. injection E' as <-.
  pose proof (emits_findMatch_of apiKey _ parsed F) as Em.
  destruct (findMatch apiKey parsed w) as [[r w'] tr] eqn:R.
  exact (Em _ _ _ _ R).
Qed.

End ParsedSearches.

Lemma parsed_loan_searches_witness :
  TextExtractor.parseEmail "Loan 1234567" ""
  = Some (mkParsed ["1234567"] [] [])
  /\ Forall (loanSearchOf (fun n => isLoanNumber n = true))
       (traceOf (findMatch "key" (mkParsed ["1234567"] [] []) demoStore)).
Proof.
  split; [vm_compute; reflexivity |].
  apply (parsed_loan_searches "key" "Loan 1234567" "").
  vm_compute. reflexivity.
Defined.

(** *** The extractor on the examples of its comments *)

Example extract_loan_number_with_keyword :
  TextExtractor.extractLoanNumbers "" "Loan number 399536679 re the rehab draw"
  = Some ["399536679"].
Proof. vm_compute. reflexivity. Qed.

Example extract_servicer_number_in_subject :
  TextExtractor.extractLoanNumbers "RECORDED DOCUMENTS - 399558497" ""
  = Some ["399558497"].
Proof. vm_compute. reflexivity. Qed.

Example extract_bf_number :
  TextExtractor.extractLoanNumbers "Raikin/5260113979" "see bf 2024 0012"
  = Some ["BF-2024-0012"; "5260113979"].
Proof. vm_compute. reflexivity. Qed.

Example extract_draw_name :
  TextExtractor.extractDealNames "Draw 6 - 168 Las Palmas" ""
  = Some ["168 Las Palmas"].
Proof. vm_compute. reflexivity. Qed.

Example extract_title_work :
  TextExtractor.parseEmail "  Title Work | 708 Pallister, Detroit, MI "
    ("the property at 708 Pallister has a lien."
     ++ String Js.CR (String Js.LF "Unsubscribe at 1 Copyright Way"))%string
  = Some (mkParsed []
            ["708 Pallister, Detroit, MI"]
            ["708 Pallister, Detroit, MI"; "708 Pallister"]).
Proof. vm_compute. reflexivity. Qed.

Example time_of_day_is_no_address :
  TextExtractor.extractAddresses "" "10 am Monday Rd" = Some [].
Proof. vm_compute. reflexivity. Qed.

(** *** The properties of the extractor *)

(** X21. [extractLoanNumbers] always returns: its three [exec] loops end.
    What it returns has no duplicates, and every entry is either a
    canonical [BF-dddd-dddd] number, whatever separators and letter case
    the text had, or a bare number of five to ten digits. *)
Theorem extractLoanNumbers_shape (subject body : string) :
  exists numbers,
    TextExtractor.extractLoanNumbers subject body = Some numbers
    /\ NoDup numbers
    /\ Forall (fun n => isLoanNumber n = true) numbers.
Proof. apply extractLoanNumbers_facts. Qed.

(** X22. An address [cleanAddress] lets through has at least six
    characters, all of one line, neither starts nor ends with white space,
    does not end with a dot, matches no pattern of the blacklist, and is
    left as it is when cleaned again. *)
Theorem cleanAddress_result (raw addr : string) :
  TextExtractor.cleanAddress raw = Some addr ->
  (6 <= String.length addr)%nat
  /\ trimmedL (chars addr)
  /\ oneLine (chars addr)
  /\ noTrailingDot (chars addr)
  /\ Forall (fun p => RegExp.test p addr = false) TextExtractor.ADDRESS_BLACKLIST
  /\ TextExtractor.cleanAddress addr = Some addr.
Proof. apply cleanAddress_facts. Qed.

Lemma cleanAddress_result_witness :
  TextExtractor.cleanAddress "  45 Oak Tree Ln. . " = Some "45 Oak Tree Ln"
  /\ (6 <= String.length "45 Oak Tree Ln")%nat
  /\ trimmedL (chars "45 Oak Tree Ln")
  /\ oneLine (chars "45 Oak Tree Ln")
  /\ noTrailingDot (chars "45 Oak Tree Ln")
  /\ Forall (fun p => RegExp.test p "45 Oak Tree Ln" = false)
       TextExtractor.ADDRESS_BLACKLIST
  /\ TextExtractor.cleanAddress "45 Oak Tree Ln" = Some "45 Oak Tree Ln".
Proof.
  split; [vm_compute; reflexivity |].
  apply (cleanAddress_result "  45 Oak Tree Ln. . " "45 Oak Tree Ln").
  vm_compute. reflexivity.
Defined.

(** X23. [extractAddresses] always returns: its loops end. What it
    returns has no duplicates, and every entry is an address that
    [cleanAddress] let through and leaves as it is. *)
Theorem extractAddresses_shape (subject body : string) :
  exists found,
    TextExtractor.extractAddresses subject body = Some found
    /\ NoDup found
    /\ Forall isCleanAddress found.
Proof. apply extractAddresses_facts. Qed.

(** X24. [extractDealNames] always returns: its two [exec] loops end.
    What it returns has no duplicates, and every entry is a trimmed piece
    of one line, 3 to 80 characters long. *)
Theorem extractDealNames_shape (subject body : string) :
  exists names,
    TextExtractor.extractDealNames subject body = Some names
    /\ NoDup names
    /\ Forall isNameFragment names.
Proof. apply extractDealNames_facts. Qed.

(** X25. [parseEmail] always returns, and what it returns depends on the
    subject only up to the white space around it and on the body only up
    to the style of its line ends: a subject already trimmed and a body
    whose CR LF and CR are already line feeds parse to the same. *)
Theorem parseEmail_returns (subject body : string) :
  exists parsed,
    TextExtractor.parseEmail subject body = Some parsed
    /\ TextExtractor.parseEmail (Js.trim subject)
         (TextExtractor.replaceCR (TextExtractor.replaceCRLF body))
       = Some parsed.
Proof.
  destruct (parseEmail_facts subject body) as (parsed & E & E' & _).
  now exists parsed.
Qed.

(** X26. No address with one of the words bankruptcy, unsubscribe or
    copyright in it, in whatever letter case, gets through
    [cleanAddress]. *)
Theorem cleanAddress_boilerplate (raw addr : string) :
  TextExtractor.cleanAddress raw = Some addr ->
  Js.includes (Js.toLowerCase addr) "bankruptcy" = false
  /\ Js.includes (Js.toLowerCase addr) "unsubscribe" = false
  /\ Js.includes (Js.toLowerCase addr) "copyright" = false.
Proof.
  intros H. apply cleanAddress_facts in H as (_ & _ & _ & _ & B & _).
  apply boilerplate_words. rewrite Forall_forall in B. apply B.
  right. left. reflexivity.
Qed.

Lemma cleanAddress_boilerplate_witness :
  TextExtractor.cleanAddress "12 Main Street, Apt 4" = Some "12 Main Street, Apt 4"
  /\ Js.includes (Js.toLowerCase "12 Main Street, Apt 4") "bankruptcy" = false
  /\ Js.includes (Js.toLowerCase "12 Main Street, Apt 4") "unsubscribe" = false
  /\ Js.includes (Js.toLowerCase "12 Main Street, Apt 4") "copyright" = false.
Proof.
  split; [vm_compute; reflexivity |].
  apply (cleanAddress_boilerplate "12 Main Street, Apt 4").
  vm_compute. reflexivity.
Defined.

(** X28. A separator and a number in the subject: when a hyphen, a bar or
    a slash of the subject is followed, after white space or none, by a
    run of seven to ten digits, and no letter, digit or underscore comes
    next, [extractLoanNumbers] returns that number among the others. *)
Theorem servicer_number_found (subject body : string)
    (pre ws ds rest : list ascii) (sep : ascii) :
  chars subject = pre ++ sep :: ws ++ ds ++ rest ->
  In sep (chars "-|/") ->
  Forall (fun c => Js.isSpace c = true) ws ->
  Forall (fun c => Js.isDigit c = true) ds ->
  (7 <= length ds <= 10)%nat ->
  startsNoWord rest ->
  exists numbers,
    TextExtractor.extractLoanNumbers subject body = Some numbers
    /\ In (string_of_list_ascii ds) numbers.
Proof. apply servicer_number_facts. Qed.

Lemma servicer_number_found_witness :
  chars "RECORDED DOCUMENTS - 399558497"
  = chars "RECORDED DOCUMENTS " ++ "-"%char :: chars " " ++ chars "399558497" ++ []
  /\ exists numbers,
       TextExtractor.extractLoanNumbers "RECORDED DOCUMENTS - 399558497" ""
       = Some numbers
       /\ In "399558497" numbers.
Proof.
  split; [reflexivity |].
  apply (servicer_number_found "RECORDED DOCUMENTS - 399558497" ""
           (chars "RECORDED DOCUMENTS ") (chars " ") (chars "399558497") []
           "-"%char);
    [reflexivity | cbn; tauto | repeat constructor | repeat constructor
    | cbn; lia | exact I].
Defined.

(** X29. A BF number anywhere in the subject or the body: when the
    letters B and F, in either case, are followed by four digits and four
    more digits, each group preceded by nothing or by one hyphen or
    white-space character, and no letter, digit or underscore stands
    directly before or after, [extractLoanNumbers] returns the number in
    its canonical form [BF-dddd-dddd]. *)
Theorem bf_number_found (subject body : string)
    (pre s1 d1 s2 d2 rest : list ascii) (b f : ascii) :
  chars subject ++ Js.LF :: chars body
  = pre ++ [b; f] ++ s1 ++ d1 ++ s2 ++ d2 ++ rest ->
  Js.lowerChar b = "b"%char -> Js.lowerChar f = "f"%char ->
  endsNoWord pre -> startsNoWord rest ->
  isSeparator s1 = true -> isSeparator s2 = true ->
  Forall (fun c => Js.isDigit c = true) d1 -> length d1 = 4%nat ->
  Forall (fun c => Js.isDigit c = true) d2 -> length d2 = 4%nat ->
  exists numbers,
    TextExtractor.extractLoanNumbers subject body = Some numbers
    /\ In (string_of_list_ascii (chars "BF-" ++ d1 ++ "-"%char :: d2)) numbers.
Proof. apply bf_number_facts. Qed.

Lemma bf_number_found_witness :
  chars "Re: bf 2024-0012" ++ Js.LF :: chars "see attached"
  = chars "Re: " ++ ["b"%char; "f"%char] ++ chars " " ++ chars "2024"
    ++ chars "-" ++ chars "0012" ++ Js.LF :: chars "see attached"
  /\ exists numbers,
       TextExtractor.extractLoanNumbers "Re: bf 2024-0012" "see attached"
       = Some numbers
       /\ In "BF-2024-0012" numbers.
Proof.
  split; [reflexivity |].
  apply (bf_number_found "Re: bf 2024-0012" "see attached"
           (chars "Re: ") (chars " ") (chars "2024") (chars "-") (chars "0012")
           (Js.LF :: chars "see attached") "b"%char "f"%char);
    try reflexivity; repeat constructor.
Defined.

(** X30. A draw in the subject: when the subject is the word draw, in
    whatever letter case, then white space, digits and white space (any
    of them may be missing), a hyphen, and a text without hyphen, EN DASH,
    bar or line break which trimmed has 3 to 80 characters,
    [extractDealNames] returns that text, trimmed, among the names. (At a
    hyphen, an EN DASH or a bar the pattern ends the name.) *)
Theorem draw_name_found (subject body : string)
    (dr ws1 ds ws2 name : list ascii) :
  chars subject = dr ++ ws1 ++ ds ++ ws2 ++ "-"%char :: name ->
  Js.toLowerCase (string_of_list_ascii dr) = "draw" ->
  Forall (fun c => Js.isSpace c = true) ws1 ->
  Forall (fun c => Js.isDigit c = true) ds ->
  Forall (fun c => Js.isSpace c = true) ws2 ->
  Forall (fun c => isNamePart c = true) name ->
  (3 <= String.length (Js.trim (string_of_list_ascii name)) <= 80)%nat ->
  exists names,
    TextExtractor.extractDealNames subject body = Some names
    /\ In (Js.trim (string_of_list_ascii name)) names.
Proof. apply draw_name_facts. Qed.

Lemma draw_name_found_witness :
  chars "Draw 6 - 168 Las Palmas"
  = chars "Draw" ++ chars " " ++ chars "6" ++ chars " "
    ++ "-"%char :: chars " 168 Las Palmas"
  /\ exists names,
       TextExtractor.extractDealNames "Draw 6 - 168 Las Palmas" "" = Some names
       /\ In "168 Las Palmas" names.
Proof.
  split; [reflexivity |].
  apply (draw_name_found "Draw 6 - 168 Las Palmas" ""
           (chars "Draw") (chars " ") (chars "6") (chars " ")
           (chars " 168 Las Palmas"));
    [reflexivity | reflexivity | repeat constructor | repeat constructor
    | repeat constructor | repeat constructor | vm_compute; lia].
Defined.

(** A second hyphen ends the name. *)
Example draw_name_ends_at_hyphen :
  TextExtractor.extractDealNames "Draw 6 - 12 Oak - Unit 4" "" = Some ["12 Oak"].
Proof. vm_compute. reflexivity. Qed.

(* ------------------------------------------------------------------ *)
(** ** The confidence scorer against the specification *)
(* ------------------------------------------------------------------ *)

Lemma dropWhileL_head p l :
  match l with [] => True | c :: _ => p c = false end -> dropWhileL p l = l.
Proof. destruct l as [| c l]; cbn; [reflexivity |]. now intros ->. Qed.

Lemma dropEndL_last p l :
  match rev l with [] => True | c :: _ => p c = false end -> dropEndL p l = l.
Proof.
  intros H. unfold dropEndL. rewrite dropWhileL_head by exact H.
  apply rev_involutive.
Qed.

Lemma trim_trimmed v : trimmedL (chars v) -> Js.trim v = v.
Proof.
  intros [Hhead Hlast]. apply chars_inj. rewrite chars_trim.
  rewrite (dropWhileL_head _ _ Hhead). now apply dropEndL_last.
Qed.

Lemma splitHead_none sep v :
  Forall (fun c => c <> sep) (chars v) -> Js.splitHead sep v = v.
Proof.
  unfold Js.splitHead, chars.
  induction v as [| c v IH]; cbn; [reflexivity |].
  intros F. inversion F as [| ? ? Hc Hv]; subst.
  destruct (Ascii.eqb c sep) eqn:E; [apply Ascii.eqb_eq in E; contradiction |].
  cbn. now rewrite IH.
Qed.

(** On a cleaned value the scorer's [cleanMatch] is the value in small
    letters. *)
Lemma cleanMatch_cleaned v :
  isCleaned v -> Js.toLowerCase (Js.trim (Js.splitHead Js.LF v)) = Js.toLowerCase v.
Proof.
  intros [T L]. rewrite (splitHead_none _ _ L). now rewrite (trim_trimmed _ T).
Qed.

Lemma isDigit_decimal c : Js.isDigit c = isDecimalDigit c.
Proof. destruct c as [[] [] [] [] [] [] [] []]; reflexivity. Qed.

Lemma lowerChar_digit c :
  Js.isDigit (Js.lowerChar c) = Js.isDigit c
  /\ (Js.isDigit c = true -> Js.lowerChar c = c).
Proof.
  destruct c as [[] [] [] [] [] [] [] []]; split;
    solve [reflexivity | discriminate].
Qed.

Lemma takeWhile_lower v :
  Js.takeWhile Js.isDigit (Js.toLowerCase v) = spec_streetNumber v.
Proof.
  induction v as [| c v IH]; cbn [Js.toLowerCase Js.takeWhile spec_streetNumber];
    [reflexivity |].
  destruct (lowerChar_digit c) as [E K]. rewrite E, <- isDigit_decimal.
  destruct (Js.isDigit c); [| reflexivity].
  now rewrite IH, K.
Qed.

Lemma streetNumber_lower v :
  Js.toLowerCase (spec_streetNumber v) = spec_streetNumber v.
Proof.
  induction v as [| c v IH]; cbn [spec_streetNumber]; [reflexivity |].
  rewrite <- isDigit_decimal. destruct (Js.isDigit c) eqn:D; [| reflexivity].
  cbn [Js.toLowerCase]. rewrite IH.
  now rewrite (proj2 (lowerChar_digit c) D).
Qed.

Lemma length_toLowerCase v : String.length (Js.toLowerCase v) = String.length v.
Proof. induction v as [| c v IH]; cbn; [reflexivity | now rewrite IH]. Qed.

Lemma leadingDigits_cleaned v :
  leadingDigits (Js.toLowerCase v)
  = if String.eqb (spec_streetNumber v) "" then None
    else Some (spec_streetNumber v).
Proof.
  unfold leadingDigits. rewrite takeWhile_lower.
  now destruct (spec_streetNumber v).
Qed.

Lemma someIncluded_corroborated field values :
  someIncluded (Js.orElse field "") values = corroborated field values.
Proof.
  unfold someIncluded, corroborated, foundIn, storedField.
  now rewrite orElse_empty.
Qed.

(** The corroboration bonus of the code is that of the specification. *)
Lemma corroboration_refines (d : Deal) (parsed : Parsed) (base : Z) :
  Z.min
    (let matchCount :=
       (if someIncluded (Js.orElse (loan_number (properties d)) "")
             (loanNumbers parsed) then 1 else 0)
       + (if someIncluded (Js.orElse (dealname (properties d)) "")
               (dealNames parsed) then 1 else 0)
       + (if someIncluded (Js.orElse (full_address (properties d)) "")
               (addresses parsed) then 1 else 0) in
     if 1 <? matchCount then base + (matchCount - 1) * 10 else base) 100
  = Z.min 100 (base + spec_corroboration d parsed).
Proof.
  unfold spec_corroboration, corroboratedTypes.
  rewrite !someIncluded_corroborated.
  destruct (corroborated (loan_number (properties d)) (loanNumbers parsed)),
           (corroborated (dealname (properties d)) (dealNames parsed)),
           (corroborated (full_address (properties d)) (addresses parsed));
    cbn; lia.
Qed.

Lemma scoreMatch_cleaned (v : string) (d : Deal) (parsed : Parsed) :
  isCleaned v ->
  scoreMatch deal_name v d parsed = spec_dealNameScore v d parsed
  /\ scoreMatch address v d parsed = spec_addressScore v d parsed
  /\ forall matchType, scoreMatch matchType v d parsed <= 100.
Proof.
  intros C. split; [| split].
  - unfold scoreMatch, spec_dealNameScore.
    rewrite (cleanMatch_cleaned _ C), corroboration_refines. do 2 f_equal.
    unfold spec_dealNameBase, equalNoCase, foundIn, storedField.
    rewrite orElse_empty, String.eqb_sym. reflexivity.
  - unfold scoreMatch, spec_addressScore.
    rewrite (cleanMatch_cleaned _ C), corroboration_refines. do 2 f_equal.
    unfold spec_addressBase, foundIn, storedField.
    rewrite !orElse_empty, leadingDigits_cleaned, length_toLowerCase,
      streetNumber_lower.
    destruct (String.eqb (spec_streetNumber v) "");
      [| destruct (Js.includes _ _ || Js.includes _ _)];
      destruct (25 <? String.length v)%nat; reflexivity.
  - intros matchType. unfold scoreMatch. apply Z.le_min_r.
Qed.

(** What the orchestrator scores is cleaned: a deal-name candidate carries
    a cleaned search value. *)
Lemma cleanSearchValue_cleaned (name : string) : isCleaned (cleanSearchValue name).
Proof.
  destruct (cleanSearchValue_trimmed_single name) as [T S]. split; [exact T |].
  revert S. generalize (chars (cleanSearchValue name)). intros l.
  induction l as [| c l IH]; [constructor |].
  cbn [singleSpacedL]. intros (Hc & _ & Hl). constructor; [| auto].
  intros ->. now specialize (Hc eq_refl).
Qed.

Lemma fromDealNames_cleaned names c : fromDealNames names c -> isCleaned (c_matchValue c).
Proof. intros (_ & _ & name & _ & ->). apply cleanSearchValue_cleaned. Qed.

(** The orchestrator pools cleaned values: the deal-name channel a cleaned
    search value, the address channel an address as [cleanAddress] returned
    it. *)
Lemma pooled_values_cleaned {W : Type} {net : Net W} (apiKey : string)
    (parsed : Parsed) (w w' : W) (pool : list Candidate) (tr : list Event) :
  Forall isCleanAddress (addresses parsed) ->
  poolCandidates apiKey parsed w = (Ok pool, w', tr) ->
  Forall (fun c => isCleaned (c_matchValue c)
                   /\ (c_matchType c = deal_name \/ c_matchType c = address)) pool.
Proof.
  unfold poolCandidates. intros Fa E.
  apply bind_inv in E as [(c1 & w1 & t1 & t2 & D & A & ->) | (e & _ & E)];
    [| discriminate].
  apply dealNameChannel_candidates in D as (byName & -> & FN).
  apply addressChannel_candidates in A as (byAddress & -> & FA).
  cbn [app]. apply Forall_app. split.
  - eapply Forall_impl; [| exact FN]. intros c Hc.
    split; [now apply (fromDealNames_cleaned (dealNames parsed)) |].
    left. apply Hc.
  - eapply Forall_impl; [| exact FA]. intros c (T & Hin & _).
    split; [| now right].
    rewrite Forall_forall in Fa. specialize (Fa _ Hin).
    apply cleanAddress_facts in Fa as (_ & Tr & One & _).
    split; [exact Tr |].
    eapply Forall_impl; [| exact One].
    intros a Ha ->. discriminate Ha.
Qed.

Lemma scoreMatch_pooled {W : Type} {net : Net W} (subject body apiKey : string)
    (parsed : Parsed) (w w' : W) (pool : list Candidate) (tr : list Event) :
  TextExtractor.parseEmail subject body = Some parsed ->
  poolCandidates apiKey parsed w = (Ok pool, w', tr) ->
  Forall (fun c =>
            let score :=
              scoreMatch (c_matchType c) (c_matchValue c) (c_deal c) parsed in
            (c_matchType c = deal_name
             /\ score = spec_dealNameScore (c_matchValue c) (c_deal c) parsed)
            \/ (c_matchType c = address
                /\ score = spec_addressScore (c_matchValue c) (c_deal c) parsed))
         pool.
Proof.
  intros P E.
  destruct (parseEmail_facts subject body) as (parsed' & P' & _ & _ & (_ & Fa) & _).
  rewrite P in P'. injection P' as <-.
  eapply Forall_impl; [| exact (pooled_values_cleaned _ _ _ _ _ _ Fa E)].
  intros c (C & T). cbv zeta.
  destruct (scoreMatch_cleaned (c_matchValue c) (c_deal c) parsed C) as (N & A & _).
  destruct T as [T | T]; rewrite T; [left | right]; split; auto.
Qed.

Lemma matchedCount_length (outcomes : list Outcome) :
  matchedCount outcomes = length (matchedEntries outcomes).
Proof.
  unfold matchedCount.
  induction outcomes as [| [entry | | error] os IH]; cbn; congruence.
Qed.

Section BatchFacts.
Context {W : Type} {net : Net W} {extractor : Extractor}.

(** The [try] block with its [catch] does to one email what the
    specification says: its outcome, the world it leaves and the events
    are those of [spec_email]; the entry is pushed exactly for an
    associated email. *)
Lemma processEvent_outcome (apiKey : string) (evt : WebhookEvent) (w : W) :
  exists o w1 t1,
    spec_email apiKey evt w = (o, w1, t1)
    /\ processEvent apiKey evt w
       = (Ok (match o with Associated entry => Some entry | _ => None end), w1, t1).
Proof.
  unfold processEvent, processEmail, matchEmail, commitMatch, spec_email,
    spec_commit, emailFailed, errorLine, entryOf, try_catch, bind, sleep,
    console_error, emit, ret, throw.
  destruct (getEmail apiKey (String_ (objectId evt)) w) as [[[j | e] w1] t1];
    [| eexists _, _, _; split; reflexivity].
  destruct j as [| m | ds | cs | [props |]];
    try (eexists _, _, _; split; [reflexivity |]; cbn [app];
         rewrite ?app_nil_r; reflexivity).
  destruct (findMatch apiKey _ w1) as [[[[m |] | e] w2] t2].
  - destruct (associateEmailToDeal apiKey _ _ w2) as [[[a | e] w3] t3];
      (eexists _, _, _; split; [reflexivity |]; cbn [app];
       rewrite ?app_nil_r, <- ?app_assoc; reflexivity).
  - destruct (fallbackSingleContactDeal apiKey _ w2) as [[[[m |] | e] w3] t3].
    + destruct (associateEmailToDeal apiKey _ _ w3) as [[[a | e] w4] t4];
        (eexists _, _, _; split; [reflexivity |]; cbn [app];
         rewrite ?app_nil_r, <- ?app_assoc; reflexivity).
    + eexists _, _, _; split; [reflexivity |]. cbn [app].
      rewrite ?app_nil_r, <- ?app_assoc. reflexivity.
    + eexists _, _, _; split; [reflexivity |]. cbn [app].
      rewrite ?app_nil_r, <- ?app_assoc. reflexivity.
  - eexists _, _, _; split; [reflexivity |]. cbn [app].
    rewrite ?app_nil_r, <- ?app_assoc. reflexivity.
Qed.

(** The loop over the retained events is the batch of the specification:
    one outcome for every event, the entries of the associated emails
    pushed in their order. *)
Lemma processEvents_outcomes (apiKey : string) (evts : list WebhookEvent) :
  forall (results : list ResultEntry) (w : W),
  exists outcomes w' tr,
    spec_batch apiKey evts w = (outcomes, w', tr)
    /\ length outcomes = length evts
    /\ processEvents apiKey evts results w
       = (Ok (results ++ matchedEntries outcomes), w', tr).
Proof.
  induction evts as [| evt evts IH]; intros results w.
  - exists [], w, []. cbn. now rewrite app_nil_r.
  - destruct (processEvent_outcome apiKey evt w) as (o & w1 & t1 & S & P).
    destruct (IH (match o with
                  | Associated entry => results ++ [entry]
                  | _ => results
                  end) w1) as (os & w2 & t2 & B & L & Q).
    exists (o :: os), w2, (t1 ++ t2).
    cbn [spec_batch processEvents length]. rewrite S, B.
    split; [reflexivity |]. split; [now rewrite L |].
    erewrite bind_ok by exact P. unfold andThen.
    destruct o as [entry | | error]; rewrite Q; cbn [matchedEntries];
      rewrite <- ?app_assoc; reflexivity.
Qed.

Lemma handler_batch (apiKey : string) (evs : list WebhookEvent)
    (event : Invocation) (w : W) :
  httpMethod event = "POST" ->
  parsed_body event = Ok evs ->
  (env_HUBSPOT_API_KEY event = Some apiKey -> apiKey <> "" ->
   exists outcomes w' tr,
     spec_batch apiKey (uniqueEvents evs) w = (outcomes, w', tr)
     /\ length outcomes = length (uniqueEvents evs)
     /\ handler event w
        = (Ok (mkHttp 200 (BodySuccess (matchedCount outcomes)
                             (matchedEntries outcomes))), w', tr)
     /\ (forall evt, In evt (uniqueEvents evs) ->
           In (EvFetch apiKey (ReqGetEmail (String_ (objectId evt)))) tr))
  /\ (env_HUBSPOT_API_KEY event = None \/ env_HUBSPOT_API_KEY event = Some "" ->
      handler event w
      = (Ok (mkHttp 500 (BodyError "HUBSPOT_API_KEY not configured")), w, [])).
Proof.
  intros Hm Hb. split.
  - intros Hk Hne. unfold handler. rewrite Hm, Hk, Hb.
    change (String.eqb "POST" "GET") with false.
    change (String.eqb "POST" "POST") with true. cbv iota.
    destruct apiKey as [| c key]; [congruence |].
    destruct (processEvents_outcomes (String c key) (uniqueEvents evs) [] w)
      as (outcomes & w' & tr & B & L & P).
    destruct (processEvents_run (String c key) (uniqueEvents evs) [] w)
      as (added & w'' & tr' & R & P').
    rewrite P in P'. injection P' as _ <- <-.
    exists outcomes, w', tr. split; [exact B |]. split; [exact L |].
    split; [| eapply BatchRun_started; exact R].
    erewrite try_catch_ok; [reflexivity |].
    erewrite bind_ok by reflexivity. rewrite andThen_nil.
    erewrite bind_ok by exact P.
    cbn. now rewrite app_nil_r, matchedCount_length.
  - intros Hk. unfold handler. rewrite Hm.
    change (String.eqb "POST" "GET") with false.
    change (String.eqb "POST" "POST") with true. cbv iota.
    destruct Hk as [-> | ->]; reflexivity.
Qed.

End BatchFacts.

(* ------------------------------------------------------------------ *)
(** ** The code is the scorer and the batch of the specification *)
(* ------------------------------------------------------------------ *)

(** C7. [scoreMatch] is the scorer of the specification. For a cleaned
    matched value, every deal and every set of extracted identifiers: a
    deal-name candidate scores 85, or 90 when the cleaned fragment is a
    substring of the stored name, or 95 when the two are equal without
    case; an address candidate scores 80, plus 5 when the leading street
    number occurs in the stored address or the stored name, plus 5 when the
    matched string is longer than 25 characters; both plus 10 for each
    identifier type beyond the first that is found in its stored field;
    and no score is above 100. The candidates the orchestrator pools for
    an email parsed by the extractor all carry a cleaned value, and are
    scored so. *)
Theorem C7_scoreMatch_refines_spec :
  (forall (value : string) (d : Deal) (parsed : Parsed),
      isCleaned value ->
      scoreMatch deal_name value d parsed = spec_dealNameScore value d parsed
      /\ scoreMatch address value d parsed = spec_addressScore value d parsed
      /\ forall matchType, scoreMatch matchType value d parsed <= 100)
  /\ (forall (W : Type) (net : Net W) (subject body apiKey : string)
             (parsed : Parsed) (w w' : W) (pool : list Candidate)
             (tr : list Event),
        TextExtractor.parseEmail subject body = Some parsed ->
        poolCandidates apiKey parsed w = (Ok pool, w', tr) ->
        Forall (fun c =>
                  let score :=
                    scoreMatch (c_matchType c) (c_matchValue c) (c_deal c) parsed in
                  (c_matchType c = deal_name
                   /\ score = spec_dealNameScore (c_matchValue c) (c_deal c) parsed)
                  \/ (c_matchType c = address
                      /\ score
                         = spec_addressScore (c_matchValue c) (c_deal c) parsed))
               pool).
Proof.
  split.
  - apply scoreMatch_cleaned.
  - intros W net. apply scoreMatch_pooled.
Qed.

(** The address 168 Las Palmas Dr against deal 9001: 80, 5 for the street
    number 168, which the stored address has, nothing for the length, 10
    for the second identifier type found. The fragment las palmas against
    the same deal: 90, a substring of the stored name, no second type. And
    the pool of the draw email 107: deal 9001 by name and by address. *)
Lemma C7_scoreMatch_refines_spec_witness :
  isCleaned "168 Las Palmas Dr"
  /\ scoreMatch address "168 Las Palmas Dr" fundedLoan parsedPalmas
     = spec_addressScore "168 Las Palmas Dr" fundedLoan parsedPalmas
  /\ spec_streetNumber "168 Las Palmas Dr" = "168"
  /\ spec_addressBase "168 Las Palmas Dr" fundedLoan = 85
  /\ spec_addressScore "168 Las Palmas Dr" fundedLoan parsedPalmas = 95
  /\ isCleaned "las palmas"
  /\ scoreMatch deal_name "las palmas" fundedLoan (mkParsed [] [] ["las palmas"])
     = spec_dealNameScore "las palmas" fundedLoan (mkParsed [] [] ["las palmas"])
  /\ spec_dealNameScore "las palmas" fundedLoan (mkParsed [] [] ["las palmas"]) = 90
  /\ Forall (fun c =>
               let score :=
                 scoreMatch (c_matchType c) (c_matchValue c) (c_deal c)
                   (mkParsed [] ["168 Las Palmas"] ["168 Las Palmas"]) in
               (c_matchType c = deal_name
                /\ score
                   = spec_dealNameScore (c_matchValue c) (c_deal c)
                       (mkParsed [] ["168 Las Palmas"] ["168 Las Palmas"]))
               \/ (c_matchType c = address
                   /\ score
                      = spec_addressScore (c_matchValue c) (c_deal c)
                          (mkParsed [] ["168 Las Palmas"] ["168 Las Palmas"])))
       [ mkCandidate fundedLoan deal_name "168 Las Palmas";
         mkCandidate fundedLoan address "168 Las Palmas" ].
Proof.
  assert (C : isCleaned "168 Las Palmas Dr").
  { split; [split; reflexivity |]. repeat constructor; discriminate. }
  assert (C' : isCleaned "las palmas").
  { split; [split; reflexivity |]. repeat constructor; discriminate. }
  split; [exact C |].
  split; [exact (proj1 (proj2 (proj1 C7_scoreMatch_refines_spec
                                 "168 Las Palmas Dr" fundedLoan parsedPalmas C))) |].
  split; [reflexivity |]. split; [reflexivity |]. split; [reflexivity |].
  split; [exact C' |].
  split; [exact (proj1 (proj1 C7_scoreMatch_refines_spec
                          "las palmas" fundedLoan
                          (mkParsed [] [] ["las palmas"]) C')) |].
  split; [reflexivity |].
  apply (proj2 C7_scoreMatch_refines_spec Store StoreNet
           "Draw 6 - 168 Las Palmas" "see attached" "key"
           (mkParsed [] ["168 Las Palmas"] ["168 Las Palmas"])
           inbox inbox
           [ mkCandidate fundedLoan deal_name "168 Las Palmas";
             mkCandidate fundedLoan address "168 Las Palmas" ]
           [ EvSleep (Js.Num 150);
             EvFetch "key" (ReqSearchField F_dealname "168 Las Palmas");
             EvSleep (Js.Num 150);
             EvFetch "key" (ReqSearchField F_full_address "168 Las Palmas");
             EvFetch "key" (ReqSearchField F_dealname "168 Las Palmas") ]);
    vm_compute; reflexivity.
Defined.

Section BatchClaim.
Context {W : Type} {net : Net W} {extractor : Extractor}.

(** C9. For a POST carrying a batch. With the API key configured the
    handler does to the retained events what [spec_batch] says: every
    event has its outcome, also the events after one that failed; an
    email one of whose steps fails (reading, searching, committing) is
    logged at the boundary of the email and has no entry; the answer is
    200 and carries the entries of the emails that were matched and
    associated, and their number. With the API key missing the answer is
    500 and nothing is processed. *)
Theorem C9_per_email_isolation
    (apiKey : string) (evs : list WebhookEvent) (event : Invocation) (w : W) :
  httpMethod event = "POST" ->
  parsed_body event = Ok evs ->
  (env_HUBSPOT_API_KEY event = Some apiKey -> apiKey <> "" ->
   exists outcomes w' tr,
     spec_batch apiKey (uniqueEvents evs) w = (outcomes, w', tr)
     /\ length outcomes = length (uniqueEvents evs)
     /\ handler event w
        = (Ok (mkHttp 200 (BodySuccess (matchedCount outcomes)
                             (matchedEntries outcomes))), w', tr)
     /\ (forall evt, In evt (uniqueEvents evs) ->
           In (EvFetch apiKey (ReqGetEmail (String_ (objectId evt)))) tr))
  /\ (env_HUBSPOT_API_KEY event = None \/ env_HUBSPOT_API_KEY event = Some "" ->
      handler event w
      = (Ok (mkHttp 500 (BodyError "HUBSPOT_API_KEY not configured")), w, [])).
Proof. apply handler_batch. Qed.

End BatchClaim.

(** The batch of the small store, with the extractor of the source: of
    the five retained emails, 101 and 107 are associated, 103 fails when
    it is read and 102 when it is committed, 108 matches nothing; the
    emails after the failed ones are processed, and the answer counts the
    two associated emails. Without a key nothing is processed. *)
Lemma C9_per_email_isolation_witness :
  let entry101 :=
    mkResult (IdNum 101) "9001" (Some "168 Las Palmas") 100 loan_number_match in
  let entry107 :=
    mkResult (IdNum 107) "9001" (Some "168 Las Palmas") 100 deal_name in
  let tr :=
    [ EvFetch "key" (ReqGetEmail "101");
      EvFetch "key" (ReqSearchLoanNumber "399536679");
      EvFetch "key" (ReqAssociate "101" "9001");
      EvSleep (Js.Num 200);
      EvFetch "key" (ReqGetEmail "103");
      EvError "Error processing email 103: HubSpot API Error (500): internal error";
      EvFetch "key" (ReqGetEmail "102");
      EvFetch "key" (ReqEmailContacts "102");
      EvFetch "key" (ReqContactDeals "201");
      EvFetch "key" (ReqContactDeals "202");
      EvFetch "key" (ReqBatchGetDeals ["303"]);
      EvFetch "key" (ReqAssociate "102" "303");
      EvError
        "Error processing email 102: HubSpot API Error (400): invalid association";
      EvFetch "key" (ReqGetEmail "107");
      EvSleep (Js.Num 150);
      EvFetch "key" (ReqSearchField F_dealname "168 Las Palmas");
      EvSleep (Js.Num 150);
      EvFetch "key" (ReqSearchField F_full_address "168 Las Palmas");
      EvFetch "key" (ReqSearchField F_dealname "168 Las Palmas");
      EvFetch "key" (ReqAssociate "107" "9001");
      EvSleep (Js.Num 200);
      EvFetch "key" (ReqGetEmail "108");
      EvFetch "key" (ReqEmailContacts "108");
      EvSleep (Js.Num 200) ] in
  uniqueEvents inboxBatch
  = [emailEvent 101; emailEvent 103; emailEvent 102; emailEvent 107; emailEvent 108]
  /\ spec_batch (extractor := sourceExtractor) "key" (uniqueEvents inboxBatch) inbox
     = ([ Associated entry101;
          Failed (mkError "HubSpot API Error (500): internal error");
          Failed (mkError "HubSpot API Error (400): invalid association");
          Associated entry107;
          Unmatched ], inbox, tr)
  /\ handler (extractor := sourceExtractor)
       (postInvocation (Some "key") inboxBatch) inbox
     = (Ok (mkHttp 200 (BodySuccess 2 [entry101; entry107])), inbox, tr)
  /\ handler (extractor := sourceExtractor) (postInvocation None inboxBatch) inbox
     = (Ok (mkHttp 500 (BodyError "HUBSPOT_API_KEY not configured")), inbox, []).
Proof.
  intros entry101 entry107 tr.
  assert (B : spec_batch (extractor := sourceExtractor) "key"
                (uniqueEvents inboxBatch) inbox
              = ([ Associated entry101;
                   Failed (mkError "HubSpot API Error (500): internal error");
                   Failed (mkError "HubSpot API Error (400): invalid association");
                   Associated entry107;
                   Unmatched ], inbox, tr))
    by (vm_compute; reflexivity).
  split; [reflexivity |]. split; [exact B |]. split.
  - destruct (proj1 (C9_per_email_isolation (extractor := sourceExtractor) "key"
                       inboxBatch (postInvocation (Some "key") inboxBatch)
                       inbox eq_refl eq_refl)
                eq_refl ltac:(discriminate))
      as (outcomes & w' & tr' & B' & _ & H & _).
    rewrite B in B'. injection B' as <- <- <-. exact H.
  - exact (proj2 (C9_per_email_isolation (extractor := sourceExtractor) "key"
                    inboxBatch (postInvocation None inboxBatch)
                    inbox eq_refl eq_refl)
             (or_introl eq_refl)).
Defined.
